(** * Versioned state cloning and editor assembly (pkg/app/service.go)

    A shallow embedding of the app service of the builder backend: the
    duplicate and release coordinators, the tree relinker with its
    string-serialized reference lists, the editor assembler, and the
    operations on app records with the summaries built from requests.  Go's
    [int] is a 64-bit integer carried by [Z]; Go strings are byte strings
    carried by [string]; Go maps are [gmap]s read with the zero default.
    A Go function body is a state-passing computation over the outside
    world that returns its results or panics; an [error] result is an
    [option error], nil being [None].

    The file has three parts: the program (the json decoder and encoder for
    identifier lists, the repository interface, the service, and an
    in-memory store behind the interface), the vocabulary of the
    properties, and the properties with their proofs. *)

From Stdlib Require Import ZArith String Ascii List Lia Bool SpecFloat.
From stdpp Require Import base option list gmap strings.

Local Open Scope Z_scope.
Local Set Warnings "-register-all".

(** ** Go basics: errors, 64-bit integers, maps with zero default *)

(** A Go [error] value.  [errors.New] builds an [errorString]; the two json
    constructors are the error types [encoding/json] reports. *)
Inductive error : Type :=
| errorString (msg : string)
| jsonSyntaxError
| jsonUnmarshalTypeError.

Definition MinInt64 : Z := - 2 ^ 63.
Definition MaxInt64 : Z := 2 ^ 63 - 1.

Definition is_int (n : Z) : Prop := MinInt64 <= n <= MaxInt64.

(** Two's-complement wrap-around of a 64-bit signed result. *)
Definition wrap_int (n : Z) : Z := (n + 2 ^ 63) mod 2 ^ 64 - 2 ^ 63.

Definition int_add (a b : Z) : Z := wrap_int (a + b).

(** [m[k]] on a [map[int]int]: the zero value when the key is absent. *)
Definition map_index (m : gmap Z Z) (k : Z) : Z := default 0 (m !! k).

(** ** encoding/json, as far as []int travels through it *)

Module Json.

(** A parsed JSON text.  Number literals and string bodies are kept as they
    were scanned (escape sequences are validated, not expanded). *)
Inductive value : Type :=
| Null
| True_
| False_
| Number (lit : string)
| Str (body : string)
| Array (elems : list value)
| Object (members : list (string * value)).

Definition is_space (c : ascii) : bool :=
  match c with
  | " "%char | "009"%char | "010"%char | "013"%char => true
  | _ => false
  end.

Definition is_digit (c : ascii) : bool :=
  let n := nat_of_ascii c in ((48 <=? n) && (n <=? 57))%nat.

Definition is_hex (c : ascii) : bool :=
  let n := nat_of_ascii c in
  (((48 <=? n) && (n <=? 57)) || ((97 <=? n) && (n <=? 102)) || ((65 <=? n) && (n <=? 70)))%nat.

Definition is_escape (c : ascii) : bool :=
  match c with
  | "b"%char | "f"%char | "n"%char | "r"%char | "t"%char
  | "\"%char | "/"%char | "034"%char => true
  | _ => false
  end.

Fixpoint skip_space (s : string) : string :=
  match s with
  | String c r => if is_space c then skip_space r else s
  | EmptyString => s
  end.

(** The longest prefix of decimal digits, and what follows it. *)
Fixpoint scan_digits (s : string) : string * string :=
  match s with
  | String c r =>
      if is_digit c then let '(ds, r') := scan_digits r in (String c ds, r')
      else (EmptyString, s)
  | EmptyString => (EmptyString, s)
  end.

(** The integer part of a number: a single 0, or a non-zero digit followed
    by digits. *)
Definition scan_int_part (s : string) : option (string * string) :=
  match s with
  | String c r =>
      if Ascii.eqb c "0" then Some (String c EmptyString, r)
      else if is_digit c then let '(ds, r') := scan_digits r in Some (String c ds, r')
      else None
  | EmptyString => None
  end.

Definition scan_frac (s : string) : option (string * string) :=
  match s with
  | String c r =>
      if Ascii.eqb c "." then
        match scan_digits r with
        | (EmptyString, _) => None
        | (ds, r') => Some (String c ds, r')
        end
      else Some (EmptyString, s)
  | EmptyString => Some (EmptyString, s)
  end.

Definition scan_exp (s : string) : option (string * string) :=
  match s with
  | String c r =>
      if Ascii.eqb c "e" || Ascii.eqb c "E" then
        let '(sign, r1) :=
          match r with
          | String d r' =>
              if Ascii.eqb d "+" || Ascii.eqb d "-" then (String d EmptyString, r')
              else (EmptyString, r)
          | EmptyString => (EmptyString, r)
          end in
        match scan_digits r1 with
        | (EmptyString, _) => None
        | (ds, r2) => Some (String c (sign +:+ ds), r2)
        end
      else Some (EmptyString, s)
  | EmptyString => Some (EmptyString, s)
  end.

(** A number literal at the head of [s]: sign, integer part, fraction,
    exponent. *)
Definition scan_number (s : string) : option (string * string) :=
  let '(sign, s0) :=
    match s with
    | String c r =>
        if Ascii.eqb c "-" then (String c EmptyString, r) else (EmptyString, s)
    | EmptyString => (EmptyString, s)
    end in
  match scan_int_part s0 with
  | None => None
  | Some (ip, s1) =>
      match scan_frac s1 with
      | None => None
      | Some (fp, s2) =>
          match scan_exp s2 with
          | None => None
          | Some (ep, s3) => Some (sign +:+ ip +:+ fp +:+ ep, s3)
          end
      end
  end.

(** The body of a string literal, after its opening quote: bytes below
    0x20 are refused, a backslash must start a known escape. *)
Fixpoint scan_string (s : string) : option (string * string) :=
  match s with
  | EmptyString => None
  | String c r =>
      if Ascii.eqb c "034" then Some (EmptyString, r)
      else if Ascii.eqb c "\" then
        match r with
        | EmptyString => None
        | String e r1 =>
            if Ascii.eqb e "u" then
              match r1 with
              | String h1 (String h2 (String h3 (String h4 r2))) =>
                  if is_hex h1 && is_hex h2 && is_hex h3 && is_hex h4 then
                    match scan_string r2 with
                    | Some (b, r') =>
                        Some (String c (String e (String h1 (String h2 (String h3
                                (String h4 b))))), r')
                    | None => None
                    end
                  else None
              | _ => None
              end
            else if is_escape e then
              match scan_string r1 with
              | Some (b, r') => Some (String c (String e b), r')
              | None => None
              end
            else None
        end
      else if (nat_of_ascii c <? 32)%nat then None
      else
        match scan_string r with
        | Some (b, r') => Some (String c b, r')
        | None => None
        end
  end.

(** [s] without the prefix [p], when it starts with it. *)
Fixpoint strip_prefix (p s : string) : option string :=
  match p, s with
  | EmptyString, _ => Some s
  | String a p', String b s' => if Ascii.eqb a b then strip_prefix p' s' else None
  | String _ _, EmptyString => None
  end.

(** The double quote, as a one-byte string. *)
Definition quote : string := String "034"%char EmptyString.

(** The scanner refuses a text nested deeper than this. *)
Definition maxNestingDepth : N := 10000.

(** One JSON value at the head of [s] (after white space), with the rest of
    the input.  [depth] counts the arrays and objects that are open;
    [fuel] bounds the recursion and is consumed by every call. *)
Fixpoint parse_value (fuel : nat) (depth : N) (s : string) {struct fuel}
  : option (value * string) :=
  match fuel with
  | O => None
  | S fuel' =>
      match skip_space s with
      | EmptyString => None
      | String c r =>
          if Ascii.eqb c "[" then
            if (maxNestingDepth <? depth + 1)%N then None
            else
              match strip_prefix "]" (skip_space r) with
              | Some r' => Some (Array [], r')
              | None => parse_elems fuel' (depth + 1)%N r []
              end
          else if Ascii.eqb c "{" then
            if (maxNestingDepth <? depth + 1)%N then None
            else
              match strip_prefix "}" (skip_space r) with
              | Some r' => Some (Object [], r')
              | None => parse_members fuel' (depth + 1)%N r []
              end
          else if Ascii.eqb c "034" then
            match scan_string r with
            | Some (b, r') => Some (Str b, r')
            | None => None
            end
          else if Ascii.eqb c "t" then
            option_map (pair True_) (strip_prefix "rue" r)
          else if Ascii.eqb c "f" then
            option_map (pair False_) (strip_prefix "alse" r)
          else if Ascii.eqb c "n" then
            option_map (pair Null) (strip_prefix "ull" r)
          else
            match scan_number (String c r) with
            | Some (lit, r') => Some (Number lit, r')
            | None => None
            end
      end
  end

with parse_elems (fuel : nat) (depth : N) (s : string) (acc : list value) {struct fuel}
  : option (value * string) :=
  match fuel with
  | O => None
  | S fuel' =>
      match parse_value fuel' depth s with
      | None => None
      | Some (v, r) =>
          match skip_space r with
          | String c r' =>
              if Ascii.eqb c "," then parse_elems fuel' depth r' (v :: acc)
              else if Ascii.eqb c "]" then Some (Array (rev (v :: acc)), r')
              else None
          | EmptyString => None
          end
      end
  end

with parse_members (fuel : nat) (depth : N) (s : string) (acc : list (string * value))
  {struct fuel} : option (value * string) :=
  match fuel with
  | O => None
  | S fuel' =>
      match strip_prefix quote (skip_space s) with
      | None => None
      | Some r =>
          match scan_string r with
          | None => None
          | Some (k, r1) =>
              match strip_prefix ":" (skip_space r1) with
              | None => None
              | Some r2 =>
                  match parse_value fuel' depth r2 with
                  | None => None
                  | Some (v, r3) =>
                      match skip_space r3 with
                      | String c r4 =>
                          if Ascii.eqb c "," then
                            parse_members fuel' depth r4 ((k, v) :: acc)
                          else if Ascii.eqb c "}" then
                            Some (Object (rev ((k, v) :: acc)), r4)
                          else None
                      | EmptyString => None
                      end
                  end
              end
          end
      end
  end.

(** Fuel that always suffices: no call chain is longer than twice the
    input plus two (see [parse_value_fuel_enough]). *)
Definition fuel_for (s : string) : nat := 2 * String.length s + 2.

(** A whole text: one value, then only white space ([checkValid]). *)
Definition parse (s : string) : option value :=
  match parse_value (fuel_for s) 0%N s with
  | Some (v, r) => match skip_space r with EmptyString => Some v | _ => None end
  | None => None
  end.

(** [strconv.ParseUint]'s digit loop, without the overflow cut-off (the
    caller compares the result with the bounds). *)
Fixpoint parse_digits (acc : Z) (s : string) : option Z :=
  match s with
  | EmptyString => Some acc
  | String c r =>
      if is_digit c then parse_digits (10 * acc + (Z.of_nat (nat_of_ascii c) - 48)) r
      else None
  end.

(** [strconv.ParseInt(s, 10, 64)]: an optional sign, at least one digit,
    nothing else, and a value that fits 64 bits. *)
Definition ParseInt (s : string) : option Z :=
  match s with
  | EmptyString => None
  | String c r =>
      let '(neg, ds) :=
        if Ascii.eqb c "-" then (true, r)
        else if Ascii.eqb c "+" then (false, r)
        else (false, s) in
      match ds with
      | EmptyString => None
      | _ =>
          match parse_digits 0 ds with
          | None => None
          | Some n =>
              if neg then (if n <=? 2 ^ 63 then Some (- n) else None)
              else (if n <? 2 ^ 63 then Some n else None)
          end
      end
  end.

(** What decoding one array element into an [int] slot leaves there: the
    number when the literal is an in-range integer, the untouched zero
    otherwise; [null] has no effect and is no error. *)
Definition store_int (v : value) : Z * option error :=
  match v with
  | Number lit =>
      match ParseInt lit with
      | Some n => (n, None)
      | None => (0, Some jsonUnmarshalTypeError)
      end
  | Null => (0, None)
  | _ => (0, Some jsonUnmarshalTypeError)
  end.

(** The earliest error of a run of decoded slots. *)
Fixpoint first_error (es : list (option error)) : option error :=
  match es with
  | [] => None
  | Some e :: _ => Some e
  | None :: es' => first_error es'
  end.

(** [json.Unmarshal(data, &ids)] with [var ids []int]: an invalid text is a
    syntax error and leaves [ids] empty; [null] leaves it empty without an
    error; an array is decoded slot by slot, completing as best it can and
    reporting the earliest type error; any other value is a type error. *)
Definition Unmarshal_ints (data : string) : list Z * option error :=
  match parse data with
  | None => ([], Some jsonSyntaxError)
  | Some Null => ([], None)
  | Some (Array vs) =>
      let slots := map store_int vs in
      (map fst slots, first_error (map snd slots))
  | Some _ => ([], Some jsonUnmarshalTypeError)
  end.

Definition digit_char (d : Z) : ascii := ascii_of_nat (Z.to_nat (48 + d)).

(** [strconv]'s [formatBits] for base 10: digits are produced from the least
    significant one; the buffer holds 65 bytes, so [fuel] is 65 there. *)
Fixpoint format_uint (fuel : nat) (n : Z) (acc : string) : string :=
  match fuel with
  | O => acc
  | S fuel' =>
      let acc' := String (digit_char (n mod 10)) acc in
      if n <? 10 then acc' else format_uint fuel' (n / 10) acc'
  end.

Definition FormatInt (n : Z) : string :=
  if n <? 0 then String "-"%char (format_uint 65 (- n) EmptyString)
  else format_uint 65 n EmptyString.

Fixpoint join_ints (ns : list Z) : string :=
  match ns with
  | [] => EmptyString
  | [n] => FormatInt n
  | n :: ns' => FormatInt n +:+ String ","%char (join_ints ns')
  end.

(** [json.Marshal(ids)] for a non-nil [[]int]: it cannot fail.  (A nil
    slice would be written as null; the service only encodes the slice that
    [convertLink] makes with [make].) *)
Definition Marshal_ints (ids : list Z) : string * option error :=
  (String "["%char (join_ints ids +:+ String "]"%char EmptyString), None).

End Json.

(** ** convertLink *)

(** The children list of a tree node, rewritten through [idMap]: decode,
    translate every entry, encode.  Any decoding error gives the empty
    string. *)
Definition convertLink (ref : string) (idMap : gmap Z Z) : string :=
  let '(oldIDs, err) := Json.Unmarshal_ints ref in
  match err with
  | Some _ => EmptyString
  | None =>
      let newIDs :=
        fold_left (fun newIDs oldID => newIDs ++ [map_index idMap oldID]) oldIDs [] in
      let '(idsjsonb, err) := Json.Marshal_ints newIDs in
      match err with
      | Some _ => EmptyString
      | None => idsjsonb
      end
  end.

(** ** Go computations over a store *)

(** A call either returns or panics. *)
Inductive outcome (A : Type) : Type :=
| Returned (a : A)
| Panicked (msg : string).

Arguments Returned {A} a.
Arguments Panicked {A} msg.

(** A Go function body run against the state [St] of the outside world
    (the database and the clock). *)
Definition Go (St A : Type) : Type := St -> outcome A * St.

Definition ret {St A} (a : A) : Go St A := fun st => (Returned a, st).

Definition bind {St A B} (c : Go St A) (k : A -> Go St B) : Go St B :=
  fun st =>
    match c st with
    | (Returned a, st') => k a st'
    | (Panicked msg, st') => (Panicked msg, st')
    end.

Definition panic {St A} (msg : string) : Go St A := fun st => (Panicked msg, st).

Declare Scope go_scope.
Delimit Scope go_scope with go.

Notation "'let*' p ':=' c1 'in' c2" := (bind c1 (fun p => c2))
  (at level 10, p as pattern, c1 at level 100, c2 at level 200) : go_scope.

Local Open Scope go_scope.

(** One turn of a [for ... range] body: go on with the element as the body
    left it behind its pointer and with the loop's variables, or [return]
    from the enclosing function. *)
Inductive turn (X S R : Type) : Type :=
| Continue (x : X) (s : S)
| Return (r : R).

Arguments Continue {X S R} x s.
Arguments Return {X S R} r.

(** [for i, x := range xs { body }] starting at index [i]: the elements as
    the loop left them with the final variables, or the value returned
    early. *)
Fixpoint range_from {St X S R} (body : Z -> X -> S -> Go St (turn X S R))
    (i : Z) (xs : list X) (s : S) : Go St (list X * S + R) :=
  match xs with
  | [] => ret (inl ([], s))
  | x :: xs' =>
      let* t := body i x s in
      match t with
      | Return r => ret (inr r)
      | Continue x' s' =>
          let* rest := range_from body (i + 1) xs' s' in
          match rest with
          | inl (xs'', s'') => ret (inl (x' :: xs'', s''))
          | inr r => ret (inr r)
          end
      end
  end.

Definition range {St X S R} (xs : list X) (s : S)
    (body : Z -> X -> S -> Go St (turn X S R)) : Go St (list X * S + R) :=
  range_from body 0 xs s.

(** [a[i]] on a fixed-size array: an index outside it is a run-time panic. *)
Definition array_index {St} (a : list string) (i : Z) : Go St string :=
  if (0 <=? i) && (i <? Z.of_nat (length a)) then ret (nth (Z.to_nat i) a EmptyString)
  else panic "index out of range"%string.

(** [time.Time], as an instant on an integer time line; zero is the zero
    value. *)
Definition Time : Type := Z.

(** ** The repository package, at its interface *)

(** Modelled from the spec: the package [internal/repository] is not part
    of the sources at hand.  Its row types carry the fields the service
    reads and writes; its constants are the draft version 0, the root node's
    name and one tag per state kind. *)
Module repository.

Definition APP_EDIT_VERSION : Z := 0.

Definition TREE_STATE_SUMMIT_NAME : string := "root".

Inductive StateType : Type :=
| TREE_STATE_TYPE_COMPONENTS
| KV_STATE_TYPE_DEPENDENCIES
| KV_STATE_TYPE_DRAG_SHADOW
| KV_STATE_TYPE_DOTTED_LINE_SQUARE
| SET_STATE_TYPE_DISPLAY_NAME.

Definition StateType_eqb (a b : StateType) : bool :=
  match a, b with
  | TREE_STATE_TYPE_COMPONENTS, TREE_STATE_TYPE_COMPONENTS
  | KV_STATE_TYPE_DEPENDENCIES, KV_STATE_TYPE_DEPENDENCIES
  | KV_STATE_TYPE_DRAG_SHADOW, KV_STATE_TYPE_DRAG_SHADOW
  | KV_STATE_TYPE_DOTTED_LINE_SQUARE, KV_STATE_TYPE_DOTTED_LINE_SQUARE
  | SET_STATE_TYPE_DISPLAY_NAME, SET_STATE_TYPE_DISPLAY_NAME => true
  | _, _ => false
  end.

Module App.
Record t : Type := mk {
  ID : Z;
  Name : string;
  ReleaseVersion : Z;
  MainlineVersion : Z;
  CreatedBy : Z;
  CreatedAt : Time;
  UpdatedBy : Z;
  UpdatedAt : Time
}.
Definition zero : t := mk 0 EmptyString 0 0 0 0 0 0.
End App.

Module User.
Record t : Type := mk {
  Nickname : string;
  UpdatedAt : Time
}.
Definition zero : t := mk EmptyString 0.
End User.

Module TreeState.
Record t : Type := mk {
  ID : Z;
  StateType : repository.StateType;
  ParentNodeRefID : Z;
  ChildrenNodeRefIDs : string;
  AppRefID : Z;
  Version : Z;
  Name : string;
  Content : string;
  CreatedAt : Time;
  CreatedBy : Z;
  UpdatedAt : Time;
  UpdatedBy : Z
}.
Definition zero : t :=
  mk 0 TREE_STATE_TYPE_COMPONENTS 0 EmptyString 0 0 EmptyString EmptyString 0 0 0 0.
End TreeState.

Module KVState.
Record t : Type := mk {
  ID : Z;
  StateType : repository.StateType;
  AppRefID : Z;
  Version : Z;
  Key : string;
  Value : string;
  CreatedAt : Time;
  CreatedBy : Z;
  UpdatedAt : Time;
  UpdatedBy : Z
}.
End KVState.

Module SetState.
Record t : Type := mk {
  ID : Z;
  StateType : repository.StateType;
  AppRefID : Z;
  Version : Z;
  Value : string;
  CreatedAt : Time;
  CreatedBy : Z;
  UpdatedAt : Time;
  UpdatedBy : Z
}.
End SetState.

Module Action.
Record t : Type := mk {
  ID : Z;
  App : Z;
  Version : Z;
  Resource : Z;
  Name : string;
  Type_ : Z;
  TriggerMode : string;
  Transformer : string;
  Template : string;
  CreatedAt : Time;
  CreatedBy : Z;
  UpdatedAt : Time;
  UpdatedBy : Z
}.
End Action.

(** Modelled from the spec: the storage ports.  Every port answers with a
    Go result pair; [Create] on a tree row hands back the row as it stands
    behind the caller's pointer, carrying the identifier the store
    generated. *)
Class AppRepository (St : Type) : Type := {
  App_RetrieveAppByID : Z -> Go St (App.t * option error);
  App_Create : App.t -> Go St (Z * option error);
  App_Update : App.t -> Go St (option error)
}.

Class UserRepository (St : Type) : Type := {
  User_RetrieveByID : Z -> Go St (User.t * option error)
}.

Class TreeStateRepository (St : Type) : Type := {
  TreeState_RetrieveAllTypeTreeStatesByApp :
    Z -> Z -> Go St (list TreeState.t * option error);
  TreeState_RetrieveTreeStatesByApp :
    Z -> StateType -> Z -> Go St (list TreeState.t * option error);
  TreeState_Create : TreeState.t -> Go St (TreeState.t * (Z * option error));
  TreeState_Update : TreeState.t -> Go St (option error)
}.

Class KVStateRepository (St : Type) : Type := {
  KVState_RetrieveAllTypeKVStatesByApp :
    Z -> Z -> Go St (list KVState.t * option error);
  KVState_RetrieveKVStatesByApp :
    Z -> StateType -> Z -> Go St (list KVState.t * option error);
  KVState_Create : KVState.t -> Go St (option error)
}.

Class SetStateRepository (St : Type) : Type := {
  SetState_RetrieveSetStatesByApp :
    Z -> StateType -> Z -> Go St (list SetState.t * option error);
  SetState_Create : SetState.t -> Go St (option error)
}.

Class ActionRepository (St : Type) : Type := {
  Action_RetrieveActionsByAppVersion :
    Z -> Z -> Go St (list Action.t * option error);
  Action_Create : Action.t -> Go St (Z * option error)
}.

End repository.

(** [time.Now().UTC()]. *)
Class Clock (St : Type) : Type := {
  time_Now : Go St Time
}.

(** ** The service's own types *)

Import repository.

Definition type_array : list string :=
  ["transformer"; "restapi"; "graphql"; "redis"; "mysql"; "mariadb"; "postgresql"; "mongodb";
   "tidb"; "elasticsearch"; "s3"; "smtp"; "supabasedb"; "firebase"; "clickhouse"; "mssql";
   "huggingface"; "dynamodb"; "snowflake"; "couchdb"; "hfendpoint"; "oracle"]%string.

Module AppActivity.
Record t : Type := mk {
  Modifier : string;
  ModifiedAt : Time
}.
Definition zero : t := mk EmptyString 0.
End AppActivity.

Module AppDto.
Record t : Type := mk {
  ID : Z;
  Name : string;
  ReleaseVersion : Z;
  MainlineVersion : Z;
  CreatedBy : Z;
  CreatedAt : Time;
  UpdatedBy : Z;
  UpdatedAt : Time;
  AppActivity : AppActivity.t
}.
Definition zero : t := mk 0 EmptyString 0 0 0 0 0 0 AppActivity.zero.
End AppDto.

Module Action.
Record t : Type := mk {
  ID : Z;
  App : Z;
  Version : Z;
  Resource : Z;
  DisplayName : string;
  Type_ : string;
  Template : string;
  Transformer : string;
  TriggerMode : string;
  CreatedAt : Time;
  CreatedBy : Z;
  UpdatedAt : Time;
  UpdatedBy : Z
}.
End Action.

(** A value held in an [interface{}] slot of the editor document: a decoded
    JSON object, or a string. *)
Inductive iface (JsonObject : Type) : Type :=
| IfaceObject (o : JsonObject)
| IfaceString (s : string).

Arguments IfaceObject {JsonObject} o.
Arguments IfaceString {JsonObject} s.

Module Editor.
(** Slices, maps and the component pointer are [None] when they are nil. *)
Record t (ComponentNode JsonObject : Type) : Type := mk {
  AppInfo : AppDto.t;
  Actions : option (list Action.t);
  Components : option ComponentNode;
  DependenciesState : option (gmap string (list string));
  DragShadowState : option (gmap string (iface JsonObject));
  DottedLineSquareState : option (gmap string (iface JsonObject));
  DisplayNameState : option (list string)
}.
Arguments mk {ComponentNode JsonObject}.
Arguments AppInfo {ComponentNode JsonObject}.
Arguments Actions {ComponentNode JsonObject}.
Arguments Components {ComponentNode JsonObject}.
Arguments DependenciesState {ComponentNode JsonObject}.
Arguments DragShadowState {ComponentNode JsonObject}.
Arguments DottedLineSquareState {ComponentNode JsonObject}.
Arguments DisplayNameState {ComponentNode JsonObject}.
Definition zero {ComponentNode JsonObject : Type} : t ComponentNode JsonObject :=
  mk AppDto.zero None None None None None None.
End Editor.

(** ** The service (AppServiceImpl) *)

Section AppServiceImpl.

Context {St : Type}.
Context `{!AppRepository St, !UserRepository St, !TreeStateRepository St,
          !KVStateRepository St, !SetStateRepository St, !ActionRepository St,
          !Clock St}.

(** Declarations of package [app] and of [encoding/json] that lie outside the
    file at hand: the component tree with its builder, and the decoders for
    a string list and for a generic object. *)
Context {ComponentNode JsonObject : Type}.
Variable buildComponentTree :
  TreeState.t -> gmap Z TreeState.t -> option ComponentNode ->
  option ComponentNode * option error.
Variable Unmarshal_strings : string -> list string * option error.
Variable Unmarshal_object : string -> JsonObject * option error.

(** The body of the relinking loop, before its [Update] call. *)
Definition relink (releaseIDMap : gmap Z Z) (treestate : TreeState.t) : TreeState.t :=
  {| TreeState.ID := TreeState.ID treestate;
     TreeState.StateType := TreeState.StateType treestate;
     TreeState.ParentNodeRefID := map_index releaseIDMap (TreeState.ParentNodeRefID treestate);
     TreeState.ChildrenNodeRefIDs :=
       convertLink (TreeState.ChildrenNodeRefIDs treestate) releaseIDMap;
     TreeState.AppRefID := TreeState.AppRefID treestate;
     TreeState.Version := TreeState.Version treestate;
     TreeState.Name := TreeState.Name treestate;
     TreeState.Content := TreeState.Content treestate;
     TreeState.CreatedAt := TreeState.CreatedAt treestate;
     TreeState.CreatedBy := TreeState.CreatedBy treestate;
     TreeState.UpdatedAt := TreeState.UpdatedAt treestate;
     TreeState.UpdatedBy := TreeState.UpdatedBy treestate |}.

(** The second loop of both tree clones: insert every row and record
    old identifier -> new identifier. *)
Definition create_treestates (indexIDMap : gmap Z Z) (treestates : list TreeState.t)
  : Go St (list TreeState.t * gmap Z Z + option error) :=
  range treestates (∅ : gmap Z Z) (fun i treestate releaseIDMap =>
    let* (treestate, (id, err)) := TreeState_Create treestate in
    match err with
    | Some e => ret (Return (Some e))
    | None =>
        let oldID := map_index indexIDMap i in
        ret (Continue treestate (<[oldID := id]> releaseIDMap))
    end).

(** The third loop of both tree clones: rewrite the references of every
    inserted row and store it. *)
Definition relink_treestates (releaseIDMap : gmap Z Z) (treestates : list TreeState.t)
  : Go St (list TreeState.t * unit + option error) :=
  range treestates tt (fun _ treestate _ =>
    let treestate := relink releaseIDMap treestate in
    let* err := TreeState_Update treestate in
    match err with
    | Some e => ret (Return (Some e))
    | None => ret (Continue treestate tt)
    end).

Definition copyAllTreeState (appA appB user : Z) : Go St (option error) :=
  let* (treestates, err) :=
    TreeState_RetrieveAllTypeTreeStatesByApp appA APP_EDIT_VERSION in
  match err with
  | Some e => ret (Some e)
  | None =>
      let* r := range (R := option error) treestates (∅ : gmap Z Z)
        (fun serial row indexIDMap =>
          let* createdAt := time_Now in
          let* updatedAt := time_Now in
          ret (Continue
                 {| TreeState.ID := 0;
                    TreeState.StateType := TreeState.StateType row;
                    TreeState.ParentNodeRefID := TreeState.ParentNodeRefID row;
                    TreeState.ChildrenNodeRefIDs := TreeState.ChildrenNodeRefIDs row;
                    TreeState.AppRefID := appB;
                    TreeState.Version := APP_EDIT_VERSION;
                    TreeState.Name := TreeState.Name row;
                    TreeState.Content := TreeState.Content row;
                    TreeState.CreatedAt := createdAt;
                    TreeState.CreatedBy := user;
                    TreeState.UpdatedAt := updatedAt;
                    TreeState.UpdatedBy := user |}
                 (<[serial := TreeState.ID row]> indexIDMap))) in
      match r with
      | inr e => ret e
      | inl (treestates, indexIDMap) =>
          let* r := create_treestates indexIDMap treestates in
          match r with
          | inr e => ret e
          | inl (treestates, releaseIDMap) =>
              let* r := relink_treestates releaseIDMap treestates in
              match r with
              | inr e => ret e
              | inl _ => ret None
              end
          end
      end
  end.

Definition copyAllKVState (appA appB user : Z) : Go St (option error) :=
  let* (kvstates, err) :=
    KVState_RetrieveAllTypeKVStatesByApp appA APP_EDIT_VERSION in
  match err with
  | Some e => ret (Some e)
  | None =>
      let* r := range (R := option error) kvstates tt (fun serial row _ =>
        let* createdAt := time_Now in
        let* updatedAt := time_Now in
        ret (Continue
               {| KVState.ID := 0;
                  KVState.StateType := KVState.StateType row;
                  KVState.AppRefID := appB;
                  KVState.Version := APP_EDIT_VERSION;
                  KVState.Key := KVState.Key row;
                  KVState.Value := KVState.Value row;
                  KVState.CreatedAt := createdAt;
                  KVState.CreatedBy := user;
                  KVState.UpdatedAt := updatedAt;
                  KVState.UpdatedBy := user |} tt)) in
      match r with
      | inr e => ret e
      | inl (kvstates, _) =>
          let* r := range kvstates tt (fun _ kvstate _ =>
            let* err := KVState_Create kvstate in
            match err with
            | Some e => ret (Return (Some e))
            | None => ret (Continue kvstate tt)
            end) in
          match r with
          | inr e => ret e
          | inl _ => ret None
          end
      end
  end.

Definition copyAllSetState (appA appB user : Z) : Go St (option error) :=
  let* (setstates, err) :=
    SetState_RetrieveSetStatesByApp appA SET_STATE_TYPE_DISPLAY_NAME APP_EDIT_VERSION in
  match err with
  | Some e => ret (Some e)
  | None =>
      let* r := range (R := option error) setstates tt (fun serial row _ =>
        let* createdAt := time_Now in
        let* updatedAt := time_Now in
        ret (Continue
               {| SetState.ID := 0;
                  SetState.StateType := SetState.StateType row;
                  SetState.AppRefID := appB;
                  SetState.Version := APP_EDIT_VERSION;
                  SetState.Value := SetState.Value row;
                  SetState.CreatedAt := createdAt;
                  SetState.CreatedBy := user;
                  SetState.UpdatedAt := updatedAt;
                  SetState.UpdatedBy := user |} tt)) in
      match r with
      | inr e => ret e
      | inl (setstates, _) =>
          let* r := range setstates tt (fun _ setstate _ =>
            let* err := SetState_Create setstate in
            match err with
            | Some e => ret (Return (Some e))
            | None => ret (Continue setstate tt)
            end) in
          match r with
          | inr e => ret e
          | inl _ => ret None
          end
      end
  end.

Definition copyActions (appA appB user : Z) : Go St (option error) :=
  let* (actions, err) :=
    Action_RetrieveActionsByAppVersion appA APP_EDIT_VERSION in
  match err with
  | Some e => ret (Some e)
  | None =>
      let* r := range (R := option error) actions tt (fun serial row _ =>
        let* createdAt := time_Now in
        let* updatedAt := time_Now in
        ret (Continue
               {| repository.Action.ID := 0;
                  repository.Action.App := appB;
                  repository.Action.Version := APP_EDIT_VERSION;
                  repository.Action.Resource := repository.Action.Resource row;
                  repository.Action.Name := repository.Action.Name row;
                  repository.Action.Type_ := repository.Action.Type_ row;
                  repository.Action.TriggerMode := repository.Action.TriggerMode row;
                  repository.Action.Transformer := repository.Action.Transformer row;
                  repository.Action.Template := repository.Action.Template row;
                  repository.Action.CreatedAt := createdAt;
                  repository.Action.CreatedBy := user;
                  repository.Action.UpdatedAt := updatedAt;
                  repository.Action.UpdatedBy := user |} tt)) in
      match r with
      | inr e => ret e
      | inl (actions, _) =>
          let* r := range actions tt (fun _ action _ =>
            let* (_, err) := Action_Create action in
            match err with
            | Some e => ret (Return (Some e))
            | None => ret (Continue action tt)
            end) in
          match r with
          | inr e => ret e
          | inl _ => ret None
          end
      end
  end.

Definition DuplicateApp (appID userID : Z) (name : string)
  : Go St (AppDto.t * option error) :=
  let* (appA, err) := App_RetrieveAppByID appID in
  match err with
  | Some e => ret (AppDto.zero, Some e)
  | None =>
      let* createdAt := time_Now in
      let* updatedAt := time_Now in
      let appA :=
        {| App.ID := App.ID appA;
           App.Name := App.Name appA;
           App.ReleaseVersion := 0;
           App.MainlineVersion := 0;
           App.CreatedBy := userID;
           App.CreatedAt := createdAt;
           App.UpdatedBy := userID;
           App.UpdatedAt := updatedAt |} in
      let* (id, err) :=
        App_Create
          {| App.ID := 0;
             App.Name := name;
             App.ReleaseVersion := App.ReleaseVersion appA;
             App.MainlineVersion := App.MainlineVersion appA;
             App.CreatedBy := App.CreatedBy appA;
             App.CreatedAt := App.CreatedAt appA;
             App.UpdatedBy := App.UpdatedBy appA;
             App.UpdatedAt := App.UpdatedAt appA |} in
      match err with
      | Some e => ret (AppDto.zero, Some e)
      | None =>
          let* (userRecord, _) := User_RetrieveByID userID in
          let appB :=
            {| AppDto.ID := id;
               AppDto.Name := name;
               AppDto.ReleaseVersion := App.ReleaseVersion appA;
               AppDto.MainlineVersion := App.MainlineVersion appA;
               AppDto.CreatedBy := App.CreatedBy appA;
               AppDto.CreatedAt := App.CreatedAt appA;
               AppDto.UpdatedBy := App.UpdatedBy appA;
               AppDto.UpdatedAt := App.UpdatedAt appA;
               AppDto.AppActivity :=
                 {| AppActivity.Modifier := User.Nickname userRecord;
                    AppActivity.ModifiedAt := User.UpdatedAt userRecord |} |} in
          let* _ := copyAllTreeState appID (AppDto.ID appB) userID in
          let* _ := copyAllKVState appID (AppDto.ID appB) userID in
          let* _ := copyAllSetState appID (AppDto.ID appB) userID in
          let* _ := copyActions appID (AppDto.ID appB) userID in
          ret (appB, None)
      end
  end.

Definition releaseTreeStateByApp (app : AppDto.t) : Go St (option error) :=
  let* (treestates, err) :=
    TreeState_RetrieveAllTypeTreeStatesByApp (AppDto.ID app) APP_EDIT_VERSION in
  match err with
  | Some e => ret (Some e)
  | None =>
      let* r := range (R := option error) treestates (∅ : gmap Z Z)
        (fun serial row indexIDMap =>
          ret (Continue
                 {| TreeState.ID := 0;
                    TreeState.StateType := TreeState.StateType row;
                    TreeState.ParentNodeRefID := TreeState.ParentNodeRefID row;
                    TreeState.ChildrenNodeRefIDs := TreeState.ChildrenNodeRefIDs row;
                    TreeState.AppRefID := TreeState.AppRefID row;
                    TreeState.Version := AppDto.MainlineVersion app;
                    TreeState.Name := TreeState.Name row;
                    TreeState.Content := TreeState.Content row;
                    TreeState.CreatedAt := TreeState.CreatedAt row;
                    TreeState.CreatedBy := TreeState.CreatedBy row;
                    TreeState.UpdatedAt := TreeState.UpdatedAt row;
                    TreeState.UpdatedBy := TreeState.UpdatedBy row |}
                 (<[serial := TreeState.ID row]> indexIDMap))) in
      match r with
      | inr e => ret e
      | inl (treestates, indexIDMap) =>
          let* r := create_treestates indexIDMap treestates in
          match r with
          | inr e => ret e
          | inl (treestates, releaseIDMap) =>
              let* r := relink_treestates releaseIDMap treestates in
              match r with
              | inr e => ret e
              | inl _ => ret None
              end
          end
      end
  end.

Definition releaseKVStateByApp (app : AppDto.t) : Go St (option error) :=
  let* (kvstates, err) :=
    KVState_RetrieveAllTypeKVStatesByApp (AppDto.ID app) APP_EDIT_VERSION in
  match err with
  | Some e => ret (Some e)
  | None =>
      let* r := range (R := option error) kvstates tt (fun serial row _ =>
        ret (Continue
               {| KVState.ID := 0;
                  KVState.StateType := KVState.StateType row;
                  KVState.AppRefID := KVState.AppRefID row;
                  KVState.Version := AppDto.MainlineVersion app;
                  KVState.Key := KVState.Key row;
                  KVState.Value := KVState.Value row;
                  KVState.CreatedAt := KVState.CreatedAt row;
                  KVState.CreatedBy := KVState.CreatedBy row;
                  KVState.UpdatedAt := KVState.UpdatedAt row;
                  KVState.UpdatedBy := KVState.UpdatedBy row |} tt)) in
      match r with
      | inr e => ret e
      | inl (kvstates, _) =>
          let* r := range kvstates tt (fun _ kvstate _ =>
            let* err := KVState_Create kvstate in
            match err with
            | Some e => ret (Return (Some e))
            | None => ret (Continue kvstate tt)
            end) in
          match r with
          | inr e => ret e
          | inl _ => ret None
          end
      end
  end.

Definition releaseSetStateByApp (app : AppDto.t) : Go St (option error) :=
  let* (setstates, err) :=
    SetState_RetrieveSetStatesByApp (AppDto.ID app) SET_STATE_TYPE_DISPLAY_NAME
      APP_EDIT_VERSION in
  match err with
  | Some e => ret (Some e)
  | None =>
      let* r := range (R := option error) setstates tt (fun serial row _ =>
        ret (Continue
               {| SetState.ID := 0;
                  SetState.StateType := SetState.StateType row;
                  SetState.AppRefID := SetState.AppRefID row;
                  SetState.Version := AppDto.MainlineVersion app;
                  SetState.Value := SetState.Value row;
                  SetState.CreatedAt := SetState.CreatedAt row;
                  SetState.CreatedBy := SetState.CreatedBy row;
                  SetState.UpdatedAt := SetState.UpdatedAt row;
                  SetState.UpdatedBy := SetState.UpdatedBy row |} tt)) in
      match r with
      | inr e => ret e
      | inl (setstates, _) =>
          let* r := range setstates tt (fun _ setstate _ =>
            let* err := SetState_Create setstate in
            match err with
            | Some e => ret (Return (Some e))
            | None => ret (Continue setstate tt)
            end) in
          match r with
          | inr e => ret e
          | inl _ => ret None
          end
      end
  end.

Definition releaseActionsByApp (app : AppDto.t) : Go St (option error) :=
  let* (actions, err) :=
    Action_RetrieveActionsByAppVersion (AppDto.ID app) APP_EDIT_VERSION in
  match err with
  | Some e => ret (Some e)
  | None =>
      let* r := range (R := option error) actions tt (fun serial row _ =>
        ret (Continue
               {| repository.Action.ID := 0;
                  repository.Action.App := repository.Action.App row;
                  repository.Action.Version := AppDto.MainlineVersion app;
                  repository.Action.Resource := repository.Action.Resource row;
                  repository.Action.Name := repository.Action.Name row;
                  repository.Action.Type_ := repository.Action.Type_ row;
                  repository.Action.TriggerMode := repository.Action.TriggerMode row;
                  repository.Action.Transformer := repository.Action.Transformer row;
                  repository.Action.Template := repository.Action.Template row;
                  repository.Action.CreatedAt := repository.Action.CreatedAt row;
                  repository.Action.CreatedBy := repository.Action.CreatedBy row;
                  repository.Action.UpdatedAt := repository.Action.UpdatedAt row;
                  repository.Action.UpdatedBy := repository.Action.UpdatedBy row |} tt)) in
      match r with
      | inr e => ret e
      | inl (actions, _) =>
          let* r := range actions tt (fun _ action _ =>
            let* (_, err) := Action_Create action in
            match err with
            | Some e => ret (Return (Some e))
            | None => ret (Continue action tt)
            end) in
          match r with
          | inr e => ret e
          | inl _ => ret None
          end
      end
  end.

(** [AppDto{ID: appID, MainlineVersion: v}]: every other field is zero. *)
Definition AppDto_of_ID_MainlineVersion (appID v : Z) : AppDto.t :=
  {| AppDto.ID := appID;
     AppDto.Name := EmptyString;
     AppDto.ReleaseVersion := 0;
     AppDto.MainlineVersion := v;
     AppDto.CreatedBy := 0;
     AppDto.CreatedAt := 0;
     AppDto.UpdatedBy := 0;
     AppDto.UpdatedAt := 0;
     AppDto.AppActivity := AppActivity.zero |}.

Definition ReleaseApp (appID : Z) : Go St (Z * option error) :=
  let* (app, err) := App_RetrieveAppByID appID in
  match err with
  | Some _ => ret (-1, None)
  | None =>
      let mainline := int_add (App.MainlineVersion app) 1 in
      let app :=
        {| App.ID := App.ID app;
           App.Name := App.Name app;
           App.ReleaseVersion := mainline;
           App.MainlineVersion := mainline;
           App.CreatedBy := App.CreatedBy app;
           App.CreatedAt := App.CreatedAt app;
           App.UpdatedBy := App.UpdatedBy app;
           App.UpdatedAt := App.UpdatedAt app |} in
      let* _ := releaseTreeStateByApp
                  (AppDto_of_ID_MainlineVersion appID (App.MainlineVersion app)) in
      let* _ := releaseKVStateByApp
                  (AppDto_of_ID_MainlineVersion appID (App.MainlineVersion app)) in
      let* _ := releaseSetStateByApp
                  (AppDto_of_ID_MainlineVersion appID (App.MainlineVersion app)) in
      let* _ := releaseActionsByApp
                  (AppDto_of_ID_MainlineVersion appID (App.MainlineVersion app)) in
      let* err := App_Update app in
      match err with
      | Some _ => ret (-1, None)
      | None => ret (App.ReleaseVersion app, None)
      end
  end.

Definition formatActions (appID version : Z)
  : Go St (option (list Action.t) * option error) :=
  let* (res, err) := Action_RetrieveActionsByAppVersion appID version in
  match err with
  | Some e => ret (None, Some e)
  | None =>
      let* r := range (R := option (list Action.t) * option error) res []
        (fun _ value resSlice =>
          let* type_ := array_index type_array (repository.Action.Type_ value) in
          ret (Continue value
                 (resSlice ++
                  [ {| Action.ID := repository.Action.ID value;
                       Action.App := 0;
                       Action.Version := 0;
                       Action.Resource := repository.Action.Resource value;
                       Action.DisplayName := repository.Action.Name value;
                       Action.Type_ := type_;
                       Action.Template := repository.Action.Template value;
                       Action.Transformer := repository.Action.Transformer value;
                       Action.TriggerMode := repository.Action.TriggerMode value;
                       Action.CreatedAt := repository.Action.CreatedAt value;
                       Action.CreatedBy := repository.Action.CreatedBy value;
                       Action.UpdatedAt := repository.Action.UpdatedAt value;
                       Action.UpdatedBy := repository.Action.UpdatedBy value |} ]))) in
      match r with
      | inr early => ret early
      | inl (_, resSlice) => ret (Some resSlice, None)
      end
  end.

Definition formatComponents (appID version : Z)
  : Go St (option ComponentNode * option error) :=
  let* (res, err) :=
    TreeState_RetrieveTreeStatesByApp appID TREE_STATE_TYPE_COMPONENTS version in
  match err with
  | Some e => ret (None, Some e)
  | None =>
      if (length res =? 0)%nat then ret (None, Some (errorString "no component"))
      else
        let '(tempMap, root) :=
          fold_left
            (fun '(tempMap, root) component =>
               (<[TreeState.ID component := component]> tempMap,
                if String.eqb (TreeState.Name component) TREE_STATE_SUMMIT_NAME
                then component else root))
            res ((∅ : gmap Z TreeState.t), TreeState.zero) in
        let '(resNode, _) := buildComponentTree root tempMap None in
        ret (resNode, None)
  end.

Definition formatDependenciesState (appID version : Z)
  : Go St (option (gmap string (list string)) * option error) :=
  let* (res, err) :=
    KVState_RetrieveKVStatesByApp appID KV_STATE_TYPE_DEPENDENCIES version in
  match err with
  | Some e => ret (None, Some e)
  | None =>
      let resMap : gmap string (list string) := ∅ in
      if (length res =? 0)%nat then ret (Some resMap, None)
      else
        ret (Some (fold_left
                     (fun resMap dependency =>
                        let '(revMsg, _) := Unmarshal_strings (KVState.Value dependency) in
                        <[KVState.Key dependency := revMsg]> resMap)
                     res resMap), None)
  end.

Definition formatDragShadowState (appID version : Z)
  : Go St (option (gmap string (iface JsonObject)) * option error) :=
  let* (res, err) :=
    KVState_RetrieveKVStatesByApp appID KV_STATE_TYPE_DRAG_SHADOW version in
  match err with
  | Some e => ret (None, Some e)
  | None =>
      let resMap : gmap string (iface JsonObject) := ∅ in
      if (length res =? 0)%nat then ret (Some resMap, None)
      else
        ret (Some (fold_left
                     (fun resMap shadow =>
                        let '(revMsg, _) := Unmarshal_object (KVState.Value shadow) in
                        <[KVState.Key shadow := IfaceObject revMsg]> resMap)
                     res resMap), None)
  end.

Definition formatDottedLineSquareState (appID version : Z)
  : Go St (option (gmap string (iface JsonObject)) * option error) :=
  let* (res, err) :=
    KVState_RetrieveKVStatesByApp appID KV_STATE_TYPE_DOTTED_LINE_SQUARE version in
  match err with
  | Some e => ret (None, Some e)
  | None =>
      let resMap : gmap string (iface JsonObject) := ∅ in
      if (length res =? 0)%nat then ret (Some resMap, None)
      else
        ret (Some (fold_left
                     (fun resMap line =>
                        let '(revMsg, _) := Unmarshal_object (KVState.Value line) in
                        <[KVState.Key line := IfaceString (KVState.Value line)]> resMap)
                     res resMap), None)
  end.

Definition formatDisplayNameState (appID version : Z)
  : Go St (option (list string) * option error) :=
  let* (res, err) :=
    SetState_RetrieveSetStatesByApp appID SET_STATE_TYPE_DISPLAY_NAME version in
  match err with
  | Some e => ret (None, Some e)
  | None =>
      let resSlice : list string := [] in
      if (length res =? 0)%nat then ret (Some resSlice, None)
      else
        ret (Some (fold_left
                     (fun resSlice displayName => resSlice ++ [SetState.Value displayName])
                     res resSlice), None)
  end.

Definition fetchEditor (appID version : Z)
  : Go St (Editor.t ComponentNode JsonObject * option error) :=
  let* (app, err) := App_RetrieveAppByID appID in
  match err with
  | Some e => ret (Editor.zero, Some e)
  | None =>
      if (App.ID app =? 0) || (App.MainlineVersion app <? version) then
        ret (Editor.zero, Some (errorString "content not found"))
      else
        let* (userRecord, _) := User_RetrieveByID (App.UpdatedBy app) in
        let appInfo :=
          {| AppDto.ID := App.ID app;
             AppDto.Name := App.Name app;
             AppDto.ReleaseVersion := App.ReleaseVersion app;
             AppDto.MainlineVersion := App.MainlineVersion app;
             AppDto.CreatedBy := 0;
             AppDto.CreatedAt := 0;
             AppDto.UpdatedBy := App.UpdatedBy app;
             AppDto.UpdatedAt := App.UpdatedAt app;
             AppDto.AppActivity :=
               {| AppActivity.Modifier := User.Nickname userRecord;
                  AppActivity.ModifiedAt := User.UpdatedAt userRecord |} |} in
        let* (actions, _) := formatActions appID version in
        let* (components, _) := formatComponents appID version in
        let* (dependenciesState, _) := formatDependenciesState appID version in
        let* (dragShadowState, _) := formatDragShadowState appID version in
        let* (dottedLineSquareState, _) := formatDottedLineSquareState appID version in
        let* (displayNameState, _) := formatDisplayNameState appID version in
        ret ({| Editor.AppInfo := appInfo;
                Editor.Actions := actions;
                Editor.Components := components;
                Editor.DependenciesState := dependenciesState;
                Editor.DragShadowState := dragShadowState;
                Editor.DottedLineSquareState := dottedLineSquareState;
                Editor.DisplayNameState := displayNameState |}, None)
  end.

Definition GetMegaData (appID version : Z)
  : Go St (Editor.t ComponentNode JsonObject * option error) :=
  let* (editor, err) := fetchEditor appID version in
  match err with
  | Some e => ret (Editor.zero, Some e)
  | None => ret (editor, None)
  end.

End AppServiceImpl.

(** ** The service: app records *)

(** Modelled from the spec: the storage ports are external collaborators
    there, and of the methods below the sources at hand show the call sites
    alone, from which their signatures are read: every one answers with an
    error or nil, the deletes take the app's identifier, and the listing
    also hands out the app rows. *)
Module repository_crud.

Class AppRepository_crud (St : Type) : Type := {
  App_UpdateUpdatedAt : App.t -> Go St (option error);
  App_Delete : Z -> Go St (option error);
  App_RetrieveAllByUpdatedTime : Go St (list App.t * option error)
}.

Class TreeStateRepository_crud (St : Type) : Type := {
  TreeState_DeleteAllTypeTreeStatesByApp : Z -> Go St (option error)
}.

Class KVStateRepository_crud (St : Type) : Type := {
  KVState_DeleteAllTypeKVStatesByApp : Z -> Go St (option error)
}.

Class SetStateRepository_crud (St : Type) : Type := {
  SetState_DeleteAllTypeSetStatesByApp : Z -> Go St (option error)
}.

Class ActionRepository_crud (St : Type) : Type := {
  Action_DeleteActionsByApp : Z -> Go St (option error)
}.

End repository_crud.

Import repository_crud.

Section AppCrud.

Context {St : Type}.
Context `{!AppRepository St, !UserRepository St, !TreeStateRepository St,
          !KVStateRepository St, !SetStateRepository St, !ActionRepository St,
          !Clock St}.
Context `{!AppRepository_crud St, !TreeStateRepository_crud St,
          !KVStateRepository_crud St, !SetStateRepository_crud St,
          !ActionRepository_crud St}.

(** The content of a fresh root component, a variable of package [app]
    declared outside the file at hand. *)
Variable initialComponet : string.

Definition initialAllTypeTreeStates (appID user : Z) : Go St (option error) :=
  let* createdAt := time_Now in
  let* updatedAt := time_Now in
  let* (_, (_, err)) :=
    TreeState_Create
      {| TreeState.ID := 0;
         TreeState.StateType := TREE_STATE_TYPE_COMPONENTS;
         TreeState.ParentNodeRefID := 0;
         TreeState.ChildrenNodeRefIDs := "[]";
         TreeState.AppRefID := appID;
         TreeState.Version := APP_EDIT_VERSION;
         TreeState.Name := "root";
         TreeState.Content := initialComponet;
         TreeState.CreatedAt := createdAt;
         TreeState.CreatedBy := user;
         TreeState.UpdatedAt := updatedAt;
         TreeState.UpdatedBy := user |} in
  match err with
  | Some _ => ret (Some (errorString "initial tree state failed"))
  | None => ret None
  end.

Definition CreateApp (app : AppDto.t) : Go St (AppDto.t * option error) :=
  let* createdAt := time_Now in
  let* updatedAt := time_Now in
  let app :=
    {| AppDto.ID := AppDto.ID app;
       AppDto.Name := AppDto.Name app;
       AppDto.ReleaseVersion := 0;
       AppDto.MainlineVersion := 0;
       AppDto.CreatedBy := AppDto.CreatedBy app;
       AppDto.CreatedAt := createdAt;
       AppDto.UpdatedBy := AppDto.UpdatedBy app;
       AppDto.UpdatedAt := updatedAt;
       AppDto.AppActivity := AppDto.AppActivity app |} in
  let* (id, err) :=
    App_Create
      {| App.ID := 0;
         App.Name := AppDto.Name app;
         App.ReleaseVersion := AppDto.ReleaseVersion app;
         App.MainlineVersion := AppDto.MainlineVersion app;
         App.CreatedBy := AppDto.CreatedBy app;
         App.CreatedAt := AppDto.CreatedAt app;
         App.UpdatedBy := AppDto.UpdatedBy app;
         App.UpdatedAt := AppDto.UpdatedAt app |} in
  match err with
  | Some e => ret (AppDto.zero, Some e)
  | None =>
      let* (userRecord, _) := User_RetrieveByID (AppDto.CreatedBy app) in
      let app :=
        {| AppDto.ID := id;
           AppDto.Name := AppDto.Name app;
           AppDto.ReleaseVersion := AppDto.ReleaseVersion app;
           AppDto.MainlineVersion := AppDto.MainlineVersion app;
           AppDto.CreatedBy := AppDto.CreatedBy app;
           AppDto.CreatedAt := AppDto.CreatedAt app;
           AppDto.UpdatedBy := AppDto.UpdatedBy app;
           AppDto.UpdatedAt := AppDto.UpdatedAt app;
           AppDto.AppActivity :=
             {| AppActivity.Modifier := User.Nickname userRecord;
                AppActivity.ModifiedAt := AppDto.UpdatedAt app |} |} in
      let* _ := initialAllTypeTreeStates (AppDto.ID app) (AppDto.CreatedBy app) in
      ret (app, None)
  end.

Definition UpdateApp (app : AppDto.t) : Go St (AppDto.t * option error) :=
  let* updatedAt := time_Now in
  let app :=
    {| AppDto.ID := AppDto.ID app;
       AppDto.Name := AppDto.Name app;
       AppDto.ReleaseVersion := AppDto.ReleaseVersion app;
       AppDto.MainlineVersion := AppDto.MainlineVersion app;
       AppDto.CreatedBy := AppDto.CreatedBy app;
       AppDto.CreatedAt := AppDto.CreatedAt app;
       AppDto.UpdatedBy := AppDto.UpdatedBy app;
       AppDto.UpdatedAt := updatedAt;
       AppDto.AppActivity := AppDto.AppActivity app |} in
  let* err :=
    App_Update
      {| App.ID := AppDto.ID app;
         App.Name := AppDto.Name app;
         App.ReleaseVersion := AppDto.ReleaseVersion app;
         App.MainlineVersion := AppDto.MainlineVersion app;
         App.CreatedBy := 0;
         App.CreatedAt := 0;
         App.UpdatedBy := AppDto.UpdatedBy app;
         App.UpdatedAt := AppDto.UpdatedAt app |} in
  match err with
  | Some e => ret (AppDto.zero, Some e)
  | None =>
      let* (userRecord, _) := User_RetrieveByID (AppDto.UpdatedBy app) in
      ret ({| AppDto.ID := AppDto.ID app;
              AppDto.Name := AppDto.Name app;
              AppDto.ReleaseVersion := AppDto.ReleaseVersion app;
              AppDto.MainlineVersion := AppDto.MainlineVersion app;
              AppDto.CreatedBy := AppDto.CreatedBy app;
              AppDto.CreatedAt := AppDto.CreatedAt app;
              AppDto.UpdatedBy := AppDto.UpdatedBy app;
              AppDto.UpdatedAt := AppDto.UpdatedAt app;
              AppDto.AppActivity :=
                {| AppActivity.Modifier := User.Nickname userRecord;
                   AppActivity.ModifiedAt := AppDto.UpdatedAt app |} |}, None)
  end.

(** [app] is a pointer: the first result is the caller's [AppDto] as the
    call leaves it. *)
Definition UpdateAppModifyTime (app : AppDto.t) : Go St (AppDto.t * option error) :=
  let* updatedAt := time_Now in
  let app :=
    {| AppDto.ID := AppDto.ID app;
       AppDto.Name := AppDto.Name app;
       AppDto.ReleaseVersion := AppDto.ReleaseVersion app;
       AppDto.MainlineVersion := AppDto.MainlineVersion app;
       AppDto.CreatedBy := AppDto.CreatedBy app;
       AppDto.CreatedAt := AppDto.CreatedAt app;
       AppDto.UpdatedBy := AppDto.UpdatedBy app;
       AppDto.UpdatedAt := updatedAt;
       AppDto.AppActivity := AppDto.AppActivity app |} in
  let* err :=
    App_UpdateUpdatedAt
      {| App.ID := AppDto.ID app;
         App.Name := EmptyString;
         App.ReleaseVersion := 0;
         App.MainlineVersion := 0;
         App.CreatedBy := 0;
         App.CreatedAt := 0;
         App.UpdatedBy := AppDto.UpdatedBy app;
         App.UpdatedAt := AppDto.UpdatedAt app |} in
  match err with
  | Some e => ret (app, Some e)
  | None => ret (app, None)
  end.

Definition FetchAppByID (appID : Z) : Go St (AppDto.t * option error) :=
  let* (app, err) := App_RetrieveAppByID appID in
  match err with
  | Some e => ret (AppDto.zero, Some e)
  | None =>
      let res :=
        {| AppDto.ID := App.ID app;
           AppDto.Name := App.Name app;
           AppDto.ReleaseVersion := App.ReleaseVersion app;
           AppDto.MainlineVersion := App.MainlineVersion app;
           AppDto.CreatedBy := 0;
           AppDto.CreatedAt := 0;
           AppDto.UpdatedBy := App.UpdatedBy app;
           AppDto.UpdatedAt := App.UpdatedAt app;
           AppDto.AppActivity := AppActivity.zero |} in
      ret (res, None)
  end.

Definition DeleteApp (appID : Z) : Go St (option error) :=
  let* _ := TreeState_DeleteAllTypeTreeStatesByApp appID in
  let* _ := KVState_DeleteAllTypeKVStatesByApp appID in
  let* _ := Action_DeleteActionsByApp appID in
  let* _ := SetState_DeleteAllTypeSetStatesByApp appID in
  App_Delete appID.

(** The slice is [None] when it is nil. *)
Definition GetAllApps : Go St (option (list AppDto.t) * option error) :=
  let* (res, err) := App_RetrieveAllByUpdatedTime in
  match err with
  | Some e => ret (None, Some e)
  | None =>
      let* r := range (R := option (list AppDto.t) * option error) res []
        (fun _ value resDtoSlice =>
          let* (userRecord, _) := User_RetrieveByID (App.UpdatedBy value) in
          ret (Continue value
                 (resDtoSlice ++
                  [ {| AppDto.ID := App.ID value;
                       AppDto.Name := App.Name value;
                       AppDto.ReleaseVersion := App.ReleaseVersion value;
                       AppDto.MainlineVersion := App.MainlineVersion value;
                       AppDto.CreatedBy := 0;
                       AppDto.CreatedAt := 0;
                       AppDto.UpdatedBy := App.UpdatedBy value;
                       AppDto.UpdatedAt := App.UpdatedAt value;
                       AppDto.AppActivity :=
                         {| AppActivity.Modifier := User.Nickname userRecord;
                            AppActivity.ModifiedAt := App.UpdatedAt value |} |} ]))) in
      match r with
      | inr early => ret early
      | inl (_, resDtoSlice) => ret (Some resDtoSlice, None)
      end
  end.

End AppCrud.

(** ** AppDto: construction from a request *)

(** A value held in an [interface{}]: nil, or a value of one of the dynamic
    types a decoded request body holds. *)
Inductive any : Type :=
| any_nil
| any_bool (b : bool)
| any_float64 (f : spec_float)
| any_string (s : string)
| any_int (n : Z)
| any_slice (l : list any)
| any_map (m : gmap string any).

Section AppDtoConstructors.

(** [int(f)] where [int] cannot represent [f] (a NaN, an infinity, or a
    value beyond 64 bits): the conversion succeeds with a value that depends
    on the implementation. *)
Variable int_of_unrepresentable : spec_float -> Z.

(** The order in which a [for ... range] over a map visits its entries: Go
    leaves it open, and it may differ from run to run. *)
Variable range_order : gmap string any -> list (string * any).

(** [int(f)] on a [float64]: the fraction is discarded. *)
Definition int_of_float64 (f : spec_float) : Z :=
  match f with
  | S754_zero _ => 0
  | S754_finite s m e =>
      let magnitude :=
        if 0 <=? e then Z.shiftl (Z.pos m) e else Z.shiftr (Z.pos m) (- e) in
      let n := if s then - magnitude else magnitude in
      if (MinInt64 <=? n) && (n <=? MaxInt64) then n else int_of_unrepresentable f
  | _ => int_of_unrepresentable f
  end.

Definition NewAppDto : AppDto.t := AppDto.zero.

(** One turn of the loop over the map's entries. *)
Definition ConstructByMap_turn (appd : AppDto.t) (kv : string * any) : AppDto.t :=
  let '(k, v) := kv in
  if String.eqb k "id" then
    let idf := match v with any_float64 f => f | _ => S754_zero false end in
    {| AppDto.ID := int_of_float64 idf;
       AppDto.Name := AppDto.Name appd;
       AppDto.ReleaseVersion := AppDto.ReleaseVersion appd;
       AppDto.MainlineVersion := AppDto.MainlineVersion appd;
       AppDto.CreatedBy := AppDto.CreatedBy appd;
       AppDto.CreatedAt := AppDto.CreatedAt appd;
       AppDto.UpdatedBy := AppDto.UpdatedBy appd;
       AppDto.UpdatedAt := AppDto.UpdatedAt appd;
       AppDto.AppActivity := AppDto.AppActivity appd |}
  else if String.eqb k "name" then
    {| AppDto.ID := AppDto.ID appd;
       AppDto.Name := match v with any_string s => s | _ => EmptyString end;
       AppDto.ReleaseVersion := AppDto.ReleaseVersion appd;
       AppDto.MainlineVersion := AppDto.MainlineVersion appd;
       AppDto.CreatedBy := AppDto.CreatedBy appd;
       AppDto.CreatedAt := AppDto.CreatedAt appd;
       AppDto.UpdatedBy := AppDto.UpdatedBy appd;
       AppDto.UpdatedAt := AppDto.UpdatedAt appd;
       AppDto.AppActivity := AppDto.AppActivity appd |}
  else appd.

(** [appd.ConstructByMap(data)]: nothing happens unless [data] holds a
    [map[string]interface{}], whose entries are visited in the order of the
    run. *)
Definition ConstructByMap (appd : AppDto.t) (data : any) : AppDto.t :=
  match data with
  | any_map udata => fold_left ConstructByMap_turn (range_order udata) appd
  | _ => appd
  end.

Definition ConstructWithID (appd : AppDto.t) (id : Z) : AppDto.t :=
  {| AppDto.ID := id;
     AppDto.Name := AppDto.Name appd;
     AppDto.ReleaseVersion := AppDto.ReleaseVersion appd;
     AppDto.MainlineVersion := AppDto.MainlineVersion appd;
     AppDto.CreatedBy := AppDto.CreatedBy appd;
     AppDto.CreatedAt := AppDto.CreatedAt appd;
     AppDto.UpdatedBy := AppDto.UpdatedBy appd;
     AppDto.UpdatedAt := AppDto.UpdatedAt appd;
     AppDto.AppActivity := AppDto.AppActivity appd |}.

Definition ConstructWithUpdateBy (appd : AppDto.t) (updateBy : Z) : AppDto.t :=
  {| AppDto.ID := AppDto.ID appd;
     AppDto.Name := AppDto.Name appd;
     AppDto.ReleaseVersion := AppDto.ReleaseVersion appd;
     AppDto.MainlineVersion := AppDto.MainlineVersion appd;
     AppDto.CreatedBy := AppDto.CreatedBy appd;
     AppDto.CreatedAt := AppDto.CreatedAt appd;
     AppDto.UpdatedBy := updateBy;
     AppDto.UpdatedAt := AppDto.UpdatedAt appd;
     AppDto.AppActivity := AppDto.AppActivity appd |}.

End AppDtoConstructors.

(** ** An in-memory store *)

(** Modelled from the spec: the persistence engine behind the storage ports.
    Rows live in tables in insertion order; [create] assigns the next serial
    identifier, [update] replaces the row with the given identifier, and
    retrieval filters a table by app, kind and version.  Every port call is
    numbered, and [faults] says which calls fail with a storage error and
    leave the tables alone. *)
Module Mem.

Record Store : Type := mk {
  apps : gmap Z App.t;
  users : gmap Z User.t;
  treestates : list TreeState.t;
  kvstates : list KVState.t;
  setstates : list SetState.t;
  actions : list repository.Action.t;
  next_id : Z;
  now : Time;
  calls : nat;
  faults : nat -> option error
}.

Definition set_apps (v : gmap Z App.t) (st : Store) : Store :=
  mk v (users st) (treestates st) (kvstates st) (setstates st) (actions st)
     (next_id st) (now st) (calls st) (faults st).

Definition set_treestates (v : list TreeState.t) (st : Store) : Store :=
  mk (apps st) (users st) v (kvstates st) (setstates st) (actions st)
     (next_id st) (now st) (calls st) (faults st).

Definition set_kvstates (v : list KVState.t) (st : Store) : Store :=
  mk (apps st) (users st) (treestates st) v (setstates st) (actions st)
     (next_id st) (now st) (calls st) (faults st).

Definition set_setstates (v : list SetState.t) (st : Store) : Store :=
  mk (apps st) (users st) (treestates st) (kvstates st) v (actions st)
     (next_id st) (now st) (calls st) (faults st).

Definition set_actions (v : list repository.Action.t) (st : Store) : Store :=
  mk (apps st) (users st) (treestates st) (kvstates st) (setstates st) v
     (next_id st) (now st) (calls st) (faults st).

Definition set_next_id (v : Z) (st : Store) : Store :=
  mk (apps st) (users st) (treestates st) (kvstates st) (setstates st) (actions st)
     v (now st) (calls st) (faults st).

Definition set_now (v : Time) (st : Store) : Store :=
  mk (apps st) (users st) (treestates st) (kvstates st) (setstates st) (actions st)
     (next_id st) v (calls st) (faults st).

Definition set_calls (v : nat) (st : Store) : Store :=
  mk (apps st) (users st) (treestates st) (kvstates st) (setstates st) (actions st)
     (next_id st) (now st) v (faults st).

(** One call of a storage port: the call is counted; when it is marked as
    failing it answers [failed] with the error and touches nothing else. *)
Definition port {A : Type} (failed : A) (op : Store -> A * Store)
  : Go Store A :=
  fun st =>
    let st' := set_calls (S (calls st)) st in
    match faults st (calls st) with
    | Some e => (Returned failed, st')
    | None => let '(a, st'') := op st' in (Returned a, st'')
    end.

Definition fault (st : Store) : option error := faults st (calls st).

Definition record_not_found : error := errorString "record not found".

Definition App_RetrieveAppByID (appID : Z) : Go Store (App.t * option error) :=
  fun st =>
    port (App.zero, fault st)
      (fun st' =>
         match apps st' !! appID with
         | Some app => ((app, None), st')
         | None => ((App.zero, Some record_not_found), st')
         end) st.

Definition App_with_ID (id : Z) (app : App.t) : App.t :=
  {| App.ID := id;
     App.Name := App.Name app;
     App.ReleaseVersion := App.ReleaseVersion app;
     App.MainlineVersion := App.MainlineVersion app;
     App.CreatedBy := App.CreatedBy app;
     App.CreatedAt := App.CreatedAt app;
     App.UpdatedBy := App.UpdatedBy app;
     App.UpdatedAt := App.UpdatedAt app |}.

Definition App_Create (app : App.t) : Go Store (Z * option error) :=
  fun st =>
    port (0, fault st)
      (fun st' =>
         let id := next_id st' in
         ((id, None),
          set_next_id (id + 1) (set_apps (<[id := App_with_ID id app]> (apps st')) st')))
      st.

Definition App_Update (app : App.t) : Go Store (option error) :=
  fun st =>
    port (fault st)
      (fun st' =>
         match apps st' !! App.ID app with
         | Some _ => (None, set_apps (<[App.ID app := app]> (apps st')) st')
         | None => (None, st')
         end) st.

Definition User_RetrieveByID (id : Z) : Go Store (User.t * option error) :=
  fun st =>
    port (User.zero, fault st)
      (fun st' =>
         match users st' !! id with
         | Some user => ((user, None), st')
         | None => ((User.zero, Some record_not_found), st')
         end) st.

Definition TreeState_with_ID (id : Z) (row : TreeState.t) : TreeState.t :=
  {| TreeState.ID := id;
     TreeState.StateType := TreeState.StateType row;
     TreeState.ParentNodeRefID := TreeState.ParentNodeRefID row;
     TreeState.ChildrenNodeRefIDs := TreeState.ChildrenNodeRefIDs row;
     TreeState.AppRefID := TreeState.AppRefID row;
     TreeState.Version := TreeState.Version row;
     TreeState.Name := TreeState.Name row;
     TreeState.Content := TreeState.Content row;
     TreeState.CreatedAt := TreeState.CreatedAt row;
     TreeState.CreatedBy := TreeState.CreatedBy row;
     TreeState.UpdatedAt := TreeState.UpdatedAt row;
     TreeState.UpdatedBy := TreeState.UpdatedBy row |}.

Definition TreeState_in (appID version : Z) (row : TreeState.t) : bool :=
  (TreeState.AppRefID row =? appID) && (TreeState.Version row =? version).

Definition TreeState_RetrieveAllTypeTreeStatesByApp (appID version : Z)
  : Go Store (list TreeState.t * option error) :=
  fun st =>
    port ([], fault st)
      (fun st' => ((List.filter (TreeState_in appID version) (treestates st'), None), st'))
      st.

Definition TreeState_RetrieveTreeStatesByApp (appID : Z) (kind : StateType) (version : Z)
  : Go Store (list TreeState.t * option error) :=
  fun st =>
    port ([], fault st)
      (fun st' =>
         ((List.filter
             (fun row => TreeState_in appID version row
                         && StateType_eqb (TreeState.StateType row) kind)
             (treestates st'), None), st'))
      st.

Definition TreeState_Create (row : TreeState.t)
  : Go Store (TreeState.t * (Z * option error)) :=
  fun st =>
    port (row, (0, fault st))
      (fun st' =>
         let id := next_id st' in
         let row' := TreeState_with_ID id row in
         ((row', (id, None)),
          set_next_id (id + 1) (set_treestates (treestates st' ++ [row']) st')))
      st.

Definition TreeState_Update (row : TreeState.t) : Go Store (option error) :=
  fun st =>
    port (fault st)
      (fun st' =>
         (None,
          set_treestates
            (map (fun old => if TreeState.ID old =? TreeState.ID row then row else old)
                 (treestates st'))
            st'))
      st.

Definition KVState_with_ID (id : Z) (row : KVState.t) : KVState.t :=
  {| KVState.ID := id;
     KVState.StateType := KVState.StateType row;
     KVState.AppRefID := KVState.AppRefID row;
     KVState.Version := KVState.Version row;
     KVState.Key := KVState.Key row;
     KVState.Value := KVState.Value row;
     KVState.CreatedAt := KVState.CreatedAt row;
     KVState.CreatedBy := KVState.CreatedBy row;
     KVState.UpdatedAt := KVState.UpdatedAt row;
     KVState.UpdatedBy := KVState.UpdatedBy row |}.

Definition KVState_in (appID version : Z) (row : KVState.t) : bool :=
  (KVState.AppRefID row =? appID) && (KVState.Version row =? version).

Definition KVState_RetrieveAllTypeKVStatesByApp (appID version : Z)
  : Go Store (list KVState.t * option error) :=
  fun st =>
    port ([], fault st)
      (fun st' => ((List.filter (KVState_in appID version) (kvstates st'), None), st'))
      st.

Definition KVState_RetrieveKVStatesByApp (appID : Z) (kind : StateType) (version : Z)
  : Go Store (list KVState.t * option error) :=
  fun st =>
    port ([], fault st)
      (fun st' =>
         ((List.filter
             (fun row => KVState_in appID version row
                         && StateType_eqb (KVState.StateType row) kind)
             (kvstates st'), None), st'))
      st.

Definition KVState_Create (row : KVState.t) : Go Store (option error) :=
  fun st =>
    port (fault st)
      (fun st' =>
         let id := next_id st' in
         (None,
          set_next_id (id + 1)
            (set_kvstates (kvstates st' ++ [KVState_with_ID id row]) st')))
      st.

Definition SetState_with_ID (id : Z) (row : SetState.t) : SetState.t :=
  {| SetState.ID := id;
     SetState.StateType := SetState.StateType row;
     SetState.AppRefID := SetState.AppRefID row;
     SetState.Version := SetState.Version row;
     SetState.Value := SetState.Value row;
     SetState.CreatedAt := SetState.CreatedAt row;
     SetState.CreatedBy := SetState.CreatedBy row;
     SetState.UpdatedAt := SetState.UpdatedAt row;
     SetState.UpdatedBy := SetState.UpdatedBy row |}.

Definition SetState_RetrieveSetStatesByApp (appID : Z) (kind : StateType) (version : Z)
  : Go Store (list SetState.t * option error) :=
  fun st =>
    port ([], fault st)
      (fun st' =>
         ((List.filter
             (fun row => (SetState.AppRefID row =? appID)
                         && (SetState.Version row =? version)
                         && StateType_eqb (SetState.StateType row) kind)
             (setstates st'), None), st'))
      st.

Definition SetState_Create (row : SetState.t) : Go Store (option error) :=
  fun st =>
    port (fault st)
      (fun st' =>
         let id := next_id st' in
         (None,
          set_next_id (id + 1)
            (set_setstates (setstates st' ++ [SetState_with_ID id row]) st')))
      st.

Definition Action_with_ID (id : Z) (row : repository.Action.t) : repository.Action.t :=
  {| repository.Action.ID := id;
     repository.Action.App := repository.Action.App row;
     repository.Action.Version := repository.Action.Version row;
     repository.Action.Resource := repository.Action.Resource row;
     repository.Action.Name := repository.Action.Name row;
     repository.Action.Type_ := repository.Action.Type_ row;
     repository.Action.TriggerMode := repository.Action.TriggerMode row;
     repository.Action.Transformer := repository.Action.Transformer row;
     repository.Action.Template := repository.Action.Template row;
     repository.Action.CreatedAt := repository.Action.CreatedAt row;
     repository.Action.CreatedBy := repository.Action.CreatedBy row;
     repository.Action.UpdatedAt := repository.Action.UpdatedAt row;
     repository.Action.UpdatedBy := repository.Action.UpdatedBy row |}.

Definition Action_in (appID version : Z) (row : repository.Action.t) : bool :=
  (repository.Action.App row =? appID) && (repository.Action.Version row =? version).

Definition Action_RetrieveActionsByAppVersion (appID version : Z)
  : Go Store (list repository.Action.t * option error) :=
  fun st =>
    port ([], fault st)
      (fun st' => ((List.filter (Action_in appID version) (actions st'), None), st'))
      st.

Definition Action_Create (row : repository.Action.t) : Go Store (Z * option error) :=
  fun st =>
    port (0, fault st)
      (fun st' =>
         let id := next_id st' in
         ((id, None),
          set_next_id (id + 1)
            (set_actions (actions st' ++ [Action_with_ID id row]) st')))
      st.

Definition clock_Now : Go Store Time :=
  fun st => (Returned (now st), set_now (now st + 1) st).

#[global] Instance AppRepository_Store : AppRepository Store :=
  {| repository.App_RetrieveAppByID := App_RetrieveAppByID;
     repository.App_Create := App_Create;
     repository.App_Update := App_Update |}.

#[global] Instance UserRepository_Store : UserRepository Store :=
  {| repository.User_RetrieveByID := User_RetrieveByID |}.

#[global] Instance TreeStateRepository_Store : TreeStateRepository Store :=
  {| repository.TreeState_RetrieveAllTypeTreeStatesByApp :=
       TreeState_RetrieveAllTypeTreeStatesByApp;
     repository.TreeState_RetrieveTreeStatesByApp := TreeState_RetrieveTreeStatesByApp;
     repository.TreeState_Create := TreeState_Create;
     repository.TreeState_Update := TreeState_Update |}.

#[global] Instance KVStateRepository_Store : KVStateRepository Store :=
  {| repository.KVState_RetrieveAllTypeKVStatesByApp := KVState_RetrieveAllTypeKVStatesByApp;
     repository.KVState_RetrieveKVStatesByApp := KVState_RetrieveKVStatesByApp;
     repository.KVState_Create := KVState_Create |}.

#[global] Instance SetStateRepository_Store : SetStateRepository Store :=
  {| repository.SetState_RetrieveSetStatesByApp := SetState_RetrieveSetStatesByApp;
     repository.SetState_Create := SetState_Create |}.

#[global] Instance ActionRepository_Store : ActionRepository Store :=
  {| repository.Action_RetrieveActionsByAppVersion := Action_RetrieveActionsByAppVersion;
     repository.Action_Create := Action_Create |}.

#[global] Instance Clock_Store : Clock Store :=
  {| time_Now := clock_Now |}.

End Mem.

(** ** The in-memory store: app records *)

(** Modelled from the spec: the same persistence engine, with the methods
    above in the plainest reading of their names.  Deleting by app removes
    the app's rows of every version and kind; [UpdateUpdatedAt] rewrites the
    updater and the update time of the row with the given identifier; the
    listing is ordered by update time, the latest first.  A failing call
    leaves the tables alone, as for the other ports. *)
Module MemCrud.

Import Mem.

Definition App_touched (by_ : App.t) (app : App.t) : App.t :=
  {| App.ID := App.ID app;
     App.Name := App.Name app;
     App.ReleaseVersion := App.ReleaseVersion app;
     App.MainlineVersion := App.MainlineVersion app;
     App.CreatedBy := App.CreatedBy app;
     App.CreatedAt := App.CreatedAt app;
     App.UpdatedBy := App.UpdatedBy by_;
     App.UpdatedAt := App.UpdatedAt by_ |}.

Definition App_UpdateUpdatedAt (app : App.t) : Go Store (option error) :=
  fun st =>
    port (fault st)
      (fun st' =>
         match apps st' !! App.ID app with
         | Some old => (None, set_apps (<[App.ID app := App_touched app old]> (apps st')) st')
         | None => (None, st')
         end) st.

Definition App_Delete (appID : Z) : Go Store (option error) :=
  fun st =>
    port (fault st) (fun st' => (None, set_apps (delete appID (apps st')) st')) st.

Fixpoint insert_by_UpdatedAt (app : App.t) (sorted : list App.t) : list App.t :=
  match sorted with
  | [] => [app]
  | x :: rest =>
      if App.UpdatedAt x <? App.UpdatedAt app then app :: sorted
      else x :: insert_by_UpdatedAt app rest
  end.

Definition by_UpdatedAt (rows : list App.t) : list App.t :=
  foldr insert_by_UpdatedAt [] rows.

Definition App_RetrieveAllByUpdatedTime : Go Store (list App.t * option error) :=
  fun st =>
    port ([], fault st)
      (fun st' => ((by_UpdatedAt (map snd (map_to_list (apps st'))), None), st')) st.

Definition TreeState_DeleteAllTypeTreeStatesByApp (appID : Z) : Go Store (option error) :=
  fun st =>
    port (fault st)
      (fun st' =>
         (None,
          set_treestates
            (List.filter (fun row => negb (TreeState.AppRefID row =? appID)) (treestates st'))
            st')) st.

Definition KVState_DeleteAllTypeKVStatesByApp (appID : Z) : Go Store (option error) :=
  fun st =>
    port (fault st)
      (fun st' =>
         (None,
          set_kvstates
            (List.filter (fun row => negb (KVState.AppRefID row =? appID)) (kvstates st'))
            st')) st.

Definition SetState_DeleteAllTypeSetStatesByApp (appID : Z) : Go Store (option error) :=
  fun st =>
    port (fault st)
      (fun st' =>
         (None,
          set_setstates
            (List.filter (fun row => negb (SetState.AppRefID row =? appID)) (setstates st'))
            st')) st.

Definition Action_DeleteActionsByApp (appID : Z) : Go Store (option error) :=
  fun st =>
    port (fault st)
      (fun st' =>
         (None,
          set_actions
            (List.filter (fun row => negb (repository.Action.App row =? appID)) (actions st'))
            st')) st.

#[global] Instance AppRepository_crud_Store : AppRepository_crud Store :=
  {| repository_crud.App_UpdateUpdatedAt := App_UpdateUpdatedAt;
     repository_crud.App_Delete := App_Delete;
     repository_crud.App_RetrieveAllByUpdatedTime := App_RetrieveAllByUpdatedTime |}.

#[global] Instance TreeStateRepository_crud_Store : TreeStateRepository_crud Store :=
  {| repository_crud.TreeState_DeleteAllTypeTreeStatesByApp :=
       TreeState_DeleteAllTypeTreeStatesByApp |}.

#[global] Instance KVStateRepository_crud_Store : KVStateRepository_crud Store :=
  {| repository_crud.KVState_DeleteAllTypeKVStatesByApp := KVState_DeleteAllTypeKVStatesByApp |}.

#[global] Instance SetStateRepository_crud_Store : SetStateRepository_crud Store :=
  {| repository_crud.SetState_DeleteAllTypeSetStatesByApp :=
       SetState_DeleteAllTypeSetStatesByApp |}.

#[global] Instance ActionRepository_crud_Store : ActionRepository_crud Store :=
  {| repository_crud.Action_DeleteActionsByApp := Action_DeleteActionsByApp |}.

End MemCrud.

(** * Specification vocabulary *)

(** ** Shapes of JSON texts *)

Module JsonSpec.

Import Json.

Fixpoint all_digits (s : string) : bool :=
  match s with
  | EmptyString => true
  | String c r => is_digit c && all_digits r
  end.

(** The next byte cannot continue a number literal or an array element:
    the text goes on with a comma or a closing bracket. *)
Definition at_separator (s : string) : Prop :=
  exists r, s = String ","%char r \/ s = String "]"%char r.

(** A literal of the shape [FormatInt] writes: an optional minus sign, then
    a single zero or a non-zero digit followed by digits. *)
Definition int_literal (lit : string) : Prop :=
  exists sign c ds,
    lit = sign +:+ String c ds /\
    (sign = EmptyString \/ sign = String "-"%char EmptyString) /\
    is_digit c = true /\ all_digits ds = true /\
    (Ascii.eqb c "0" = true -> ds = EmptyString).

Definition scan_number_tail (sign s0 : string) : option (string * string) :=
  match scan_int_part s0 with
  | None => None
  | Some (ip, s1) =>
      match scan_frac s1 with
      | None => None
      | Some (fp, s2) =>
          match scan_exp s2 with
          | None => None
          | Some (ep, s3) => Some (sign +:+ ip +:+ fp +:+ ep, s3)
          end
      end
  end.

Definition number_of (n : Z) : value := Number (FormatInt n).

(** One call of each parser, with the recursive calls taken as given. *)
Definition value_step
    (elems : N -> string -> list value -> option (value * string))
    (members : N -> string -> list (string * value) -> option (value * string))
    (depth : N) (s : string) : option (value * string) :=
  match skip_space s with
  | EmptyString => None
  | String c r =>
      if Ascii.eqb c "[" then
        if (maxNestingDepth <? depth + 1)%N then None
        else
          match strip_prefix "]" (skip_space r) with
          | Some r' => Some (Array [], r')
          | None => elems (depth + 1)%N r []
          end
      else if Ascii.eqb c "{" then
        if (maxNestingDepth <? depth + 1)%N then None
        else
          match strip_prefix "}" (skip_space r) with
          | Some r' => Some (Object [], r')
          | None => members (depth + 1)%N r []
          end
      else if Ascii.eqb c "034" then
        match scan_string r with
        | Some (b, r') => Some (Str b, r')
        | None => None
        end
      else if Ascii.eqb c "t" then option_map (pair True_) (strip_prefix "rue" r)
      else if Ascii.eqb c "f" then option_map (pair False_) (strip_prefix "alse" r)
      else if Ascii.eqb c "n" then option_map (pair Null) (strip_prefix "ull" r)
      else
        match scan_number (String c r) with
        | Some (lit, r') => Some (Number lit, r')
        | None => None
        end
  end.

Definition elems_step
    (value_ : N -> string -> option (value * string))
    (elems : N -> string -> list value -> option (value * string))
    (depth : N) (s : string) (acc : list value) : option (value * string) :=
  match value_ depth s with
  | None => None
  | Some (v, r) =>
      match skip_space r with
      | String c r' =>
          if Ascii.eqb c "," then elems depth r' (v :: acc)
          else if Ascii.eqb c "]" then Some (Array (rev (v :: acc)), r')
          else None
      | EmptyString => None
      end
  end.

Definition members_step
    (value_ : N -> string -> option (value * string))
    (members : N -> string -> list (string * value) -> option (value * string))
    (depth : N) (s : string) (acc : list (string * value)) : option (value * string) :=
  match strip_prefix quote (skip_space s) with
  | None => None
  | Some r =>
      match scan_string r with
      | None => None
      | Some (k, r1) =>
          match strip_prefix ":" (skip_space r1) with
          | None => None
          | Some r2 =>
              match value_ depth r2 with
              | None => None
              | Some (v, r3) =>
                  match skip_space r3 with
                  | String c r4 =>
                      if Ascii.eqb c "," then members depth r4 ((k, v) :: acc)
                      else if Ascii.eqb c "}" then Some (Object (rev ((k, v) :: acc)), r4)
                      else None
                  | EmptyString => None
                  end
              end
          end
      end
  end.

Definition consumes {A} (f : N -> string -> A -> option (value * string)) : Prop :=
  forall depth s a v r, f depth s a = Some (v, r) ->
                        (String.length r <= String.length s)%nat.

Definition consumes_value (f : N -> string -> option (value * string)) : Prop :=
  forall depth s v r, f depth s = Some (v, r) ->
                      (String.length r <= String.length s)%nat.

End JsonSpec.

(** ** Inputs of convertLink *)

(** [idMap] sends every identifier of the list to itself. *)
Definition identity_on (idMap : gmap Z Z) (ids : list Z) : Prop :=
  Forall (fun id => map_index idMap id = id) ids.

(** A text is malformed for the decoder when it is no JSON text, when it is
    a JSON value other than an array or [null], or when it is an array with
    an element that is neither [null] nor an integer literal in range. *)
Definition decodable (v : Json.value) : bool :=
  match v with
  | Json.Null => true
  | Json.Number lit => match Json.ParseInt lit with Some _ => true | None => false end
  | _ => false
  end.

Definition malformed (ref : string) : bool :=
  match Json.parse ref with
  | None => true
  | Some Json.Null => false
  | Some (Json.Array vs) => negb (forallb decodable vs)
  | Some _ => true
  end.

(** A text is a well-formed encoding when the encoder writes it for some
    list of identifiers. *)
Definition well_formed_encoding (ref : string) : Prop :=
  exists ids, Forall is_int ids /\ ref = fst (Json.Marshal_ints ids).

(** ** Port calls of the store *)

Module StoreSpec.

Import Mem.

Definition tick (st : Store) : Store := set_calls (S (calls st)) st.

(** [n] port calls later, with the tables untouched. *)
Fixpoint ticks (n : nat) (st : Store) : Store :=
  match n with
  | O => st
  | S n' => ticks n' (tick st)
  end.

End StoreSpec.

(** ** The editor document *)

Section EditorVocabulary.

Import Mem StoreSpec.

Context {ComponentNode JsonObject : Type}.
Variable buildComponentTree :
  TreeState.t -> gmap Z TreeState.t -> option ComponentNode ->
  option ComponentNode * option error.
Variable Unmarshal_strings : string -> list string * option error.
Variable Unmarshal_object : string -> JsonObject * option error.

(** The action's type is an index into [type_array]. *)
Definition valid_type (value : repository.Action.t) : bool :=
  (0 <=? repository.Action.Type_ value) && (repository.Action.Type_ value <? 22).

Definition type_in_range (value : repository.Action.t) : Prop :=
  0 <= repository.Action.Type_ value <= 21.

(** The document's view of a stored action with a valid type. *)
Definition Action_of (value : repository.Action.t) : Action.t :=
  {| Action.ID := repository.Action.ID value;
     Action.App := 0;
     Action.Version := 0;
     Action.Resource := repository.Action.Resource value;
     Action.DisplayName := repository.Action.Name value;
     Action.Type_ := nth (Z.to_nat (repository.Action.Type_ value)) type_array EmptyString;
     Action.Template := repository.Action.Template value;
     Action.Transformer := repository.Action.Transformer value;
     Action.TriggerMode := repository.Action.TriggerMode value;
     Action.CreatedAt := repository.Action.CreatedAt value;
     Action.CreatedBy := repository.Action.CreatedBy value;
     Action.UpdatedAt := repository.Action.UpdatedAt value;
     Action.UpdatedBy := repository.Action.UpdatedBy value |}.

Definition formatActions_turn (_ : Z) (value : repository.Action.t) (resSlice : list Action.t)
  : Go Store (turn repository.Action.t (list Action.t)
                   (option (list Action.t) * option error)) :=
  let* type_ := array_index type_array (repository.Action.Type_ value) in
  ret (Continue value
         (resSlice ++
          [ {| Action.ID := repository.Action.ID value;
               Action.App := 0;
               Action.Version := 0;
               Action.Resource := repository.Action.Resource value;
               Action.DisplayName := repository.Action.Name value;
               Action.Type_ := type_;
               Action.Template := repository.Action.Template value;
               Action.Transformer := repository.Action.Transformer value;
               Action.TriggerMode := repository.Action.TriggerMode value;
               Action.CreatedAt := repository.Action.CreatedAt value;
               Action.CreatedBy := repository.Action.CreatedBy value;
               Action.UpdatedAt := repository.Action.UpdatedAt value;
               Action.UpdatedBy := repository.Action.UpdatedBy value |} ])).

(** A computation that returns after exactly one port call and leaves the
    tables alone. *)
Definition one_call {A} (c : Go Store A) : Prop :=
  forall st, exists a, c st = (Returned a, tick st).

Definition retrieved_actions (appID version : Z) (st : Store) : list repository.Action.t :=
  List.filter (Action_in appID version) (actions st).

Definition retrieved_components (appID version : Z) (st : Store) : list TreeState.t :=
  List.filter
    (fun row => TreeState_in appID version row
                && StateType_eqb (TreeState.StateType row) TREE_STATE_TYPE_COMPONENTS)
    (treestates st).

Definition retrieved_kvstates (appID : Z) (kind : StateType) (version : Z) (st : Store)
  : list KVState.t :=
  List.filter
    (fun row => KVState_in appID version row && StateType_eqb (KVState.StateType row) kind)
    (kvstates st).

Definition retrieved_setstates (appID : Z) (kind : StateType) (version : Z) (st : Store)
  : list SetState.t :=
  List.filter
    (fun row => (SetState.AppRefID row =? appID) && (SetState.Version row =? version)
                && StateType_eqb (SetState.StateType row) kind)
    (setstates st).

(** A map filled row by row: a later row with the same key wins. *)
Definition keyed {V} (value_of : KVState.t -> V) (rows : list KVState.t) : gmap string V :=
  fold_left (fun resMap row => <[KVState.Key row := value_of row]> resMap) rows ∅.

(** The app was read and the version check passed: what is left of
    [fetchEditor] runs against [st]. *)
Definition assemble (app : App.t) (appID version : Z)
  : Go Store (Editor.t ComponentNode JsonObject * option error) :=
  let* (userRecord, _) := repository.User_RetrieveByID (App.UpdatedBy app) in
  let appInfo :=
    {| AppDto.ID := App.ID app;
       AppDto.Name := App.Name app;
       AppDto.ReleaseVersion := App.ReleaseVersion app;
       AppDto.MainlineVersion := App.MainlineVersion app;
       AppDto.CreatedBy := 0;
       AppDto.CreatedAt := 0;
       AppDto.UpdatedBy := App.UpdatedBy app;
       AppDto.UpdatedAt := App.UpdatedAt app;
       AppDto.AppActivity :=
         {| AppActivity.Modifier := User.Nickname userRecord;
            AppActivity.ModifiedAt := User.UpdatedAt userRecord |} |} in
  let* (actions, _) := formatActions appID version in
  let* (components, _) := formatComponents buildComponentTree appID version in
  let* (dependenciesState, _) := formatDependenciesState Unmarshal_strings appID version in
  let* (dragShadowState, _) := formatDragShadowState Unmarshal_object appID version in
  let* (dottedLineSquareState, _) :=
    formatDottedLineSquareState Unmarshal_object appID version in
  let* (displayNameState, _) := formatDisplayNameState appID version in
  ret ({| Editor.AppInfo := appInfo;
          Editor.Actions := actions;
          Editor.Components := components;
          Editor.DependenciesState := dependenciesState;
          Editor.DragShadowState := dragShadowState;
          Editor.DottedLineSquareState := dottedLineSquareState;
          Editor.DisplayNameState := displayNameState |}, None).

End EditorVocabulary.

(** ** Storage failures during a clone *)

Module CloneSpec.

Import Mem StoreSpec.

(** What a clone step leaves alone: the app and user tables and the fault
    plan; the call counter only grows. *)
Definition frame (st st' : Store) : Prop :=
  apps st' = apps st /\ users st' = users st /\ faults st' = faults st /\
  (calls st <= calls st')%nat.

(** How the result of a run relates to the port calls it made, numbered
    [calls st] to [calls st' - 1]: a nil error means none of them failed; an
    error [e] means the last of them failed with [e] and none before it
    did. *)
Definition trace (st st' : Store) (r : option error) : Prop :=
  match r with
  | None => forall c, (calls st <= c < calls st')%nat -> faults st c = None
  | Some e =>
      (calls st < calls st')%nat /\
      (forall c, (calls st <= c < calls st' - 1)%nat -> faults st c = None) /\
      faults st (calls st' - 1)%nat = Some e
  end.

(** A computation that always returns, within the frame, and whose error
    (read off its result by [err_of]) is that of its last port call. *)
Definition traced {A} (err_of : A -> option error) (c : Go Store A) : Prop :=
  forall st, exists a st',
    c st = (Returned a, st') /\ frame st st' /\ trace st st' (err_of a).

(** A clone step fails fast: it returns, and an error it returns is the
    error of the first port call that failed, after which it made no other
    call. *)
Definition fails_fast (c : Go Store (option error)) : Prop := traced id c.

Definition turn_error {X S} (t : turn X S (option error)) : option error :=
  match t with
  | Continue _ _ => None
  | Return r => r
  end.

Definition range_error {X S} (r : list X * S + option error) : option error :=
  match r with
  | inl _ => None
  | inr e => e
  end.

(** The app row as [ReleaseApp] writes it back: both counters one past the
    mainline version. *)
Definition released (app : App.t) : App.t :=
  {| App.ID := App.ID app;
     App.Name := App.Name app;
     App.ReleaseVersion := int_add (App.MainlineVersion app) 1;
     App.MainlineVersion := int_add (App.MainlineVersion app) 1;
     App.CreatedBy := App.CreatedBy app;
     App.CreatedAt := App.CreatedAt app;
     App.UpdatedBy := App.UpdatedBy app;
     App.UpdatedAt := App.UpdatedAt app |}.

End CloneSpec.

(** ** The two-phase tree clone *)

Module TreeCloneSpec.

Import Mem StoreSpec.

(** The next [n] port calls succeed. *)
Definition no_faults (st : Store) (n : nat) : Prop :=
  forall c, (calls st <= c < calls st + n)%nat -> faults st c = None.

(** What the first loop records: serial -> identifier of the source row. *)
Fixpoint index_map (i : Z) (rows : list TreeState.t) (m : gmap Z Z) : gmap Z Z :=
  match rows with
  | [] => m
  | row :: rows' => index_map (i + 1) rows' (<[i := TreeState.ID row]> m)
  end.

(** What the second loop records: old identifier -> new identifier, the new
    identifiers being consecutive from [n]. *)
Fixpoint id_map (olds : list Z) (n : Z) (m : gmap Z Z) : gmap Z Z :=
  match olds with
  | [] => m
  | old :: olds' => id_map olds' (n + 1) (<[old := n]> m)
  end.

(** The rows as the store hands them back from the inserts. *)
Fixpoint assign (n : Z) (rows : list TreeState.t) : list TreeState.t :=
  match rows with
  | [] => []
  | row :: rows' => TreeState_with_ID n row :: assign (n + 1) rows'
  end.

(** A source row made ready for insertion into the target scope: the
    identifier cleared, the references and the payload untouched. *)
Definition staged (appB version : Z) (src row : TreeState.t) : Prop :=
  TreeState.ID row = 0 /\
  TreeState.StateType row = TreeState.StateType src /\
  TreeState.ParentNodeRefID row = TreeState.ParentNodeRefID src /\
  TreeState.ChildrenNodeRefIDs row = TreeState.ChildrenNodeRefIDs src /\
  TreeState.Name row = TreeState.Name src /\
  TreeState.Content row = TreeState.Content src /\
  TreeState.AppRefID row = appB /\
  TreeState.Version row = version.


(** The rows that belong to the draft of an app. *)
Definition tree_source (appID : Z) (st : Store) : list TreeState.t :=
  List.filter (TreeState_in appID APP_EDIT_VERSION) (treestates st).

(** The store generated every identifier it holds: identifiers are
    positive, below the next serial, and unique. *)
Definition store_wf (st : Store) : Prop :=
  0 < next_id st /\
  (forall row, In row (treestates st) -> 0 < TreeState.ID row < next_id st) /\
  List.NoDup (map TreeState.ID (treestates st)).

Definition decoded_children (row : TreeState.t) (kids : list Z) : Prop :=
  Json.Unmarshal_ints (TreeState.ChildrenNodeRefIDs row) = (kids, None).






End TreeCloneSpec.

(** ** A small app, for concrete runs *)

Module Demo.

Import Mem.

Definition node (id parent : Z) (children name : string) : TreeState.t :=
  {| TreeState.ID := id;
     TreeState.StateType := TREE_STATE_TYPE_COMPONENTS;
     TreeState.ParentNodeRefID := parent;
     TreeState.ChildrenNodeRefIDs := children;
     TreeState.AppRefID := 5;
     TreeState.Version := 0;
     TreeState.Name := name;
     TreeState.Content := "{}";
     TreeState.CreatedAt := 0;
     TreeState.CreatedBy := 1;
     TreeState.UpdatedAt := 0;
     TreeState.UpdatedBy := 1 |}.

Definition kv (id : Z) (kind : StateType) (key value : string) : KVState.t :=
  {| KVState.ID := id;
     KVState.StateType := kind;
     KVState.AppRefID := 5;
     KVState.Version := 0;
     KVState.Key := key;
     KVState.Value := value;
     KVState.CreatedAt := 0;
     KVState.CreatedBy := 1;
     KVState.UpdatedAt := 0;
     KVState.UpdatedBy := 1 |}.

Definition action (id type_ : Z) : repository.Action.t :=
  {| repository.Action.ID := id;
     repository.Action.App := 5;
     repository.Action.Version := 0;
     repository.Action.Resource := 0;
     repository.Action.Name := "query1";
     repository.Action.Type_ := type_;
     repository.Action.TriggerMode := "manually";
     repository.Action.Transformer := "{}";
     repository.Action.Template := "{}";
     repository.Action.CreatedAt := 0;
     repository.Action.CreatedBy := 1;
     repository.Action.UpdatedAt := 0;
     repository.Action.UpdatedBy := 1 |}.

Definition app5 : App.t :=
  {| App.ID := 5;
     App.Name := "A";
     App.ReleaseVersion := 0;
     App.MainlineVersion := 0;
     App.CreatedBy := 1;
     App.CreatedAt := 0;
     App.UpdatedBy := 1;
     App.UpdatedAt := 0 |}.

Definition disk_full : error := errorString "disk full".

(** App 5 with a root and two leaves, one dotted-line-square row and one
    action of type [type_]; the port calls numbered in [failing] fail. *)
Definition store (type_ : Z) (failing : list nat) : Store :=
  {| apps := <[5 := app5]> ∅;
     users := ∅;
     treestates := [node 1 0 "[2,3]" "root"; node 2 1 "[]" "a"; node 3 1 "[]" "b"];
     kvstates := [kv 4 KV_STATE_TYPE_DOTTED_LINE_SQUARE "line1" "{}"];
     setstates := [];
     actions := [action 6 type_];
     next_id := 10;
     now := 100;
     calls := 0;
     faults := fun c => if existsb (Nat.eqb c) failing then Some disk_full else None |}.

Definition no_components (r : TreeState.t) (m : gmap Z TreeState.t) (p : option unit)
  : option unit * option error := (Some tt, None).

Definition no_strings (s : string) : list string * option error := ([], None).

Definition no_object (s : string) : unit * option error := (tt, None).

End Demo.

(** ** Mappings of identifiers *)

(** [idMap12] is [idMap1] followed by [idMap2] on the identifiers of the
    list. *)
Definition composed_on (idMap1 idMap2 idMap12 : gmap Z Z) (ids : list Z) : Prop :=
  Forall (fun id => map_index idMap12 id = map_index idMap2 (map_index idMap1 id)) ids.

(** Every identifier the mapping hands out is a Go [int]. *)
Definition int_valued (idMap : gmap Z Z) : Prop :=
  forall old new, idMap !! old = Some new -> is_int new.

(** ** Runs of the store in closed form *)

Module GrowSpec.

Import Mem StoreSpec.

(** The store after a run that appended rows to the four state tables, drew
    one identifier per row, read the clock and made [n] port calls. *)
Definition grow (t : list TreeState.t) (k : list KVState.t) (s : list SetState.t)
    (a : list repository.Action.t) (clock : Z) (n : nat) (st : Store) : Store :=
  {| apps := apps st;
     users := users st;
     treestates := treestates st ++ t;
     kvstates := kvstates st ++ k;
     setstates := setstates st ++ s;
     actions := actions st ++ a;
     next_id :=
       next_id st + Z.of_nat (length t) + Z.of_nat (length k) + Z.of_nat (length s)
       + Z.of_nat (length a);
     now := now st + clock;
     calls := (calls st + n)%nat;
     faults := faults st |}.

(** The store after a loop of inserts, [ins] being what one successful
    insert does to the tables. *)
Definition insert_all {X} (ins : X -> Store -> Store) (xs : list X) (st : Store) : Store :=
  fold_left (fun st x => ins x (tick st)) xs st.

(** No port call fails, now or later. *)
Definition never_fails (st : Store) : Prop := forall c, faults st c = None.

End GrowSpec.

(** ** The clones of the flat kinds *)

Module FlatCloneSpec.

Import Mem StoreSpec TreeCloneSpec GrowSpec.

(** The draft rows a clone of each flat kind reads. *)
Definition kv_source (appID : Z) (st : Store) : list KVState.t :=
  List.filter (KVState_in appID APP_EDIT_VERSION) (kvstates st).

Definition set_source (appID : Z) (st : Store) : list SetState.t :=
  retrieved_setstates appID SET_STATE_TYPE_DISPLAY_NAME APP_EDIT_VERSION st.

Definition action_source (appID : Z) (st : Store) : list repository.Action.t :=
  retrieved_actions appID APP_EDIT_VERSION st.

(** A set row lies in the scope ([appID], [version]). *)
Definition SetState_in (appID version : Z) (row : SetState.t) : bool :=
  (SetState.AppRefID row =? appID) && (SetState.Version row =? version).

(** The identifiers of [clones] are the serials from [n] on, in order. *)
Definition numbered_from {X} (ID : X -> Z) (n : Z) (clones : list X) : Prop :=
  map ID clones = seqZ n (Z.of_nat (length clones)).

(** A duplicated row: the payload of the source in the draft of [appB],
    created and updated by [user] at the time of the copy. *)
Definition kv_copied (appB user : Z) (since : Time) (src clone : KVState.t) : Prop :=
  KVState.StateType clone = KVState.StateType src /\
  KVState.Key clone = KVState.Key src /\
  KVState.Value clone = KVState.Value src /\
  KVState.AppRefID clone = appB /\
  KVState.Version clone = APP_EDIT_VERSION /\
  KVState.CreatedBy clone = user /\
  KVState.UpdatedBy clone = user /\
  since <= KVState.CreatedAt clone <= KVState.UpdatedAt clone.

(** A released row: the source with a new version, audit fields included. *)
Definition kv_released (version : Z) (src clone : KVState.t) : Prop :=
  KVState.StateType clone = KVState.StateType src /\
  KVState.Key clone = KVState.Key src /\
  KVState.Value clone = KVState.Value src /\
  KVState.AppRefID clone = KVState.AppRefID src /\
  KVState.Version clone = version /\
  KVState.CreatedBy clone = KVState.CreatedBy src /\
  KVState.UpdatedBy clone = KVState.UpdatedBy src /\
  KVState.CreatedAt clone = KVState.CreatedAt src /\
  KVState.UpdatedAt clone = KVState.UpdatedAt src.

Definition set_copied (appB user : Z) (since : Time) (src clone : SetState.t) : Prop :=
  SetState.StateType clone = SetState.StateType src /\
  SetState.Value clone = SetState.Value src /\
  SetState.AppRefID clone = appB /\
  SetState.Version clone = APP_EDIT_VERSION /\
  SetState.CreatedBy clone = user /\
  SetState.UpdatedBy clone = user /\
  since <= SetState.CreatedAt clone <= SetState.UpdatedAt clone.

Definition set_released (version : Z) (src clone : SetState.t) : Prop :=
  SetState.StateType clone = SetState.StateType src /\
  SetState.Value clone = SetState.Value src /\
  SetState.AppRefID clone = SetState.AppRefID src /\
  SetState.Version clone = version /\
  SetState.CreatedBy clone = SetState.CreatedBy src /\
  SetState.UpdatedBy clone = SetState.UpdatedBy src /\
  SetState.CreatedAt clone = SetState.CreatedAt src /\
  SetState.UpdatedAt clone = SetState.UpdatedAt src.

(** What an action keeps through any clone. *)
Definition same_action (src clone : repository.Action.t) : Prop :=
  repository.Action.Resource clone = repository.Action.Resource src /\
  repository.Action.Name clone = repository.Action.Name src /\
  repository.Action.Type_ clone = repository.Action.Type_ src /\
  repository.Action.TriggerMode clone = repository.Action.TriggerMode src /\
  repository.Action.Transformer clone = repository.Action.Transformer src /\
  repository.Action.Template clone = repository.Action.Template src.

Definition action_copied (appB user : Z) (since : Time) (src clone : repository.Action.t)
  : Prop :=
  same_action src clone /\
  repository.Action.App clone = appB /\
  repository.Action.Version clone = APP_EDIT_VERSION /\
  repository.Action.CreatedBy clone = user /\
  repository.Action.UpdatedBy clone = user /\
  since <= repository.Action.CreatedAt clone <= repository.Action.UpdatedAt clone.

Definition action_released (version : Z) (src clone : repository.Action.t) : Prop :=
  same_action src clone /\
  repository.Action.App clone = repository.Action.App src /\
  repository.Action.Version clone = version /\
  repository.Action.CreatedBy clone = repository.Action.CreatedBy src /\
  repository.Action.UpdatedBy clone = repository.Action.UpdatedBy src /\
  repository.Action.CreatedAt clone = repository.Action.CreatedAt src /\
  repository.Action.UpdatedAt clone = repository.Action.UpdatedAt src.

(** What a staging loop does to the rows: the audit stamps are read off the
    clock, two readings per row; a loop that reads no clock maps the rows. *)
Fixpoint stamp_all {X} (f : Time -> Time -> X -> X) (t : Time) (xs : list X) : list X :=
  match xs with
  | [] => []
  | x :: xs' => f t (t + 1) x :: stamp_all f (t + 2) xs'
  end.

(** The loop's variables after a loop whose body updates them by [g]. *)
Fixpoint fold_index {X S} (g : Z -> X -> S -> S) (i : Z) (xs : list X) (s : S) : S :=
  match xs with
  | [] => s
  | x :: xs' => fold_index g (i + 1) xs' (g i x s)
  end.

(** The rows as the store numbers them on insertion. *)
Fixpoint number {X} (with_ID : Z -> X -> X) (n : Z) (rows : list X) : list X :=
  match rows with
  | [] => []
  | row :: rows' => with_ID n row :: number with_ID (n + 1) rows'
  end.

(** The shape the clone steps of the flat kinds share: retrieve the draft
    rows, stage them, insert them one by one. *)
Definition flat_step {X} (retrieve : Go Store (list X * option error))
    (stage create : Z -> X -> unit -> Go Store (turn X unit (option error)))
  : Go Store (option error) :=
  let* (rows, err) := retrieve in
  match err with
  | Some e => ret (Some e)
  | None =>
      let* r := range (R := option error) rows tt stage in
      match r with
      | inr e => ret e
      | inl (rows, _) =>
          let* r := range rows tt create in
          match r with
          | inr e => ret e
          | inl _ => ret None
          end
      end
  end.

(** *** Key-value rows *)

(** What one successful insert does, and the body of the insert loop. *)
Definition KV_insert (x : KVState.t) (st : Store) : Store :=
  set_next_id (next_id st + 1)
    (set_kvstates (kvstates st ++ [KVState_with_ID (next_id st) x]) st).

Definition KV_create (_ : Z) (x : KVState.t) (_ : unit)
  : Go Store (turn KVState.t unit (option error)) :=
  let* err := repository.KVState_Create x in
  match err with
  | Some e => ret (Return (Some e))
  | None => ret (Continue x tt)
  end.

(** The row a duplicate stages, and the row a release stages. *)
Definition KV_stamp (appB user : Z) (createdAt updatedAt : Time) (row : KVState.t) : KVState.t :=
  {| KVState.ID := 0;
     KVState.StateType := KVState.StateType row;
     KVState.AppRefID := appB;
     KVState.Version := APP_EDIT_VERSION;
     KVState.Key := KVState.Key row;
     KVState.Value := KVState.Value row;
     KVState.CreatedAt := createdAt;
     KVState.CreatedBy := user;
     KVState.UpdatedAt := updatedAt;
     KVState.UpdatedBy := user |}.

Definition KV_restage (version : Z) (row : KVState.t) : KVState.t :=
  {| KVState.ID := 0;
     KVState.StateType := KVState.StateType row;
     KVState.AppRefID := KVState.AppRefID row;
     KVState.Version := version;
     KVState.Key := KVState.Key row;
     KVState.Value := KVState.Value row;
     KVState.CreatedAt := KVState.CreatedAt row;
     KVState.CreatedBy := KVState.CreatedBy row;
     KVState.UpdatedAt := KVState.UpdatedAt row;
     KVState.UpdatedBy := KVState.UpdatedBy row |}.

(** *** Set rows *)

(** What one successful insert does, and the body of the insert loop. *)
Definition Set_insert (x : SetState.t) (st : Store) : Store :=
  set_next_id (next_id st + 1)
    (set_setstates (setstates st ++ [SetState_with_ID (next_id st) x]) st).

Definition Set_create (_ : Z) (x : SetState.t) (_ : unit)
  : Go Store (turn SetState.t unit (option error)) :=
  let* err := repository.SetState_Create x in
  match err with
  | Some e => ret (Return (Some e))
  | None => ret (Continue x tt)
  end.

(** The row a duplicate stages, and the row a release stages. *)
Definition Set_stamp (appB user : Z) (createdAt updatedAt : Time) (row : SetState.t) : SetState.t :=
  {| SetState.ID := 0;
     SetState.StateType := SetState.StateType row;
     SetState.AppRefID := appB;
     SetState.Version := APP_EDIT_VERSION;
     SetState.Value := SetState.Value row;
     SetState.CreatedAt := createdAt;
     SetState.CreatedBy := user;
     SetState.UpdatedAt := updatedAt;
     SetState.UpdatedBy := user |}.

Definition Set_restage (version : Z) (row : SetState.t) : SetState.t :=
  {| SetState.ID := 0;
     SetState.StateType := SetState.StateType row;
     SetState.AppRefID := SetState.AppRefID row;
     SetState.Version := version;
     SetState.Value := SetState.Value row;
     SetState.CreatedAt := SetState.CreatedAt row;
     SetState.CreatedBy := SetState.CreatedBy row;
     SetState.UpdatedAt := SetState.UpdatedAt row;
     SetState.UpdatedBy := SetState.UpdatedBy row |}.

(** *** Action rows *)

(** What one successful insert does, and the body of the insert loop. *)
Definition Action_insert (x : repository.Action.t) (st : Store) : Store :=
  set_next_id (next_id st + 1)
    (set_actions (actions st ++ [Action_with_ID (next_id st) x]) st).

Definition Action_create (_ : Z) (x : repository.Action.t) (_ : unit)
  : Go Store (turn repository.Action.t unit (option error)) :=
  let* (_, err) := repository.Action_Create x in
  match err with
  | Some e => ret (Return (Some e))
  | None => ret (Continue x tt)
  end.

(** The row a duplicate stages, and the row a release stages. *)
Definition Action_stamp (appB user : Z) (createdAt updatedAt : Time) (row : repository.Action.t) :
    repository.Action.t :=
  {| repository.Action.ID := 0;
     repository.Action.App := appB;
     repository.Action.Version := APP_EDIT_VERSION;
     repository.Action.Resource := repository.Action.Resource row;
     repository.Action.Name := repository.Action.Name row;
     repository.Action.Type_ := repository.Action.Type_ row;
     repository.Action.TriggerMode := repository.Action.TriggerMode row;
     repository.Action.Transformer := repository.Action.Transformer row;
     repository.Action.Template := repository.Action.Template row;
     repository.Action.CreatedAt := createdAt;
     repository.Action.CreatedBy := user;
     repository.Action.UpdatedAt := updatedAt;
     repository.Action.UpdatedBy := user |}.

Definition Action_restage (version : Z) (row : repository.Action.t) : repository.Action.t :=
  {| repository.Action.ID := 0;
     repository.Action.App := repository.Action.App row;
     repository.Action.Version := version;
     repository.Action.Resource := repository.Action.Resource row;
     repository.Action.Name := repository.Action.Name row;
     repository.Action.Type_ := repository.Action.Type_ row;
     repository.Action.TriggerMode := repository.Action.TriggerMode row;
     repository.Action.Transformer := repository.Action.Transformer row;
     repository.Action.Template := repository.Action.Template row;
     repository.Action.CreatedAt := repository.Action.CreatedAt row;
     repository.Action.CreatedBy := repository.Action.CreatedBy row;
     repository.Action.UpdatedAt := repository.Action.UpdatedAt row;
     repository.Action.UpdatedBy := repository.Action.UpdatedBy row |}.

End FlatCloneSpec.

(** ** The tree clone, step by step *)

Module TreeRunSpec.

Import Mem StoreSpec TreeCloneSpec GrowSpec FlatCloneSpec.

(** The tree row a duplicate stages, and the row a release stages. *)
Definition Tree_stamp (appB user : Z) (createdAt updatedAt : Time) (row : TreeState.t)
  : TreeState.t :=
  {| TreeState.ID := 0;
     TreeState.StateType := TreeState.StateType row;
     TreeState.ParentNodeRefID := TreeState.ParentNodeRefID row;
     TreeState.ChildrenNodeRefIDs := TreeState.ChildrenNodeRefIDs row;
     TreeState.AppRefID := appB;
     TreeState.Version := APP_EDIT_VERSION;
     TreeState.Name := TreeState.Name row;
     TreeState.Content := TreeState.Content row;
     TreeState.CreatedAt := createdAt;
     TreeState.CreatedBy := user;
     TreeState.UpdatedAt := updatedAt;
     TreeState.UpdatedBy := user |}.

Definition Tree_restage (version : Z) (row : TreeState.t) : TreeState.t :=
  {| TreeState.ID := 0;
     TreeState.StateType := TreeState.StateType row;
     TreeState.ParentNodeRefID := TreeState.ParentNodeRefID row;
     TreeState.ChildrenNodeRefIDs := TreeState.ChildrenNodeRefIDs row;
     TreeState.AppRefID := TreeState.AppRefID row;
     TreeState.Version := version;
     TreeState.Name := TreeState.Name row;
     TreeState.Content := TreeState.Content row;
     TreeState.CreatedAt := TreeState.CreatedAt row;
     TreeState.CreatedBy := TreeState.CreatedBy row;
     TreeState.UpdatedAt := TreeState.UpdatedAt row;
     TreeState.UpdatedBy := TreeState.UpdatedBy row |}.

(** The shape the two tree clones share: retrieve the draft rows, stage
    them while recording their identifiers, insert them, relink them. *)
Definition tree_step (retrieve : Go Store (list TreeState.t * option error))
    (stage : Z -> TreeState.t -> gmap Z Z ->
             Go Store (turn TreeState.t (gmap Z Z) (option error)))
  : Go Store (option error) :=
  let* (treestates, err) := retrieve in
  match err with
  | Some e => ret (Some e)
  | None =>
      let* r := range (R := option error) treestates (∅ : gmap Z Z) stage in
      match r with
      | inr e => ret e
      | inl (treestates, indexIDMap) =>
          let* r := create_treestates indexIDMap treestates in
          match r with
          | inr e => ret e
          | inl (treestates, releaseIDMap) =>
              let* r := relink_treestates releaseIDMap treestates in
              match r with
              | inr e => ret e
              | inl _ => ret None
              end
          end
      end
  end.

(** A cloned row that was inserted but not relinked: the source in the
    target scope, its references still those of the source. *)
Definition unrelinked (src clone : TreeState.t) : Prop :=
  TreeState.ParentNodeRefID clone = TreeState.ParentNodeRefID src /\
  TreeState.ChildrenNodeRefIDs clone = TreeState.ChildrenNodeRefIDs src /\
  TreeState.StateType clone = TreeState.StateType src /\
  TreeState.Name clone = TreeState.Name src /\
  TreeState.Content clone = TreeState.Content src.

(** A cloned row that was relinked through [m]: the source with its parent
    and its children sent through the mapping. *)
Definition relinked_by (m : gmap Z Z) (src clone : TreeState.t) : Prop :=
  TreeState.ParentNodeRefID clone = map_index m (TreeState.ParentNodeRefID src) /\
  TreeState.ChildrenNodeRefIDs clone = convertLink (TreeState.ChildrenNodeRefIDs src) m /\
  TreeState.StateType clone = TreeState.StateType src /\
  TreeState.Name clone = TreeState.Name src /\
  TreeState.Content clone = TreeState.Content src.

End TreeRunSpec.

(** ** What the coordinators leave alone *)

Module CoordinatorSpec.

Import Mem StoreSpec TreeCloneSpec GrowSpec FlatCloneSpec.

(** The rows of the scope ([appID], [version]) are the same in both stores,
    table by table and in the same order: every retrieval for that scope
    answers alike. *)
Definition same_reads (appID version : Z) (st st' : Store) : Prop :=
  List.filter (TreeState_in appID version) (treestates st') =
  List.filter (TreeState_in appID version) (treestates st) /\
  List.filter (KVState_in appID version) (kvstates st') =
  List.filter (KVState_in appID version) (kvstates st) /\
  List.filter (SetState_in appID version) (setstates st') =
  List.filter (SetState_in appID version) (setstates st) /\
  List.filter (Action_in appID version) (actions st') =
  List.filter (Action_in appID version) (actions st).

(** No row lies in the scope ([appID], [version]). *)
Definition empty_scope (appID version : Z) (st : Store) : Prop :=
  List.filter (TreeState_in appID version) (treestates st) = [] /\
  List.filter (KVState_in appID version) (kvstates st) = [] /\
  List.filter (SetState_in appID version) (setstates st) = [] /\
  List.filter (Action_in appID version) (actions st) = [].

(** The user record a lookup hands to the service: the zero record when
    the call fails or the user is unknown. *)
Definition user_seen (id : Z) (st : Store) : User.t :=
  match fault st with
  | Some _ => User.zero
  | None => default User.zero (users st !! id)
  end.

(** The app row [DuplicateApp] inserts. *)
Definition duplicated_app (userID : Z) (name : string) (st : Store) : App.t :=
  {| App.ID := next_id st;
     App.Name := name;
     App.ReleaseVersion := 0;
     App.MainlineVersion := 0;
     App.CreatedBy := userID;
     App.CreatedAt := now st;
     App.UpdatedBy := userID;
     App.UpdatedAt := now st + 1 |}.

(** The store with [app] inserted under the next serial, [clock] clock
    readings and [n] port calls after [st]. *)
Definition with_app (app : App.t) (clock : Z) (n : nat) (st : Store) : Store :=
  {| apps := <[next_id st := app]> (apps st);
     users := users st;
     treestates := treestates st;
     kvstates := kvstates st;
     setstates := setstates st;
     actions := actions st;
     next_id := next_id st + 1;
     now := now st + clock;
     calls := (calls st + n)%nat;
     faults := faults st |}.

(** What [DuplicateApp] returns for the new app. *)
Definition duplicate_dto (userID : Z) (name : string) (st : Store) : AppDto.t :=
  let actor := user_seen userID (with_app (duplicated_app userID name st) 2 2 st) in
  {| AppDto.ID := next_id st;
     AppDto.Name := name;
     AppDto.ReleaseVersion := 0;
     AppDto.MainlineVersion := 0;
     AppDto.CreatedBy := userID;
     AppDto.CreatedAt := now st;
     AppDto.UpdatedBy := userID;
     AppDto.UpdatedAt := now st + 1;
     AppDto.AppActivity :=
       {| AppActivity.Modifier := User.Nickname actor;
          AppActivity.ModifiedAt := User.UpdatedAt actor |} |}.

End CoordinatorSpec.

(** ** The document in closed form *)

Section DocumentVocabulary.

Import Mem StoreSpec TreeCloneSpec GrowSpec FlatCloneSpec CoordinatorSpec.

Context {ComponentNode JsonObject : Type}.
Variable buildComponentTree :
  TreeState.t -> gmap Z TreeState.t -> option ComponentNode ->
  option ComponentNode * option error.
Variable Unmarshal_strings : string -> list string * option error.
Variable Unmarshal_object : string -> JsonObject * option error.

(** What the loop of [formatComponents] builds from the retrieved rows: the
    rows by identifier, and the root. *)
Definition component_index (rows : list TreeState.t) : gmap Z TreeState.t * TreeState.t :=
  fold_left
    (fun '(tempMap, root) component =>
       (<[TreeState.ID component := component]> tempMap,
        if String.eqb (TreeState.Name component) TREE_STATE_SUMMIT_NAME
        then component else root))
    rows ((∅ : gmap Z TreeState.t), TreeState.zero).

(** The components field of the document. *)
Definition component_tree (rows : list TreeState.t) : option ComponentNode :=
  match rows with
  | [] => None
  | _ => fst (buildComponentTree (snd (component_index rows)) (fst (component_index rows)) None)
  end.

(** The document [GetMegaData] assembles for ([appID], [version]) from the
    rows of [st] when the app row is [app] and no call fails. *)
Definition document (app : App.t) (appID version : Z) (st : Store)
  : Editor.t ComponentNode JsonObject :=
  let modifier := default User.zero (users st !! App.UpdatedBy app) in
  {| Editor.AppInfo :=
       {| AppDto.ID := App.ID app;
          AppDto.Name := App.Name app;
          AppDto.ReleaseVersion := App.ReleaseVersion app;
          AppDto.MainlineVersion := App.MainlineVersion app;
          AppDto.CreatedBy := 0;
          AppDto.CreatedAt := 0;
          AppDto.UpdatedBy := App.UpdatedBy app;
          AppDto.UpdatedAt := App.UpdatedAt app;
          AppDto.AppActivity :=
            {| AppActivity.Modifier := User.Nickname modifier;
               AppActivity.ModifiedAt := User.UpdatedAt modifier |} |};
     Editor.Actions := Some (map Action_of (retrieved_actions appID version st));
     Editor.Components := component_tree (retrieved_components appID version st);
     Editor.DependenciesState :=
       Some (keyed (fun row => fst (Unmarshal_strings (KVState.Value row)))
               (retrieved_kvstates appID KV_STATE_TYPE_DEPENDENCIES version st));
     Editor.DragShadowState :=
       Some (keyed (fun row => IfaceObject (fst (Unmarshal_object (KVState.Value row))))
               (retrieved_kvstates appID KV_STATE_TYPE_DRAG_SHADOW version st));
     Editor.DottedLineSquareState :=
       Some (keyed (fun row => IfaceString (KVState.Value row))
               (retrieved_kvstates appID KV_STATE_TYPE_DOTTED_LINE_SQUARE version st));
     Editor.DisplayNameState :=
       Some (map SetState.Value
               (retrieved_setstates appID SET_STATE_TYPE_DISPLAY_NAME version st)) |}.

End DocumentVocabulary.

(** What a run can change besides its count of port calls: the tables, the
    serial and the clock. *)
Definition contents (st : Mem.Store)
  : gmap Z App.t * gmap Z User.t * list TreeState.t * list KVState.t * list SetState.t
    * list repository.Action.t * Z * Time :=
  (Mem.apps st, Mem.users st, Mem.treestates st, Mem.kvstates st, Mem.setstates st,
   Mem.actions st, Mem.next_id st, Mem.now st).

(** A computation that leaves [f] of the store as it was, whether it
    returns or panics. *)
Definition keeps {X A} (f : Mem.Store -> X) (c : Go Mem.Store A) : Prop :=
  forall st, f (snd (c st)) = f st.

(** The last row of a listing that passes a test, if any. *)
Definition last_such {A} (p : A -> bool) (rows : list A) : option A :=
  List.find p (rev rows).

(** ** Documents that show the same state *)

Module SnapshotSpec.

Import Mem StoreSpec TreeCloneSpec GrowSpec FlatCloneSpec CoordinatorSpec.

(** What a key-value row and a set row keep through any clone. *)
Definition same_kv (src clone : KVState.t) : Prop :=
  KVState.StateType clone = KVState.StateType src /\
  KVState.Key clone = KVState.Key src /\
  KVState.Value clone = KVState.Value src.

Definition same_set (src clone : SetState.t) : Prop :=
  SetState.StateType clone = SetState.StateType src /\
  SetState.Value clone = SetState.Value src.

(** An action of the document without its identifier and audit fields. *)
Definition Action_payload (a : Action.t) : Z * string * string * string * string * string :=
  (Action.Resource a, Action.DisplayName a, Action.Type_ a, Action.Template a,
   Action.Transformer a, Action.TriggerMode a).

(** Two documents show the same state: the same actions up to identifiers
    and audit fields, the same three maps and the same display names. *)
Definition same_state {ComponentNode JsonObject : Type}
    (d1 d2 : Editor.t ComponentNode JsonObject) : Prop :=
  option_map (map Action_payload) (Editor.Actions d1) =
  option_map (map Action_payload) (Editor.Actions d2) /\
  Editor.DependenciesState d1 = Editor.DependenciesState d2 /\
  Editor.DragShadowState d1 = Editor.DragShadowState d2 /\
  Editor.DottedLineSquareState d1 = Editor.DottedLineSquareState d2 /\
  Editor.DisplayNameState d1 = Editor.DisplayNameState d2.

End SnapshotSpec.

(** ** App records *)

Module AppCrudSpec.

Import Mem MemCrud StoreSpec TreeCloneSpec GrowSpec FlatCloneSpec CoordinatorSpec.

(** The app row [CreateApp] inserts for the request [app]. *)
Definition created_app (app : AppDto.t) (st : Store) : App.t :=
  {| App.ID := next_id st;
     App.Name := AppDto.Name app;
     App.ReleaseVersion := 0;
     App.MainlineVersion := 0;
     App.CreatedBy := AppDto.CreatedBy app;
     App.CreatedAt := now st;
     App.UpdatedBy := AppDto.UpdatedBy app;
     App.UpdatedAt := now st + 1 |}.

(** The root component of a fresh app, as the store holds it. *)
Definition root_component (initialComponet : string) (appID user id : Z) (since : Time)
  : TreeState.t :=
  {| TreeState.ID := id;
     TreeState.StateType := TREE_STATE_TYPE_COMPONENTS;
     TreeState.ParentNodeRefID := 0;
     TreeState.ChildrenNodeRefIDs := "[]";
     TreeState.AppRefID := appID;
     TreeState.Version := APP_EDIT_VERSION;
     TreeState.Name := "root";
     TreeState.Content := initialComponet;
     TreeState.CreatedAt := since;
     TreeState.CreatedBy := user;
     TreeState.UpdatedAt := since + 1;
     TreeState.UpdatedBy := user |}.

(** The user a lookup yields as call number [n] from [st]: the zero user
    when the call fails or the user is unknown. *)
Definition user_at (n : nat) (id : Z) (st : Store) : User.t :=
  match faults st (calls st + n)%nat with
  | Some _ => User.zero
  | None => default User.zero (users st !! id)
  end.

(** The summary [CreateApp] returns on success. *)
Definition created_dto (app : AppDto.t) (st : Store) : AppDto.t :=
  {| AppDto.ID := next_id st;
     AppDto.Name := AppDto.Name app;
     AppDto.ReleaseVersion := 0;
     AppDto.MainlineVersion := 0;
     AppDto.CreatedBy := AppDto.CreatedBy app;
     AppDto.CreatedAt := now st;
     AppDto.UpdatedBy := AppDto.UpdatedBy app;
     AppDto.UpdatedAt := now st + 1;
     AppDto.AppActivity :=
       {| AppActivity.Modifier := User.Nickname (user_at 1 (AppDto.CreatedBy app) st);
          AppActivity.ModifiedAt := now st + 1 |} |}.

(** The apps as the listing port hands them out. *)
Definition app_listing (st : Store) : list App.t :=
  by_UpdatedAt (map snd (map_to_list (apps st))).

(** What a summary read from a stored row shows of it: the creator fields
    are not carried over. *)
Definition summary_of (row : App.t) (dto : AppDto.t) : Prop :=
  AppDto.ID dto = App.ID row /\
  AppDto.Name dto = App.Name row /\
  AppDto.ReleaseVersion dto = App.ReleaseVersion row /\
  AppDto.MainlineVersion dto = App.MainlineVersion row /\
  AppDto.UpdatedBy dto = App.UpdatedBy row /\
  AppDto.UpdatedAt dto = App.UpdatedAt row /\
  AppDto.CreatedBy dto = 0 /\
  AppDto.CreatedAt dto = 0.

(** The summary of a stored row, as [FetchAppByID] fills it in. *)
Definition fetched (row : App.t) : AppDto.t :=
  {| AppDto.ID := App.ID row;
     AppDto.Name := App.Name row;
     AppDto.ReleaseVersion := App.ReleaseVersion row;
     AppDto.MainlineVersion := App.MainlineVersion row;
     AppDto.CreatedBy := 0;
     AppDto.CreatedAt := 0;
     AppDto.UpdatedBy := App.UpdatedBy row;
     AppDto.UpdatedAt := App.UpdatedAt row;
     AppDto.AppActivity := AppActivity.zero |}.

(** The request [app] after [UpdateApp] and [UpdateAppModifyTime] stamped
    it. *)
Definition stamped (app : AppDto.t) (st : Store) : AppDto.t :=
  {| AppDto.ID := AppDto.ID app;
     AppDto.Name := AppDto.Name app;
     AppDto.ReleaseVersion := AppDto.ReleaseVersion app;
     AppDto.MainlineVersion := AppDto.MainlineVersion app;
     AppDto.CreatedBy := AppDto.CreatedBy app;
     AppDto.CreatedAt := AppDto.CreatedAt app;
     AppDto.UpdatedBy := AppDto.UpdatedBy app;
     AppDto.UpdatedAt := now st;
     AppDto.AppActivity := AppDto.AppActivity app |}.

(** The row [UpdateApp] hands to the store. *)
Definition updated_app (app : AppDto.t) (st : Store) : App.t :=
  {| App.ID := AppDto.ID app;
     App.Name := AppDto.Name app;
     App.ReleaseVersion := AppDto.ReleaseVersion app;
     App.MainlineVersion := AppDto.MainlineVersion app;
     App.CreatedBy := 0;
     App.CreatedAt := 0;
     App.UpdatedBy := AppDto.UpdatedBy app;
     App.UpdatedAt := now st |}.

(** The entry of [GetAllApps] for a stored row whose modifier was looked up
    as [modifier]. *)
Definition listed (row : App.t) (modifier : User.t) : AppDto.t :=
  {| AppDto.ID := App.ID row;
     AppDto.Name := App.Name row;
     AppDto.ReleaseVersion := App.ReleaseVersion row;
     AppDto.MainlineVersion := App.MainlineVersion row;
     AppDto.CreatedBy := 0;
     AppDto.CreatedAt := 0;
     AppDto.UpdatedBy := App.UpdatedBy row;
     AppDto.UpdatedAt := App.UpdatedAt row;
     AppDto.AppActivity :=
       {| AppActivity.Modifier := User.Nickname modifier;
          AppActivity.ModifiedAt := App.UpdatedAt row |} |}.

(** The entries for [rows] when the lookups are the calls [n], [n + 1], ...
    counted from [st]. *)
Fixpoint listing_from (n : nat) (rows : list App.t) (st : Store) : list AppDto.t :=
  match rows with
  | [] => []
  | row :: rows' =>
      listed row (user_at n (App.UpdatedBy row) st) :: listing_from (S n) rows' st
  end.

(** [gone], unless the call number [n] from [st] fails: then [kept]. *)
Definition unless_failed {A} (n : nat) (st : Store) (kept gone : A) : A :=
  match faults st (calls st + n)%nat with
  | Some _ => kept
  | None => gone
  end.

(** The store after [DeleteApp]: each table as its own delete call left
    it. *)
Definition deleted (appID : Z) (st : Store) : Store :=
  {| apps := unless_failed 4 st (apps st) (delete appID (apps st));
     users := users st;
     treestates :=
       unless_failed 0 st (treestates st)
         (List.filter (fun row => negb (TreeState.AppRefID row =? appID)) (treestates st));
     kvstates :=
       unless_failed 1 st (kvstates st)
         (List.filter (fun row => negb (KVState.AppRefID row =? appID)) (kvstates st));
     setstates :=
       unless_failed 3 st (setstates st)
         (List.filter (fun row => negb (SetState.AppRefID row =? appID)) (setstates st));
     actions :=
       unless_failed 2 st (actions st)
         (List.filter (fun row => negb (repository.Action.App row =? appID)) (actions st));
     next_id := next_id st;
     now := now st;
     calls := (calls st + 5)%nat;
     faults := faults st |}.

End AppCrudSpec.

(** ** Request bodies *)

Section RequestVocabulary.

Variable int_of_unrepresentable : spec_float -> Z.

(** What [ConstructByMap] leaves in [appd] for the request body [udata],
    read off the two keys it looks at. *)
Definition constructed (appd : AppDto.t) (udata : gmap string any) : AppDto.t :=
  {| AppDto.ID :=
       match udata !! "id"%string with
       | Some (any_float64 f) => int_of_float64 int_of_unrepresentable f
       | Some _ => 0
       | None => AppDto.ID appd
       end;
     AppDto.Name :=
       match udata !! "name"%string with
       | Some (any_string s) => s
       | Some _ => EmptyString
       | None => AppDto.Name appd
       end;
     AppDto.ReleaseVersion := AppDto.ReleaseVersion appd;
     AppDto.MainlineVersion := AppDto.MainlineVersion appd;
     AppDto.CreatedBy := AppDto.CreatedBy appd;
     AppDto.CreatedAt := AppDto.CreatedAt appd;
     AppDto.UpdatedBy := AppDto.UpdatedBy appd;
     AppDto.UpdatedAt := AppDto.UpdatedAt appd;
     AppDto.AppActivity := AppDto.AppActivity appd |}.

End RequestVocabulary.

(** ** A fuller app, for concrete runs *)

Module Studio.

Import Mem.

(** User 1, and a display name of app 5. *)
Definition ada : User.t := {| User.Nickname := "ada"; User.UpdatedAt := 50 |}.

Definition name (id : Z) (value : string) : SetState.t :=
  {| SetState.ID := id;
     SetState.StateType := SET_STATE_TYPE_DISPLAY_NAME;
     SetState.AppRefID := 5;
     SetState.Version := 0;
     SetState.Value := value;
     SetState.CreatedAt := 0;
     SetState.CreatedBy := 1;
     SetState.UpdatedAt := 0;
     SetState.UpdatedBy := 1 |}.

(** App 5 of user 1 with the tree of [Demo.store], two dependency rows
    under one key, a drag-shadow and a dotted-line-square row, two display
    names and two actions; the port calls numbered in [failing] fail. *)
Definition store (failing : list nat) : Store :=
  {| apps := <[5 := Demo.app5]> ∅;
     users := <[1 := ada]> ∅;
     treestates :=
       [Demo.node 1 0 "[2,3]" "root"; Demo.node 2 1 "[]" "a"; Demo.node 3 1 "[]" "b"];
     kvstates :=
       [Demo.kv 4 KV_STATE_TYPE_DEPENDENCIES "btn1" "[]";
        Demo.kv 5 KV_STATE_TYPE_DEPENDENCIES "btn1" "{}";
        Demo.kv 6 KV_STATE_TYPE_DRAG_SHADOW "box" "{}";
        Demo.kv 7 KV_STATE_TYPE_DOTTED_LINE_SQUARE "line1" "{}"];
     setstates := [name 8 "input1"; name 9 "table1"];
     actions := [Demo.action 10 0; Demo.action 11 3];
     next_id := 20;
     now := 100;
     calls := 0;
     faults := fun c => if existsb (Nat.eqb c) failing then Some Demo.disk_full else None |}.

(** A request for a new app: its counters are not those of a draft. *)
Definition request : AppDto.t :=
  {| AppDto.ID := 0;
     AppDto.Name := "B";
     AppDto.ReleaseVersion := 3;
     AppDto.MainlineVersion := 3;
     AppDto.CreatedBy := 1;
     AppDto.CreatedAt := 0;
     AppDto.UpdatedBy := 1;
     AppDto.UpdatedAt := 0;
     AppDto.AppActivity := AppActivity.zero |}.

(** A decoded request body: the identifier 7.5, the name B and a key the
    constructor does not know. *)
Definition body : gmap string any :=
  <["id"%string := any_float64 (S754_finite false 15 (-1))]>
    (<["name"%string := any_string "B"]> (<["extra"%string := any_bool true]> ∅)).

(** One way to convert what [int] cannot hold, and one visiting order. *)
Definition no_int (f : spec_float) : Z := 0.

Definition in_key_order (udata : gmap string any) : list (string * any) :=
  map_to_list udata.

End Studio.

(** * Properties *)

(** ** Decimal digits *)

Module JsonFacts.

Import Json JsonSpec.

Lemma append_cons (x : ascii) (a b : string) : String x a +:+ b = String x (a +:+ b).
Proof. reflexivity. Qed.

Lemma append_nil_l (b : string) : EmptyString +:+ b = b.
Proof. reflexivity. Qed.

Lemma append_assoc (a b c : string) : (a +:+ b) +:+ c = a +:+ (b +:+ c).
Proof.
  induction a as [|x a IH]; [reflexivity |].
  rewrite !append_cons. now rewrite IH.
Qed.

Lemma append_nil_r (a : string) : a +:+ EmptyString = a.
Proof.
  induction a as [|x a IH]; [reflexivity |].
  rewrite append_cons. now rewrite IH.
Qed.

Lemma length_append (a b : string) :
  String.length (a +:+ b) = (String.length a + String.length b)%nat.
Proof.
  induction a as [|x a IH]; [reflexivity |].
  rewrite append_cons. simpl. now rewrite IH.
Qed.

Lemma all_digits_app (a b : string) :
  all_digits (a +:+ b) = all_digits a && all_digits b.
Proof.
  induction a as [|x a IH]; [reflexivity |].
  rewrite append_cons. simpl. rewrite IH. now rewrite andb_assoc.
Qed.

Lemma parse_digits_app (a b : string) (acc : Z) :
  parse_digits acc (a +:+ b) =
  match parse_digits acc a with
  | Some acc' => parse_digits acc' b
  | None => None
  end.
Proof.
  revert acc. induction a as [|x a IH]; intros acc; [reflexivity |].
  rewrite append_cons. simpl.
  destruct (is_digit x); [apply IH | reflexivity].
Qed.

Lemma is_digit_digit_char (d : Z) : 0 <= d < 10 -> is_digit (digit_char d) = true.
Proof.
  intros Hd. assert (H : d = 0 \/ d = 1 \/ d = 2 \/ d = 3 \/ d = 4 \/ d = 5 \/
                         d = 6 \/ d = 7 \/ d = 8 \/ d = 9) by lia.
  repeat (destruct H as [-> | H]; [reflexivity |]). now subst.
Qed.

Lemma digit_char_value (d : Z) :
  0 <= d < 10 -> Z.of_nat (nat_of_ascii (digit_char d)) - 48 = d.
Proof.
  intros Hd. assert (H : d = 0 \/ d = 1 \/ d = 2 \/ d = 3 \/ d = 4 \/ d = 5 \/
                         d = 6 \/ d = 7 \/ d = 8 \/ d = 9) by lia.
  repeat (destruct H as [-> | H]; [reflexivity |]). now subst.
Qed.

Lemma digit_char_nonzero (d : Z) :
  1 <= d < 10 -> Ascii.eqb (digit_char d) "0" = false.
Proof.
  intros Hd. assert (H : d = 1 \/ d = 2 \/ d = 3 \/ d = 4 \/ d = 5 \/
                         d = 6 \/ d = 7 \/ d = 8 \/ d = 9) by lia.
  repeat (destruct H as [-> | H]; [reflexivity |]). now subst.
Qed.

(** A digit is none of the bytes that open another kind of value or carry
    a sign. *)
Lemma is_digit_not_special (c : ascii) :
  is_digit c = true ->
  is_space c = false /\ Ascii.eqb c "[" = false /\ Ascii.eqb c "{" = false /\
  Ascii.eqb c "034" = false /\ Ascii.eqb c "t" = false /\ Ascii.eqb c "f" = false /\
  Ascii.eqb c "n" = false /\ Ascii.eqb c "-" = false /\ Ascii.eqb c "+" = false /\
  Ascii.eqb c "]" = false.
Proof.
  destruct c as [[] [] [] [] [] [] [] []]; vm_compute; intros H;
    try discriminate H; repeat split; reflexivity.
Qed.

(** What [format_uint] writes in front of [acc] for a positive number:
    a non-zero digit and further digits, whose value is the number. *)
Lemma format_uint_positive (fuel : nat) :
  forall n acc, 1 <= n < 10 ^ Z.of_nat fuel ->
  exists c ds,
    format_uint fuel n acc = String c (ds +:+ acc) /\
    is_digit c = true /\ Ascii.eqb c "0" = false /\ all_digits ds = true /\
    forall a, parse_digits a (String c ds) = Some (a * 10 ^ Z.of_nat (S (String.length ds)) + n).
Proof.
  induction fuel as [|fuel IH]; intros n acc Hn.
  - simpl in Hn. lia.
  - cbn [format_uint]. destruct (n <? 10) eqn:Hlt.
    + apply Z.ltb_lt in Hlt. exists (digit_char (n mod 10)), EmptyString.
      rewrite Z.mod_small by lia. repeat split.
      * apply is_digit_digit_char; lia.
      * apply digit_char_nonzero; lia.
      * intros a. cbn [parse_digits]. rewrite is_digit_digit_char by lia.
        rewrite digit_char_value by lia. f_equal. simpl. lia.
    + apply Z.ltb_ge in Hlt.
      assert (Hq : 1 <= n / 10 < 10 ^ Z.of_nat fuel).
      { split.
        - apply Z.div_le_lower_bound; lia.
        - apply Z.div_lt_upper_bound; [lia |].
          replace (Z.of_nat (S fuel)) with (Z.succ (Z.of_nat fuel)) in Hn by lia.
          rewrite Z.pow_succ_r in Hn by lia. lia. }
      destruct (IH (n / 10) (String (digit_char (n mod 10)) acc) Hq)
        as (c & ds & Heq & Hc & Hc0 & Hds & Hval).
      assert (Hm : 0 <= n mod 10 < 10) by (apply Z.mod_pos_bound; lia).
      exists c, (ds +:+ String (digit_char (n mod 10)) EmptyString).
      repeat split; try assumption.
      * rewrite Heq. now rewrite append_assoc, append_cons, append_nil_l.
      * rewrite all_digits_app, Hds. simpl. now rewrite is_digit_digit_char.
      * intros a.
        change (String c (ds +:+ String (digit_char (n mod 10)) EmptyString))
          with (String c ds +:+ String (digit_char (n mod 10)) EmptyString).
        rewrite parse_digits_app, Hval. cbn [parse_digits].
        rewrite is_digit_digit_char, digit_char_value by assumption. f_equal.
        rewrite length_append. cbn [String.length].
        replace (Z.of_nat (S (String.length ds + 1)))
          with (Z.succ (Z.of_nat (S (String.length ds)))) by lia.
        rewrite Z.pow_succ_r by lia.
        pose proof (Z.div_mod n 10 ltac:(lia)) as Hdm. lia.
Qed.

Lemma at_separator_not_digit (s : string) :
  at_separator s -> exists c r, s = String c r /\ is_digit c = false /\
    is_space c = false /\ Ascii.eqb c "." = false /\ Ascii.eqb c "e" = false /\
    Ascii.eqb c "E" = false /\ (Ascii.eqb c "," = true \/ Ascii.eqb c "]" = true).
Proof.
  intros (r & [-> | ->]); eexists _, _; (split; [reflexivity |]);
    repeat split; auto.
Qed.

Lemma scan_digits_all (ds rest : string) :
  all_digits ds = true -> at_separator rest -> scan_digits (ds +:+ rest) = (ds, rest).
Proof.
  intros Hds Hsep. induction ds as [|c ds IH].
  - rewrite append_nil_l.
    destruct (at_separator_not_digit _ Hsep) as (c & r & -> & Hd & _).
    simpl. now rewrite Hd.
  - simpl in Hds. apply andb_true_iff in Hds as [Hc Hds].
    rewrite append_cons. simpl. rewrite Hc, IH by assumption. reflexivity.
Qed.

Lemma scan_number_unsigned (c : ascii) (r : string) :
  Ascii.eqb c "-" = false ->
  scan_number (String c r) = scan_number_tail EmptyString (String c r).
Proof. intros H. unfold scan_number. now rewrite H. Qed.

Lemma scan_number_signed (r : string) :
  scan_number (String "-"%char r) = scan_number_tail (String "-"%char EmptyString) r.
Proof. reflexivity. Qed.

Lemma scan_number_int_literal (lit rest : string) :
  int_literal lit -> at_separator rest ->
  scan_number (lit +:+ rest) = Some (lit, rest).
Proof.
  intros (sign & c & ds & -> & Hsign & Hc & Hds & Hzero) Hsep.
  destruct (at_separator_not_digit _ Hsep) as (x & r & Hrest & Hxd & _ & Hdot & He & HE & _).
  destruct (is_digit_not_special c Hc) as (_ & _ & _ & _ & _ & _ & _ & Hminus & _).
  assert (Hint : scan_int_part (String c ds +:+ rest) = Some (String c ds, rest)).
  { rewrite append_cons. unfold scan_int_part.
    destruct (Ascii.eqb c "0") eqn:H0.
    - rewrite (Hzero eq_refl). reflexivity.
    - rewrite Hc, scan_digits_all by assumption. reflexivity. }
  assert (Htail : scan_frac rest = Some (EmptyString, rest) /\
                  scan_exp rest = Some (EmptyString, rest)).
  { subst rest. unfold scan_frac, scan_exp. now rewrite Hdot, He, HE. }
  destruct Htail as [Hfrac Hexp].
  destruct Hsign as [-> | ->].
  - rewrite append_nil_l, append_cons, scan_number_unsigned by assumption.
    rewrite <- append_cons. unfold scan_number_tail.
    rewrite Hint, Hfrac, Hexp. now rewrite !append_nil_r, append_nil_l.
  - change ((String "-"%char EmptyString +:+ String c ds) +:+ rest)
      with (String "-"%char (String c ds +:+ rest)).
    rewrite scan_number_signed. unfold scan_number_tail.
    rewrite Hint, Hfrac, Hexp. now rewrite !append_nil_r.
Qed.

Lemma format_uint_zero (fuel : nat) :
  format_uint (S fuel) 0 EmptyString = String "0"%char EmptyString.
Proof. reflexivity. Qed.

Lemma pow_10_65_bound (n : Z) : n <= 2 ^ 63 -> n < 10 ^ Z.of_nat 65.
Proof.
  intros H. assert (2 ^ 63 < 10 ^ Z.of_nat 65) by (vm_compute; reflexivity). lia.
Qed.

Lemma FormatInt_int_literal (n : Z) : is_int n -> int_literal (FormatInt n).
Proof.
  unfold is_int, MinInt64, MaxInt64, FormatInt. intros Hn.
  destruct (n <? 0) eqn:Hneg.
  - apply Z.ltb_lt in Hneg.
    destruct (format_uint_positive 65 (- n) EmptyString) as (c & ds & Heq & Hc & Hc0 & Hds & _).
    { split; [lia | apply pow_10_65_bound; lia]. }
    rewrite Heq, append_nil_r.
    exists (String "-"%char EmptyString), c, ds. repeat split; auto.
    intros H. congruence.
  - apply Z.ltb_ge in Hneg. destruct (Z.eq_dec n 0) as [-> | Hnz].
    + exists EmptyString, "0"%char, EmptyString. repeat split; auto.
    + destruct (format_uint_positive 65 n EmptyString) as (c & ds & Heq & Hc & Hc0 & Hds & _).
      { split; [lia | apply pow_10_65_bound; lia]. }
      rewrite Heq, append_nil_r.
      exists EmptyString, c, ds. repeat split; auto.
      intros H. congruence.
Qed.

(** [strconv.ParseInt] reads back what [strconv.FormatInt] wrote. *)
Lemma ParseInt_FormatInt (n : Z) : is_int n -> ParseInt (FormatInt n) = Some n.
Proof.
  unfold is_int, MinInt64, MaxInt64, FormatInt. intros Hn.
  destruct (n <? 0) eqn:Hneg.
  - apply Z.ltb_lt in Hneg.
    destruct (format_uint_positive 65 (- n) EmptyString) as (c & ds & Heq & Hc & Hc0 & Hds & Hval).
    { split; [lia | apply pow_10_65_bound; lia]. }
    rewrite Heq, append_nil_r. unfold ParseInt.
    change (Ascii.eqb "-" "-") with true. cbv iota.
    rewrite Hval. replace (0 * _ + - n) with (- n) by lia.
    destruct (- n <=? 2 ^ 63) eqn:Hle; [f_equal; lia |].
    apply Z.leb_gt in Hle. lia.
  - apply Z.ltb_ge in Hneg. destruct (Z.eq_dec n 0) as [-> | Hnz]; [reflexivity |].
    destruct (format_uint_positive 65 n EmptyString) as (c & ds & Heq & Hc & Hc0 & Hds & Hval).
    { split; [lia | apply pow_10_65_bound; lia]. }
    rewrite Heq, append_nil_r. unfold ParseInt.
    destruct (is_digit_not_special c Hc) as (_ & _ & _ & _ & _ & _ & _ & Hminus & Hplus & _).
    rewrite Hminus, Hplus, Hval. replace (0 * _ + n) with n by lia.
    destruct (n <? 2 ^ 63) eqn:Hlt; [reflexivity |].
    apply Z.ltb_ge in Hlt. lia.
Qed.

Lemma int_literal_head (lit : string) :
  int_literal lit ->
  exists c r, lit = String c r /\ (is_digit c = true \/ c = "-"%char).
Proof.
  intros (sign & c & ds & -> & [-> | ->] & Hc & _).
  - exists c, ds. split; [reflexivity | now left].
  - exists "-"%char, (String c ds). split; [reflexivity | now right].
Qed.

Lemma int_literal_length (lit : string) :
  int_literal lit -> (1 <= String.length lit)%nat.
Proof.
  intros H. destruct (int_literal_head _ H) as (c & r & -> & _). simpl. lia.
Qed.

(** An integer literal in front of a separator is scanned as one number. *)
Lemma parse_value_int_literal (fuel : nat) (depth : N) (lit rest : string) :
  int_literal lit -> at_separator rest ->
  parse_value (S fuel) depth (lit +:+ rest) = Some (Number lit, rest).
Proof.
  intros Hlit Hsep.
  destruct (int_literal_head _ Hlit) as (c & r & Heq & Hhead).
  assert (Hc : is_space c = false /\ Ascii.eqb c "[" = false /\ Ascii.eqb c "{" = false /\
               Ascii.eqb c "034" = false /\ Ascii.eqb c "t" = false /\
               Ascii.eqb c "f" = false /\ Ascii.eqb c "n" = false).
  { destruct Hhead as [Hd | ->].
    - destruct (is_digit_not_special c Hd) as (? & ? & ? & ? & ? & ? & ? & _). auto 10.
    - repeat split; reflexivity. }
  destruct Hc as (Hsp & H1 & H2 & H3 & H4 & H5 & H6).
  pose proof (scan_number_int_literal lit rest Hlit Hsep) as Hscan.
  rewrite Heq in Hscan |- *. rewrite append_cons in Hscan |- *.
  cbn [parse_value skip_space]. rewrite Hsp, H1, H2, H3, H4, H5, H6, Hscan.
  reflexivity.
Qed.

Lemma parse_elems_S (fuel : nat) (depth : N) (s : string) (acc : list value) :
  parse_elems (S fuel) depth s acc =
  match parse_value fuel depth s with
  | None => None
  | Some (v, r) =>
      match skip_space r with
      | String c r' =>
          if Ascii.eqb c "," then parse_elems fuel depth r' (v :: acc)
          else if Ascii.eqb c "]" then Some (Array (rev (v :: acc)), r')
          else None
      | EmptyString => None
      end
  end.
Proof. reflexivity. Qed.

(** The elements of a marshalled list, up to the closing bracket. *)
Lemma parse_elems_join_ints (ns : list Z) :
  forall (n : Z) (fuel : nat) (depth : N) (acc : list value) (rest : string),
    Forall is_int (n :: ns) -> (length (n :: ns) < fuel)%nat ->
    parse_elems fuel depth (join_ints (n :: ns) +:+ String "]"%char rest) acc =
    Some (Array (rev acc ++ map number_of (n :: ns)), rest).
Proof.
  induction ns as [|m ns IH]; intros n fuel depth acc rest Hall Hfuel.
  - destruct fuel as [|[|fuel]]; simpl in Hfuel; try lia.
    apply Forall_inv in Hall. cbn [join_ints]. rewrite parse_elems_S.
    rewrite parse_value_int_literal;
      [| now apply FormatInt_int_literal | eexists; now right].
    reflexivity.
  - destruct fuel as [|[|fuel]]; simpl in Hfuel; try lia.
    pose proof (Forall_inv Hall) as Hn. apply Forall_inv_tail in Hall.
    change (join_ints (n :: m :: ns))
      with (FormatInt n +:+ String ","%char (join_ints (m :: ns))).
    rewrite append_assoc, append_cons. rewrite parse_elems_S.
    rewrite parse_value_int_literal;
      [| now apply FormatInt_int_literal | eexists; now left].
    cbn [skip_space is_space]. change (Ascii.eqb "," ",") with true. cbv iota.
    rewrite IH by (assumption || (simpl in *; lia)).
    f_equal. f_equal. cbn [rev map]. now rewrite <- app_assoc.
Qed.

Lemma join_ints_length (ns : list Z) :
  Forall is_int ns -> (length ns <= String.length (join_ints ns))%nat.
Proof.
  induction ns as [|n [|m ns] IH]; intros Hall.
  - simpl. lia.
  - apply Forall_inv in Hall. apply FormatInt_int_literal, int_literal_length in Hall.
    simpl. lia.
  - pose proof (Forall_inv Hall) as Hn. apply Forall_inv_tail in Hall.
    apply FormatInt_int_literal, int_literal_length in Hn. specialize (IH Hall).
    change (join_ints (n :: m :: ns))
      with (FormatInt n +:+ String ","%char (join_ints (m :: ns))).
    rewrite length_append. cbn [String.length length] in *. lia.
Qed.

Lemma store_int_number_of (ns : list Z) :
  Forall is_int ns -> map store_int (map number_of ns) = map (fun n => (n, None)) ns.
Proof.
  induction 1 as [|n ns Hn _ IH]; [reflexivity |].
  cbn [map]. rewrite IH. unfold number_of at 1. cbn [store_int].
  now rewrite ParseInt_FormatInt.
Qed.

Lemma first_error_none (ns : list Z) :
  first_error (map snd (map (fun n : Z => (n, @None error)) ns)) = None.
Proof. induction ns as [|n ns IH]; [reflexivity | exact IH]. Qed.

(** Decoding reads back what encoding wrote, element for element. *)
Lemma Unmarshal_Marshal_ints (ids : list Z) :
  Forall is_int ids -> Unmarshal_ints (fst (Marshal_ints ids)) = (ids, None).
Proof.
  intros Hall. unfold Marshal_ints, Unmarshal_ints, parse. cbn [fst].
  destruct ids as [|n ns].
  - reflexivity.
  - set (body := join_ints (n :: ns)).
    assert (Hfuel : exists fuel,
               fuel_for (String "["%char (body +:+ String "]"%char EmptyString)) = S fuel /\
               (length (n :: ns) < fuel)%nat).
    { unfold fuel_for.
      exists (2 * String.length (String "["%char (body +:+ String "]"%char EmptyString)) + 1)%nat.
      split; [lia |]. cbn [String.length]. rewrite length_append.
      pose proof (join_ints_length _ Hall) as Hlen. fold body in Hlen.
      cbn [String.length length] in *. lia. }
    destruct Hfuel as (fuel & -> & Hfuel).
    destruct (int_literal_head _ (FormatInt_int_literal n (Forall_inv Hall)))
      as (c & r & Hlit & Hhead).
    assert (Hbody : exists r', body +:+ String "]"%char EmptyString = String c r').
    { unfold body. destruct ns; cbn [join_ints]; rewrite Hlit;
        rewrite ?append_cons; eauto. }
    destruct Hbody as (r' & Hbody).
    assert (Hc : is_space c = false /\ Ascii.eqb c "]" = false).
    { destruct Hhead as [Hd | ->]; [| split; reflexivity].
      destruct (is_digit_not_special c Hd) as (? & _ & _ & _ & _ & _ & _ & _ & _ & ?).
      auto. }
    destruct Hc as [Hsp Hclose].
    cbn [parse_value skip_space is_space]. change (Ascii.eqb "[" "[") with true.
    cbv iota. change (maxNestingDepth <? 0 + 1)%N with false. cbv iota.
    rewrite Hbody. cbn [skip_space strip_prefix]. rewrite Hsp.
    cbn [strip_prefix]. rewrite Ascii.eqb_sym, Hclose. rewrite <- Hbody. unfold body.
    rewrite parse_elems_join_ints by assumption.
    cbn [skip_space rev app]. rewrite store_int_number_of by assumption.
    rewrite first_error_none. f_equal. rewrite map_map. cbn [fst]. apply map_id.
Qed.

(** *** The fuel of the parser is enough *)

Lemma skip_space_length (s : string) :
  (String.length (skip_space s) <= String.length s)%nat.
Proof.
  induction s as [|c s IH]; [reflexivity |]. cbn [skip_space].
  destruct (is_space c); cbn [String.length]; lia.
Qed.

Lemma strip_prefix_length (p : string) :
  forall s r, strip_prefix p s = Some r ->
              (String.length r + String.length p = String.length s)%nat.
Proof.
  induction p as [|a p IH]; intros s r H; cbn [strip_prefix] in H.
  - destruct s; injection H as <-; cbn [String.length]; lia.
  - destruct s as [|b s]; [discriminate |].
    destruct (Ascii.eqb a b); [| discriminate].
    apply IH in H. cbn [String.length]. lia.
Qed.

Lemma scan_string_length (n : nat) :
  forall s b r, (String.length s <= n)%nat -> scan_string s = Some (b, r) ->
                (String.length r < String.length s)%nat.
Proof.
  induction n as [|n IH]; intros s b r Hlen H.
  - destruct s; [discriminate H | cbn [String.length] in Hlen; lia].
  - destruct s as [|c s]; [discriminate H |]. cbn [scan_string] in H.
    cbn [String.length] in Hlen |- *.
    destruct (Ascii.eqb c "034"); [injection H as _ <-; lia |].
    destruct (Ascii.eqb c "\").
    + destruct s as [|e s1]; [discriminate H |]. cbn [String.length] in Hlen |- *.
      destruct (Ascii.eqb e "u").
      * destruct s1 as [|h1 [|h2 [|h3 [|h4 r2]]]]; try discriminate H.
        destruct (is_hex h1 && is_hex h2 && is_hex h3 && is_hex h4); [| discriminate H].
        destruct (scan_string r2) as [[b' r'] |] eqn:E; [| discriminate H].
        injection H as _ <-. cbn [String.length] in Hlen |- *.
        apply IH in E; lia.
      * destruct (is_escape e); [| discriminate H].
        destruct (scan_string s1) as [[b' r'] |] eqn:E; [| discriminate H].
        injection H as _ <-. apply IH in E; lia.
    + destruct (nat_of_ascii c <? 32)%nat; [discriminate H |].
      destruct (scan_string s) as [[b' r'] |] eqn:E; [| discriminate H].
      injection H as _ <-. apply IH in E; lia.
Qed.

Lemma parse_value_step (fuel : nat) (depth : N) (s : string) :
  parse_value (S fuel) depth s = value_step (parse_elems fuel) (parse_members fuel) depth s.
Proof. reflexivity. Qed.

Lemma parse_elems_step (fuel : nat) (depth : N) (s : string) (acc : list value) :
  parse_elems (S fuel) depth s acc =
  elems_step (parse_value fuel) (parse_elems fuel) depth s acc.
Proof. reflexivity. Qed.

Lemma parse_members_step (fuel : nat) (depth : N) (s : string)
    (acc : list (string * value)) :
  parse_members (S fuel) depth s acc =
  members_step (parse_value fuel) (parse_members fuel) depth s acc.
Proof. reflexivity. Qed.

Lemma scan_digits_length (s : string) :
  forall ds r, scan_digits s = (ds, r) -> (String.length r <= String.length s)%nat.
Proof.
  induction s as [|c s IH]; intros ds r H; cbn [scan_digits] in H.
  - injection H as _ <-. lia.
  - destruct (is_digit c).
    + destruct (scan_digits s) as [ds' r'] eqn:E. injection H as _ <-.
      specialize (IH _ _ eq_refl). cbn [String.length]. lia.
    + injection H as _ <-. lia.
Qed.

Lemma scan_number_length (s lit r : string) :
  scan_number s = Some (lit, r) -> (String.length r <= String.length s)%nat.
Proof.
  unfold scan_number. intros H.
  assert (Hsign : exists sign s0,
             match s with
             | String c r0 =>
                 if Ascii.eqb c "-" then (String c EmptyString, r0) else (EmptyString, s)
             | EmptyString => (EmptyString, s)
             end = (sign, s0) /\ (String.length s0 <= String.length s)%nat).
  { destruct s as [|c r0]; [eauto |].
    destruct (Ascii.eqb c "-"); eexists _, _; (split; [reflexivity |]);
      cbn [String.length]; lia. }
  destruct Hsign as (sign & s0 & Heq & Hlen0). rewrite Heq in H.
  destruct (scan_int_part s0) as [[ip s1] |] eqn:Hint; [| discriminate H].
  destruct (scan_frac s1) as [[fp s2] |] eqn:Hfrac; [| discriminate H].
  destruct (scan_exp s2) as [[ep s3] |] eqn:Hexp; [| discriminate H].
  injection H as _ <-.
  assert (H1 : (String.length s1 <= String.length s0)%nat).
  { unfold scan_int_part in Hint. destruct s0 as [|c r0]; [discriminate Hint |].
    destruct (Ascii.eqb c "0"); [injection Hint as _ <-; cbn [String.length]; lia |].
    destruct (is_digit c); [| discriminate Hint].
    destruct (scan_digits r0) as [ds r'] eqn:E. injection Hint as _ <-.
    apply scan_digits_length in E. cbn [String.length]. lia. }
  assert (H2 : (String.length s2 <= String.length s1)%nat).
  { unfold scan_frac in Hfrac. destruct s1 as [|c r0]; [injection Hfrac as _ <-; lia |].
    destruct (Ascii.eqb c "."); [| injection Hfrac as _ <-; lia].
    destruct (scan_digits r0) as [ds r'] eqn:E. apply scan_digits_length in E.
    destruct ds; [discriminate Hfrac |]. injection Hfrac as _ <-.
    cbn [String.length]. lia. }
  assert (H3 : (String.length s3 <= String.length s2)%nat).
  { unfold scan_exp in Hexp. destruct s2 as [|c r0]; [injection Hexp as _ <-; lia |].
    destruct (Ascii.eqb c "e" || Ascii.eqb c "E"); [| injection Hexp as _ <-; lia].
    assert (Hr1 : exists sgn r1,
               match r0 with
               | String d r' =>
                   if Ascii.eqb d "+" || Ascii.eqb d "-" then (String d EmptyString, r')
                   else (EmptyString, r0)
               | EmptyString => (EmptyString, r0)
               end = (sgn, r1) /\ (String.length r1 <= String.length r0)%nat).
    { destruct r0 as [|d r']; [eauto |].
      destruct (Ascii.eqb d "+" || Ascii.eqb d "-"); eexists _, _;
        (split; [reflexivity |]); cbn [String.length]; lia. }
    destruct Hr1 as (sgn & r1 & Heq1 & Hlen1). rewrite Heq1 in Hexp.
    destruct (scan_digits r1) as [ds r'] eqn:E. apply scan_digits_length in E.
    destruct ds; [discriminate Hexp |]. injection Hexp as _ <-.
    cbn [String.length]. lia. }
  lia.
Qed.

Lemma skip_space_tail (s : string) (c : ascii) (r : string) :
  skip_space s = String c r -> (String.length r < String.length s)%nat.
Proof.
  intros H. pose proof (skip_space_length s) as Hlen. rewrite H in Hlen.
  cbn [String.length] in Hlen. lia.
Qed.

Lemma strip_prefix_skip_space (p s r : string) :
  strip_prefix p (skip_space s) = Some r -> (String.length r <= String.length s)%nat.
Proof.
  intros H. apply strip_prefix_length in H. pose proof (skip_space_length s). lia.
Qed.

Lemma value_step_consumes elems members :
  consumes elems -> consumes members -> consumes_value (value_step elems members).
Proof.
  intros He Hm depth s v r H. unfold value_step in H.
  destruct (skip_space s) as [|c r0] eqn:Hs; [discriminate H |].
  apply skip_space_tail in Hs.
  destruct (Ascii.eqb c "[").
  { destruct (maxNestingDepth <? depth + 1)%N; [discriminate H |].
    destruct (strip_prefix "]" (skip_space r0)) as [r' |] eqn:Hp.
    - injection H as _ <-. apply strip_prefix_skip_space in Hp. lia.
    - apply He in H. lia. }
  destruct (Ascii.eqb c "{").
  { destruct (maxNestingDepth <? depth + 1)%N; [discriminate H |].
    destruct (strip_prefix "}" (skip_space r0)) as [r' |] eqn:Hp.
    - injection H as _ <-. apply strip_prefix_skip_space in Hp. lia.
    - apply Hm in H. lia. }
  destruct (Ascii.eqb c "034").
  { destruct (scan_string r0) as [[b r'] |] eqn:E; [| discriminate H].
    injection H as _ <-. apply (scan_string_length _ _ _ _ (le_n _)) in E. lia. }
  destruct (Ascii.eqb c "t").
  { destruct (strip_prefix "rue" r0) as [r' |] eqn:Hp; [| discriminate H].
    injection H as _ <-. apply strip_prefix_length in Hp. lia. }
  destruct (Ascii.eqb c "f").
  { destruct (strip_prefix "alse" r0) as [r' |] eqn:Hp; [| discriminate H].
    injection H as _ <-. apply strip_prefix_length in Hp. lia. }
  destruct (Ascii.eqb c "n").
  { destruct (strip_prefix "ull" r0) as [r' |] eqn:Hp; [| discriminate H].
    injection H as _ <-. apply strip_prefix_length in Hp. lia. }
  destruct (scan_number (String c r0)) as [[lit r'] |] eqn:E; [| discriminate H].
  injection H as _ <-. apply scan_number_length in E. cbn [String.length] in E. lia.
Qed.

Lemma elems_step_consumes value_ elems :
  consumes_value value_ -> consumes elems -> consumes (elems_step value_ elems).
Proof.
  intros Hv He depth s acc v r H. unfold elems_step in H.
  destruct (value_ depth s) as [[v0 r0] |] eqn:E; [| discriminate H]. apply Hv in E.
  destruct (skip_space r0) as [|c r'] eqn:Hs; [discriminate H |].
  apply skip_space_tail in Hs.
  destruct (Ascii.eqb c ","); [apply He in H; lia |].
  destruct (Ascii.eqb c "]"); [| discriminate H]. injection H as _ <-. lia.
Qed.

Lemma members_step_consumes value_ members :
  consumes_value value_ -> consumes members -> consumes (members_step value_ members).
Proof.
  intros Hv Hm depth s acc v r H. unfold members_step in H.
  destruct (strip_prefix quote (skip_space s)) as [r0 |] eqn:Hq; [| discriminate H].
  apply strip_prefix_skip_space in Hq.
  destruct (scan_string r0) as [[k r1] |] eqn:Hk; [| discriminate H].
  apply (scan_string_length _ _ _ _ (le_n _)) in Hk.
  destruct (strip_prefix ":" (skip_space r1)) as [r2 |] eqn:Hc; [| discriminate H].
  apply strip_prefix_skip_space in Hc.
  destruct (value_ depth r2) as [[v0 r3] |] eqn:E; [| discriminate H]. apply Hv in E.
  destruct (skip_space r3) as [|c r4] eqn:Hs; [discriminate H |].
  apply skip_space_tail in Hs.
  destruct (Ascii.eqb c ","); [apply Hm in H; lia |].
  destruct (Ascii.eqb c "}"); [| discriminate H]. injection H as _ <-. lia.
Qed.

(** No parser leaves more input than it was given. *)
Lemma parse_consumes (fuel : nat) :
  consumes_value (parse_value fuel) /\ consumes (parse_elems fuel) /\
  consumes (parse_members fuel).
Proof.
  induction fuel as [|fuel (IHv & IHe & IHm)].
  - repeat split; intros ? ? ? ? H; try intros H'; cbn in *; discriminate.
  - split; [| split].
    + intros depth s v r. rewrite parse_value_step. now apply value_step_consumes.
    + intros depth s acc v r. rewrite parse_elems_step. now apply elems_step_consumes.
    + intros depth s acc v r. rewrite parse_members_step. now apply members_step_consumes.
Qed.

Lemma value_step_ext e1 e2 m1 m2 (depth : N) (s : string) :
  (forall d r acc, (String.length r < String.length s)%nat -> e1 d r acc = e2 d r acc) ->
  (forall d r acc, (String.length r < String.length s)%nat -> m1 d r acc = m2 d r acc) ->
  value_step e1 m1 depth s = value_step e2 m2 depth s.
Proof.
  intros He Hm. unfold value_step.
  destruct (skip_space s) as [|c r0] eqn:Hs; [reflexivity |].
  apply skip_space_tail in Hs.
  rewrite (He _ r0 _ Hs), (Hm _ r0 _ Hs). reflexivity.
Qed.

Lemma elems_step_ext v1 v2 e1 e2 (depth : N) (s : string) (acc : list value) :
  consumes_value v2 ->
  v1 depth s = v2 depth s ->
  (forall d r a, (String.length r < String.length s)%nat -> e1 d r a = e2 d r a) ->
  elems_step v1 e1 depth s acc = elems_step v2 e2 depth s acc.
Proof.
  intros Hcons Hv He. unfold elems_step. rewrite Hv.
  destruct (v2 depth s) as [[v0 r0] |] eqn:E; [| reflexivity]. apply Hcons in E.
  destruct (skip_space r0) as [|c r'] eqn:Hs; [reflexivity |].
  apply skip_space_tail in Hs. rewrite He by lia. reflexivity.
Qed.

Lemma members_step_ext v1 v2 m1 m2 (depth : N) (s : string) (acc : list (string * value)) :
  consumes_value v2 ->
  (forall d r, (String.length r < String.length s)%nat -> v1 d r = v2 d r) ->
  (forall d r a, (String.length r < String.length s)%nat -> m1 d r a = m2 d r a) ->
  members_step v1 m1 depth s acc = members_step v2 m2 depth s acc.
Proof.
  intros Hcons Hv Hm. unfold members_step.
  destruct (strip_prefix quote (skip_space s)) as [r0 |] eqn:Hq; [| reflexivity].
  pose proof (strip_prefix_length _ _ _ Hq) as Hq'. pose proof (skip_space_length s) as Hs0.
  cbn [quote String.length] in Hq'.
  destruct (scan_string r0) as [[k r1] |] eqn:Hk; [| reflexivity].
  apply (scan_string_length _ _ _ _ (le_n _)) in Hk.
  destruct (strip_prefix ":" (skip_space r1)) as [r2 |] eqn:Hc; [| reflexivity].
  apply strip_prefix_skip_space in Hc.
  rewrite Hv by lia.
  destruct (v2 depth r2) as [[v0 r3] |] eqn:E; [| reflexivity]. apply Hcons in E.
  destruct (skip_space r3) as [|c r4] eqn:Hs; [reflexivity |].
  apply skip_space_tail in Hs. rewrite Hm by lia. reflexivity.
Qed.

(** Past twice the length of the input, one more unit of fuel changes
    nothing. *)
Lemma parse_fuel_stable (fuel : nat) :
  (forall s depth, (2 * String.length s + 1 <= fuel)%nat ->
                   parse_value (S fuel) depth s = parse_value fuel depth s) /\
  (forall s depth acc, (2 * String.length s + 2 <= fuel)%nat ->
                       parse_elems (S fuel) depth s acc = parse_elems fuel depth s acc) /\
  (forall s depth acc, (2 * String.length s + 2 <= fuel)%nat ->
                       parse_members (S fuel) depth s acc = parse_members fuel depth s acc).
Proof.
  induction fuel as [|fuel (IHv & IHe & IHm)].
  - repeat split; intros; lia.
  - destruct (parse_consumes fuel) as (Hcons & _).
    split; [| split].
    + intros s depth Hlen. rewrite !parse_value_step. apply value_step_ext.
      * intros d r acc Hr. apply IHe. lia.
      * intros d r acc Hr. apply IHm. lia.
    + intros s depth acc Hlen. rewrite !parse_elems_step. apply elems_step_ext.
      * exact Hcons.
      * apply IHv. lia.
      * intros d r a Hr. apply IHe. lia.
    + intros s depth acc Hlen. rewrite !parse_members_step. apply members_step_ext.
      * exact Hcons.
      * intros d r Hr. apply IHv. lia.
      * intros d r a Hr. apply IHm. lia.
Qed.

(** The fuel [parse] gives is enough: more fuel never gives another
    answer, so a text that [parse] refuses is refused for its syntax. *)
Lemma parse_value_fuel_enough (extra : nat) (depth : N) (s : string) :
  parse_value (fuel_for s + extra) depth s = parse_value (fuel_for s) depth s.
Proof.
  induction extra as [|extra IH]; [now rewrite Nat.add_0_r |].
  rewrite Nat.add_succ_r, <- IH.
  apply (proj1 (parse_fuel_stable (fuel_for s + extra))). unfold fuel_for. lia.
Qed.

End JsonFacts.

(** ** convertLink: decode, translate, encode *)

Lemma translate_fold (f : Z -> Z) (oldIDs acc : list Z) :
  fold_left (fun newIDs oldID => newIDs ++ [f oldID]) oldIDs acc = acc ++ map f oldIDs.
Proof.
  revert acc. induction oldIDs as [|x xs IH]; intros acc; simpl.
  - now rewrite app_nil_r.
  - rewrite IH. now rewrite <- app_assoc.
Qed.

Lemma fold_left_ext {A B} (f g : A -> B -> A) (l : list B) (a : A) :
  (forall a b, f a b = g a b) -> fold_left f l a = fold_left g l a.
Proof.
  intros H. revert a. induction l as [|b l IH]; intros a; [reflexivity |].
  cbn [fold_left]. now rewrite H, IH.
Qed.

Lemma translate_fold_gen {A B} (f : A -> B) (xs : list A) (acc : list B) :
  fold_left (fun acc x => acc ++ [f x]) xs acc = acc ++ map f xs.
Proof.
  revert acc. induction xs as [|x xs IH]; intros acc; simpl.
  - now rewrite app_nil_r.
  - rewrite IH. now rewrite <- app_assoc.
Qed.

(** On a text that decodes without an error, the result is the encoding of
    the translated list. *)
Lemma convertLink_decoded (ref : string) (idMap : gmap Z Z) (oldIDs : list Z) :
  Json.Unmarshal_ints ref = (oldIDs, None) ->
  convertLink ref idMap = fst (Json.Marshal_ints (map (map_index idMap) oldIDs)).
Proof.
  intros H. unfold convertLink. rewrite H. rewrite translate_fold. reflexivity.
Qed.

(** On any decoding error the result is the empty string, whatever was
    decoded before the error. *)
Lemma convertLink_error (ref : string) (idMap : gmap Z Z) (partial : list Z) (e : error) :
  Json.Unmarshal_ints ref = (partial, Some e) -> convertLink ref idMap = EmptyString.
Proof. intros H. unfold convertLink. now rewrite H. Qed.

Lemma map_identity_on (idMap : gmap Z Z) (ids : list Z) :
  identity_on idMap ids -> map (map_index idMap) ids = ids.
Proof.
  induction 1 as [|x xs Hx _ IH]; [reflexivity |].
  cbn [map]. now rewrite Hx, IH.
Qed.

(** C7.  Round trip: the encoding of an ordered list of integer identifiers,
    sent through [convertLink] with a mapping that is the identity on them,
    comes back as the same string; decoding it gives the same list, with no
    element lost and none out of place. *)
Theorem convertLink_identity_round_trip (ids : list Z) (idMap : gmap Z Z) :
  Forall is_int ids ->
  identity_on idMap ids ->
  convertLink (fst (Json.Marshal_ints ids)) idMap = fst (Json.Marshal_ints ids) /\
  Json.Unmarshal_ints (convertLink (fst (Json.Marshal_ints ids)) idMap) = (ids, None).
Proof.
  intros Hint Hid.
  pose proof (JsonFacts.Unmarshal_Marshal_ints ids Hint) as Hdec.
  assert (Heq : convertLink (fst (Json.Marshal_ints ids)) idMap = fst (Json.Marshal_ints ids)).
  { rewrite (convertLink_decoded _ idMap ids Hdec). now rewrite map_identity_on. }
  split; [exact Heq |]. rewrite Heq. exact Hdec.
Qed.

Lemma convertLink_identity_round_trip_witness :
  let ids := [3; -1; 0; 42] in
  let idMap : gmap Z Z := <[3 := 3]> (<[-1 := -1]> (<[42 := 42]> ∅)) in
  Forall is_int ids /\ identity_on idMap ids /\
  convertLink (fst (Json.Marshal_ints ids)) idMap = "[3,-1,0,42]"%string.
Proof.
  intros ids idMap.
  assert (Hint : Forall is_int ids).
  { repeat constructor; unfold is_int, MinInt64, MaxInt64; lia. }
  assert (Hid : identity_on idMap ids).
  { repeat constructor. }
  split; [exact Hint |]. split; [exact Hid |].
  rewrite (proj1 (convertLink_identity_round_trip ids idMap Hint Hid)).
  reflexivity.
Defined.

Lemma first_error_store_int (vs : list Json.value) :
  Json.first_error (map snd (map Json.store_int vs)) = None <-> forallb decodable vs = true.
Proof.
  induction vs as [|v vs IH]; [now split |].
  cbn [map forallb Json.first_error].
  destruct v as [| | | lit | | |]; cbn [Json.store_int decodable snd Json.first_error andb];
    try (split; discriminate); try exact IH.
  destruct (Json.ParseInt lit); cbn [snd Json.first_error andb];
    [exact IH | split; discriminate].
Qed.

(** The decoder reports an error exactly on the malformed texts. *)
Lemma Unmarshal_ints_error_iff (ref : string) :
  snd (Json.Unmarshal_ints ref) <> None <-> malformed ref = true.
Proof.
  unfold Json.Unmarshal_ints, malformed.
  destruct (Json.parse ref) as [[| | | lit | body | vs | ms] |]; cbn [snd];
    try (split; [reflexivity | discriminate]); try (split; [congruence | discriminate]).
  pose proof (first_error_store_int vs) as H.
  destruct (forallb decodable vs); cbn [negb].
  - split; [| discriminate]. intros Hne. exfalso. apply Hne. now apply H.
  - split; [reflexivity |]. intros _ Hnone. apply H in Hnone. discriminate.
Qed.

(** C8, as the code has it.  On every malformed text, and on no other,
    [convertLink] gives the empty string, for every mapping: nothing of what
    was decoded before the error reaches the result.  The empty string is
    not the encoding of the empty list. *)
Theorem convertLink_malformed_gives_empty_string (ref : string) (idMap : gmap Z Z) :
  (malformed ref = true <-> convertLink ref idMap = EmptyString) /\
  EmptyString <> fst (Json.Marshal_ints []).
Proof.
  split; [| discriminate].
  pose proof (Unmarshal_ints_error_iff ref) as Herr.
  destruct (Json.Unmarshal_ints ref) as [ids [e |]] eqn:Hdec; cbn [snd] in Herr.
  - rewrite (convertLink_error ref idMap ids e Hdec).
    split; [reflexivity |]. intros _. apply Herr. discriminate.
  - rewrite (convertLink_decoded ref idMap ids Hdec).
    split.
    + intros Hm. apply Herr in Hm. congruence.
    + discriminate.
Qed.

(** C8 as stated fails: the truncated text below is no encoding of any list,
    and [convertLink] answers with the empty string, which is not the
    encoding of the empty list. *)
Lemma convertLink_malformed_not_empty_list_encoding :
  ~ (forall (ref : string) (idMap : gmap Z Z),
       ~ well_formed_encoding ref ->
       convertLink ref idMap = fst (Json.Marshal_ints [])).
Proof.
  intros H. specialize (H "[1,2"%string ∅).
  assert (Hnot : ~ well_formed_encoding "[1,2"%string).
  { intros (ids & Hint & Heq).
    pose proof (JsonFacts.Unmarshal_Marshal_ints ids Hint) as Hdec.
    rewrite <- Heq in Hdec. vm_compute in Hdec. discriminate Hdec. }
  specialize (H Hnot). vm_compute in H. discriminate H.
Qed.

(** ** Running Go computations *)

Lemma bind_Returned {St A B} (c : Go St A) (k : A -> Go St B) (st st' : St) (a : A) :
  c st = (Returned a, st') -> bind c k st = k a st'.
Proof. intros H. unfold bind. now rewrite H. Qed.

Lemma bind_Panicked {St A B} (c : Go St A) (k : A -> Go St B) (st st' : St) (msg : string) :
  c st = (Panicked msg, st') -> bind c k st = (Panicked msg, st').
Proof. intros H. unfold bind. now rewrite H. Qed.

Lemma range_from_nil {St X S R} (body : Z -> X -> S -> Go St (turn X S R))
    (i : Z) (s : S) (st : St) :
  range_from body i [] s st = (Returned (inl ([], s)), st).
Proof. reflexivity. Qed.

(** A turn that goes on: the loop continues behind it. *)
Lemma range_from_Continue {St X S R} (body : Z -> X -> S -> Go St (turn X S R))
    (i : Z) (x x' : X) (xs : list X) (s s' : S) (st st' : St) :
  body i x s st = (Returned (Continue x' s'), st') ->
  range_from body i (x :: xs) s st =
  match range_from body (i + 1) xs s' st' with
  | (Returned (inl (xs'', s'')), st'') => (Returned (inl (x' :: xs'', s'')), st'')
  | (Returned (inr r), st'') => (Returned (inr r), st'')
  | (Panicked msg, st'') => (Panicked msg, st'')
  end.
Proof.
  intros H. cbn [range_from]. rewrite (bind_Returned _ _ _ _ _ H).
  unfold bind. destruct (range_from body (i + 1) xs s' st') as [[[[xs'' s''] | r] | msg] st''];
    reflexivity.
Qed.

(** A turn that returns: the loop stops there and the rest of the slice is
    never visited. *)
Lemma range_from_Return {St X S R} (body : Z -> X -> S -> Go St (turn X S R))
    (i : Z) (x : X) (xs : list X) (s : S) (st st' : St) (r : R) :
  body i x s st = (Returned (Return r), st') ->
  range_from body i (x :: xs) s st = (Returned (inr r), st').
Proof. intros H. cbn [range_from]. now rewrite (bind_Returned _ _ _ _ _ H). Qed.

Lemma range_from_Panicked {St X S R} (body : Z -> X -> S -> Go St (turn X S R))
    (i : Z) (x : X) (xs : list X) (s : S) (st st' : St) (msg : string) :
  body i x s st = (Panicked msg, st') ->
  range_from body i (x :: xs) s st = (Panicked msg, st').
Proof. intros H. cbn [range_from]. now rewrite (bind_Panicked _ _ _ _ _ H). Qed.

(** ** The in-memory store, call by call *)

Module MemFacts.

Import Mem StoreSpec.

Lemma ticks_fields (n : nat) (st : Store) :
  apps (ticks n st) = apps st /\ users (ticks n st) = users st /\
  treestates (ticks n st) = treestates st /\ kvstates (ticks n st) = kvstates st /\
  setstates (ticks n st) = setstates st /\ actions (ticks n st) = actions st /\
  next_id (ticks n st) = next_id st /\ now (ticks n st) = now st /\
  faults (ticks n st) = faults st /\ calls (ticks n st) = (calls st + n)%nat.
Proof.
  revert st. induction n as [|n IH]; intros st; cbn [ticks].
  - repeat split; auto.
  - destruct (IH (tick st)) as (H1 & H2 & H3 & H4 & H5 & H6 & H7 & H8 & H9 & H10).
    rewrite H1, H2, H3, H4, H5, H6, H7, H8, H9, H10. cbn. repeat split; auto; lia.
Qed.

Lemma fault_ticks (n : nat) (st : Store) :
  fault (ticks n st) = faults st (calls st + n)%nat.
Proof.
  unfold fault. destruct (ticks_fields n st) as (_ & _ & _ & _ & _ & _ & _ & _ & -> & ->).
  reflexivity.
Qed.

Lemma tick_ticks (n : nat) (st : Store) : tick (ticks n st) = ticks (S n) st.
Proof.
  revert st. induction n as [|n IH]; intros st; [reflexivity |].
  cbn [ticks]. now rewrite IH.
Qed.

Lemma port_ok {A} (failed : A) (op : Store -> A * Store) (st : Store) :
  fault st = None ->
  port failed op st = (Returned (fst (op (tick st))), snd (op (tick st))).
Proof.
  unfold fault, port, tick. intros ->. now destruct (op _).
Qed.

Lemma port_failed {A} (failed : A) (op : Store -> A * Store) (st : Store) (e : error) :
  fault st = Some e -> port failed op st = (Returned failed, tick st).
Proof. unfold fault, port, tick. now intros ->. Qed.

End MemFacts.

(** ** The editor assembler on the store *)

Section EditorOnStore.

Import Mem StoreSpec MemFacts.

Context {ComponentNode JsonObject : Type}.
Variable buildComponentTree :
  TreeState.t -> gmap Z TreeState.t -> option ComponentNode ->
  option ComponentNode * option error.
Variable Unmarshal_strings : string -> list string * option error.
Variable Unmarshal_object : string -> JsonObject * option error.

Lemma formatActions_turn_valid (i : Z) (value : repository.Action.t)
    (resSlice : list Action.t) (st : Store) :
  valid_type value = true ->
  formatActions_turn i value resSlice st =
  (Returned (Continue value (resSlice ++ [Action_of value])), st).
Proof.
  unfold valid_type, formatActions_turn, array_index, bind. intros H.
  change (Z.of_nat (length type_array)) with 22. rewrite H. reflexivity.
Qed.

Lemma formatActions_turn_invalid (i : Z) (value : repository.Action.t)
    (resSlice : list Action.t) (st : Store) :
  valid_type value = false ->
  formatActions_turn i value resSlice st = (Panicked "index out of range"%string, st).
Proof.
  unfold valid_type, formatActions_turn, array_index, bind. intros H.
  change (Z.of_nat (length type_array)) with 22. rewrite H. reflexivity.
Qed.

(** With valid types the loop converts every action, in order. *)
Lemma formatActions_loop_valid (res : list repository.Action.t) :
  forall (i : Z) (resSlice : list Action.t) (st : Store),
    forallb valid_type res = true ->
    range_from formatActions_turn i res resSlice st =
    (Returned (inl (res, resSlice ++ map Action_of res)), st).
Proof.
  induction res as [|value res IH]; intros i resSlice st Hall.
  - rewrite range_from_nil, app_nil_r. reflexivity.
  - cbn [forallb] in Hall. apply andb_true_iff in Hall as [Hv Hall].
    rewrite (range_from_Continue _ _ _ _ _ _ _ _ _
               (formatActions_turn_valid i value resSlice st Hv)).
    rewrite IH by assumption. cbn [map]. now rewrite <- app_assoc.
Qed.

(** The first action whose type is outside the array stops the loop with a
    panic. *)
Lemma formatActions_loop_invalid (res : list repository.Action.t) :
  forall (i : Z) (resSlice : list Action.t) (st : Store),
    forallb valid_type res = false ->
    range_from formatActions_turn i res resSlice st =
    (Panicked "index out of range"%string, st).
Proof.
  induction res as [|value res IH]; intros i resSlice st Hall.
  - discriminate Hall.
  - cbn [forallb] in Hall. destruct (valid_type value) eqn:Hv.
    + rewrite (range_from_Continue _ _ _ _ _ _ _ _ _
                 (formatActions_turn_valid i value resSlice st Hv)).
      now rewrite IH.
    + now rewrite (range_from_Panicked _ _ _ _ _ _ _ _
                     (formatActions_turn_invalid i value resSlice st Hv)).
Qed.

Lemma formatActions_failed (appID version : Z) (st : Store) (e : error) :
  fault st = Some e ->
  formatActions appID version st = (Returned (None, Some e), tick st).
Proof.
  intros Hf. unfold formatActions.
  rewrite (bind_Returned _ _ st (tick st) ([], Some e)); [reflexivity |].
  cbn. unfold Action_RetrieveActionsByAppVersion.
  rewrite (port_failed _ _ _ e Hf). now rewrite Hf.
Qed.

Lemma formatActions_valid (appID version : Z) (st : Store) :
  fault st = None ->
  forallb valid_type (retrieved_actions appID version st) = true ->
  formatActions appID version st =
  (Returned (Some (map Action_of (retrieved_actions appID version st)), None), tick st).
Proof.
  intros Hf Hall. unfold formatActions.
  rewrite (bind_Returned _ _ st (tick st) (retrieved_actions appID version st, None)).
  - unfold range. fold formatActions_turn.
    rewrite (bind_Returned _ _ _ _ _ (formatActions_loop_valid _ 0 [] (tick st) Hall)).
    reflexivity.
  - cbn. unfold Action_RetrieveActionsByAppVersion. now rewrite port_ok.
Qed.

Lemma formatActions_invalid (appID version : Z) (st : Store) :
  fault st = None ->
  forallb valid_type (retrieved_actions appID version st) = false ->
  formatActions appID version st = (Panicked "index out of range"%string, tick st).
Proof.
  intros Hf Hall. unfold formatActions.
  rewrite (bind_Returned _ _ st (tick st) (retrieved_actions appID version st, None)).
  - unfold range. fold formatActions_turn.
    now rewrite (bind_Panicked _ _ _ _ _ (formatActions_loop_invalid _ 0 [] (tick st) Hall)).
  - cbn. unfold Action_RetrieveActionsByAppVersion. now rewrite port_ok.
Qed.

Lemma User_RetrieveByID_one_call (id : Z) : one_call (User_RetrieveByID id).
Proof.
  intros st. unfold User_RetrieveByID. destruct (fault st) as [e |] eqn:Hf.
  - rewrite (port_failed _ _ _ e Hf). eauto.
  - rewrite port_ok by assumption. cbn. destruct (users st !! id); cbn; eauto.
Qed.

Lemma formatComponents_failed (appID version : Z) (st : Store) (e : error) :
  fault st = Some e ->
  formatComponents buildComponentTree appID version st = (Returned (None, Some e), tick st).
Proof.
  intros Hf. unfold formatComponents.
  rewrite (bind_Returned _ _ st (tick st) ([], Some e)); [reflexivity |].
  cbn. unfold TreeState_RetrieveTreeStatesByApp.
  rewrite (port_failed _ _ _ e Hf). now rewrite Hf.
Qed.

Lemma formatComponents_retrieved (appID version : Z) (st : Store) :
  fault st = None ->
  exists node,
    formatComponents buildComponentTree appID version st =
    (Returned (node,
               if (length (retrieved_components appID version st) =? 0)%nat
               then Some (errorString "no component") else None), tick st) /\
    (retrieved_components appID version st = [] -> node = None).
Proof.
  intros Hf. unfold formatComponents.
  rewrite (bind_Returned _ _ st (tick st) (retrieved_components appID version st, None)).
  - destruct (retrieved_components appID version st) as [|row rows] eqn:Hres.
    + cbn. eauto.
    + cbn [length Nat.eqb].
      destruct (fold_left _ (row :: rows) _) as [tempMap root].
      destruct (buildComponentTree root tempMap None) as [resNode err].
      exists resNode. split; [reflexivity | discriminate].
  - cbn. unfold TreeState_RetrieveTreeStatesByApp. now rewrite port_ok.
Qed.

Lemma KVState_RetrieveKVStatesByApp_failed (appID : Z) (kind : StateType) (version : Z)
    (st : Store) (e : error) :
  fault st = Some e ->
  KVState_RetrieveKVStatesByApp appID kind version st = (Returned ([], Some e), tick st).
Proof.
  intros Hf. unfold KVState_RetrieveKVStatesByApp.
  rewrite (port_failed _ _ _ e Hf). now rewrite Hf.
Qed.

Lemma KVState_RetrieveKVStatesByApp_ok (appID : Z) (kind : StateType) (version : Z)
    (st : Store) :
  fault st = None ->
  KVState_RetrieveKVStatesByApp appID kind version st =
  (Returned (retrieved_kvstates appID kind version st, None), tick st).
Proof.
  intros Hf. unfold KVState_RetrieveKVStatesByApp. now rewrite port_ok.
Qed.

Lemma formatDependenciesState_failed (appID version : Z) (st : Store) (e : error) :
  fault st = Some e ->
  formatDependenciesState Unmarshal_strings appID version st =
  (Returned (None, Some e), tick st).
Proof.
  intros Hf. unfold formatDependenciesState.
  now rewrite (bind_Returned _ _ _ _ _
                 (KVState_RetrieveKVStatesByApp_failed appID _ version st e Hf)).
Qed.

Lemma formatDependenciesState_ok (appID version : Z) (st : Store) :
  fault st = None ->
  formatDependenciesState Unmarshal_strings appID version st =
  (Returned (Some (keyed (fun row => fst (Unmarshal_strings (KVState.Value row)))
                     (retrieved_kvstates appID KV_STATE_TYPE_DEPENDENCIES version st)),
             None), tick st).
Proof.
  intros Hf. unfold formatDependenciesState.
  rewrite (bind_Returned _ _ _ _ _ (KVState_RetrieveKVStatesByApp_ok appID _ version st Hf)).
  destruct (retrieved_kvstates _ _ _ _) as [|row rows]; [reflexivity |].
  cbn [length Nat.eqb]. unfold ret, keyed. do 4 f_equal.
  apply fold_left_ext. intros resMap dependency.
  now destruct (Unmarshal_strings (KVState.Value dependency)).
Qed.

Lemma formatDragShadowState_failed (appID version : Z) (st : Store) (e : error) :
  fault st = Some e ->
  formatDragShadowState Unmarshal_object appID version st =
  (Returned (None, Some e), tick st).
Proof.
  intros Hf. unfold formatDragShadowState.
  now rewrite (bind_Returned _ _ _ _ _
                 (KVState_RetrieveKVStatesByApp_failed appID _ version st e Hf)).
Qed.

Lemma formatDragShadowState_ok (appID version : Z) (st : Store) :
  fault st = None ->
  formatDragShadowState Unmarshal_object appID version st =
  (Returned (Some (keyed (fun row => IfaceObject (fst (Unmarshal_object (KVState.Value row))))
                     (retrieved_kvstates appID KV_STATE_TYPE_DRAG_SHADOW version st)),
             None), tick st).
Proof.
  intros Hf. unfold formatDragShadowState.
  rewrite (bind_Returned _ _ _ _ _ (KVState_RetrieveKVStatesByApp_ok appID _ version st Hf)).
  destruct (retrieved_kvstates _ _ _ _) as [|row rows]; [reflexivity |].
  cbn [length Nat.eqb]. unfold ret, keyed. do 4 f_equal.
  apply fold_left_ext. intros resMap shadow.
  now destruct (Unmarshal_object (KVState.Value shadow)).
Qed.

Lemma formatDottedLineSquareState_failed (appID version : Z) (st : Store) (e : error) :
  fault st = Some e ->
  formatDottedLineSquareState Unmarshal_object appID version st =
  (Returned (None, Some e), tick st).
Proof.
  intros Hf. unfold formatDottedLineSquareState.
  now rewrite (bind_Returned _ _ _ _ _
                 (KVState_RetrieveKVStatesByApp_failed appID _ version st e Hf)).
Qed.

(** The dotted-line-square map holds every row's value as the string it was
    stored as. *)
Lemma formatDottedLineSquareState_ok (appID version : Z) (st : Store) :
  fault st = None ->
  formatDottedLineSquareState Unmarshal_object appID version st =
  (Returned (Some (keyed (fun row => IfaceString (KVState.Value row))
                     (retrieved_kvstates appID KV_STATE_TYPE_DOTTED_LINE_SQUARE version st)),
             None), tick st).
Proof.
  intros Hf. unfold formatDottedLineSquareState.
  rewrite (bind_Returned _ _ _ _ _ (KVState_RetrieveKVStatesByApp_ok appID _ version st Hf)).
  destruct (retrieved_kvstates _ _ _ _) as [|row rows]; [reflexivity |].
  cbn [length Nat.eqb]. unfold ret, keyed. do 4 f_equal.
  apply fold_left_ext. intros resMap line.
  now destruct (Unmarshal_object (KVState.Value line)).
Qed.

Lemma formatDisplayNameState_failed (appID version : Z) (st : Store) (e : error) :
  fault st = Some e ->
  formatDisplayNameState appID version st = (Returned (None, Some e), tick st).
Proof.
  intros Hf. unfold formatDisplayNameState.
  rewrite (bind_Returned _ _ st (tick st) ([], Some e)); [reflexivity |].
  cbn. unfold SetState_RetrieveSetStatesByApp.
  rewrite (port_failed _ _ _ e Hf). now rewrite Hf.
Qed.

Lemma formatDisplayNameState_ok (appID version : Z) (st : Store) :
  fault st = None ->
  formatDisplayNameState appID version st =
  (Returned (Some (map SetState.Value
                     (retrieved_setstates appID SET_STATE_TYPE_DISPLAY_NAME version st)),
             None), tick st).
Proof.
  intros Hf. unfold formatDisplayNameState.
  rewrite (bind_Returned _ _ st (tick st)
             (retrieved_setstates appID SET_STATE_TYPE_DISPLAY_NAME version st, None)).
  - destruct (retrieved_setstates _ _ _ _) as [|row rows]; [reflexivity |].
    cbn [length Nat.eqb]. unfold ret. do 4 f_equal.
    rewrite (translate_fold_gen SetState.Value). reflexivity.
  - cbn. unfold SetState_RetrieveSetStatesByApp. now rewrite port_ok.
Qed.

Lemma App_RetrieveAppByID_failed (appID : Z) (st : Store) (e : error) :
  fault st = Some e ->
  App_RetrieveAppByID appID st = (Returned (App.zero, Some e), tick st).
Proof.
  intros Hf. unfold App_RetrieveAppByID. rewrite (port_failed _ _ _ e Hf). now rewrite Hf.
Qed.

Lemma App_RetrieveAppByID_found (appID : Z) (st : Store) (app : App.t) :
  fault st = None -> apps st !! appID = Some app ->
  App_RetrieveAppByID appID st = (Returned (app, None), tick st).
Proof.
  intros Hf Happ. unfold App_RetrieveAppByID. rewrite port_ok by assumption.
  cbn. now rewrite Happ.
Qed.

Lemma App_RetrieveAppByID_missing (appID : Z) (st : Store) :
  fault st = None -> apps st !! appID = None ->
  App_RetrieveAppByID appID st = (Returned (App.zero, Some record_not_found), tick st).
Proof.
  intros Hf Happ. unfold App_RetrieveAppByID. rewrite port_ok by assumption.
  cbn. now rewrite Happ.
Qed.

Lemma retrieved_actions_ticks (appID version : Z) (n : nat) (st : Store) :
  retrieved_actions appID version (ticks n st) = retrieved_actions appID version st.
Proof.
  unfold retrieved_actions.
  now destruct (ticks_fields n st) as (_ & _ & _ & _ & _ & -> & _).
Qed.

Lemma retrieved_components_ticks (appID version : Z) (n : nat) (st : Store) :
  retrieved_components appID version (ticks n st) = retrieved_components appID version st.
Proof.
  unfold retrieved_components.
  now destruct (ticks_fields n st) as (_ & _ & -> & _).
Qed.

Lemma formatActions_runs (appID version : Z) (st : Store) :
  fault st <> None \/ forallb valid_type (retrieved_actions appID version st) = true ->
  exists actions err,
    formatActions appID version st = (Returned (actions, err), tick st) /\
    (fault st <> None <-> actions = None).
Proof.
  intros Hall. destruct (fault st) as [e |] eqn:Hf.
  - rewrite (formatActions_failed _ _ _ e Hf). eexists _, _. split; [reflexivity |].
    split; congruence.
  - destruct Hall as [Hfail | Hall]; [congruence |].
    rewrite formatActions_valid by assumption. eexists _, _. split; [reflexivity |].
    split; congruence.
Qed.

Lemma formatComponents_runs (appID version : Z) (st : Store) :
  exists components err,
    formatComponents buildComponentTree appID version st =
    (Returned (components, err), tick st) /\
    (fault st <> None \/ retrieved_components appID version st = [] -> components = None).
Proof.
  destruct (fault st) as [e |] eqn:Hf.
  - rewrite (formatComponents_failed _ _ _ e Hf). eexists _, _. split; [reflexivity | auto].
  - destruct (formatComponents_retrieved appID version st Hf) as (node & -> & Hempty).
    eexists _, _. split; [reflexivity |]. intros [Hne | Hnil]; [congruence | auto].
Qed.

Lemma formatDependenciesState_runs (appID version : Z) (st : Store) :
  exists section err,
    formatDependenciesState Unmarshal_strings appID version st =
    (Returned (section, err), tick st) /\
    (fault st <> None <-> section = None).
Proof.
  destruct (fault st) as [e |] eqn:Hf.
  - rewrite (formatDependenciesState_failed _ _ _ e Hf). eexists _, _.
    split; [reflexivity |]. split; congruence.
  - rewrite formatDependenciesState_ok by assumption. eexists _, _.
    split; [reflexivity |]. split; congruence.
Qed.

Lemma formatDragShadowState_runs (appID version : Z) (st : Store) :
  exists section err,
    formatDragShadowState Unmarshal_object appID version st =
    (Returned (section, err), tick st) /\
    (fault st <> None <-> section = None).
Proof.
  destruct (fault st) as [e |] eqn:Hf.
  - rewrite (formatDragShadowState_failed _ _ _ e Hf). eexists _, _.
    split; [reflexivity |]. split; congruence.
  - rewrite formatDragShadowState_ok by assumption. eexists _, _.
    split; [reflexivity |]. split; congruence.
Qed.

Lemma formatDottedLineSquareState_runs (appID version : Z) (st : Store) :
  exists section err,
    formatDottedLineSquareState Unmarshal_object appID version st =
    (Returned (section, err), tick st) /\
    (fault st <> None <-> section = None).
Proof.
  destruct (fault st) as [e |] eqn:Hf.
  - rewrite (formatDottedLineSquareState_failed _ _ _ e Hf). eexists _, _.
    split; [reflexivity |]. split; congruence.
  - rewrite formatDottedLineSquareState_ok by assumption. eexists _, _.
    split; [reflexivity |]. split; congruence.
Qed.

Lemma formatDisplayNameState_runs (appID version : Z) (st : Store) :
  exists section err,
    formatDisplayNameState appID version st = (Returned (section, err), tick st) /\
    (fault st <> None <-> section = None).
Proof.
  destruct (fault st) as [e |] eqn:Hf.
  - rewrite (formatDisplayNameState_failed _ _ _ e Hf). eexists _, _.
    split; [reflexivity |]. split; congruence.
  - rewrite formatDisplayNameState_ok by assumption. eexists _, _.
    split; [reflexivity |]. split; congruence.
Qed.

Lemma fetchEditor_found (appID version : Z) (st : Store) (app : App.t) :
  fault st = None -> apps st !! appID = Some app ->
  fetchEditor buildComponentTree Unmarshal_strings Unmarshal_object appID version st =
  if (App.ID app =? 0) || (App.MainlineVersion app <? version)
  then (Returned (Editor.zero, Some (errorString "content not found")), tick st)
  else assemble buildComponentTree Unmarshal_strings Unmarshal_object app appID version (tick st).
Proof.
  intros Hf Happ. unfold fetchEditor.
  rewrite (bind_Returned _ _ st (tick st) (app, None))
    by (cbn; now apply App_RetrieveAppByID_found).
  destruct ((App.ID app =? 0) || (App.MainlineVersion app <? version)); reflexivity.
Qed.

(** When the retrieval of the actions fails or the action types are valid,
    every section is assembled, each by one port call; a section whose
    retrieval fails is left nil. *)
Lemma assemble_runs (app : App.t) (appID version : Z) (st : Store) :
  fault (ticks 1 st) <> None \/
  forallb valid_type (retrieved_actions appID version st) = true ->
  exists doc,
    assemble buildComponentTree Unmarshal_strings Unmarshal_object app appID version st =
    (Returned (doc, None), ticks 7 st) /\
    (fault (ticks 1 st) <> None <-> Editor.Actions doc = None) /\
    (fault (ticks 2 st) <> None \/ retrieved_components appID version st = [] ->
     Editor.Components doc = None) /\
    (fault (ticks 3 st) <> None <-> Editor.DependenciesState doc = None) /\
    (fault (ticks 4 st) <> None <-> Editor.DragShadowState doc = None) /\
    (fault (ticks 5 st) <> None <-> Editor.DottedLineSquareState doc = None) /\
    (fault (ticks 6 st) <> None <-> Editor.DisplayNameState doc = None).
Proof.
  intros Hall. unfold assemble.
  destruct (User_RetrieveByID_one_call (App.UpdatedBy app) st) as ([userRecord ue] & Hu).
  rewrite (bind_Returned _ _ _ _ _ Hu).
  destruct (formatActions_runs appID version (ticks 1 st)) as (actions & ea & Ha & Hna).
  { rewrite retrieved_actions_ticks. exact Hall. }
  change (tick st) with (ticks 1 st). rewrite (bind_Returned _ _ _ _ _ Ha).
  destruct (formatComponents_runs appID version (ticks 2 st)) as (components & ec & Hc & Hnc).
  rewrite retrieved_components_ticks in Hnc.
  rewrite tick_ticks, (bind_Returned _ _ _ _ _ Hc).
  destruct (formatDependenciesState_runs appID version (ticks 3 st)) as (deps & ed & Hd & Hnd).
  rewrite tick_ticks, (bind_Returned _ _ _ _ _ Hd).
  destruct (formatDragShadowState_runs appID version (ticks 4 st)) as (drag & es & Hs & Hns).
  rewrite tick_ticks, (bind_Returned _ _ _ _ _ Hs).
  destruct (formatDottedLineSquareState_runs appID version (ticks 5 st))
    as (dotted & el & Hl & Hnl).
  rewrite tick_ticks, (bind_Returned _ _ _ _ _ Hl).
  destruct (formatDisplayNameState_runs appID version (ticks 6 st)) as (names & en & Hn & Hnn).
  rewrite tick_ticks, (bind_Returned _ _ _ _ _ Hn).
  rewrite tick_ticks. eexists. split; [reflexivity |]. cbn. auto 10.
Qed.

Lemma valid_type_in_range (value : repository.Action.t) :
  valid_type value = true <-> type_in_range value.
Proof.
  unfold valid_type, type_in_range. rewrite andb_true_iff, Z.leb_le, Z.ltb_lt. lia.
Qed.

Lemma forallb_valid_type (res : list repository.Action.t) :
  forallb valid_type res = true <-> Forall type_in_range res.
Proof.
  induction res as [|value res IH]; cbn [forallb].
  - split; [constructor | reflexivity].
  - rewrite andb_true_iff, IH, valid_type_in_range. split.
    + intros [? ?]. now constructor.
    + intros H. split; [exact (Forall_inv H) | exact (Forall_inv_tail H)].
Qed.

Lemma forallb_valid_type_false (res : list repository.Action.t) :
  forallb valid_type res = false <-> Exists (fun value => ~ type_in_range value) res.
Proof.
  induction res as [|value res IH]; cbn [forallb].
  - split; [discriminate | intros H; inversion H].
  - rewrite andb_false_iff, IH. split.
    + intros [Hv | Hex]; [left | now right].
      intros Hr. apply valid_type_in_range in Hr. congruence.
    + intros Hex. inversion Hex as [? ? Hv | ? ? Hrest]; subst; [left | now right].
      destruct (valid_type value) eqn:E; [| reflexivity].
      exfalso. apply Hv. now apply valid_type_in_range.
Qed.

(** After the read of an existing app and the version check, the retrieval
    of the actions is the third port call: when it succeeds and a retrieved
    type is no index into [type_array], [GetMegaData] panics. *)
Lemma GetMegaData_panics (appID version : Z) (st : Store) (app : App.t) :
  fault st = None ->
  apps st !! appID = Some app ->
  App.ID app <> 0 ->
  version <= App.MainlineVersion app ->
  faults st (calls st + 2)%nat = None ->
  forallb valid_type (retrieved_actions appID version st) = false ->
  GetMegaData buildComponentTree Unmarshal_strings Unmarshal_object appID version st =
  (Panicked "index out of range"%string, ticks 3 st).
Proof.
  intros Hf Happ Hid Hver Hf2 Hex.
  unfold GetMegaData, bind. rewrite (fetchEditor_found appID version st app Hf Happ).
  apply Z.eqb_neq in Hid. rewrite Hid. cbn [orb].
  assert (Hlt : (App.MainlineVersion app <? version) = false) by (apply Z.ltb_ge; lia).
  rewrite Hlt. unfold assemble.
  destruct (User_RetrieveByID_one_call (App.UpdatedBy app) (tick st))
    as ([userRecord ue] & Hu).
  rewrite (bind_Returned _ _ _ _ _ Hu).
  change (tick (tick st)) with (ticks 2 st).
  rewrite (bind_Panicked _ _ (ticks 2 st) (ticks 3 st) "index out of range"%string);
    [reflexivity |].
  rewrite <- (tick_ticks 2). apply formatActions_invalid.
  - now rewrite fault_ticks.
  - now rewrite retrieved_actions_ticks.
Qed.

(** The same run when the retrieval of the actions fails or every retrieved
    type is an index: a document and a nil error after eight port calls. *)
Lemma GetMegaData_returns (appID version : Z) (st : Store) (app : App.t) :
  fault st = None ->
  apps st !! appID = Some app ->
  App.ID app <> 0 ->
  version <= App.MainlineVersion app ->
  faults st (calls st + 2)%nat <> None \/
  Forall type_in_range (retrieved_actions appID version st) ->
  exists doc,
    GetMegaData buildComponentTree Unmarshal_strings Unmarshal_object appID version st =
    (Returned (doc, None), ticks 8 st) /\
    (faults st (calls st + 2)%nat <> None <-> Editor.Actions doc = None) /\
    (faults st (calls st + 3)%nat <> None \/ retrieved_components appID version st = [] ->
     Editor.Components doc = None) /\
    (faults st (calls st + 4)%nat <> None <-> Editor.DependenciesState doc = None) /\
    (faults st (calls st + 5)%nat <> None <-> Editor.DragShadowState doc = None) /\
    (faults st (calls st + 6)%nat <> None <-> Editor.DottedLineSquareState doc = None) /\
    (faults st (calls st + 7)%nat <> None <-> Editor.DisplayNameState doc = None).
Proof.
  intros Hf Happ Hid Hver Hvalid.
  unfold GetMegaData, bind. rewrite (fetchEditor_found appID version st app Hf Happ).
  apply Z.eqb_neq in Hid. rewrite Hid. cbn [orb].
  assert (Hlt : (App.MainlineVersion app <? version) = false) by (apply Z.ltb_ge; lia).
  rewrite Hlt.
  destruct (assemble_runs app appID version (tick st)) as (doc & Hrun & Hsections).
  { change (tick st) with (ticks 1 st). change (ticks 1 (ticks 1 st)) with (ticks 2 st).
    rewrite fault_ticks, retrieved_actions_ticks.
    destruct Hvalid as [Hfail | Hvalid]; [now left | right].
    now apply forallb_valid_type. }
  rewrite Hrun. exists doc. split; [reflexivity |].
  change (tick st) with (ticks 1 st) in Hsections.
  change (ticks 1 (ticks 1 st)) with (ticks 2 st) in Hsections.
  change (ticks 2 (ticks 1 st)) with (ticks 3 st) in Hsections.
  change (ticks 3 (ticks 1 st)) with (ticks 4 st) in Hsections.
  change (ticks 4 (ticks 1 st)) with (ticks 5 st) in Hsections.
  change (ticks 5 (ticks 1 st)) with (ticks 6 st) in Hsections.
  change (ticks 6 (ticks 1 st)) with (ticks 7 st) in Hsections.
  rewrite !fault_ticks, retrieved_components_ticks in Hsections.
  exact Hsections.
Qed.

(** C4, as the code has it.  For an app that exists (its row is read and
    carries a non-zero identifier): a version beyond the mainline version
    gives the not-found error, whatever the store holds; version 0 and every
    version up to the mainline version give a document and a nil error when
    the retrieval of the actions fails or every retrieved action's type lies
    in 0..21, and a panic when the actions are retrieved and one type lies
    outside.  So whenever [GetMegaData] returns, its error is the not-found
    error exactly when the version exceeds the mainline version, and nil
    otherwise. *)
Theorem GetMegaData_not_found_iff_beyond_mainline
    (appID version : Z) (st : Store) (app : App.t) :
  fault st = None ->
  apps st !! appID = Some app ->
  App.ID app <> 0 ->
  (App.MainlineVersion app < version ->
   GetMegaData buildComponentTree Unmarshal_strings Unmarshal_object appID version st =
   (Returned (Editor.zero, Some (errorString "content not found")), tick st)) /\
  (version <= App.MainlineVersion app ->
   (faults st (calls st + 2)%nat <> None \/
    Forall type_in_range (retrieved_actions appID version st) ->
    exists doc,
      GetMegaData buildComponentTree Unmarshal_strings Unmarshal_object appID version st =
      (Returned (doc, None), ticks 8 st)) /\
   (faults st (calls st + 2)%nat = None ->
    Exists (fun value => ~ type_in_range value) (retrieved_actions appID version st) ->
    GetMegaData buildComponentTree Unmarshal_strings Unmarshal_object appID version st =
    (Panicked "index out of range"%string, ticks 3 st))) /\
  (forall doc err st',
      GetMegaData buildComponentTree Unmarshal_strings Unmarshal_object appID version st =
      (Returned (doc, err), st') ->
      (err = Some (errorString "content not found") <-> App.MainlineVersion app < version) /\
      (version <= App.MainlineVersion app -> err = None)).
Proof.
  intros Hf Happ Hid.
  assert (Hbeyond :
    App.MainlineVersion app < version ->
    GetMegaData buildComponentTree Unmarshal_strings Unmarshal_object appID version st =
    (Returned (Editor.zero, Some (errorString "content not found")), tick st)).
  { intros Hlt. unfold GetMegaData, bind.
    rewrite (fetchEditor_found appID version st app Hf Happ).
    apply Z.eqb_neq in Hid. rewrite Hid. cbn [orb].
    apply Z.ltb_lt in Hlt. now rewrite Hlt. }
  split; [exact Hbeyond |]. split.
  - intros Hver. split.
    + intros Hvalid.
      destruct (GetMegaData_returns appID version st app Hf Happ Hid Hver Hvalid)
        as (doc & Hrun & _).
      now exists doc.
    + intros Hf2 Hex. apply forallb_valid_type_false in Hex.
      now apply GetMegaData_panics with (app := app).
  - intros doc err st' Hrun.
    destruct (Z.lt_ge_cases (App.MainlineVersion app) version) as [Hlt | Hver].
    + rewrite (Hbeyond Hlt) in Hrun. injection Hrun as _ <- _.
      split; [tauto | lia].
    + destruct (faults st (calls st + 2)%nat) as [e |] eqn:Hf2.
      * destruct (GetMegaData_returns appID version st app Hf Happ Hid Hver)
          as (doc' & Hrun' & _); [left; congruence |].
        rewrite Hrun' in Hrun. injection Hrun as _ <- _.
        split; [| reflexivity]. split; [discriminate | lia].
      * destruct (forallb valid_type (retrieved_actions appID version st)) eqn:Hall.
        -- apply forallb_valid_type in Hall.
           destruct (GetMegaData_returns appID version st app Hf Happ Hid Hver)
             as (doc' & Hrun' & _); [now right |].
           rewrite Hrun' in Hrun. injection Hrun as _ <- _.
           split; [| reflexivity]. split; [discriminate | lia].
        -- rewrite (GetMegaData_panics appID version st app Hf Happ Hid Hver Hf2 Hall)
             in Hrun.
           discriminate Hrun.
Qed.

(** C9.  [formatActions] indexes [type_array] with the stored type and no
    bounds check: it returns exactly when every retrieved action's type lies
    in 0..21, and panics otherwise; for an app that exists and a version
    within the mainline, one retrieved action with a type outside that range
    makes [GetMegaData] panic instead of returning an error. *)
Theorem formatActions_panics_on_type_out_of_range
    (appID version : Z) (st : Store) (app : App.t) :
  fault st = None ->
  apps st !! appID = Some app ->
  App.ID app <> 0 ->
  version <= App.MainlineVersion app ->
  faults st (calls st + 2)%nat = None ->
  (Forall type_in_range (retrieved_actions appID version st) <->
   exists res, formatActions appID version st = (Returned res, tick st)) /\
  (Exists (fun value => ~ type_in_range value) (retrieved_actions appID version st) ->
   formatActions appID version st = (Panicked "index out of range"%string, tick st) /\
   GetMegaData buildComponentTree Unmarshal_strings Unmarshal_object appID version st =
   (Panicked "index out of range"%string, ticks 3 st)).
Proof.
  intros Hf Happ Hid Hver Hf2. split.
  - split.
    + intros Hvalid. apply forallb_valid_type in Hvalid.
      rewrite formatActions_valid by assumption. eauto.
    + intros (res & Hres).
      destruct (forallb valid_type (retrieved_actions appID version st)) eqn:Hall.
      * now apply forallb_valid_type.
      * rewrite formatActions_invalid in Hres by assumption. discriminate Hres.
  - intros Hex. apply forallb_valid_type_false in Hex. split.
    + now apply formatActions_invalid.
    + unfold GetMegaData, bind. rewrite (fetchEditor_found appID version st app Hf Happ).
      apply Z.eqb_neq in Hid. rewrite Hid. cbn [orb].
      assert (Hlt : (App.MainlineVersion app <? version) = false) by (apply Z.ltb_ge; lia).
      rewrite Hlt. unfold assemble.
      destruct (User_RetrieveByID_one_call (App.UpdatedBy app) (tick st))
        as ([userRecord ue] & Hu).
      rewrite (bind_Returned _ _ _ _ _ Hu).
      change (tick (tick st)) with (ticks 2 st).
      rewrite (bind_Panicked _ _ (ticks 2 st) (ticks 3 st) "index out of range"%string);
        [reflexivity |].
      rewrite <- (tick_ticks 2). apply formatActions_invalid.
      * now rewrite fault_ticks.
      * now rewrite retrieved_actions_ticks.
Qed.

(** C10, as the code has it.  Once the app exists and the requested version
    does not exceed the mainline version: when the retrieval of the actions
    fails or every retrieved action's type lies in 0..21, [GetMegaData]
    returns a document with a nil error after eight port calls, whichever
    section retrievals failed: a section whose retrieval failed is nil in the
    document, and with no component rows for the app and version the
    components field is nil.  The one failure that is not discarded is a
    retrieved action whose type lies outside 0..21: then [GetMegaData]
    panics. *)
Theorem GetMegaData_discards_section_errors
    (appID version : Z) (st : Store) (app : App.t) :
  fault st = None ->
  apps st !! appID = Some app ->
  App.ID app <> 0 ->
  version <= App.MainlineVersion app ->
  (faults st (calls st + 2)%nat <> None \/
   Forall type_in_range (retrieved_actions appID version st) ->
   exists doc,
     GetMegaData buildComponentTree Unmarshal_strings Unmarshal_object appID version st =
     (Returned (doc, None), ticks 8 st) /\
     (faults st (calls st + 2)%nat <> None <-> Editor.Actions doc = None) /\
     (faults st (calls st + 3)%nat <> None \/ retrieved_components appID version st = [] ->
      Editor.Components doc = None) /\
     (faults st (calls st + 4)%nat <> None <-> Editor.DependenciesState doc = None) /\
     (faults st (calls st + 5)%nat <> None <-> Editor.DragShadowState doc = None) /\
     (faults st (calls st + 6)%nat <> None <-> Editor.DottedLineSquareState doc = None) /\
     (faults st (calls st + 7)%nat <> None <-> Editor.DisplayNameState doc = None)) /\
  (faults st (calls st + 2)%nat = None ->
   Exists (fun value => ~ type_in_range value) (retrieved_actions appID version st) ->
   GetMegaData buildComponentTree Unmarshal_strings Unmarshal_object appID version st =
   (Panicked "index out of range"%string, ticks 3 st)).
Proof.
  intros Hf Happ Hid Hver. split.
  - intros Hvalid. exact (GetMegaData_returns appID version st app Hf Happ Hid Hver Hvalid).
  - intros Hf2 Hex. apply forallb_valid_type_false in Hex.
    now apply GetMegaData_panics with (app := app).
Qed.

Lemma keyed_lookup {V} (value_of : KVState.t -> V) (rows : list KVState.t) :
  forall (init : gmap string V) (key : string) (v : V),
    fold_left (fun resMap row => <[KVState.Key row := value_of row]> resMap) rows init
      !! key = Some v ->
    init !! key = Some v \/
    exists row, In row rows /\ KVState.Key row = key /\ v = value_of row.
Proof.
  induction rows as [|row rows IH]; intros init key v H; cbn [fold_left] in H.
  - now left.
  - apply IH in H as [H | (row' & Hin & Hkey & Hv)].
    + destruct (decide (KVState.Key row = key)) as [Heq | Hne].
      * subst key. rewrite lookup_insert_eq in H. injection H as <-.
        right. exists row. split; [now left | auto].
      * rewrite lookup_insert_ne in H by assumption. now left.
    + right. exists row'. split; [now right | auto].
Qed.

(** C5, on the dotted-line-square map.  Every value the map holds is the
    serialized string of a retrieved row, as stored: never the object the
    string decodes to. *)
Theorem formatDottedLineSquareState_keeps_serialized_value
    (appID version : Z) (st : Store) :
  fault st = None ->
  exists resMap,
    formatDottedLineSquareState Unmarshal_object appID version st =
    (Returned (Some resMap, None), tick st) /\
    forall (key : string) (v : iface JsonObject),
      resMap !! key = Some v ->
      (exists row,
         In row (retrieved_kvstates appID KV_STATE_TYPE_DOTTED_LINE_SQUARE version st) /\
         KVState.Key row = key /\ v = IfaceString (KVState.Value row)) /\
      forall o, v <> IfaceObject o.
Proof.
  intros Hf. rewrite formatDottedLineSquareState_ok by assumption.
  eexists. split; [reflexivity |]. intros key v Hlook.
  apply keyed_lookup in Hlook as [Hempty | (row & Hin & Hkey & ->)].
  - rewrite lookup_empty in Hempty. discriminate.
  - split; [eauto | discriminate].
Qed.

End EditorOnStore.

(** ** Storage failures during a clone *)

Module CloneFacts.

Import Mem StoreSpec MemFacts CloneSpec.

Lemma frame_refl (st : Store) : frame st st.
Proof. unfold frame. auto. Qed.

Lemma frame_trans (st1 st2 st3 : Store) : frame st1 st2 -> frame st2 st3 -> frame st1 st3.
Proof.
  unfold frame. intros (A1 & U1 & F1 & C1) (A2 & U2 & F2 & C2).
  repeat split; try congruence. lia.
Qed.

Lemma trace_trans (st1 st2 st3 : Store) (r : option error) :
  frame st1 st2 -> trace st1 st2 None -> frame st2 st3 -> trace st2 st3 r ->
  trace st1 st3 r.
Proof.
  unfold frame. intros (_ & _ & F1 & C1) T1 (_ & _ & _ & C2) T2.
  destruct r as [e |]; cbn [trace] in *.
  - destruct T2 as (Hlt & Hbefore & Hlast). rewrite F1 in Hbefore, Hlast.
    split; [lia |]. split; [| exact Hlast].
    intros c Hc. destruct (Nat.lt_ge_cases c (calls st2)); [apply T1 | apply Hbefore]; lia.
  - intros c Hc. rewrite F1 in T2.
    destruct (Nat.lt_ge_cases c (calls st2)); [apply T1 | apply T2]; lia.
Qed.

Lemma traced_ret {A} (err_of : A -> option error) (a : A) :
  err_of a = None -> traced err_of (ret a).
Proof.
  intros H st. exists a, st. split; [reflexivity |]. split; [apply frame_refl |].
  rewrite H. cbn. intros c Hc. lia.
Qed.

(** Sequencing: after a step without error the rest runs; a step with an
    error hands it out at once. *)
Lemma traced_bind {A B} (errA : A -> option error) (errB : B -> option error)
    (c : Go Store A) (k : A -> Go Store B) :
  traced errA c ->
  (forall a, errA a = None -> traced errB (k a)) ->
  (forall a e, errA a = Some e -> exists b, k a = ret b /\ errB b = Some e) ->
  traced errB (bind c k).
Proof.
  intros Hc Hok Herr st.
  destruct (Hc st) as (a & st1 & Hrun & Hframe & Htrace).
  rewrite (bind_Returned _ _ _ _ _ Hrun).
  destruct (errA a) as [e |] eqn:Ha.
  - destruct (Herr a e Ha) as (b & -> & Hb).
    exists b, st1. split; [reflexivity |]. split; [exact Hframe |]. now rewrite Hb.
  - destruct (Hok a Ha st1) as (b & st2 & Hrun2 & Hframe2 & Htrace2).
    exists b, st2. split; [exact Hrun2 |]. split; [eapply frame_trans; eassumption |].
    eapply trace_trans; eassumption.
Qed.

(** A port call that keeps the frame is traced by the error it answers. *)
Lemma traced_port {A} (err_of : A -> option error) (failed : option error -> A)
    (op : Store -> A * Store) :
  (forall e, err_of (failed (Some e)) = Some e) ->
  (forall st, err_of (fst (op st)) = None /\ apps (snd (op st)) = apps st /\
              users (snd (op st)) = users st /\ faults (snd (op st)) = faults st /\
              calls (snd (op st)) = calls st) ->
  traced err_of (fun st => port (failed (fault st)) op st).
Proof.
  intros Hfailed Hop st. destruct (fault st) as [e |] eqn:Hf.
  - rewrite (port_failed _ _ _ e Hf). eexists _, _. split; [reflexivity |].
    split; [unfold frame; cbn; auto |].
    rewrite Hfailed. cbn. replace (calls st - 0)%nat with (calls st) by lia.
    split; [lia |]. split; [intros c Hc; lia | exact Hf].
  - rewrite port_ok by assumption.
    destruct (Hop (tick st)) as (Herr & Ha & Hu & Hfa & Hc).
    eexists _, _. split; [reflexivity |]. split.
    + unfold frame. rewrite Ha, Hu, Hfa, Hc. cbn. auto.
    + rewrite Herr. cbn. rewrite Hc. cbn. intros c Hcc.
      assert (c = calls st) by lia. now subst c.
Qed.

Lemma traced_time_Now : traced (fun _ : Time => @None error) time_Now.
Proof.
  intros st. eexists _, _. split; [reflexivity |]. split.
  - unfold frame. cbn. auto.
  - cbn. intros c Hc. lia.
Qed.

(** A loop whose turns are traced is traced: the turn that returns an error
    is the last one run. *)
Lemma traced_range_from {X S} (body : Z -> X -> S -> Go Store (turn X S (option error))) :
  (forall i x s, traced turn_error (body i x s)) ->
  forall xs i s, traced range_error (range_from body i xs s).
Proof.
  intros Hbody. induction xs as [|x xs IH]; intros i s st.
  - exists (inl ([], s)), st. split; [reflexivity |]. split; [apply frame_refl |].
    cbn. intros c Hc. lia.
  - destruct (Hbody i x s st) as (t & st1 & Hrun & Hframe & Htrace).
    destruct t as [x' s' | r].
    + rewrite (range_from_Continue _ _ _ _ _ _ _ _ _ Hrun).
      destruct (IH (i + 1) s' st1) as (res & st2 & Hrun2 & Hframe2 & Htrace2).
      rewrite Hrun2. destruct res as [[xs'' s''] | r].
      * eexists _, _. split; [reflexivity |].
        split; [eapply frame_trans; eassumption |].
        eapply (trace_trans st st1 st2 None); eassumption.
      * eexists _, _. split; [reflexivity |].
        split; [eapply frame_trans; eassumption |].
        eapply (trace_trans st st1 st2); eassumption.
    + rewrite (range_from_Return _ _ _ _ _ _ _ _ Hrun).
      eexists _, _. split; [reflexivity |]. split; assumption.
Qed.

Lemma traced_TreeState_RetrieveAllTypeTreeStatesByApp (appID version : Z) :
  traced snd (TreeState_RetrieveAllTypeTreeStatesByApp appID version).
Proof.
  apply (traced_port snd (fun oe => ([], oe))); [reflexivity |].
  intros st. cbn. auto.
Qed.

Lemma traced_TreeState_Create (row : TreeState.t) :
  traced (fun r => snd (snd r)) (TreeState_Create row).
Proof.
  apply (traced_port (fun r => snd (snd r)) (fun oe => (row, (0, oe)))); [reflexivity |].
  intros st. cbn. auto.
Qed.

Lemma traced_TreeState_Update (row : TreeState.t) : traced id (TreeState_Update row).
Proof.
  apply (traced_port id (fun oe => oe)); [reflexivity |].
  intros st. cbn. auto.
Qed.

Lemma traced_KVState_RetrieveAllTypeKVStatesByApp (appID version : Z) :
  traced snd (KVState_RetrieveAllTypeKVStatesByApp appID version).
Proof.
  apply (traced_port snd (fun oe => ([], oe))); [reflexivity |].
  intros st. cbn. auto.
Qed.

Lemma traced_KVState_Create (row : KVState.t) : traced id (KVState_Create row).
Proof.
  apply (traced_port id (fun oe => oe)); [reflexivity |].
  intros st. cbn. auto.
Qed.

Lemma traced_SetState_RetrieveSetStatesByApp (appID : Z) (kind : StateType) (version : Z) :
  traced snd (SetState_RetrieveSetStatesByApp appID kind version).
Proof.
  apply (traced_port snd (fun oe => ([], oe))); [reflexivity |].
  intros st. cbn. auto.
Qed.

Lemma traced_SetState_Create (row : SetState.t) : traced id (SetState_Create row).
Proof.
  apply (traced_port id (fun oe => oe)); [reflexivity |].
  intros st. cbn. auto.
Qed.

Lemma traced_Action_RetrieveActionsByAppVersion (appID version : Z) :
  traced snd (Action_RetrieveActionsByAppVersion appID version).
Proof.
  apply (traced_port snd (fun oe => ([], oe))); [reflexivity |].
  intros st. cbn. auto.
Qed.

Lemma traced_Action_Create (row : repository.Action.t) : traced snd (Action_Create row).
Proof.
  apply (traced_port snd (fun oe => (0, oe))); [reflexivity |].
  intros st. cbn. auto.
Qed.

(** The tail of every clone step: hand out what the loop returned early, or
    go on. *)
Lemma traced_after_range {X S} (loop : Go Store (list X * S + option error))
    (k : list X * S -> Go Store (option error)) :
  traced range_error loop ->
  (forall done, traced id (k done)) ->
  traced id (bind loop (fun r => match r with inr e => ret e | inl done => k done end)).
Proof.
  intros Hloop Hk. apply (traced_bind range_error id); [exact Hloop | |].
  - intros [done | e] Hr; cbn in Hr; [apply Hk |]. subst e. now apply traced_ret.
  - intros [done | r] e Hr; cbn in Hr; [discriminate |]. subst r. eauto.
Qed.

(** The head of every clone step: a failed retrieval is handed out. *)
Lemma traced_after_retrieve {X} (retrieve : Go Store (list X * option error))
    (k : list X -> Go Store (option error)) :
  traced snd retrieve ->
  (forall rows, traced id (k rows)) ->
  traced id (bind retrieve
               (fun p => match p with
                         | (rows, Some e) => ret (Some e)
                         | (rows, None) => k rows
                         end)).
Proof.
  intros Hr Hk. apply (traced_bind snd id); [exact Hr | |].
  - intros [rows err] Herr; cbn in Herr. subst err. apply Hk.
  - intros [rows err] e Herr; cbn in Herr. subst err. eauto.
Qed.

(** A turn that stamps the row with the clock makes no port call. *)
Lemma traced_stamp {X S} (k : Time -> Time -> turn X S (option error)) :
  (forall t1 t2, turn_error (k t1 t2) = None) ->
  traced turn_error
    (bind time_Now (fun createdAt => bind time_Now (fun updatedAt => ret (k createdAt updatedAt)))).
Proof.
  intros Hk. apply (traced_bind (fun _ => None) turn_error); [apply traced_time_Now | |].
  - intros t1 _. apply (traced_bind (fun _ => None) turn_error); [apply traced_time_Now | |].
    + intros t2 _. apply traced_ret, Hk.
    + discriminate.
  - discriminate.
Qed.

(** A turn that inserts or updates one row: its error ends the loop. *)
Lemma traced_store_turn {A X S} (err_of : A -> option error) (call : Go Store A)
    (k : A -> Go Store (turn X S (option error))) :
  traced err_of call ->
  (forall a, err_of a = None -> exists x s, k a = ret (Continue x s)) ->
  (forall a e, err_of a = Some e -> k a = ret (Return (Some e))) ->
  traced turn_error (bind call k).
Proof.
  intros Hcall Hok Herr. apply (traced_bind err_of turn_error); [exact Hcall | |].
  - intros a Ha. destruct (Hok a Ha) as (x & s & ->). now apply traced_ret.
  - intros a e Ha. rewrite (Herr a e Ha). eauto.
Qed.

Lemma create_treestates_traced (indexIDMap : gmap Z Z) (treestates : list TreeState.t) :
  traced range_error (create_treestates indexIDMap treestates).
Proof.
  unfold create_treestates, range. apply traced_range_from. intros i treestate releaseIDMap.
  apply (traced_store_turn (fun r => snd (snd r))).
  - apply traced_TreeState_Create.
  - intros [row [id err]] Herr; cbn in Herr. subst err. eauto.
  - intros [row [id err]] e Herr; cbn in Herr. now subst err.
Qed.

Lemma relink_treestates_traced (releaseIDMap : gmap Z Z) (treestates : list TreeState.t) :
  traced range_error (relink_treestates releaseIDMap treestates).
Proof.
  unfold relink_treestates, range. apply traced_range_from. intros i treestate [].
  apply (traced_store_turn id).
  - apply traced_TreeState_Update.
  - intros err Herr; cbn in Herr. subst err. eauto.
  - intros err e Herr; cbn in Herr. now subst err.
Qed.

Lemma copyAllTreeState_fails_fast (appA appB user : Z) :
  fails_fast (copyAllTreeState appA appB user).
Proof.
  unfold fails_fast, copyAllTreeState.
  apply traced_after_retrieve; [apply traced_TreeState_RetrieveAllTypeTreeStatesByApp |].
  intros rows. apply traced_after_range.
  { unfold range. apply traced_range_from. intros i row indexIDMap.
    apply (traced_stamp (fun createdAt updatedAt => Continue _ _)). reflexivity. }
  intros [treestates indexIDMap]. apply traced_after_range.
  { apply create_treestates_traced. }
  intros [treestates' releaseIDMap]. apply traced_after_range.
  { apply relink_treestates_traced. }
  intros _. now apply traced_ret.
Qed.

Lemma create_kvstates_traced (kvstates : list KVState.t) :
  traced range_error
    (range kvstates tt (fun (_ : Z) kvstate (_ : unit) =>
       let* err := repository.KVState_Create kvstate in
       match err with
       | Some e => ret (Return (Some e))
       | None => ret (Continue kvstate tt)
       end)).
Proof.
  unfold range. apply traced_range_from. intros i kvstate [].
  apply (traced_store_turn id).
  - apply traced_KVState_Create.
  - intros err Herr; cbn in Herr. subst err. eauto.
  - intros err e Herr; cbn in Herr. now subst err.
Qed.

Lemma create_setstates_traced (setstates : list SetState.t) :
  traced range_error
    (range setstates tt (fun (_ : Z) setstate (_ : unit) =>
       let* err := repository.SetState_Create setstate in
       match err with
       | Some e => ret (Return (Some e))
       | None => ret (Continue setstate tt)
       end)).
Proof.
  unfold range. apply traced_range_from. intros i setstate [].
  apply (traced_store_turn id).
  - apply traced_SetState_Create.
  - intros err Herr; cbn in Herr. subst err. eauto.
  - intros err e Herr; cbn in Herr. now subst err.
Qed.

Lemma create_actions_traced (actions : list repository.Action.t) :
  traced range_error
    (range actions tt (fun (_ : Z) action (_ : unit) =>
       let* (_, err) := repository.Action_Create action in
       match err with
       | Some e => ret (Return (Some e))
       | None => ret (Continue action tt)
       end)).
Proof.
  unfold range. apply traced_range_from. intros i action [].
  apply (traced_store_turn snd).
  - apply traced_Action_Create.
  - intros [id err] Herr; cbn in Herr. subst err. eauto.
  - intros [id err] e Herr; cbn in Herr. now subst err.
Qed.

Lemma copyAllKVState_fails_fast (appA appB user : Z) :
  fails_fast (copyAllKVState appA appB user).
Proof.
  unfold fails_fast, copyAllKVState.
  apply traced_after_retrieve; [apply traced_KVState_RetrieveAllTypeKVStatesByApp |].
  intros rows. apply traced_after_range.
  { unfold range. apply traced_range_from. intros i row [].
    apply (traced_stamp (fun createdAt updatedAt => Continue _ _)). reflexivity. }
  intros [kvstates []]. apply traced_after_range; [apply create_kvstates_traced |].
  intros _. now apply traced_ret.
Qed.

Lemma copyAllSetState_fails_fast (appA appB user : Z) :
  fails_fast (copyAllSetState appA appB user).
Proof.
  unfold fails_fast, copyAllSetState.
  apply traced_after_retrieve; [apply traced_SetState_RetrieveSetStatesByApp |].
  intros rows. apply traced_after_range.
  { unfold range. apply traced_range_from. intros i row [].
    apply (traced_stamp (fun createdAt updatedAt => Continue _ _)). reflexivity. }
  intros [setstates []]. apply traced_after_range; [apply create_setstates_traced |].
  intros _. now apply traced_ret.
Qed.

Lemma copyActions_fails_fast (appA appB user : Z) :
  fails_fast (copyActions appA appB user).
Proof.
  unfold fails_fast, copyActions.
  apply traced_after_retrieve; [apply traced_Action_RetrieveActionsByAppVersion |].
  intros rows. apply traced_after_range.
  { unfold range. apply traced_range_from. intros i row [].
    apply (traced_stamp (fun createdAt updatedAt => Continue _ _)). reflexivity. }
  intros [actions []]. apply traced_after_range; [apply create_actions_traced |].
  intros _. now apply traced_ret.
Qed.

Lemma releaseTreeStateByApp_fails_fast (app : AppDto.t) :
  fails_fast (releaseTreeStateByApp app).
Proof.
  unfold fails_fast, releaseTreeStateByApp.
  apply traced_after_retrieve; [apply traced_TreeState_RetrieveAllTypeTreeStatesByApp |].
  intros rows. apply traced_after_range.
  { unfold range. apply traced_range_from. intros i row indexIDMap.
    now apply traced_ret. }
  intros [treestates indexIDMap]. apply traced_after_range.
  { apply create_treestates_traced. }
  intros [treestates' releaseIDMap]. apply traced_after_range.
  { apply relink_treestates_traced. }
  intros _. now apply traced_ret.
Qed.

Lemma releaseKVStateByApp_fails_fast (app : AppDto.t) :
  fails_fast (releaseKVStateByApp app).
Proof.
  unfold fails_fast, releaseKVStateByApp.
  apply traced_after_retrieve; [apply traced_KVState_RetrieveAllTypeKVStatesByApp |].
  intros rows. apply traced_after_range.
  { unfold range. apply traced_range_from. intros i row []. now apply traced_ret. }
  intros [kvstates []]. apply traced_after_range; [apply create_kvstates_traced |].
  intros _. now apply traced_ret.
Qed.

Lemma releaseSetStateByApp_fails_fast (app : AppDto.t) :
  fails_fast (releaseSetStateByApp app).
Proof.
  unfold fails_fast, releaseSetStateByApp.
  apply traced_after_retrieve; [apply traced_SetState_RetrieveSetStatesByApp |].
  intros rows. apply traced_after_range.
  { unfold range. apply traced_range_from. intros i row []. now apply traced_ret. }
  intros [setstates []]. apply traced_after_range; [apply create_setstates_traced |].
  intros _. now apply traced_ret.
Qed.

Lemma releaseActionsByApp_fails_fast (app : AppDto.t) :
  fails_fast (releaseActionsByApp app).
Proof.
  unfold fails_fast, releaseActionsByApp.
  apply traced_after_retrieve; [apply traced_Action_RetrieveActionsByAppVersion |].
  intros rows. apply traced_after_range.
  { unfold range. apply traced_range_from. intros i row []. now apply traced_ret. }
  intros [actions []]. apply traced_after_range; [apply create_actions_traced |].
  intros _. now apply traced_ret.
Qed.

(** Whatever it returns, a clone step ends inside the frame. *)
Lemma fails_fast_runs (c : Go Store (option error)) (st : Store) :
  fails_fast c -> exists r st', c st = (Returned r, st') /\ frame st st' /\ trace st st' r.
Proof. intros H. exact (H st). Qed.

Lemma int_add_1 (v : Z) : is_int v -> v < MaxInt64 -> int_add v 1 = v + 1.
Proof.
  unfold is_int, MinInt64, MaxInt64, int_add, wrap_int. intros H1 H2.
  rewrite Z.mod_small by lia. lia.
Qed.

(** [ReleaseApp] after a successful read of the app: the four clone steps
    run to some state [st4] inside the frame, whatever they return, and the
    counter update decides the result. *)
Lemma ReleaseApp_found (appID : Z) (st : Store) (app : App.t) :
  fault st = None -> apps st !! appID = Some app ->
  exists st4,
    frame (tick st) st4 /\
    ReleaseApp appID st =
    match fault st4 with
    | Some _ => (Returned (-1, None), tick st4)
    | None =>
        (Returned (int_add (App.MainlineVersion app) 1, None),
         match apps st !! App.ID app with
         | Some _ => set_apps (<[App.ID app := released app]> (apps st)) (tick st4)
         | None => tick st4
         end)
    end.
Proof.
  intros Hf Happ. unfold ReleaseApp.
  rewrite (bind_Returned _ _ st (tick st) (app, None))
    by (cbn; now apply App_RetrieveAppByID_found).
  cbn [App.MainlineVersion].
  set (dto := AppDto_of_ID_MainlineVersion appID (int_add (App.MainlineVersion app) 1)).
  destruct (fails_fast_runs _ (tick st) (releaseTreeStateByApp_fails_fast dto))
    as (r1 & st1 & Hrun1 & Hframe1 & _).
  rewrite (bind_Returned _ _ _ _ _ Hrun1).
  destruct (fails_fast_runs _ st1 (releaseKVStateByApp_fails_fast dto))
    as (r2 & st2 & Hrun2 & Hframe2 & _).
  rewrite (bind_Returned _ _ _ _ _ Hrun2).
  destruct (fails_fast_runs _ st2 (releaseSetStateByApp_fails_fast dto))
    as (r3 & st3 & Hrun3 & Hframe3 & _).
  rewrite (bind_Returned _ _ _ _ _ Hrun3).
  destruct (fails_fast_runs _ st3 (releaseActionsByApp_fails_fast dto))
    as (r4 & st4 & Hrun4 & Hframe4 & _).
  rewrite (bind_Returned _ _ _ _ _ Hrun4).
  assert (Hframe : frame (tick st) st4).
  { eapply frame_trans; [| exact Hframe4]. eapply frame_trans; [| exact Hframe3].
    eapply frame_trans; eassumption. }
  exists st4. split; [exact Hframe |].
  destruct Hframe as (Happs & _). change (apps (tick st)) with (apps st) in Happs.
  fold (released app). unfold bind. cbn [repository.App_Update AppRepository_Store].
  unfold App_Update. destruct (fault st4) as [e |] eqn:Hf4.
  - rewrite (port_failed _ _ _ e Hf4). reflexivity.
  - rewrite port_ok by assumption. cbn [released App.ID].
    change (apps (tick st4)) with (apps st4). rewrite Happs.
    destruct (apps st !! App.ID app); reflexivity.
Qed.

(** C3.  A release whose app read and counter update both succeed returns
    the mainline version plus one with a nil error, and leaves the app with
    its mainline and release versions both at that number.  (The counter
    update is the last port call of the run.) *)
Theorem ReleaseApp_advances_versions_by_one (appID : Z) (st : Store) (app : App.t) :
  fault st = None ->
  apps st !! appID = Some app ->
  App.ID app = appID ->
  is_int (App.MainlineVersion app) ->
  App.MainlineVersion app < MaxInt64 ->
  exists n st',
    ReleaseApp appID st = (Returned (n, None), st') /\
    (faults st (calls st' - 1)%nat = None ->
     n = App.MainlineVersion app + 1 /\
     exists app',
       apps st' !! appID = Some app' /\
       App.MainlineVersion app' = App.MainlineVersion app + 1 /\
       App.ReleaseVersion app' = App.MainlineVersion app + 1).
Proof.
  intros Hf Happ Hid Hint Hmax.
  destruct (ReleaseApp_found appID st app Hf Happ) as (st4 & Hframe & ->).
  destruct Hframe as (_ & _ & Hfaults & _).
  change (faults (tick st)) with (faults st) in Hfaults.
  destruct (fault st4) as [e |] eqn:Hf4.
  - eexists _, _. split; [reflexivity |]. intros Hlast. exfalso.
    cbn in Hlast. rewrite Nat.sub_0_r in Hlast.
    unfold fault in Hf4. rewrite Hfaults in Hf4. congruence.
  - rewrite Hid, Happ. eexists _, _. split; [reflexivity |]. intros _.
    rewrite (int_add_1 _ Hint Hmax). split; [reflexivity |].
    exists (released app). cbn [apps set_apps]. rewrite lookup_insert_eq.
    split; [reflexivity |]. cbn [released App.MainlineVersion App.ReleaseVersion].
    now rewrite (int_add_1 _ Hint Hmax).
Qed.

(** [DuplicateApp]: only a failed read of the source app or a failed insert
    of the new app row gives an error; after them the four clone steps run
    and their results are dropped. *)
Lemma DuplicateApp_runs (appID userID : Z) (name : string) (st : Store) :
  exists appB err st',
    DuplicateApp appID userID name st = (Returned (appB, err), st') /\
    (err = None <->
     fault st = None /\ apps st !! appID <> None /\ faults st (calls st + 1)%nat = None) /\
    (err = None -> AppDto.ID appB = next_id st /\ AppDto.Name appB = name).
Proof.
  unfold DuplicateApp. destruct (fault st) as [e |] eqn:Hf.
  - rewrite (bind_Returned _ _ st (tick st) (App.zero, Some e))
      by (cbn; now apply App_RetrieveAppByID_failed).
    eexists _, _, _. split; [reflexivity |]. split; [| discriminate].
    split; [discriminate | intros (H & _); discriminate].
  - destruct (apps st !! appID) as [appA |] eqn:Happ.
    + rewrite (bind_Returned _ _ st (tick st) (appA, None))
        by (cbn; now apply App_RetrieveAppByID_found).
      set (st1 := set_now (now (tick st) + 1) (tick st)).
      set (st2 := set_now (now st1 + 1) st1).
      rewrite (bind_Returned _ _ (tick st) st1 (now (tick st))) by reflexivity.
      rewrite (bind_Returned _ _ st1 st2 (now st1)) by reflexivity.
      cbn [App.ReleaseVersion App.MainlineVersion App.CreatedBy App.CreatedAt
           App.UpdatedBy App.UpdatedAt].
      assert (Hf2 : fault st2 = faults st (calls st + 1)%nat).
      { unfold fault, st2, st1. cbn. f_equal. lia. }
      destruct (fault st2) as [e |] eqn:Hfc.
      * match goal with
        | |- context [bind (repository.App_Create ?row) _] =>
            rewrite (bind_Returned _ _ st2 (tick st2) (0, Some e))
              by (cbn; unfold App_Create; rewrite (port_failed _ _ _ e Hfc);
                  now rewrite Hfc)
        end.
        eexists _, _, _. split; [reflexivity |]. split; [| discriminate].
        split; [discriminate | intros (_ & _ & H); congruence].
      * match goal with
        | |- context [bind (repository.App_Create ?row) _] =>
            set (st3 := set_next_id (next_id st + 1)
                          (set_apps (<[next_id st := App_with_ID (next_id st) row]> (apps st))
                             (tick st2)));
            rewrite (bind_Returned _ _ st2 st3 (next_id st, None))
              by (cbn; unfold App_Create; now rewrite port_ok)
        end.
        destruct (User_RetrieveByID_one_call userID st3) as ([userRecord ue] & Hu).
        rewrite (bind_Returned _ _ _ _ _ Hu). cbn [AppDto.ID].
        destruct (fails_fast_runs _ (tick st3)
                    (copyAllTreeState_fails_fast appID (next_id st) userID))
          as (r1 & st4 & Hrun1 & _).
        rewrite (bind_Returned _ _ _ _ _ Hrun1).
        destruct (fails_fast_runs _ st4 (copyAllKVState_fails_fast appID (next_id st) userID))
          as (r2 & st5 & Hrun2 & _).
        rewrite (bind_Returned _ _ _ _ _ Hrun2).
        destruct (fails_fast_runs _ st5 (copyAllSetState_fails_fast appID (next_id st) userID))
          as (r3 & st6 & Hrun3 & _).
        rewrite (bind_Returned _ _ _ _ _ Hrun3).
        destruct (fails_fast_runs _ st6 (copyActions_fails_fast appID (next_id st) userID))
          as (r4 & st7 & Hrun4 & _).
        rewrite (bind_Returned _ _ _ _ _ Hrun4).
        eexists _, _, _. split; [reflexivity |]. split; [| intros _; split; reflexivity].
        split; [| reflexivity]. intros _. repeat split; congruence.
    + rewrite (bind_Returned _ _ st (tick st) (App.zero, Some record_not_found))
        by (cbn; now apply App_RetrieveAppByID_missing).
      eexists _, _, _. split; [reflexivity |]. split; [| discriminate].
      split; [discriminate | intros (_ & H & _); congruence].
Qed.

End CloneFacts.

(** C1 as stated fails.  The first row insert of the tree clone (port call
    2 of the release, port call 4 of the duplicate) fails; the tree step
    returns that error, yet [ReleaseApp] returns version 1 with a nil error
    and advances the counters with no tree row in version 1, and
    [DuplicateApp] returns the new app with a nil error and no tree row. *)
Lemma coordinators_report_success_after_failed_insert :
  fst (releaseTreeStateByApp (AppDto_of_ID_MainlineVersion 5 1)
         (StoreSpec.tick (Demo.store 0 [2%nat]))) = Returned (Some Demo.disk_full) /\
  fst (ReleaseApp 5 (Demo.store 0 [2%nat])) = Returned (1, None) /\
  option_map App.MainlineVersion
    (Mem.apps (snd (ReleaseApp 5 (Demo.store 0 [2%nat]))) !! 5) = Some 1 /\
  List.filter (Mem.TreeState_in 5 1)
    (Mem.treestates (snd (ReleaseApp 5 (Demo.store 0 [2%nat])))) = [] /\
  (exists appB,
     fst (DuplicateApp 5 9 "Copy" (Demo.store 0 [4%nat])) = Returned (appB, None) /\
     AppDto.ID appB = 10) /\
  List.filter (Mem.TreeState_in 10 0)
    (Mem.treestates (snd (DuplicateApp 5 9 "Copy" (Demo.store 0 [4%nat])))) = [].
Proof.
  split; [vm_compute; reflexivity |].
  split; [vm_compute; reflexivity |].
  split; [vm_compute; reflexivity |].
  split; [vm_compute; reflexivity |].
  split; [eexists; split; vm_compute; reflexivity |].
  vm_compute; reflexivity.
Qed.

(** ** The two-phase tree clone on the store *)

Module TreeCloneFacts.

Import Mem StoreSpec MemFacts CloneSpec CloneFacts TreeCloneSpec.

Lemma index_map_below (rows : list TreeState.t) :
  forall (i j : Z) (m : gmap Z Z), j < i -> index_map i rows m !! j = m !! j.
Proof.
  induction rows as [|row rows IH]; intros i j m Hlt; cbn [index_map]; [reflexivity |].
  rewrite IH by lia. apply lookup_insert_ne. lia.
Qed.

Lemma index_map_lookup (rows : list TreeState.t) :
  forall (i : Z) (m : gmap Z Z) (k : nat) (row : TreeState.t),
    rows !! k = Some row ->
    index_map i rows m !! (i + Z.of_nat k) = Some (TreeState.ID row).
Proof.
  induction rows as [|r rows IH]; intros i m k row Hk; [discriminate |].
  cbn [index_map]. destruct k as [|k]; cbn in Hk.
  - injection Hk as ->. rewrite Z.add_0_r, index_map_below by lia.
    apply lookup_insert_eq.
  - replace (i + Z.of_nat (S k)) with ((i + 1) + Z.of_nat k) by lia. now apply IH.
Qed.




Lemma TreeState_Create_ok (row : TreeState.t) (st : Store) :
  fault st = None ->
  TreeState_Create row st =
  (Returned (TreeState_with_ID (next_id st) row, (next_id st, None)),
   set_next_id (next_id st + 1)
     (set_treestates (treestates st ++ [TreeState_with_ID (next_id st) row]) (tick st))).
Proof. intros Hf. unfold TreeState_Create. now rewrite port_ok. Qed.

Lemma TreeState_Update_ok (row : TreeState.t) (st : Store) :
  fault st = None ->
  TreeState_Update row st =
  (Returned None,
   set_treestates
     (map (fun old => if TreeState.ID old =? TreeState.ID row then row else old)
          (treestates st))
     (tick st)).
Proof. intros Hf. unfold TreeState_Update. now rewrite port_ok. Qed.


Lemma replace_row (pre post : list TreeState.t) (old new : TreeState.t) :
  TreeState.ID new = TreeState.ID old ->
  ~ In (TreeState.ID old) (map TreeState.ID pre) ->
  ~ In (TreeState.ID old) (map TreeState.ID post) ->
  map (fun row => if TreeState.ID row =? TreeState.ID new then new else row)
      (pre ++ old :: post) = pre ++ new :: post.
Proof.
  intros Hid Hpre Hpost.
  assert (Hkeep : forall rows, ~ In (TreeState.ID old) (map TreeState.ID rows) ->
            map (fun row => if TreeState.ID row =? TreeState.ID new then new else row) rows
            = rows).
  { induction rows as [|r rows IH]; intros Hnot; [reflexivity |].
    cbn [map] in *. rewrite IH by (intros H; apply Hnot; now right).
    destruct (TreeState.ID r =? TreeState.ID new) eqn:E; [| reflexivity].
    apply Z.eqb_eq in E. exfalso. apply Hnot. left. congruence. }
  rewrite map_app. cbn [map]. rewrite !Hkeep by assumption.
  now rewrite Hid, Z.eqb_refl.
Qed.

Lemma relink_ID (m : gmap Z Z) (row : TreeState.t) :
  TreeState.ID (relink m row) = TreeState.ID row.
Proof. reflexivity. Qed.


Lemma assign_length (rows : list TreeState.t) (n : Z) :
  length (assign n rows) = length rows.
Proof. revert n. induction rows as [|r rows IH]; intros n; cbn; [reflexivity | now rewrite IH]. Qed.

Lemma assign_ids (rows : list TreeState.t) :
  forall (n id : Z),
    In id (map TreeState.ID (assign n rows)) -> n <= id < n + Z.of_nat (length rows).
Proof.
  induction rows as [|r rows IH]; intros n id Hin; cbn in Hin; [contradiction |].
  destruct Hin as [<- | Hin]; cbn [length]; [lia |].
  apply IH in Hin. lia.
Qed.

Lemma assign_NoDup (rows : list TreeState.t) (n : Z) :
  List.NoDup (map TreeState.ID (assign n rows)).
Proof.
  revert n. induction rows as [|r rows IH]; intros n; cbn; constructor; [| apply IH].
  intros Hin. apply assign_ids in Hin. lia.
Qed.



Lemma TreeState_RetrieveAllTypeTreeStatesByApp_ok (appID : Z) (st : Store) :
  fault st = None ->
  TreeState_RetrieveAllTypeTreeStatesByApp appID APP_EDIT_VERSION st =
  (Returned (tree_source appID st, None), tick st).
Proof. intros Hf. unfold TreeState_RetrieveAllTypeTreeStatesByApp. now rewrite port_ok. Qed.




(** *** The shape of the clone *)

Section Renaming.

Variables (srcs : list TreeState.t) (n : Z).

Let m : gmap Z Z := id_map (map TreeState.ID srcs) n ∅.
Let f : Z -> Z := map_index m.

Hypothesis ids_unique : List.NoDup (map TreeState.ID srcs).
Hypothesis ids_generated : forall src, In src srcs -> 0 < TreeState.ID src < n.
Hypothesis next_positive : 0 < n.








End Renaming.

Lemma Forall2_Forall_r {A B} (R : A -> B -> Prop) (P : B -> Prop) (l : list A) (k : list B) :
  Forall2 R l k -> (forall x y, In x l -> R x y -> P y) -> Forall P k.
Proof.
  induction 1 as [|x y l k HR _ IH]; intros HP; constructor.
  - apply (HP x y); [now left | exact HR].
  - apply IH. intros x' y' Hin. apply HP. now right.
Qed.

Lemma relink_ids (m : gmap Z Z) (rows : list TreeState.t) :
  map TreeState.ID (map (relink m) rows) = map TreeState.ID rows.
Proof. rewrite map_map. apply map_ext. intros row. apply relink_ID. Qed.







(** *** Unmapped references *)

(** Every key of the map the insert loop builds is an identifier the first
    loop recorded for one of the serials. *)
Lemma create_loop_keys (indexIDMap : gmap Z Z) (rows : list TreeState.t) :
  forall (i : Z) (m0 : gmap Z Z) (st : Store) created m st',
    range_from
      (fun i treestate releaseIDMap =>
         let* (treestate, (id, err)) := repository.TreeState_Create treestate in
         match err with
         | Some e => ret (Return (Some e))
         | None =>
             let oldID := map_index indexIDMap i in
             ret (Continue treestate (<[oldID := id]> releaseIDMap))
         end) i rows m0 st = (Returned (inl (created, m)), st') ->
    forall key,
      m !! key <> None ->
      m0 !! key <> None \/
      exists k, (k < length rows)%nat /\ key = map_index indexIDMap (i + Z.of_nat k).
Proof.
  induction rows as [|row rows IH]; intros i m0 st created m st' Hrun key Hkey.
  - cbn in Hrun. injection Hrun as _ <- _. now left.
  - cbn [range_from] in Hrun. unfold bind at 1 2 in Hrun.
    destruct (repository.TreeState_Create row st) as [[[row' [id [e |]]] | msg] st1];
      cbn in Hrun; try discriminate Hrun.
    unfold bind in Hrun.
    destruct (range_from _ (i + 1) rows _ st1) as [[[[created' m'] | r] | msg] st2] eqn:Hrest;
      cbn in Hrun; try discriminate Hrun.
    injection Hrun as _ <- _.
    destruct (IH _ _ _ _ _ _ Hrest key Hkey) as [Hin | (k & Hk & ->)].
    + destruct (decide (map_index indexIDMap i = key)) as [<- | Hne].
      * right. exists 0%nat. cbn [length]. split; [lia | f_equal; lia].
      * rewrite lookup_insert_ne in Hin by assumption. now left.
    + right. exists (S k). cbn [length]. split; [lia | f_equal; lia].
Qed.

Lemma relink_loop_returns (m : gmap Z Z) (rows : list TreeState.t) :
  forall (i : Z) (st : Store),
    no_faults st (length rows) ->
    exists st',
      range_from
        (fun _ treestate _ =>
           let treestate := relink m treestate in
           let* err := repository.TreeState_Update treestate in
           match err with
           | Some e => ret (Return (Some e))
           | None => ret (Continue treestate tt)
           end) i rows tt st =
      (Returned (inl (map (relink m) rows, tt)), st').
Proof.
  induction rows as [|row rows IH]; intros i st Hnf.
  - exists st. reflexivity.
  - assert (Hf : fault st = None) by (apply Hnf; cbn [length]; lia).
    erewrite range_from_Continue;
      [| cbn [repository.TreeState_Update TreeStateRepository_Store];
         rewrite (bind_Returned _ _ _ _ _ (TreeState_Update_ok (relink m row) st Hf));
         reflexivity].
    match goal with
    | |- context [range_from _ _ rows _ ?st1] =>
        destruct (IH (i + 1) st1) as (st' & Hrun)
    end.
    + intros c Hc. cbn in Hc |- *. apply Hnf. cbn [length]. lia.
    + rewrite Hrun. exists st'. reflexivity.
Qed.

(** C6.  With the map [idMap] that the insert loop built from source rows
    with non-zero identifiers, relinking a row sends the parent sentinel 0
    to 0, sends a parent without an entry in the map to 0, and sends every
    child without an entry to 0 at its place in the list; it reports no
    error for them: with no failing port call the relinking loop returns
    every row relinked. *)
Theorem relink_sends_unmapped_references_to_zero
    (indexIDMap idMap : gmap Z Z) (sources created : list TreeState.t)
    (st st' : Store) (row : TreeState.t) :
  create_treestates indexIDMap sources st = (Returned (inl (created, idMap)), st') ->
  (forall i, 0 <= i < Z.of_nat (length sources) -> map_index indexIDMap i <> 0) ->
  (TreeState.ParentNodeRefID row = 0 ->
   TreeState.ParentNodeRefID (relink idMap row) = 0) /\
  (idMap !! TreeState.ParentNodeRefID row = None ->
   TreeState.ParentNodeRefID (relink idMap row) = 0) /\
  (forall kids,
      decoded_children row kids ->
      exists kids',
        TreeState.ChildrenNodeRefIDs (relink idMap row) = fst (Json.Marshal_ints kids') /\
        length kids' = length kids /\
        forall k kid, kids !! k = Some kid -> idMap !! kid = None -> kids' !! k = Some 0) /\
  (forall rows st0,
      no_faults st0 (length rows) ->
      exists st1,
        relink_treestates idMap rows st0 =
        (Returned (inl (map (relink idMap) rows, tt)), st1)).
Proof.
  intros Hcreate Hids.
  assert (Hzero : idMap !! 0 = None).
  { destruct (idMap !! 0) eqn:Hlook; [| reflexivity]. exfalso.
    unfold create_treestates, range in Hcreate.
    destruct (create_loop_keys _ _ _ _ _ _ _ _ Hcreate 0) as [Hin | (k & Hk & Hkey)].
    - congruence.
    - now rewrite lookup_empty in Hin.
    - apply (Hids (0 + Z.of_nat k)); [lia | congruence]. }
  split; [| split; [| split]].
  - intros Hpar. cbn. unfold map_index. now rewrite Hpar, Hzero.
  - intros Hpar. cbn. unfold map_index. now rewrite Hpar.
  - intros kids Hdec. exists (map (map_index idMap) kids).
    split; [cbn; now apply convertLink_decoded |].
    split; [apply length_map |].
    intros k kid Hk Hnone. rewrite list_lookup_fmap, Hk. cbn.
    unfold map_index. now rewrite Hnone.
  - intros rows st0 Hnf. unfold relink_treestates, range.
    now apply relink_loop_returns.
Qed.

End TreeCloneFacts.

(** ** Concrete runs *)





Lemma ReleaseApp_advances_versions_by_one_witness :
  exists n st',
    ReleaseApp 5 (Demo.store 0 [2%nat]) = (Returned (n, None), st') /\
    (Mem.faults (Demo.store 0 [2%nat]) (Mem.calls st' - 1)%nat = None ->
     n = 0 + 1 /\
     exists app',
       Mem.apps st' !! 5 = Some app' /\
       repository.App.MainlineVersion app' = 0 + 1 /\
       repository.App.ReleaseVersion app' = 0 + 1).
Proof.
  apply (CloneFacts.ReleaseApp_advances_versions_by_one 5 (Demo.store 0 [2%nat]) Demo.app5).
  - reflexivity.
  - reflexivity.
  - reflexivity.
  - unfold is_int, MinInt64, MaxInt64. cbn. lia.
  - unfold MaxInt64. cbn. lia.
Defined.

Lemma GetMegaData_not_found_iff_beyond_mainline_witness :
  GetMegaData Demo.no_components Demo.no_strings Demo.no_object 5 1 (Demo.store 0 []) =
  (Returned (Editor.zero, Some (errorString "content not found")),
   StoreSpec.tick (Demo.store 0 [])) /\
  exists doc,
    GetMegaData Demo.no_components Demo.no_strings Demo.no_object 5 0 (Demo.store 0 []) =
    (Returned (doc, None), StoreSpec.ticks 8 (Demo.store 0 [])).
Proof.
  split.
  - apply (GetMegaData_not_found_iff_beyond_mainline Demo.no_components Demo.no_strings
             Demo.no_object 5 1 (Demo.store 0 []) Demo.app5).
    + reflexivity.
    + reflexivity.
    + cbn. lia.
    + cbn. lia.
  - apply (GetMegaData_not_found_iff_beyond_mainline Demo.no_components Demo.no_strings
             Demo.no_object 5 0 (Demo.store 0 []) Demo.app5).
    + reflexivity.
    + reflexivity.
    + cbn. lia.
    + cbn. lia.
    + right. repeat constructor; unfold type_in_range; cbn; lia.
Defined.

(** C4 as stated fails.  App 5 exists and version 0 does not exceed its
    mainline version 0, but its one action has type 30: [GetMegaData]
    neither succeeds nor returns an error, it panics. *)
Lemma GetMegaData_within_mainline_panics :
  Mem.apps (Demo.store 30 []) !! 5 = Some Demo.app5 /\
  0 <= App.MainlineVersion Demo.app5 /\
  fst (GetMegaData Demo.no_components Demo.no_strings Demo.no_object 5 0 (Demo.store 30 []))
  = Panicked "index out of range"%string.
Proof.
  split; [reflexivity |]. split; [cbn; lia |]. vm_compute. reflexivity.
Qed.

Lemma formatActions_panics_on_type_out_of_range_witness :
  formatActions 5 0 (Demo.store 22 []) =
  (Panicked "index out of range"%string, StoreSpec.tick (Demo.store 22 [])) /\
  GetMegaData Demo.no_components Demo.no_strings Demo.no_object 5 0 (Demo.store 22 []) =
  (Panicked "index out of range"%string, StoreSpec.ticks 3 (Demo.store 22 [])).
Proof.
  apply (formatActions_panics_on_type_out_of_range Demo.no_components Demo.no_strings
           Demo.no_object 5 0 (Demo.store 22 []) Demo.app5).
  - reflexivity.
  - reflexivity.
  - cbn. lia.
  - cbn. lia.
  - reflexivity.
  - constructor. unfold type_in_range. cbn. lia.
Defined.

Lemma GetMegaData_discards_section_errors_witness :
  (exists doc,
     GetMegaData Demo.no_components Demo.no_strings Demo.no_object 5 0 (Demo.store 0 [3%nat]) =
     (Returned (doc, None), StoreSpec.ticks 8 (Demo.store 0 [3%nat])) /\
     Editor.Components doc = None /\
     Editor.Actions doc <> None) /\
  (exists doc,
     GetMegaData Demo.no_components Demo.no_strings Demo.no_object 5 0
       (Mem.set_treestates [] (Demo.store 0 [])) =
     (Returned (doc, None), StoreSpec.ticks 8 (Mem.set_treestates [] (Demo.store 0 []))) /\
     Editor.Components doc = None /\
     Editor.Actions doc <> None).
Proof.
  split.
  - destruct (GetMegaData_discards_section_errors Demo.no_components Demo.no_strings
                Demo.no_object 5 0 (Demo.store 0 [3%nat]) Demo.app5)
      as ((doc & Hrun & Hactions & Hcomponents & _) & _).
    + reflexivity.
    + reflexivity.
    + cbn. lia.
    + cbn. lia.
    + right. repeat constructor; unfold type_in_range; cbn; lia.
    + exists doc. split; [exact Hrun |]. split.
      * apply Hcomponents. left. discriminate.
      * intros Hnone. apply Hactions in Hnone. now apply Hnone.
  - destruct (GetMegaData_discards_section_errors Demo.no_components Demo.no_strings
                Demo.no_object 5 0 (Mem.set_treestates [] (Demo.store 0 [])) Demo.app5)
      as ((doc & Hrun & Hactions & Hcomponents & _) & _).
    + reflexivity.
    + reflexivity.
    + cbn. lia.
    + cbn. lia.
    + right. repeat constructor; unfold type_in_range; cbn; lia.
    + exists doc. split; [exact Hrun |]. split.
      * apply Hcomponents. right. reflexivity.
      * intros Hnone. apply Hactions in Hnone. now apply Hnone.
Defined.

(** C10 as stated fails.  App 5 exists, version 0 does not exceed its
    mainline version and every retrieval succeeds, but its one action has
    type -1: the failure of the actions section is not discarded,
    [GetMegaData] returns no document and panics after three port calls. *)
Lemma GetMegaData_does_not_discard_a_bad_action_type :
  Mem.apps (Demo.store (-1) []) !! 5 = Some Demo.app5 /\
  0 <= App.MainlineVersion Demo.app5 /\
  GetMegaData Demo.no_components Demo.no_strings Demo.no_object 5 0 (Demo.store (-1) []) =
  (Panicked "index out of range"%string, StoreSpec.ticks 3 (Demo.store (-1) [])).
Proof.
  split; [reflexivity |]. split; [cbn; lia |]. vm_compute. reflexivity.
Qed.

Lemma formatDottedLineSquareState_keeps_serialized_value_witness :
  exists resMap,
    formatDottedLineSquareState Demo.no_object 5 0 (Demo.store 0 []) =
    (Returned (Some resMap, None), StoreSpec.tick (Demo.store 0 [])) /\
    resMap !! "line1"%string = Some (IfaceString "{}") /\
    resMap !! "line1"%string <> Some (IfaceObject (fst (Demo.no_object "{}"))).
Proof.
  destruct (formatDottedLineSquareState_keeps_serialized_value Demo.no_object 5 0
              (Demo.store 0 []) eq_refl) as (resMap & Hrun & Hraw).
  exists resMap. split; [exact Hrun |].
  assert (Hlook : resMap !! "line1"%string = Some (IfaceString "{}")).
  { rewrite (formatDottedLineSquareState_ok Demo.no_object 5 0 (Demo.store 0 []) eq_refl)
      in Hrun.
    injection Hrun as <-. reflexivity. }
  split; [exact Hlook |]. rewrite Hlook. discriminate.
Defined.

Lemma relink_sends_unmapped_references_to_zero_witness :
  let idMap : gmap Z Z := <[3 := 12]> (<[2 := 11]> (<[1 := 10]> ∅)) in
  TreeState.ParentNodeRefID (relink idMap (Demo.node 1 0 "[2,3]" "root")) = 0 /\
  TreeState.ParentNodeRefID (relink idMap (Demo.node 8 77 "[2,99,3]" "stray")) = 0 /\
  TreeState.ChildrenNodeRefIDs (relink idMap (Demo.node 8 77 "[2,99,3]" "stray"))
  = "[11,0,12]"%string.
Proof.
  intros idMap.
  pose (indexIDMap := (<[2 := 3]> (<[1 := 2]> (<[0 := 1]> ∅)) : gmap Z Z)).
  pose (sources := map (Mem.TreeState_with_ID 0)
                     (Mem.treestates (Demo.store 0 []))).
  assert (Hcreate :
    create_treestates indexIDMap sources (Demo.store 0 []) =
    (Returned (inl (TreeCloneSpec.assign 10 sources, idMap)),
     snd (create_treestates indexIDMap sources (Demo.store 0 [])))).
  { vm_compute. reflexivity. }
  assert (Hids : forall i, 0 <= i < Z.of_nat (length sources) -> map_index indexIDMap i <> 0).
  { intros i Hi. cbn in Hi.
    assert (Hcase : i = 0 \/ i = 1 \/ i = 2) by lia.
    destruct Hcase as [-> | [-> | ->]]; vm_compute; discriminate. }
  split; [| split].
  - apply (TreeCloneFacts.relink_sends_unmapped_references_to_zero
             indexIDMap idMap sources _ _ _ _ Hcreate Hids). reflexivity.
  - apply (TreeCloneFacts.relink_sends_unmapped_references_to_zero
             indexIDMap idMap sources _ _ _ _ Hcreate Hids). vm_compute. reflexivity.
  - vm_compute. reflexivity.
Defined.

(** ** convertLink: translation and composition *)

Lemma is_int_0 : is_int 0.
Proof. unfold is_int, MinInt64, MaxInt64. lia. Qed.

Lemma int_valued_map_index (idMap : gmap Z Z) (id : Z) :
  int_valued idMap -> is_int (map_index idMap id).
Proof.
  intros Hint. unfold map_index.
  destruct (idMap !! id) as [new|] eqn:Hlook; cbn.
  - eapply Hint; eauto.
  - apply is_int_0.
Qed.

(** X1.  When the children text decodes to a list of identifiers and the mapping
    hands out only Go ints, the text convertLink returns decodes to that list
    sent entry by entry through the mapping (an identifier absent from the
    mapping becomes 0): same length, same order, and the result is a well-formed
    encoding. *)
Theorem convertLink_translates_entry_by_entry
    (ref : string) (idMap : gmap Z Z) (oldIDs : list Z) :
  Json.Unmarshal_ints ref = (oldIDs, None) ->
  int_valued idMap ->
  Json.Unmarshal_ints (convertLink ref idMap) = (map (map_index idMap) oldIDs, None) /\
  length (fst (Json.Unmarshal_ints (convertLink ref idMap))) = length oldIDs /\
  well_formed_encoding (convertLink ref idMap).
Proof.
  intros Hdec Hint.
  rewrite (convertLink_decoded ref idMap oldIDs Hdec).
  assert (Hall : Forall is_int (map (map_index idMap) oldIDs)).
  { apply List.Forall_forall. intros x Hx. apply in_map_iff in Hx as (id & <- & _).
    now apply int_valued_map_index. }
  rewrite (JsonFacts.Unmarshal_Marshal_ints _ Hall). cbn [fst].
  split; [reflexivity |]. split; [now rewrite length_map |].
  exists (map (map_index idMap) oldIDs). split; [exact Hall | reflexivity].
Qed.

Lemma convertLink_translates_entry_by_entry_witness :
  Json.Unmarshal_ints " [7, null,8 ]" = ([7; 0; 8], None) /\
  Json.Unmarshal_ints (convertLink " [7, null,8 ]" (<[7 := 21]> (<[0 := 5]> ∅)))
  = ([21; 5; 0], None).
Proof.
  assert (Hdec : Json.Unmarshal_ints " [7, null,8 ]" = ([7; 0; 8], None)) by
    (vm_compute; reflexivity).
  split; [exact Hdec |].
  refine (proj1 (convertLink_translates_entry_by_entry _ (<[7 := 21]> (<[0 := 5]> ∅)) _ Hdec _)).
  intros old new Hlook.
  destruct (decide (old = 7)) as [->|H7].
  - rewrite lookup_insert in Hlook. injection Hlook as <-. unfold is_int, MinInt64, MaxInt64. lia.
  - rewrite lookup_insert_ne in Hlook by congruence.
    destruct (decide (old = 0)) as [->|H0].
    + rewrite lookup_insert in Hlook. injection Hlook as <-. unfold is_int, MinInt64, MaxInt64. lia.
    + rewrite lookup_insert_ne in Hlook by congruence. rewrite lookup_empty in Hlook. discriminate.
Defined.

(** X2.  Relinking a text through one mapping and then through a second gives
    the same text as relinking it once through any mapping that agrees with
    their composition on the decoded identifiers, when the first mapping hands
    out only Go ints; a text the decoder refuses gives the empty string either
    way. *)
Theorem convertLink_composes (ref : string) (idMap1 idMap2 idMap12 : gmap Z Z) :
  int_valued idMap1 ->
  composed_on idMap1 idMap2 idMap12 (fst (Json.Unmarshal_ints ref)) ->
  convertLink (convertLink ref idMap1) idMap2 = convertLink ref idMap12.
Proof.
  intros Hint Hcomp.
  destruct (Json.Unmarshal_ints ref) as [oldIDs [e|]] eqn:Hdec.
  - rewrite !(convertLink_error ref _ oldIDs e Hdec). reflexivity.
  - cbn [fst] in Hcomp.
    assert (Hall : Forall is_int (map (map_index idMap1) oldIDs)).
    { apply List.Forall_forall. intros x Hx. apply in_map_iff in Hx as (id & <- & _).
      now apply int_valued_map_index. }
    rewrite (convertLink_decoded ref idMap1 oldIDs Hdec).
    rewrite (convertLink_decoded _ idMap2 _ (JsonFacts.Unmarshal_Marshal_ints _ Hall)).
    rewrite (convertLink_decoded ref idMap12 oldIDs Hdec).
    do 2 f_equal. rewrite map_map. apply map_ext_in. intros id Hin.
    symmetry. exact (proj1 (List.Forall_forall _ _) Hcomp id Hin).
Qed.

(** ** Runs of the store in closed form *)

Module GrowFacts.

Import Mem StoreSpec MemFacts TreeCloneSpec GrowSpec.

Lemma store_ext (st1 st2 : Store) :
  apps st1 = apps st2 -> users st1 = users st2 -> treestates st1 = treestates st2 ->
  kvstates st1 = kvstates st2 -> setstates st1 = setstates st2 -> actions st1 = actions st2 ->
  next_id st1 = next_id st2 -> now st1 = now st2 -> calls st1 = calls st2 ->
  faults st1 = faults st2 -> st1 = st2.
Proof. destruct st1, st2; cbn; intros; subst; reflexivity. Qed.

Lemma grow_grow t1 k1 s1 a1 c1 n1 t2 k2 s2 a2 c2 n2 (st : Store) :
  grow t2 k2 s2 a2 c2 n2 (grow t1 k1 s1 a1 c1 n1 st) =
  grow (t1 ++ t2) (k1 ++ k2) (s1 ++ s2) (a1 ++ a2) (c1 + c2) (n1 + n2) st.
Proof.
  apply store_ext; cbn; rewrite ?length_app, <- ?List.app_assoc; try reflexivity; lia.
Qed.

Lemma grow_tick (st : Store) : tick st = grow [] [] [] [] 0 1 st.
Proof.
  apply store_ext; cbn; rewrite ?List.app_nil_r; try reflexivity; lia.
Qed.

Lemma grow_ticks (n : nat) (st : Store) : ticks n st = grow [] [] [] [] 0 n st.
Proof.
  destruct (ticks_fields n st) as (? & ? & ? & ? & ? & ? & ? & ? & ? & ?).
  apply store_ext; cbn; rewrite ?List.app_nil_r; try assumption; lia.
Qed.

Lemma grow_set_now (c : Z) (st : Store) : set_now (now st + c) st = grow [] [] [] [] c 0 st.
Proof.
  apply store_ext; cbn; rewrite ?List.app_nil_r; try reflexivity; lia.
Qed.

Lemma no_faults_weaken (st : Store) (n m : nat) :
  (m <= n)%nat -> no_faults st n -> no_faults st m.
Proof. intros Hle H c Hc. apply H. lia. Qed.

Lemma no_faults_grow t k s a c (n m j : nat) (st : Store) :
  (n + m <= j)%nat -> no_faults st j -> no_faults (grow t k s a c n st) m.
Proof. intros Hle H x Hx. cbn in *. apply H. lia. Qed.

Lemma never_fails_no_faults (st : Store) (n : nat) : never_fails st -> no_faults st n.
Proof. intros H c _. apply H. Qed.

Lemma never_fails_grow t k s a c n (st : Store) :
  never_fails st -> never_fails (grow t k s a c n st).
Proof. intros H x. apply H. Qed.

Lemma no_faults_fault (st : Store) (n : nat) : no_faults st (S n) -> fault st = None.
Proof. intros H. apply H. lia. Qed.

(** Where the first failing call of a window lies, if any. *)
Lemma first_fault (st : Store) (n : nat) :
  no_faults st n \/
  exists k e, (k < n)%nat /\ no_faults st k /\ faults st (calls st + k)%nat = Some e.
Proof.
  induction n as [|n IH].
  - left. intros c Hc. lia.
  - destruct IH as [Hok | (k & e & Hk & Hok & Hf)].
    + destruct (faults st (calls st + n)%nat) as [e|] eqn:Hf.
      * right. exists n, e. repeat split; [lia | exact Hok | exact Hf].
      * left. intros c Hc. destruct (decide (c = (calls st + n)%nat)) as [->|Hne].
        -- exact Hf.
        -- apply Hok. lia.
    + right. exists k, e. repeat split; [lia | exact Hok | exact Hf].
Qed.

(** *** A loop of inserts *)

Section InsertLoop.

Context {X : Type}.
Variable body : Z -> X -> unit -> Go Store (turn X unit (option error)).
Variable ins : X -> Store -> Store.

Hypothesis body_ok : forall i x st,
  fault st = None -> body i x tt st = (Returned (Continue x tt), ins x (tick st)).
Hypothesis body_failed : forall i x st e,
  fault st = Some e -> body i x tt st = (Returned (Return (Some e)), tick st).
Hypothesis ins_calls : forall x st, calls (ins x st) = calls st.
Hypothesis ins_faults : forall x st, faults (ins x st) = faults st.

Lemma insert_all_calls (xs : list X) :
  forall st, calls (insert_all ins xs st) = (calls st + length xs)%nat /\
             faults (insert_all ins xs st) = faults st.
Proof.
  induction xs as [|x xs IH]; intros st; cbn.
  - split; [lia | reflexivity].
  - destruct (IH (ins x (tick st))) as (Hc & Hf). unfold insert_all in *.
    rewrite Hc, Hf, ins_calls, ins_faults. cbn. split; [lia | reflexivity].
Qed.

Lemma insert_loop (xs : list X) :
  forall (i : Z) (st : Store),
  exists k : nat,
    (k <= length xs)%nat /\ no_faults st k /\
    ((k < length xs)%nat -> faults st (calls st + k)%nat <> None) /\
    range_from body i xs tt st =
    if (k =? length xs)%nat
    then (Returned (inl (xs, tt)), insert_all ins xs st)
    else (Returned (inr (faults st (calls st + k)%nat)),
          tick (insert_all ins (firstn k xs) st)).
Proof.
  induction xs as [|x xs IH]; intros i st.
  - exists 0%nat. cbn. repeat split; try lia. intros c Hc. lia.
  - destruct (fault st) as [e|] eqn:Hf.
    + exists 0%nat. cbn [length Nat.eqb firstn insert_all fold_left].
      rewrite (range_from_Return _ _ _ _ _ _ _ _ (body_failed i x st e Hf)).
      replace (calls st + 0)%nat with (calls st) by lia. unfold fault in Hf. rewrite Hf.
      repeat split; try lia; [intros c Hc; lia | intros _; discriminate].
    + rewrite (range_from_Continue _ _ _ _ _ _ _ _ _ (body_ok i x st Hf)).
      destruct (IH (i + 1) (ins x (tick st))) as (k & Hk & Hok & Hbad & ->).
      unfold no_faults in Hok.
      rewrite ins_calls, ins_faults in *. cbn [tick set_calls calls faults] in *.
      exists (S k). cbn [length Nat.eqb firstn insert_all fold_left].
      replace (calls st + S k)%nat with (S (calls st) + k)%nat by lia.
      repeat split.
      * lia.
      * intros c Hc. destruct (decide (c = calls st)) as [->|Hne]; [exact Hf |].
        apply Hok. lia.
      * intros Hlt. apply Hbad. lia.
      * destruct (k =? length xs)%nat; reflexivity.
Qed.

End InsertLoop.

End GrowFacts.

(** ** The clones of the flat kinds, whichever calls fail *)

Module FlatCloneFacts.

Import Mem StoreSpec MemFacts TreeCloneSpec GrowSpec GrowFacts FlatCloneSpec.

(** *** Staging loops *)

Lemma stamp_all_length {X} (f : Time -> Time -> X -> X) (xs : list X) :
  forall t, length (stamp_all f t xs) = length xs.
Proof. induction xs as [|x xs IH]; intros t; cbn; [reflexivity | now rewrite IH]. Qed.

Lemma stamped_loop {X S} (g : Z -> X -> S -> S) (f : Time -> Time -> X -> X) (xs : list X) :
  forall (i : Z) (s : S) (st : Store),
    range_from (R := option error)
      (fun i x s =>
         let* createdAt := time_Now in
         let* updatedAt := time_Now in
         ret (Continue (f createdAt updatedAt x) (g i x s))) i xs s st =
    (Returned (inl (stamp_all f (now st) xs, fold_index g i xs s)),
     set_now (now st + 2 * Z.of_nat (length xs)) st).
Proof.
  induction xs as [|x xs IH]; intros i s st.
  - cbn. f_equal. apply store_ext; try reflexivity. cbn. lia.
  - erewrite range_from_Continue by reflexivity.
    rewrite IH. cbn [stamp_all fold_index now set_now length].
    replace (now st + 1 + 1) with (now st + 2) by lia.
    f_equal. apply store_ext; try reflexivity. cbn [now set_now]. lia.
Qed.

Lemma pure_loop {X S} (g : Z -> X -> S -> S) (h : X -> X) (xs : list X) :
  forall (i : Z) (s : S) (st : Store),
    range_from (R := option error) (fun i x s => ret (Continue (h x) (g i x s))) i xs s st =
    (Returned (inl (map h xs, fold_index g i xs s)), st).
Proof.
  induction xs as [|x xs IH]; intros i s st.
  - reflexivity.
  - erewrite range_from_Continue by reflexivity. now rewrite IH.
Qed.

Lemma stamped_loop_unit {X} (f : Time -> Time -> X -> X) (xs : list X) (st : Store) :
  range_from (R := option error)
    (fun (_ : Z) x (_ : unit) =>
       let* createdAt := time_Now in
       let* updatedAt := time_Now in
       ret (Continue (f createdAt updatedAt x) tt)) 0 xs tt st =
  (Returned (inl (stamp_all f (now st) xs, tt)),
   set_now (now st + 2 * Z.of_nat (length xs)) st).
Proof.
  rewrite (stamped_loop (fun _ _ _ => tt) f).
  now destruct (fold_index (fun _ _ _ => tt) 0 xs tt).
Qed.

Lemma pure_loop_unit {X} (h : X -> X) (xs : list X) (st : Store) :
  range_from (R := option error) (fun (_ : Z) x (_ : unit) => ret (Continue (h x) tt))
    0 xs tt st =
  (Returned (inl (map h xs, tt)), set_now (now st + 0 * Z.of_nat (length xs)) st).
Proof.
  rewrite (pure_loop (fun _ _ _ => tt) h).
  destruct (fold_index (fun _ _ _ => tt) 0 xs tt).
  f_equal. apply store_ext; try reflexivity. cbn [now set_now]. lia.
Qed.

Lemma insert_all_cons {X} (ins : X -> Store -> Store) (x : X) (xs : list X) (st : Store) :
  insert_all ins (x :: xs) st = insert_all ins xs (ins x (tick st)).
Proof. reflexivity. Qed.

(** *** Numbering *)

Lemma number_length {X} (with_ID : Z -> X -> X) (rows : list X) :
  forall n, length (number with_ID n rows) = length rows.
Proof. induction rows as [|x xs IH]; intros n; cbn; [reflexivity | now rewrite IH]. Qed.

Lemma number_numbered {X} (with_ID : Z -> X -> X) (ID : X -> Z) (rows : list X) :
  (forall n x, ID (with_ID n x) = n) ->
  forall n, numbered_from ID n (number with_ID n rows).
Proof.
  intros ID_with_ID. unfold numbered_from.
  induction rows as [|x xs IH]; intros n; cbn [number map length].
  - reflexivity.
  - rewrite seqZ_cons by (rewrite Nat2Z.inj_succ; lia).
    rewrite ID_with_ID, IH, !number_length.
    f_equal. f_equal; lia.
Qed.

Lemma Forall2_firstn {A B} (R : A -> B -> Prop) (l : list A) (k : list B) (j : nat) :
  Forall2 R l k -> Forall2 R (firstn j l) (firstn j k).
Proof.
  intros H. revert j. induction H; intros [|j]; cbn; constructor; auto.
Qed.

Lemma number_firstn {X} (with_ID : Z -> X -> X) (rows : list X) :
  forall n j, number with_ID n (firstn j rows) = firstn j (number with_ID n rows).
Proof.
  induction rows as [|x xs IH]; intros n [|j]; cbn; try reflexivity. now rewrite IH.
Qed.

(** *** A clone step of a flat kind: retrieve, stage, insert *)

Section FlatStep.

Context {X : Type}.
Variable retrieve : Go Store (list X * option error).
Variable src : Store -> list X.
Hypothesis retrieve_ok : forall st,
  fault st = None -> retrieve st = (Returned (src st, None), tick st).
Hypothesis retrieve_failed : forall st e,
  fault st = Some e -> retrieve st = (Returned ([], Some e), tick st).

Variable stage : Z -> X -> unit -> Go Store (turn X unit (option error)).
Variable staged : Time -> list X -> list X.
Variable per_row : Z.
Hypothesis stage_spec : forall rows st,
  range_from stage 0 rows tt st =
  (Returned (inl (staged (now st) rows, tt)),
   set_now (now st + per_row * Z.of_nat (length rows)) st).

Variable create : Z -> X -> unit -> Go Store (turn X unit (option error)).
Variable ins : X -> Store -> Store.
Hypothesis create_ok : forall i x st,
  fault st = None -> create i x tt st = (Returned (Continue x tt), ins x (tick st)).
Hypothesis create_failed : forall i x st e,
  fault st = Some e -> create i x tt st = (Returned (Return (Some e)), tick st).
Hypothesis ins_calls : forall x st, calls (ins x st) = calls st.
Hypothesis ins_faults : forall x st, faults (ins x st) = faults st.

Lemma flat_step_failed (st : Store) (e : error) :
  fault st = Some e -> flat_step retrieve stage create st = (Returned (Some e), tick st).
Proof.
  intros Hf. unfold flat_step.
  now rewrite (bind_Returned _ _ _ _ _ (retrieve_failed st e Hf)).
Qed.

(** The step inserts the staged rows one by one up to the first failing
    insert, [k] rows in all. *)
Lemma flat_step_exact (st : Store) :
  fault st = None ->
  let rows := staged (now st) (src st) in
  let st1 := set_now (now st + per_row * Z.of_nat (length (src st))) (tick st) in
  exists k : nat,
    (k <= length rows)%nat /\ no_faults st (1 + k) /\
    ((k < length rows)%nat -> faults st (calls st + 1 + k)%nat <> None) /\
    flat_step retrieve stage create st =
    if (k =? length rows)%nat
    then (Returned None, insert_all ins rows st1)
    else (Returned (faults st (calls st + 1 + k)%nat),
          tick (insert_all ins (firstn k rows) st1)).
Proof.
  intros Hf rows st1. unfold flat_step.
  rewrite (bind_Returned _ _ _ _ _ (retrieve_ok st Hf)). unfold range.
  rewrite (bind_Returned _ _ _ _ _ (stage_spec (src st) (tick st))).
  change (now (tick st)) with (now st). fold rows. fold st1.
  destruct (insert_loop create ins create_ok create_failed ins_calls ins_faults rows 0 st1)
    as (k & Hk & Hok & Hbad & Hrun).
  exists k. split; [exact Hk |].
  assert (Hcalls : calls st1 = S (calls st)) by reflexivity.
  assert (Hfaults : faults st1 = faults st) by reflexivity.
  split; [| split].
  - intros c Hc. destruct (decide (c = calls st)) as [->|Hne]; [exact Hf |].
    rewrite <- Hfaults. apply Hok. lia.
  - intros Hlt. specialize (Hbad Hlt). rewrite Hfaults, Hcalls in Hbad.
    now replace (calls st + 1 + k)%nat with (S (calls st) + k)%nat by lia.
  - unfold bind at 1. rewrite Hrun. rewrite Hfaults, Hcalls.
    replace (S (calls st) + k)%nat with (calls st + 1 + k)%nat by lia.
    destruct (k =? length rows)%nat; reflexivity.
Qed.

End FlatStep.

(** *** Key-value rows *)

Lemma KV_create_ok (i : Z) (x : KVState.t) (st : Store) :
  fault st = None -> KV_create i x tt st = (Returned (Continue x tt), KV_insert x (tick st)).
Proof.
  intros Hf. unfold KV_create, bind. cbn [repository.KVState_Create KVStateRepository_Store].
  unfold KVState_Create. now rewrite port_ok by assumption.
Qed.

Lemma KV_create_failed (i : Z) (x : KVState.t) (st : Store) (e : error) :
  fault st = Some e -> KV_create i x tt st = (Returned (Return (Some e)), tick st).
Proof.
  intros Hf. unfold KV_create, bind. cbn [repository.KVState_Create KVStateRepository_Store].
  unfold KVState_Create. rewrite (port_failed _ _ _ e Hf). now rewrite Hf.
Qed.

Lemma KV_insert_calls (x : KVState.t) (st : Store) : calls (KV_insert x st) = calls st.
Proof. reflexivity. Qed.

Lemma KV_insert_faults (x : KVState.t) (st : Store) : faults (KV_insert x st) = faults st.
Proof. reflexivity. Qed.

Lemma KV_insert_all (rows : list KVState.t) :
  forall t k s a c n st,
    insert_all KV_insert rows (grow t k s a c n st) =
    grow t (k ++ number KVState_with_ID (next_id (grow t k s a c n st)) rows) s a c
      (n + length rows) st.
Proof.
  induction rows as [|x xs IH]; intros t k s a c n st.
  - cbn [insert_all fold_left number length]. rewrite List.app_nil_r.
    now replace (n + 0)%nat with n by lia.
  - rewrite insert_all_cons.
    replace (KV_insert x (tick (grow t k s a c n st)))
      with (grow t (k ++ [KVState_with_ID (next_id (grow t k s a c n st)) x]) s a c (S n) st).
    + rewrite IH. cbn [number length].
      replace (next_id
        (grow t (k ++ [KVState_with_ID (next_id (grow t k s a c n st)) x]) s a c (S n) st))
        with (next_id (grow t k s a c n st) + 1)
        by (cbn [next_id grow]; rewrite length_app; cbn [length]; lia).
      rewrite <- List.app_assoc. cbn [Datatypes.app].
      now replace (S n + length xs)%nat with (n + S (length xs))%nat by lia.
    + apply store_ext; try reflexivity;
        cbn [next_id calls kvstates grow KV_insert set_next_id set_kvstates tick set_calls];
        rewrite ?length_app, <- ?List.app_assoc; cbn [length]; try reflexivity; lia.
Qed.

Lemma KV_insert_all_from (rows : list KVState.t) (c : Z) (st : Store) :
  insert_all KV_insert rows (set_now (now st + c) (tick st)) =
  grow [] (number KVState_with_ID (next_id st) rows) [] [] c (1 + length rows) st.
Proof.
  replace (set_now (now st + c) (tick st)) with (grow [] [] [] [] c 1 st)
    by (apply store_ext; cbn; rewrite ?List.app_nil_r; try reflexivity; lia).
  rewrite KV_insert_all. cbn [Datatypes.app].
  replace (next_id (grow [] [] [] [] c 1 st)) with (next_id st) by (cbn; lia).
  reflexivity.
Qed.

Lemma KV_retrieve_ok (appID : Z) (st : Store) :
  fault st = None ->
  repository.KVState_RetrieveAllTypeKVStatesByApp appID APP_EDIT_VERSION st =
    (Returned (kv_source appID st, None), tick st).
Proof.
  intros Hf. cbn [repository.KVState_RetrieveAllTypeKVStatesByApp KVStateRepository_Store].
  unfold KVState_RetrieveAllTypeKVStatesByApp.
  now rewrite port_ok by assumption.
Qed.

Lemma KV_retrieve_failed (appID : Z) (st : Store) (e : error) :
  fault st = Some e ->
  repository.KVState_RetrieveAllTypeKVStatesByApp appID APP_EDIT_VERSION st =
    (Returned ([], Some e), tick st).
Proof.
  intros Hf. cbn [repository.KVState_RetrieveAllTypeKVStatesByApp KVStateRepository_Store].
  unfold KVState_RetrieveAllTypeKVStatesByApp.
  rewrite (port_failed _ _ _ e Hf). now rewrite Hf.
Qed.

Lemma KV_stamped (appB user : Z) (since : Time) (rows : list KVState.t) :
  forall t (n : Z),
    since <= t ->
    Forall2 (kv_copied appB user since) rows
      (number KVState_with_ID n (stamp_all (KV_stamp appB user) t rows)).
Proof.
  induction rows as [|x xs IH]; intros t n Ht; cbn [stamp_all number]; constructor.
  - unfold kv_copied. cbn. repeat split; lia.
  - apply IH. lia.
Qed.

Lemma KV_restaged (version : Z) (rows : list KVState.t) :
  forall n : Z,
    Forall2 (kv_released version) rows
      (number KVState_with_ID n (map (KV_restage version) rows)).
Proof.
  induction rows as [|x xs IH]; intros n; cbn [map number]; constructor.
  - unfold kv_released. cbn. repeat split.
  - apply IH.
Qed.

Lemma KV_ID_with_ID (n : Z) (x : KVState.t) : KVState.ID (KVState_with_ID n x) = n.
Proof. reflexivity. Qed.

(** [copyAllKVState]: every run, by the place of the first failing call. *)
Lemma copyAllKVState_exact (appA appB user : Z) (st : Store) :
  fault st = None ->
  let rows := stamp_all (KV_stamp appB user) (now st) (kv_source appA st) in
  let c := 2 * Z.of_nat (length (kv_source appA st)) in
  exists j : nat,
    (j <= length rows)%nat /\ no_faults st (1 + j) /\
    ((j < length rows)%nat -> faults st (calls st + 1 + j)%nat <> None) /\
    copyAllKVState appA appB user st =
    if (j =? length rows)%nat
    then (Returned None,
          grow [] (number KVState_with_ID (next_id st) rows) [] [] c (1 + length rows) st)
    else (Returned (faults st (calls st + 1 + j)%nat),
          grow [] (number KVState_with_ID (next_id st) (firstn j rows)) [] [] c (2 + j) st).
Proof.
  intros Hf rows c.
  destruct (flat_step_exact
              (repository.KVState_RetrieveAllTypeKVStatesByApp appA APP_EDIT_VERSION)
                (kv_source appA)
              (KV_retrieve_ok appA)
              (fun i row (_ : unit) =>
                 let* createdAt := time_Now in
                 let* updatedAt := time_Now in
                 ret (Continue (KV_stamp appB user createdAt updatedAt row) tt))
              (stamp_all (KV_stamp appB user)) 2
              (stamped_loop_unit (KV_stamp appB user))
              KV_create KV_insert KV_create_ok KV_create_failed
              KV_insert_calls KV_insert_faults st Hf)
    as (j & Hj & Hok & Hbad & Hrun).
  exists j. split; [exact Hj |]. split; [exact Hok |]. split; [exact Hbad |].
  change (copyAllKVState appA appB user st) with
    (flat_step (repository.KVState_RetrieveAllTypeKVStatesByApp appA APP_EDIT_VERSION)
       (fun i row (_ : unit) =>
          let* createdAt := time_Now in
          let* updatedAt := time_Now in
          ret (Continue (KV_stamp appB user createdAt updatedAt row) tt))
       KV_create st).
  rewrite Hrun. fold rows. fold c. rewrite !KV_insert_all_from.
  destruct (j =? length rows)%nat eqn:Hjl; [reflexivity |].
  f_equal. rewrite grow_tick, grow_grow. cbn [Datatypes.app].
  rewrite List.app_nil_r, Z.add_0_r, length_firstn.
  assert (Hj' : (j <= length rows)%nat) by exact Hj.
  replace (1 + j `min` length rows + 1)%nat with (2 + j)%nat by lia. reflexivity.
Qed.

(** [releaseKVStateByApp]: every run, by the place of the first failing call. *)
Lemma releaseKVStateByApp_exact (app : AppDto.t) (st : Store) :
  fault st = None ->
  let rows := map (KV_restage (AppDto.MainlineVersion app)) (kv_source (AppDto.ID app) st) in
  exists j : nat,
    (j <= length rows)%nat /\ no_faults st (1 + j) /\
    ((j < length rows)%nat -> faults st (calls st + 1 + j)%nat <> None) /\
    releaseKVStateByApp app st =
    if (j =? length rows)%nat
    then (Returned None,
          grow [] (number KVState_with_ID (next_id st) rows) [] [] 0 (1 + length rows) st)
    else (Returned (faults st (calls st + 1 + j)%nat),
          grow [] (number KVState_with_ID (next_id st) (firstn j rows)) [] [] 0 (2 + j) st).
Proof.
  intros Hf rows.
  destruct (flat_step_exact
              (repository.KVState_RetrieveAllTypeKVStatesByApp (AppDto.ID app) APP_EDIT_VERSION)
                (kv_source (AppDto.ID app))
              (KV_retrieve_ok (AppDto.ID app))
              (fun i row (_ : unit) =>
                 ret (Continue (KV_restage (AppDto.MainlineVersion app) row) tt))
              (fun _ => map (KV_restage (AppDto.MainlineVersion app))) 0
              (pure_loop_unit (KV_restage (AppDto.MainlineVersion app)))
              KV_create KV_insert KV_create_ok KV_create_failed
              KV_insert_calls KV_insert_faults st Hf)
    as (j & Hj & Hok & Hbad & Hrun).
  exists j. split; [exact Hj |]. split; [exact Hok |]. split; [exact Hbad |].
  change (releaseKVStateByApp app st) with
    (flat_step (repository.KVState_RetrieveAllTypeKVStatesByApp (AppDto.ID app) APP_EDIT_VERSION)
       (fun i row (_ : unit) =>
          ret (Continue (KV_restage (AppDto.MainlineVersion app) row) tt))
       KV_create st).
  rewrite Hrun. fold rows. cbn [Z.mul]. rewrite !KV_insert_all_from.
  destruct (j =? length rows)%nat eqn:Hjl; [reflexivity |].
  f_equal. rewrite grow_tick, grow_grow. cbn [Datatypes.app].
  rewrite List.app_nil_r, Z.add_0_r, length_firstn.
  assert (Hj' : (j <= length rows)%nat) by exact Hj.
  replace (1 + j `min` length rows + 1)%nat with (2 + j)%nat by lia. reflexivity.
Qed.

Lemma copyAllKVState_failed (appA appB user : Z) (st : Store) (e : error) :
  fault st = Some e -> copyAllKVState appA appB user st = (Returned (Some e), tick st).
Proof.
  intros Hf.
  exact (flat_step_failed (repository.KVState_RetrieveAllTypeKVStatesByApp appA APP_EDIT_VERSION)
    (KV_retrieve_failed appA) _ _ st e Hf).
Qed.

Lemma releaseKVStateByApp_failed (app : AppDto.t) (st : Store) (e : error) :
  fault st = Some e -> releaseKVStateByApp app st = (Returned (Some e), tick st).
Proof.
  intros Hf.
  exact (flat_step_failed
    (repository.KVState_RetrieveAllTypeKVStatesByApp (AppDto.ID app) APP_EDIT_VERSION)
           (KV_retrieve_failed (AppDto.ID app)) _ _ st e Hf).
Qed.

Lemma KV_source_scope (appID : Z) (st : Store) (row : KVState.t) :
  In row (kv_source appID st) -> KVState_in appID APP_EDIT_VERSION row = true.
Proof.
  unfold kv_source. rewrite filter_In. intros (_ & H).
  exact H.
Qed.

Lemma KV_stamped_scope (appB user : Z) (rows : list KVState.t) :
  forall t n, Forall (fun row => KVState_in appB APP_EDIT_VERSION row = true)
                (number KVState_with_ID n (stamp_all (KV_stamp appB user) t rows)).
Proof.
  induction rows as [|x xs IH]; intros t n; cbn [stamp_all number]; constructor.
  - unfold KVState_in. cbn. now rewrite !Z.eqb_refl.
  - apply IH.
Qed.

Lemma KV_restaged_scope (appID version : Z) (rows : list KVState.t) :
  Forall (fun row => KVState_in appID APP_EDIT_VERSION row = true) rows ->
  forall n, Forall (fun row => KVState_in appID version row = true)
              (number KVState_with_ID n (map (KV_restage version) rows)).
Proof.
  induction 1 as [|x xs Hx _ IH]; intros n; cbn [map number]; constructor.
  - unfold KVState_in in *. cbn. apply andb_true_iff in Hx as (Hx & _).
    now rewrite Hx, Z.eqb_refl.
  - apply IH.
Qed.

(** [copyAllKVState] and [releaseKVStateByApp], whichever calls fail: rows are appended to
    one table, all of them in the target scope. *)
Lemma copyAllKVState_any (appA appB user : Z) (st : Store) :
  exists r clones c n,
    copyAllKVState appA appB user st = (Returned r, grow [] clones [] [] c n st) /\
    Forall (fun row => KVState_in appB APP_EDIT_VERSION row = true) clones.
Proof.
  destruct (fault st) as [e|] eqn:Hf.
  - exists (Some e), [], 0, 1%nat. rewrite (copyAllKVState_failed _ _ _ _ e Hf), grow_tick.
    split; [reflexivity | constructor].
  - destruct (copyAllKVState_exact appA appB user st Hf) as (j & _ & _ & _ & ->).
    destruct (_ =? _)%nat; eexists _, _, _, _; (split; [reflexivity |]);
      rewrite ?number_firstn; try apply Forall_take; apply KV_stamped_scope.
Qed.

Lemma releaseKVStateByApp_any (app : AppDto.t) (st : Store) :
  exists r clones n,
    releaseKVStateByApp app st = (Returned r, grow [] clones [] [] 0 n st) /\
    Forall (fun row => KVState_in (AppDto.ID app) (AppDto.MainlineVersion app) row = true)
      clones.
Proof.
  assert (Hsrc : Forall (fun row => KVState_in (AppDto.ID app) APP_EDIT_VERSION row = true)
                   (kv_source (AppDto.ID app) st)).
  { apply List.Forall_forall. intros row. apply KV_source_scope. }
  destruct (fault st) as [e|] eqn:Hf.
  - exists (Some e), [], 1%nat. rewrite (releaseKVStateByApp_failed _ _ e Hf), grow_tick.
    split; [reflexivity | constructor].
  - destruct (releaseKVStateByApp_exact app st Hf) as (j & _ & _ & _ & ->).
    destruct (_ =? _)%nat; eexists _, _, _; (split; [reflexivity |]);
      rewrite ?number_firstn; try apply Forall_take; now apply KV_restaged_scope.
Qed.

Lemma KV_clone_run
    (appA appB user : Z) (app : AppDto.t) (st : Store) :
  no_faults st (1 + length (kv_source appA st)) ->
  AppDto.ID app = appA ->
  (exists clones,
     copyAllKVState appA appB user st =
     (Returned None,
      grow [] clones [] [] (2 * Z.of_nat (length (kv_source appA st)))
        (1 + length (kv_source appA st)) st) /\
     Forall2 (kv_copied appB user (now st)) (kv_source appA st) clones /\
     numbered_from KVState.ID (next_id st) clones) /\
  (exists clones,
     releaseKVStateByApp app st =
     (Returned None, grow [] clones [] [] 0 (1 + length (kv_source appA st)) st) /\
     Forall2 (kv_released (AppDto.MainlineVersion app)) (kv_source appA st) clones /\
     numbered_from KVState.ID (next_id st) clones).
Proof.
  intros Hnf <-.
  assert (Hf : fault st = None) by (apply Hnf; lia).
  split.
  - destruct (copyAllKVState_exact (AppDto.ID app) appB user st Hf) as (j & Hj & _ & Hbad & ->).
    rewrite stamp_all_length in *.
    destruct (j =? _)%nat eqn:Hjl.
    + eexists _. split; [reflexivity |]. split.
      * apply KV_stamped. lia.
      * apply number_numbered. reflexivity.
    + apply Nat.eqb_neq in Hjl. exfalso. apply Hbad; [lia |]. apply Hnf. lia.
  - destruct (releaseKVStateByApp_exact app st Hf) as (j & Hj & _ & Hbad & ->).
    rewrite length_map in *.
    destruct (j =? _)%nat eqn:Hjl.
    + eexists _. split; [reflexivity |]. split.
      * apply KV_restaged.
      * apply number_numbered. reflexivity.
    + apply Nat.eqb_neq in Hjl. exfalso. apply Hbad; [lia |]. apply Hnf. lia.
Qed.

(** X3.  When the retrieval and every insert succeed, copyAllKVState and
    releaseKVStateByApp return nil and append exactly one row per draft
    key-value row of the source app, in retrieval order, with consecutive fresh
    identifiers and the same kind, key and value. A copy lands in the draft of
    the target app with the actor as creator and updater and clock readings not
    before the start of the copy; a release keeps the app and the audit fields
    and carries the new version. *)
Theorem kv_clone_copies_every_draft_row
    (appA appB user : Z) (app : AppDto.t) (st : Store) :
  no_faults st (1 + length (kv_source appA st)) ->
  AppDto.ID app = appA ->
  (exists clones,
     copyAllKVState appA appB user st =
     (Returned None,
      grow [] clones [] [] (2 * Z.of_nat (length (kv_source appA st)))
        (1 + length (kv_source appA st)) st) /\
     Forall2 (kv_copied appB user (now st)) (kv_source appA st) clones /\
     numbered_from KVState.ID (next_id st) clones) /\
  (exists clones,
     releaseKVStateByApp app st =
     (Returned None, grow [] clones [] [] 0 (1 + length (kv_source appA st)) st) /\
     Forall2 (kv_released (AppDto.MainlineVersion app)) (kv_source appA st) clones /\
     numbered_from KVState.ID (next_id st) clones).
Proof. exact (KV_clone_run appA appB user app st). Qed.

Lemma KV_clone_stops
    (appA appB user : Z) (app : AppDto.t) (st : Store) (j : nat) (e : error) :
  (j < length (kv_source appA st))%nat ->
  no_faults st (1 + j) ->
  faults st (calls st + 1 + j)%nat = Some e ->
  AppDto.ID app = appA ->
  (exists clones,
     copyAllKVState appA appB user st =
     (Returned (Some e),
      grow [] clones [] [] (2 * Z.of_nat (length (kv_source appA st))) (2 + j) st) /\
     Forall2 (kv_copied appB user (now st)) (firstn j (kv_source appA st)) clones) /\
  (exists clones,
     releaseKVStateByApp app st = (Returned (Some e), grow [] clones [] [] 0 (2 + j) st) /\
     Forall2 (kv_released (AppDto.MainlineVersion app))
       (firstn j (kv_source appA st)) clones).
Proof.
  intros Hj Hnf Hbad <-.
  assert (Hf : fault st = None) by (apply Hnf; lia).
  split.
  - destruct (copyAllKVState_exact (AppDto.ID app) appB user st Hf) as (k & Hk & Hok & Hbadk & ->).
    rewrite stamp_all_length in *.
    assert (k = j) as ->.
    { destruct (Nat.lt_trichotomy k j) as [Hlt | [-> | Hgt]]; [| reflexivity |].
      - exfalso. apply Hbadk; [lia |]. apply Hnf. lia.
      - exfalso. rewrite Hok in Hbad by lia. discriminate. }
    replace (j =? _)%nat with false by (symmetry; apply Nat.eqb_neq; lia).
    rewrite Hbad. eexists _. split; [reflexivity |].
    rewrite number_firstn. apply Forall2_firstn. apply KV_stamped. lia.
  - destruct (releaseKVStateByApp_exact app st Hf) as (k & Hk & Hok & Hbadk & ->).
    rewrite length_map in *.
    assert (k = j) as ->.
    { destruct (Nat.lt_trichotomy k j) as [Hlt | [-> | Hgt]]; [| reflexivity |].
      - exfalso. apply Hbadk; [lia |]. apply Hnf. lia.
      - exfalso. rewrite Hok in Hbad by lia. discriminate. }
    replace (j =? _)%nat with false by (symmetry; apply Nat.eqb_neq; lia).
    rewrite Hbad. eexists _. split; [reflexivity |].
    rewrite number_firstn. apply Forall2_firstn. apply KV_restaged.
Qed.

(** X4.  When the retrieval succeeds and the insert of the draft key-value row
    numbered j (from 0) is the first call to fail, copyAllKVState and
    releaseKVStateByApp return that error and make no further call; the clones
    of the first j rows stay in the store, one per source row and in order:
    nothing is rolled back. *)
Theorem kv_clone_keeps_rows_inserted_before_a_failure
    (appA appB user : Z) (app : AppDto.t) (st : Store) (j : nat) (e : error) :
  (j < length (kv_source appA st))%nat ->
  no_faults st (1 + j) ->
  faults st (calls st + 1 + j)%nat = Some e ->
  AppDto.ID app = appA ->
  (exists clones,
     copyAllKVState appA appB user st =
     (Returned (Some e),
      grow [] clones [] [] (2 * Z.of_nat (length (kv_source appA st))) (2 + j) st) /\
     Forall2 (kv_copied appB user (now st)) (firstn j (kv_source appA st)) clones) /\
  (exists clones,
     releaseKVStateByApp app st = (Returned (Some e), grow [] clones [] [] 0 (2 + j) st) /\
     Forall2 (kv_released (AppDto.MainlineVersion app))
       (firstn j (kv_source appA st)) clones).
Proof. exact (KV_clone_stops appA appB user app st j e). Qed.

(** *** Set rows *)

Lemma Set_create_ok (i : Z) (x : SetState.t) (st : Store) :
  fault st = None -> Set_create i x tt st = (Returned (Continue x tt), Set_insert x (tick st)).
Proof.
  intros Hf. unfold Set_create, bind. cbn [repository.SetState_Create SetStateRepository_Store].
  unfold SetState_Create. now rewrite port_ok by assumption.
Qed.

Lemma Set_create_failed (i : Z) (x : SetState.t) (st : Store) (e : error) :
  fault st = Some e -> Set_create i x tt st = (Returned (Return (Some e)), tick st).
Proof.
  intros Hf. unfold Set_create, bind. cbn [repository.SetState_Create SetStateRepository_Store].
  unfold SetState_Create. rewrite (port_failed _ _ _ e Hf). now rewrite Hf.
Qed.

Lemma Set_insert_calls (x : SetState.t) (st : Store) : calls (Set_insert x st) = calls st.
Proof. reflexivity. Qed.

Lemma Set_insert_faults (x : SetState.t) (st : Store) : faults (Set_insert x st) = faults st.
Proof. reflexivity. Qed.

Lemma Set_insert_all (rows : list SetState.t) :
  forall t k s a c n st,
    insert_all Set_insert rows (grow t k s a c n st) =
    grow t k (s ++ number SetState_with_ID (next_id (grow t k s a c n st)) rows) a c
      (n + length rows) st.
Proof.
  induction rows as [|x xs IH]; intros t k s a c n st.
  - cbn [insert_all fold_left number length]. rewrite List.app_nil_r.
    now replace (n + 0)%nat with n by lia.
  - rewrite insert_all_cons.
    replace (Set_insert x (tick (grow t k s a c n st)))
      with (grow t k (s ++ [SetState_with_ID (next_id (grow t k s a c n st)) x]) a c (S n) st).
    + rewrite IH. cbn [number length].
      replace (next_id
        (grow t k (s ++ [SetState_with_ID (next_id (grow t k s a c n st)) x]) a c (S n) st))
        with (next_id (grow t k s a c n st) + 1)
        by (cbn [next_id grow]; rewrite length_app; cbn [length]; lia).
      rewrite <- List.app_assoc. cbn [Datatypes.app].
      now replace (S n + length xs)%nat with (n + S (length xs))%nat by lia.
    + apply store_ext; try reflexivity;
        cbn [next_id calls setstates grow Set_insert set_next_id set_setstates tick set_calls];
        rewrite ?length_app, <- ?List.app_assoc; cbn [length]; try reflexivity; lia.
Qed.

Lemma Set_insert_all_from (rows : list SetState.t) (c : Z) (st : Store) :
  insert_all Set_insert rows (set_now (now st + c) (tick st)) =
  grow [] [] (number SetState_with_ID (next_id st) rows) [] c (1 + length rows) st.
Proof.
  replace (set_now (now st + c) (tick st)) with (grow [] [] [] [] c 1 st)
    by (apply store_ext; cbn; rewrite ?List.app_nil_r; try reflexivity; lia).
  rewrite Set_insert_all. cbn [Datatypes.app].
  replace (next_id (grow [] [] [] [] c 1 st)) with (next_id st) by (cbn; lia).
  reflexivity.
Qed.

Lemma Set_retrieve_ok (appID : Z) (st : Store) :
  fault st = None ->
  repository.SetState_RetrieveSetStatesByApp appID SET_STATE_TYPE_DISPLAY_NAME APP_EDIT_VERSION st
    = (Returned (set_source appID st, None), tick st).
Proof.
  intros Hf. cbn [repository.SetState_RetrieveSetStatesByApp SetStateRepository_Store].
  unfold SetState_RetrieveSetStatesByApp.
  now rewrite port_ok by assumption.
Qed.

Lemma Set_retrieve_failed (appID : Z) (st : Store) (e : error) :
  fault st = Some e ->
  repository.SetState_RetrieveSetStatesByApp appID SET_STATE_TYPE_DISPLAY_NAME APP_EDIT_VERSION st
    = (Returned ([], Some e), tick st).
Proof.
  intros Hf. cbn [repository.SetState_RetrieveSetStatesByApp SetStateRepository_Store].
  unfold SetState_RetrieveSetStatesByApp.
  rewrite (port_failed _ _ _ e Hf). now rewrite Hf.
Qed.

Lemma Set_stamped (appB user : Z) (since : Time) (rows : list SetState.t) :
  forall t (n : Z),
    since <= t ->
    Forall2 (set_copied appB user since) rows
      (number SetState_with_ID n (stamp_all (Set_stamp appB user) t rows)).
Proof.
  induction rows as [|x xs IH]; intros t n Ht; cbn [stamp_all number]; constructor.
  - unfold set_copied. cbn. repeat split; lia.
  - apply IH. lia.
Qed.

Lemma Set_restaged (version : Z) (rows : list SetState.t) :
  forall n : Z,
    Forall2 (set_released version) rows
      (number SetState_with_ID n (map (Set_restage version) rows)).
Proof.
  induction rows as [|x xs IH]; intros n; cbn [map number]; constructor.
  - unfold set_released. cbn. repeat split.
  - apply IH.
Qed.

Lemma Set_ID_with_ID (n : Z) (x : SetState.t) : SetState.ID (SetState_with_ID n x) = n.
Proof. reflexivity. Qed.

(** [copyAllSetState]: every run, by the place of the first failing call. *)
Lemma copyAllSetState_exact (appA appB user : Z) (st : Store) :
  fault st = None ->
  let rows := stamp_all (Set_stamp appB user) (now st) (set_source appA st) in
  let c := 2 * Z.of_nat (length (set_source appA st)) in
  exists j : nat,
    (j <= length rows)%nat /\ no_faults st (1 + j) /\
    ((j < length rows)%nat -> faults st (calls st + 1 + j)%nat <> None) /\
    copyAllSetState appA appB user st =
    if (j =? length rows)%nat
    then (Returned None,
          grow [] [] (number SetState_with_ID (next_id st) rows) [] c (1 + length rows) st)
    else (Returned (faults st (calls st + 1 + j)%nat),
          grow [] [] (number SetState_with_ID (next_id st) (firstn j rows)) [] c (2 + j) st).
Proof.
  intros Hf rows c.
  destruct (flat_step_exact
              (repository.SetState_RetrieveSetStatesByApp appA SET_STATE_TYPE_DISPLAY_NAME
                APP_EDIT_VERSION) (set_source appA)
              (Set_retrieve_ok appA)
              (fun i row (_ : unit) =>
                 let* createdAt := time_Now in
                 let* updatedAt := time_Now in
                 ret (Continue (Set_stamp appB user createdAt updatedAt row) tt))
              (stamp_all (Set_stamp appB user)) 2
              (stamped_loop_unit (Set_stamp appB user))
              Set_create Set_insert Set_create_ok Set_create_failed
              Set_insert_calls Set_insert_faults st Hf)
    as (j & Hj & Hok & Hbad & Hrun).
  exists j. split; [exact Hj |]. split; [exact Hok |]. split; [exact Hbad |].
  change (copyAllSetState appA appB user st) with
    (flat_step
      (repository.SetState_RetrieveSetStatesByApp appA SET_STATE_TYPE_DISPLAY_NAME APP_EDIT_VERSION)
       (fun i row (_ : unit) =>
          let* createdAt := time_Now in
          let* updatedAt := time_Now in
          ret (Continue (Set_stamp appB user createdAt updatedAt row) tt))
       Set_create st).
  rewrite Hrun. fold rows. fold c. rewrite !Set_insert_all_from.
  destruct (j =? length rows)%nat eqn:Hjl; [reflexivity |].
  f_equal. rewrite grow_tick, grow_grow. cbn [Datatypes.app].
  rewrite List.app_nil_r, Z.add_0_r, length_firstn.
  assert (Hj' : (j <= length rows)%nat) by exact Hj.
  replace (1 + j `min` length rows + 1)%nat with (2 + j)%nat by lia. reflexivity.
Qed.

(** [releaseSetStateByApp]: every run, by the place of the first failing call. *)
Lemma releaseSetStateByApp_exact (app : AppDto.t) (st : Store) :
  fault st = None ->
  let rows := map (Set_restage (AppDto.MainlineVersion app)) (set_source (AppDto.ID app) st) in
  exists j : nat,
    (j <= length rows)%nat /\ no_faults st (1 + j) /\
    ((j < length rows)%nat -> faults st (calls st + 1 + j)%nat <> None) /\
    releaseSetStateByApp app st =
    if (j =? length rows)%nat
    then (Returned None,
          grow [] [] (number SetState_with_ID (next_id st) rows) [] 0 (1 + length rows) st)
    else (Returned (faults st (calls st + 1 + j)%nat),
          grow [] [] (number SetState_with_ID (next_id st) (firstn j rows)) [] 0 (2 + j) st).
Proof.
  intros Hf rows.
  destruct (flat_step_exact
              (repository.SetState_RetrieveSetStatesByApp (AppDto.ID app)
                SET_STATE_TYPE_DISPLAY_NAME APP_EDIT_VERSION) (set_source (AppDto.ID app))
              (Set_retrieve_ok (AppDto.ID app))
              (fun i row (_ : unit) =>
                 ret (Continue (Set_restage (AppDto.MainlineVersion app) row) tt))
              (fun _ => map (Set_restage (AppDto.MainlineVersion app))) 0
              (pure_loop_unit (Set_restage (AppDto.MainlineVersion app)))
              Set_create Set_insert Set_create_ok Set_create_failed
              Set_insert_calls Set_insert_faults st Hf)
    as (j & Hj & Hok & Hbad & Hrun).
  exists j. split; [exact Hj |]. split; [exact Hok |]. split; [exact Hbad |].
  change (releaseSetStateByApp app st) with
    (flat_step
      (repository.SetState_RetrieveSetStatesByApp (AppDto.ID app) SET_STATE_TYPE_DISPLAY_NAME
        APP_EDIT_VERSION)
       (fun i row (_ : unit) =>
          ret (Continue (Set_restage (AppDto.MainlineVersion app) row) tt))
       Set_create st).
  rewrite Hrun. fold rows. cbn [Z.mul]. rewrite !Set_insert_all_from.
  destruct (j =? length rows)%nat eqn:Hjl; [reflexivity |].
  f_equal. rewrite grow_tick, grow_grow. cbn [Datatypes.app].
  rewrite List.app_nil_r, Z.add_0_r, length_firstn.
  assert (Hj' : (j <= length rows)%nat) by exact Hj.
  replace (1 + j `min` length rows + 1)%nat with (2 + j)%nat by lia. reflexivity.
Qed.

Lemma copyAllSetState_failed (appA appB user : Z) (st : Store) (e : error) :
  fault st = Some e -> copyAllSetState appA appB user st = (Returned (Some e), tick st).
Proof.
  intros Hf.
  exact (flat_step_failed
    (repository.SetState_RetrieveSetStatesByApp appA SET_STATE_TYPE_DISPLAY_NAME APP_EDIT_VERSION)
      (Set_retrieve_failed appA) _ _ st e Hf).
Qed.

Lemma releaseSetStateByApp_failed (app : AppDto.t) (st : Store) (e : error) :
  fault st = Some e -> releaseSetStateByApp app st = (Returned (Some e), tick st).
Proof.
  intros Hf.
  exact (flat_step_failed
    (repository.SetState_RetrieveSetStatesByApp (AppDto.ID app) SET_STATE_TYPE_DISPLAY_NAME
      APP_EDIT_VERSION)
           (Set_retrieve_failed (AppDto.ID app)) _ _ st e Hf).
Qed.

Lemma Set_source_scope (appID : Z) (st : Store) (row : SetState.t) :
  In row (set_source appID st) -> SetState_in appID APP_EDIT_VERSION row = true.
Proof.
  unfold set_source, retrieved_setstates. rewrite filter_In. intros (_ & H).
  apply andb_true_iff in H as (H & _). exact H.
Qed.

Lemma Set_stamped_scope (appB user : Z) (rows : list SetState.t) :
  forall t n, Forall (fun row => SetState_in appB APP_EDIT_VERSION row = true)
                (number SetState_with_ID n (stamp_all (Set_stamp appB user) t rows)).
Proof.
  induction rows as [|x xs IH]; intros t n; cbn [stamp_all number]; constructor.
  - unfold SetState_in. cbn. now rewrite !Z.eqb_refl.
  - apply IH.
Qed.

Lemma Set_restaged_scope (appID version : Z) (rows : list SetState.t) :
  Forall (fun row => SetState_in appID APP_EDIT_VERSION row = true) rows ->
  forall n, Forall (fun row => SetState_in appID version row = true)
              (number SetState_with_ID n (map (Set_restage version) rows)).
Proof.
  induction 1 as [|x xs Hx _ IH]; intros n; cbn [map number]; constructor.
  - unfold SetState_in in *. cbn. apply andb_true_iff in Hx as (Hx & _).
    now rewrite Hx, Z.eqb_refl.
  - apply IH.
Qed.

(** [copyAllSetState] and [releaseSetStateByApp], whichever calls fail: rows are appended to
    one table, all of them in the target scope. *)
Lemma copyAllSetState_any (appA appB user : Z) (st : Store) :
  exists r clones c n,
    copyAllSetState appA appB user st = (Returned r, grow [] [] clones [] c n st) /\
    Forall (fun row => SetState_in appB APP_EDIT_VERSION row = true) clones.
Proof.
  destruct (fault st) as [e|] eqn:Hf.
  - exists (Some e), [], 0, 1%nat. rewrite (copyAllSetState_failed _ _ _ _ e Hf), grow_tick.
    split; [reflexivity | constructor].
  - destruct (copyAllSetState_exact appA appB user st Hf) as (j & _ & _ & _ & ->).
    destruct (_ =? _)%nat; eexists _, _, _, _; (split; [reflexivity |]);
      rewrite ?number_firstn; try apply Forall_take; apply Set_stamped_scope.
Qed.

Lemma releaseSetStateByApp_any (app : AppDto.t) (st : Store) :
  exists r clones n,
    releaseSetStateByApp app st = (Returned r, grow [] [] clones [] 0 n st) /\
    Forall (fun row => SetState_in (AppDto.ID app) (AppDto.MainlineVersion app) row = true)
      clones.
Proof.
  assert (Hsrc : Forall (fun row => SetState_in (AppDto.ID app) APP_EDIT_VERSION row = true)
                   (set_source (AppDto.ID app) st)).
  { apply List.Forall_forall. intros row. apply Set_source_scope. }
  destruct (fault st) as [e|] eqn:Hf.
  - exists (Some e), [], 1%nat. rewrite (releaseSetStateByApp_failed _ _ e Hf), grow_tick.
    split; [reflexivity | constructor].
  - destruct (releaseSetStateByApp_exact app st Hf) as (j & _ & _ & _ & ->).
    destruct (_ =? _)%nat; eexists _, _, _; (split; [reflexivity |]);
      rewrite ?number_firstn; try apply Forall_take; now apply Set_restaged_scope.
Qed.

Lemma Set_clone_run
    (appA appB user : Z) (app : AppDto.t) (st : Store) :
  no_faults st (1 + length (set_source appA st)) ->
  AppDto.ID app = appA ->
  (exists clones,
     copyAllSetState appA appB user st =
     (Returned None,
      grow [] [] clones [] (2 * Z.of_nat (length (set_source appA st)))
        (1 + length (set_source appA st)) st) /\
     Forall2 (set_copied appB user (now st)) (set_source appA st) clones /\
     numbered_from SetState.ID (next_id st) clones) /\
  (exists clones,
     releaseSetStateByApp app st =
     (Returned None, grow [] [] clones [] 0 (1 + length (set_source appA st)) st) /\
     Forall2 (set_released (AppDto.MainlineVersion app)) (set_source appA st) clones /\
     numbered_from SetState.ID (next_id st) clones).
Proof.
  intros Hnf <-.
  assert (Hf : fault st = None) by (apply Hnf; lia).
  split.
  - destruct (copyAllSetState_exact (AppDto.ID app) appB user st Hf) as (j & Hj & _ & Hbad & ->).
    rewrite stamp_all_length in *.
    destruct (j =? _)%nat eqn:Hjl.
    + eexists _. split; [reflexivity |]. split.
      * apply Set_stamped. lia.
      * apply number_numbered. reflexivity.
    + apply Nat.eqb_neq in Hjl. exfalso. apply Hbad; [lia |]. apply Hnf. lia.
  - destruct (releaseSetStateByApp_exact app st Hf) as (j & Hj & _ & Hbad & ->).
    rewrite length_map in *.
    destruct (j =? _)%nat eqn:Hjl.
    + eexists _. split; [reflexivity |]. split.
      * apply Set_restaged.
      * apply number_numbered. reflexivity.
    + apply Nat.eqb_neq in Hjl. exfalso. apply Hbad; [lia |]. apply Hnf. lia.
Qed.

(** X5.  When the retrieval and every insert succeed, copyAllSetState and
    releaseSetStateByApp return nil and append exactly one row per draft
    display-name row of the source app, in retrieval order, with consecutive
    fresh identifiers and the same kind and value. A copy lands in the draft of
    the target app with the actor as creator and updater and clock readings not
    before the start of the copy; a release keeps the app and the audit fields
    and carries the new version. *)
Theorem set_clone_copies_every_draft_row
    (appA appB user : Z) (app : AppDto.t) (st : Store) :
  no_faults st (1 + length (set_source appA st)) ->
  AppDto.ID app = appA ->
  (exists clones,
     copyAllSetState appA appB user st =
     (Returned None,
      grow [] [] clones [] (2 * Z.of_nat (length (set_source appA st)))
        (1 + length (set_source appA st)) st) /\
     Forall2 (set_copied appB user (now st)) (set_source appA st) clones /\
     numbered_from SetState.ID (next_id st) clones) /\
  (exists clones,
     releaseSetStateByApp app st =
     (Returned None, grow [] [] clones [] 0 (1 + length (set_source appA st)) st) /\
     Forall2 (set_released (AppDto.MainlineVersion app)) (set_source appA st) clones /\
     numbered_from SetState.ID (next_id st) clones).
Proof. exact (Set_clone_run appA appB user app st). Qed.

Lemma Set_clone_stops
    (appA appB user : Z) (app : AppDto.t) (st : Store) (j : nat) (e : error) :
  (j < length (set_source appA st))%nat ->
  no_faults st (1 + j) ->
  faults st (calls st + 1 + j)%nat = Some e ->
  AppDto.ID app = appA ->
  (exists clones,
     copyAllSetState appA appB user st =
     (Returned (Some e),
      grow [] [] clones [] (2 * Z.of_nat (length (set_source appA st))) (2 + j) st) /\
     Forall2 (set_copied appB user (now st)) (firstn j (set_source appA st)) clones) /\
  (exists clones,
     releaseSetStateByApp app st = (Returned (Some e), grow [] [] clones [] 0 (2 + j) st) /\
     Forall2 (set_released (AppDto.MainlineVersion app))
       (firstn j (set_source appA st)) clones).
Proof.
  intros Hj Hnf Hbad <-.
  assert (Hf : fault st = None) by (apply Hnf; lia).
  split.
  - destruct (copyAllSetState_exact (AppDto.ID app) appB user st Hf) as (k & Hk & Hok & Hbadk & ->).
    rewrite stamp_all_length in *.
    assert (k = j) as ->.
    { destruct (Nat.lt_trichotomy k j) as [Hlt | [-> | Hgt]]; [| reflexivity |].
      - exfalso. apply Hbadk; [lia |]. apply Hnf. lia.
      - exfalso. rewrite Hok in Hbad by lia. discriminate. }
    replace (j =? _)%nat with false by (symmetry; apply Nat.eqb_neq; lia).
    rewrite Hbad. eexists _. split; [reflexivity |].
    rewrite number_firstn. apply Forall2_firstn. apply Set_stamped. lia.
  - destruct (releaseSetStateByApp_exact app st Hf) as (k & Hk & Hok & Hbadk & ->).
    rewrite length_map in *.
    assert (k = j) as ->.
    { destruct (Nat.lt_trichotomy k j) as [Hlt | [-> | Hgt]]; [| reflexivity |].
      - exfalso. apply Hbadk; [lia |]. apply Hnf. lia.
      - exfalso. rewrite Hok in Hbad by lia. discriminate. }
    replace (j =? _)%nat with false by (symmetry; apply Nat.eqb_neq; lia).
    rewrite Hbad. eexists _. split; [reflexivity |].
    rewrite number_firstn. apply Forall2_firstn. apply Set_restaged.
Qed.

(** X6.  When the retrieval succeeds and the insert of the draft display-name
    row numbered j (from 0) is the first call to fail, copyAllSetState and
    releaseSetStateByApp return that error and make no further call; the clones
    of the first j rows stay in the store, one per source row and in order:
    nothing is rolled back. *)
Theorem set_clone_keeps_rows_inserted_before_a_failure
    (appA appB user : Z) (app : AppDto.t) (st : Store) (j : nat) (e : error) :
  (j < length (set_source appA st))%nat ->
  no_faults st (1 + j) ->
  faults st (calls st + 1 + j)%nat = Some e ->
  AppDto.ID app = appA ->
  (exists clones,
     copyAllSetState appA appB user st =
     (Returned (Some e),
      grow [] [] clones [] (2 * Z.of_nat (length (set_source appA st))) (2 + j) st) /\
     Forall2 (set_copied appB user (now st)) (firstn j (set_source appA st)) clones) /\
  (exists clones,
     releaseSetStateByApp app st = (Returned (Some e), grow [] [] clones [] 0 (2 + j) st) /\
     Forall2 (set_released (AppDto.MainlineVersion app))
       (firstn j (set_source appA st)) clones).
Proof. exact (Set_clone_stops appA appB user app st j e). Qed.

(** *** Action rows *)

Lemma Action_create_ok (i : Z) (x : repository.Action.t) (st : Store) :
  fault st = None -> Action_create i x tt st =
    (Returned (Continue x tt), Action_insert x (tick st)).
Proof.
  intros Hf. unfold Action_create, bind. cbn [repository.Action_Create ActionRepository_Store].
  unfold Action_Create. now rewrite port_ok by assumption.
Qed.

Lemma Action_create_failed (i : Z) (x : repository.Action.t) (st : Store) (e : error) :
  fault st = Some e -> Action_create i x tt st = (Returned (Return (Some e)), tick st).
Proof.
  intros Hf. unfold Action_create, bind. cbn [repository.Action_Create ActionRepository_Store].
  unfold Action_Create. rewrite (port_failed _ _ _ e Hf). now rewrite Hf.
Qed.

Lemma Action_insert_calls (x : repository.Action.t) (st : Store) : calls (Action_insert x st) =
    calls st.
Proof. reflexivity. Qed.

Lemma Action_insert_faults (x : repository.Action.t) (st : Store) : faults (Action_insert x st) =
    faults st.
Proof. reflexivity. Qed.

Lemma Action_insert_all (rows : list repository.Action.t) :
  forall t k s a c n st,
    insert_all Action_insert rows (grow t k s a c n st) =
    grow t k s (a ++ number Action_with_ID (next_id (grow t k s a c n st)) rows) c
      (n + length rows) st.
Proof.
  induction rows as [|x xs IH]; intros t k s a c n st.
  - cbn [insert_all fold_left number length]. rewrite List.app_nil_r.
    now replace (n + 0)%nat with n by lia.
  - rewrite insert_all_cons.
    replace (Action_insert x (tick (grow t k s a c n st)))
      with (grow t k s (a ++ [Action_with_ID (next_id (grow t k s a c n st)) x]) c (S n) st).
    + rewrite IH. cbn [number length].
      replace (next_id
        (grow t k s (a ++ [Action_with_ID (next_id (grow t k s a c n st)) x]) c (S n) st))
        with (next_id (grow t k s a c n st) + 1)
        by (cbn [next_id grow]; rewrite length_app; cbn [length]; lia).
      rewrite <- List.app_assoc. cbn [Datatypes.app].
      now replace (S n + length xs)%nat with (n + S (length xs))%nat by lia.
    + apply store_ext; try reflexivity;
        cbn [next_id calls actions grow Action_insert set_next_id set_actions tick set_calls];
        rewrite ?length_app, <- ?List.app_assoc; cbn [length]; try reflexivity; lia.
Qed.

Lemma Action_insert_all_from (rows : list repository.Action.t) (c : Z) (st : Store) :
  insert_all Action_insert rows (set_now (now st + c) (tick st)) =
  grow [] [] [] (number Action_with_ID (next_id st) rows) c (1 + length rows) st.
Proof.
  replace (set_now (now st + c) (tick st)) with (grow [] [] [] [] c 1 st)
    by (apply store_ext; cbn; rewrite ?List.app_nil_r; try reflexivity; lia).
  rewrite Action_insert_all. cbn [Datatypes.app].
  replace (next_id (grow [] [] [] [] c 1 st)) with (next_id st) by (cbn; lia).
  reflexivity.
Qed.

Lemma Action_retrieve_ok (appID : Z) (st : Store) :
  fault st = None ->
  repository.Action_RetrieveActionsByAppVersion appID APP_EDIT_VERSION st =
    (Returned (action_source appID st, None), tick st).
Proof.
  intros Hf. cbn [repository.Action_RetrieveActionsByAppVersion ActionRepository_Store].
  unfold Action_RetrieveActionsByAppVersion.
  now rewrite port_ok by assumption.
Qed.

Lemma Action_retrieve_failed (appID : Z) (st : Store) (e : error) :
  fault st = Some e ->
  repository.Action_RetrieveActionsByAppVersion appID APP_EDIT_VERSION st =
    (Returned ([], Some e), tick st).
Proof.
  intros Hf. cbn [repository.Action_RetrieveActionsByAppVersion ActionRepository_Store].
  unfold Action_RetrieveActionsByAppVersion.
  rewrite (port_failed _ _ _ e Hf). now rewrite Hf.
Qed.

Lemma Action_stamped (appB user : Z) (since : Time) (rows : list repository.Action.t) :
  forall t (n : Z),
    since <= t ->
    Forall2 (action_copied appB user since) rows
      (number Action_with_ID n (stamp_all (Action_stamp appB user) t rows)).
Proof.
  induction rows as [|x xs IH]; intros t n Ht; cbn [stamp_all number]; constructor.
  - unfold action_copied, same_action. cbn. repeat split; lia.
  - apply IH. lia.
Qed.

Lemma Action_restaged (version : Z) (rows : list repository.Action.t) :
  forall n : Z,
    Forall2 (action_released version) rows
      (number Action_with_ID n (map (Action_restage version) rows)).
Proof.
  induction rows as [|x xs IH]; intros n; cbn [map number]; constructor.
  - unfold action_released, same_action. cbn. repeat split.
  - apply IH.
Qed.

Lemma Action_ID_with_ID (n : Z) (x : repository.Action.t) : repository.Action.ID
    (Action_with_ID n x) = n.
Proof. reflexivity. Qed.

(** [copyActions]: every run, by the place of the first failing call. *)
Lemma copyActions_exact (appA appB user : Z) (st : Store) :
  fault st = None ->
  let rows := stamp_all (Action_stamp appB user) (now st) (action_source appA st) in
  let c := 2 * Z.of_nat (length (action_source appA st)) in
  exists j : nat,
    (j <= length rows)%nat /\ no_faults st (1 + j) /\
    ((j < length rows)%nat -> faults st (calls st + 1 + j)%nat <> None) /\
    copyActions appA appB user st =
    if (j =? length rows)%nat
    then (Returned None,
          grow [] [] [] (number Action_with_ID (next_id st) rows) c (1 + length rows) st)
    else (Returned (faults st (calls st + 1 + j)%nat),
          grow [] [] [] (number Action_with_ID (next_id st) (firstn j rows)) c (2 + j) st).
Proof.
  intros Hf rows c.
  destruct (flat_step_exact
              (repository.Action_RetrieveActionsByAppVersion appA APP_EDIT_VERSION)
                (action_source appA)
              (Action_retrieve_ok appA)
              (fun i row (_ : unit) =>
                 let* createdAt := time_Now in
                 let* updatedAt := time_Now in
                 ret (Continue (Action_stamp appB user createdAt updatedAt row) tt))
              (stamp_all (Action_stamp appB user)) 2
              (stamped_loop_unit (Action_stamp appB user))
              Action_create Action_insert Action_create_ok Action_create_failed
              Action_insert_calls Action_insert_faults st Hf)
    as (j & Hj & Hok & Hbad & Hrun).
  exists j. split; [exact Hj |]. split; [exact Hok |]. split; [exact Hbad |].
  change (copyActions appA appB user st) with
    (flat_step (repository.Action_RetrieveActionsByAppVersion appA APP_EDIT_VERSION)
       (fun i row (_ : unit) =>
          let* createdAt := time_Now in
          let* updatedAt := time_Now in
          ret (Continue (Action_stamp appB user createdAt updatedAt row) tt))
       Action_create st).
  rewrite Hrun. fold rows. fold c. rewrite !Action_insert_all_from.
  destruct (j =? length rows)%nat eqn:Hjl; [reflexivity |].
  f_equal. rewrite grow_tick, grow_grow. cbn [Datatypes.app].
  rewrite List.app_nil_r, Z.add_0_r, length_firstn.
  assert (Hj' : (j <= length rows)%nat) by exact Hj.
  replace (1 + j `min` length rows + 1)%nat with (2 + j)%nat by lia. reflexivity.
Qed.

(** [releaseActionsByApp]: every run, by the place of the first failing call. *)
Lemma releaseActionsByApp_exact (app : AppDto.t) (st : Store) :
  fault st = None ->
  let rows := map (Action_restage (AppDto.MainlineVersion app)) (action_source (AppDto.ID app) st)
    in
  exists j : nat,
    (j <= length rows)%nat /\ no_faults st (1 + j) /\
    ((j < length rows)%nat -> faults st (calls st + 1 + j)%nat <> None) /\
    releaseActionsByApp app st =
    if (j =? length rows)%nat
    then (Returned None,
          grow [] [] [] (number Action_with_ID (next_id st) rows) 0 (1 + length rows) st)
    else (Returned (faults st (calls st + 1 + j)%nat),
          grow [] [] [] (number Action_with_ID (next_id st) (firstn j rows)) 0 (2 + j) st).
Proof.
  intros Hf rows.
  destruct (flat_step_exact
              (repository.Action_RetrieveActionsByAppVersion (AppDto.ID app) APP_EDIT_VERSION)
                (action_source (AppDto.ID app))
              (Action_retrieve_ok (AppDto.ID app))
              (fun i row (_ : unit) =>
                 ret (Continue (Action_restage (AppDto.MainlineVersion app) row) tt))
              (fun _ => map (Action_restage (AppDto.MainlineVersion app))) 0
              (pure_loop_unit (Action_restage (AppDto.MainlineVersion app)))
              Action_create Action_insert Action_create_ok Action_create_failed
              Action_insert_calls Action_insert_faults st Hf)
    as (j & Hj & Hok & Hbad & Hrun).
  exists j. split; [exact Hj |]. split; [exact Hok |]. split; [exact Hbad |].
  change (releaseActionsByApp app st) with
    (flat_step (repository.Action_RetrieveActionsByAppVersion (AppDto.ID app) APP_EDIT_VERSION)
       (fun i row (_ : unit) =>
          ret (Continue (Action_restage (AppDto.MainlineVersion app) row) tt))
       Action_create st).
  rewrite Hrun. fold rows. cbn [Z.mul]. rewrite !Action_insert_all_from.
  destruct (j =? length rows)%nat eqn:Hjl; [reflexivity |].
  f_equal. rewrite grow_tick, grow_grow. cbn [Datatypes.app].
  rewrite List.app_nil_r, Z.add_0_r, length_firstn.
  assert (Hj' : (j <= length rows)%nat) by exact Hj.
  replace (1 + j `min` length rows + 1)%nat with (2 + j)%nat by lia. reflexivity.
Qed.

Lemma copyActions_failed (appA appB user : Z) (st : Store) (e : error) :
  fault st = Some e -> copyActions appA appB user st = (Returned (Some e), tick st).
Proof.
  intros Hf.
  exact (flat_step_failed (repository.Action_RetrieveActionsByAppVersion appA APP_EDIT_VERSION)
    (Action_retrieve_failed appA) _ _ st e Hf).
Qed.

Lemma releaseActionsByApp_failed (app : AppDto.t) (st : Store) (e : error) :
  fault st = Some e -> releaseActionsByApp app st = (Returned (Some e), tick st).
Proof.
  intros Hf.
  exact (flat_step_failed
    (repository.Action_RetrieveActionsByAppVersion (AppDto.ID app) APP_EDIT_VERSION)
           (Action_retrieve_failed (AppDto.ID app)) _ _ st e Hf).
Qed.

Lemma Action_source_scope (appID : Z) (st : Store) (row : repository.Action.t) :
  In row (action_source appID st) -> Action_in appID APP_EDIT_VERSION row = true.
Proof.
  unfold action_source, retrieved_actions. rewrite filter_In. intros (_ & H).
  exact H.
Qed.

Lemma Action_stamped_scope (appB user : Z) (rows : list repository.Action.t) :
  forall t n, Forall (fun row => Action_in appB APP_EDIT_VERSION row = true)
                (number Action_with_ID n (stamp_all (Action_stamp appB user) t rows)).
Proof.
  induction rows as [|x xs IH]; intros t n; cbn [stamp_all number]; constructor.
  - unfold Action_in. cbn. now rewrite !Z.eqb_refl.
  - apply IH.
Qed.

Lemma Action_restaged_scope (appID version : Z) (rows : list repository.Action.t) :
  Forall (fun row => Action_in appID APP_EDIT_VERSION row = true) rows ->
  forall n, Forall (fun row => Action_in appID version row = true)
              (number Action_with_ID n (map (Action_restage version) rows)).
Proof.
  induction 1 as [|x xs Hx _ IH]; intros n; cbn [map number]; constructor.
  - unfold Action_in in *. cbn. apply andb_true_iff in Hx as (Hx & _).
    now rewrite Hx, Z.eqb_refl.
  - apply IH.
Qed.

(** [copyActions] and [releaseActionsByApp], whichever calls fail: rows are appended to
    one table, all of them in the target scope. *)
Lemma copyActions_any (appA appB user : Z) (st : Store) :
  exists r clones c n,
    copyActions appA appB user st = (Returned r, grow [] [] [] clones c n st) /\
    Forall (fun row => Action_in appB APP_EDIT_VERSION row = true) clones.
Proof.
  destruct (fault st) as [e|] eqn:Hf.
  - exists (Some e), [], 0, 1%nat. rewrite (copyActions_failed _ _ _ _ e Hf), grow_tick.
    split; [reflexivity | constructor].
  - destruct (copyActions_exact appA appB user st Hf) as (j & _ & _ & _ & ->).
    destruct (_ =? _)%nat; eexists _, _, _, _; (split; [reflexivity |]);
      rewrite ?number_firstn; try apply Forall_take; apply Action_stamped_scope.
Qed.

Lemma releaseActionsByApp_any (app : AppDto.t) (st : Store) :
  exists r clones n,
    releaseActionsByApp app st = (Returned r, grow [] [] [] clones 0 n st) /\
    Forall (fun row => Action_in (AppDto.ID app) (AppDto.MainlineVersion app) row = true)
      clones.
Proof.
  assert (Hsrc : Forall (fun row => Action_in (AppDto.ID app) APP_EDIT_VERSION row = true)
                   (action_source (AppDto.ID app) st)).
  { apply List.Forall_forall. intros row. apply Action_source_scope. }
  destruct (fault st) as [e|] eqn:Hf.
  - exists (Some e), [], 1%nat. rewrite (releaseActionsByApp_failed _ _ e Hf), grow_tick.
    split; [reflexivity | constructor].
  - destruct (releaseActionsByApp_exact app st Hf) as (j & _ & _ & _ & ->).
    destruct (_ =? _)%nat; eexists _, _, _; (split; [reflexivity |]);
      rewrite ?number_firstn; try apply Forall_take; now apply Action_restaged_scope.
Qed.

Lemma Action_clone_run
    (appA appB user : Z) (app : AppDto.t) (st : Store) :
  no_faults st (1 + length (action_source appA st)) ->
  AppDto.ID app = appA ->
  (exists clones,
     copyActions appA appB user st =
     (Returned None,
      grow [] [] [] clones (2 * Z.of_nat (length (action_source appA st)))
        (1 + length (action_source appA st)) st) /\
     Forall2 (action_copied appB user (now st)) (action_source appA st) clones /\
     numbered_from repository.Action.ID (next_id st) clones) /\
  (exists clones,
     releaseActionsByApp app st =
     (Returned None, grow [] [] [] clones 0 (1 + length (action_source appA st)) st) /\
     Forall2 (action_released (AppDto.MainlineVersion app)) (action_source appA st) clones /\
     numbered_from repository.Action.ID (next_id st) clones).
Proof.
  intros Hnf <-.
  assert (Hf : fault st = None) by (apply Hnf; lia).
  split.
  - destruct (copyActions_exact (AppDto.ID app) appB user st Hf) as (j & Hj & _ & Hbad & ->).
    rewrite stamp_all_length in *.
    destruct (j =? _)%nat eqn:Hjl.
    + eexists _. split; [reflexivity |]. split.
      * apply Action_stamped. lia.
      * apply number_numbered. reflexivity.
    + apply Nat.eqb_neq in Hjl. exfalso. apply Hbad; [lia |]. apply Hnf. lia.
  - destruct (releaseActionsByApp_exact app st Hf) as (j & Hj & _ & Hbad & ->).
    rewrite length_map in *.
    destruct (j =? _)%nat eqn:Hjl.
    + eexists _. split; [reflexivity |]. split.
      * apply Action_restaged.
      * apply number_numbered. reflexivity.
    + apply Nat.eqb_neq in Hjl. exfalso. apply Hbad; [lia |]. apply Hnf. lia.
Qed.

(** X7.  When the retrieval and every insert succeed, copyActions and
    releaseActionsByApp return nil and append exactly one row per draft action
    of the source app, in retrieval order, with consecutive fresh identifiers
    and the same resource, name, type, trigger mode, transformer and template. A
    copy lands in the draft of the target app with the actor as creator and
    updater and clock readings not before the start of the copy; a release keeps
    the app and the audit fields and carries the new version. *)
Theorem action_clone_copies_every_draft_row
    (appA appB user : Z) (app : AppDto.t) (st : Store) :
  no_faults st (1 + length (action_source appA st)) ->
  AppDto.ID app = appA ->
  (exists clones,
     copyActions appA appB user st =
     (Returned None,
      grow [] [] [] clones (2 * Z.of_nat (length (action_source appA st)))
        (1 + length (action_source appA st)) st) /\
     Forall2 (action_copied appB user (now st)) (action_source appA st) clones /\
     numbered_from repository.Action.ID (next_id st) clones) /\
  (exists clones,
     releaseActionsByApp app st =
     (Returned None, grow [] [] [] clones 0 (1 + length (action_source appA st)) st) /\
     Forall2 (action_released (AppDto.MainlineVersion app)) (action_source appA st) clones /\
     numbered_from repository.Action.ID (next_id st) clones).
Proof. exact (Action_clone_run appA appB user app st). Qed.

Lemma Action_clone_stops
    (appA appB user : Z) (app : AppDto.t) (st : Store) (j : nat) (e : error) :
  (j < length (action_source appA st))%nat ->
  no_faults st (1 + j) ->
  faults st (calls st + 1 + j)%nat = Some e ->
  AppDto.ID app = appA ->
  (exists clones,
     copyActions appA appB user st =
     (Returned (Some e),
      grow [] [] [] clones (2 * Z.of_nat (length (action_source appA st))) (2 + j) st) /\
     Forall2 (action_copied appB user (now st)) (firstn j (action_source appA st)) clones) /\
  (exists clones,
     releaseActionsByApp app st = (Returned (Some e), grow [] [] [] clones 0 (2 + j) st) /\
     Forall2 (action_released (AppDto.MainlineVersion app))
       (firstn j (action_source appA st)) clones).
Proof.
  intros Hj Hnf Hbad <-.
  assert (Hf : fault st = None) by (apply Hnf; lia).
  split.
  - destruct (copyActions_exact (AppDto.ID app) appB user st Hf) as (k & Hk & Hok & Hbadk & ->).
    rewrite stamp_all_length in *.
    assert (k = j) as ->.
    { destruct (Nat.lt_trichotomy k j) as [Hlt | [-> | Hgt]]; [| reflexivity |].
      - exfalso. apply Hbadk; [lia |]. apply Hnf. lia.
      - exfalso. rewrite Hok in Hbad by lia. discriminate. }
    replace (j =? _)%nat with false by (symmetry; apply Nat.eqb_neq; lia).
    rewrite Hbad. eexists _. split; [reflexivity |].
    rewrite number_firstn. apply Forall2_firstn. apply Action_stamped. lia.
  - destruct (releaseActionsByApp_exact app st Hf) as (k & Hk & Hok & Hbadk & ->).
    rewrite length_map in *.
    assert (k = j) as ->.
    { destruct (Nat.lt_trichotomy k j) as [Hlt | [-> | Hgt]]; [| reflexivity |].
      - exfalso. apply Hbadk; [lia |]. apply Hnf. lia.
      - exfalso. rewrite Hok in Hbad by lia. discriminate. }
    replace (j =? _)%nat with false by (symmetry; apply Nat.eqb_neq; lia).
    rewrite Hbad. eexists _. split; [reflexivity |].
    rewrite number_firstn. apply Forall2_firstn. apply Action_restaged.
Qed.

(** X8.  When the retrieval succeeds and the insert of the draft action numbered
    j (from 0) is the first call to fail, copyActions and releaseActionsByApp
    return that error and make no further call; the clones of the first j rows
    stay in the store, one per source row and in order: nothing is rolled back. *)
Theorem action_clone_keeps_rows_inserted_before_a_failure
    (appA appB user : Z) (app : AppDto.t) (st : Store) (j : nat) (e : error) :
  (j < length (action_source appA st))%nat ->
  no_faults st (1 + j) ->
  faults st (calls st + 1 + j)%nat = Some e ->
  AppDto.ID app = appA ->
  (exists clones,
     copyActions appA appB user st =
     (Returned (Some e),
      grow [] [] [] clones (2 * Z.of_nat (length (action_source appA st))) (2 + j) st) /\
     Forall2 (action_copied appB user (now st)) (firstn j (action_source appA st)) clones) /\
  (exists clones,
     releaseActionsByApp app st = (Returned (Some e), grow [] [] [] clones 0 (2 + j) st) /\
     Forall2 (action_released (AppDto.MainlineVersion app))
       (firstn j (action_source appA st)) clones).
Proof. exact (Action_clone_stops appA appB user app st j e). Qed.

(* TAIL *)

End FlatCloneFacts.

(** ** The tree clone, whichever calls fail *)

Module TreeRunFacts.

Import Mem StoreSpec MemFacts CloneSpec CloneFacts TreeCloneSpec TreeCloneFacts.
Import GrowSpec GrowFacts FlatCloneSpec FlatCloneFacts TreeRunSpec.

Lemma index_map_fold (rows : list TreeState.t) :
  forall (i : Z) (m : gmap Z Z),
    fold_index (fun i row m => <[i := TreeState.ID row]> m) i rows m = index_map i rows m.
Proof. induction rows as [|r rows IH]; intros i m; cbn; [reflexivity | apply IH]. Qed.

Lemma TreeState_Create_failed (row : TreeState.t) (st : Store) (e : error) :
  fault st = Some e -> TreeState_Create row st = (Returned (row, (0, Some e)), tick st).
Proof.
  intros Hf. unfold TreeState_Create. rewrite (port_failed _ _ _ e Hf). now rewrite Hf.
Qed.

Lemma TreeState_Update_failed (row : TreeState.t) (st : Store) (e : error) :
  fault st = Some e -> TreeState_Update row st = (Returned (Some e), tick st).
Proof.
  intros Hf. unfold TreeState_Update. rewrite (port_failed _ _ _ e Hf). now rewrite Hf.
Qed.

Lemma grow_nothing (st : Store) : grow [] [] [] [] 0 0 st = st.
Proof.
  apply store_ext; cbn; rewrite ?List.app_nil_r; try reflexivity; lia.
Qed.

Lemma grow_after_tree_insert (row : TreeState.t) (t : list TreeState.t) (n : nat)
    (st : Store) :
  grow t [] [] [] 0 n
    (set_next_id (next_id st + 1)
       (set_treestates (treestates st ++ [TreeState_with_ID (next_id st) row]) (tick st))) =
  grow (TreeState_with_ID (next_id st) row :: t) [] [] [] 0 (S n) st.
Proof.
  apply store_ext; try reflexivity;
    cbn [apps users treestates kvstates setstates actions next_id now calls faults
         grow set_next_id set_treestates tick set_calls length];
    rewrite <- ?List.app_assoc; try reflexivity; lia.
Qed.

(** The insert loop of the tree clones, whichever calls fail: it inserts the
    rows up to the first failing insert, [j] rows in all. *)
Lemma tree_create_any (indexIDMap : gmap Z Z) (rows : list TreeState.t) :
  forall (olds : list Z) (i : Z) (m : gmap Z Z) (st : Store),
    length olds = length rows ->
    (forall k old, olds !! k = Some old -> map_index indexIDMap (i + Z.of_nat k) = old) ->
    exists j : nat,
      (j <= length rows)%nat /\ no_faults st j /\
      ((j < length rows)%nat -> faults st (calls st + j)%nat <> None) /\
      range_from
        (fun i treestate releaseIDMap =>
           let* (treestate, (id, err)) := repository.TreeState_Create treestate in
           match err with
           | Some e => ret (Return (Some e))
           | None =>
               let oldID := map_index indexIDMap i in
               ret (Continue treestate (<[oldID := id]> releaseIDMap))
           end) i rows m st =
      if (j =? length rows)%nat
      then (Returned (inl (assign (next_id st) rows, id_map olds (next_id st) m)),
            grow (assign (next_id st) rows) [] [] [] 0 (length rows) st)
      else (Returned (inr (faults st (calls st + j)%nat)),
            grow (assign (next_id st) (firstn j rows)) [] [] [] 0 (S j) st).
Proof.
  induction rows as [|row rows IH]; intros olds i m st Hlen Holds.
  - destruct olds; [| discriminate]. exists 0%nat. cbn [length Nat.eqb assign id_map].
    rewrite grow_nothing. repeat split; try lia. intros c Hc. lia.
  - destruct olds as [|old olds]; [discriminate |].
    destruct (fault st) as [e|] eqn:Hf.
    + exists 0%nat. cbn [length Nat.eqb firstn assign].
      erewrite range_from_Return;
        [| cbn [repository.TreeState_Create TreeStateRepository_Store];
           rewrite (bind_Returned _ _ _ _ _ (TreeState_Create_failed row st e Hf));
           reflexivity].
      replace (calls st + 0)%nat with (calls st) by lia. unfold fault in Hf. rewrite Hf.
      rewrite <- grow_tick.
      repeat split; try lia; [intros c Hc; lia | intros _; discriminate].
    + assert (Hold : map_index indexIDMap i = old).
      { rewrite <- (Holds 0%nat old eq_refl). f_equal. lia. }
      erewrite range_from_Continue;
        [| cbn [repository.TreeState_Create TreeStateRepository_Store];
           rewrite (bind_Returned _ _ _ _ _ (TreeState_Create_ok row st Hf)); reflexivity].
      rewrite Hold.
      set (row' := TreeState_with_ID (next_id st) row).
      set (st1 := set_next_id (next_id st + 1)
                    (set_treestates (treestates st ++ [row']) (tick st))).
      destruct (IH olds (i + 1) (<[old := next_id st]> m) st1)
        as (j & Hj & Hok & Hbad & Hrun).
      { cbn [length] in Hlen. lia. }
      { intros k o Hk. rewrite <- (Holds (S k) o Hk). f_equal. lia. }
      rewrite Hrun. clear Hrun.
      change (next_id st1) with (next_id st + 1).
      change (calls st1) with (S (calls st)) in *.
      change (faults st1) with (faults st) in *.
      assert (Hgrow : forall t n,
                grow t [] [] [] 0 n st1 = grow (row' :: t) [] [] [] 0 (S n) st)
        by (intros t n; apply grow_after_tree_insert).
      exists (S j). cbn [length Nat.eqb firstn assign id_map]. fold row'.
      replace (calls st + S j)%nat with (S (calls st) + j)%nat by lia.
      rewrite !Hgrow.
      repeat split.
      * lia.
      * intros c Hc. destruct (decide (c = calls st)) as [->|Hne]; [exact Hf |].
        apply Hok. change (calls st1) with (S (calls st)). lia.
      * intros Hlt. apply Hbad. lia.
      * destruct (j =? length rows)%nat; reflexivity.
Qed.

Lemma set_treestates_later (l l' : list TreeState.t) (n : nat) (st : Store) :
  set_treestates l (ticks n (set_treestates l' (tick st))) = set_treestates l (ticks (S n) st).
Proof.
  destruct (ticks_fields n (set_treestates l' (tick st)))
    as (Ha & Hu & Ht & Hk & Hs & Hac & Hn & Hno & Hf & Hc).
  destruct (ticks_fields (S n) st)
    as (Ha' & Hu' & Ht' & Hk' & Hs' & Hac' & Hn' & Hno' & Hf' & Hc').
  apply store_ext;
    cbn [apps users treestates kvstates setstates actions next_id now calls faults
         set_treestates];
    rewrite ?Ha, ?Hu, ?Hk, ?Hs, ?Hac, ?Hn, ?Hno, ?Hf, ?Hc,
            ?Ha', ?Hu', ?Hk', ?Hs', ?Hac', ?Hn', ?Hno', ?Hf', ?Hc';
    try reflexivity.
  cbn [calls set_treestates tick set_calls]. lia.
Qed.

(** The relinking loop, whichever calls fail: it rewrites the rows in place
    up to the first failing update, [j] rows in all. *)
Lemma tree_relink_any (m : gmap Z Z) (rows : list TreeState.t) :
  forall (pre : list TreeState.t) (i : Z) (st : Store),
    treestates st = pre ++ rows ->
    List.NoDup (map TreeState.ID rows) ->
    (forall row, In row rows -> ~ In (TreeState.ID row) (map TreeState.ID pre)) ->
    exists j : nat,
      (j <= length rows)%nat /\ no_faults st j /\
      ((j < length rows)%nat -> faults st (calls st + j)%nat <> None) /\
      range_from
        (fun _ treestate _ =>
           let treestate := relink m treestate in
           let* err := repository.TreeState_Update treestate in
           match err with
           | Some e => ret (Return (Some e))
           | None => ret (Continue treestate tt)
           end) i rows tt st =
      if (j =? length rows)%nat
      then (Returned (inl (map (relink m) rows, tt)),
            set_treestates (pre ++ map (relink m) rows) (ticks (length rows) st))
      else (Returned (inr (faults st (calls st + j)%nat)),
            set_treestates (pre ++ map (relink m) (firstn j rows) ++ skipn j rows)
              (ticks (S j) st)).
Proof.
  induction rows as [|row rows IH]; intros pre i st Hts Hnd Hpre.
  - exists 0%nat. cbn [length Nat.eqb map ticks]. rewrite <- Hts.
    replace (set_treestates (treestates st) st) with st by (now destruct st).
    repeat split; try lia. intros c Hc. lia.
  - cbn [map] in Hnd. inversion Hnd as [|? ? Hnotin Hnd']; subst.
    destruct (fault st) as [e|] eqn:Hf.
    + exists 0%nat. cbn [length Nat.eqb firstn skipn map app ticks].
      erewrite range_from_Return;
        [| cbn [repository.TreeState_Update TreeStateRepository_Store];
           rewrite (bind_Returned _ _ _ _ _ (TreeState_Update_failed (relink m row) st e Hf));
           reflexivity].
      replace (calls st + 0)%nat with (calls st) by lia. unfold fault in Hf. rewrite Hf.
      rewrite <- Hts.
      replace (set_treestates (treestates st) (tick st)) with (tick st) by (now destruct st).
      repeat split; try lia; [intros c Hc; lia | intros _; discriminate].
    + erewrite range_from_Continue;
        [| cbn [repository.TreeState_Update TreeStateRepository_Store];
           rewrite (bind_Returned _ _ _ _ _ (TreeState_Update_ok (relink m row) st Hf));
           reflexivity].
      rewrite Hts, (replace_row pre rows row (relink m row));
        [| reflexivity | apply Hpre; now left | assumption].
      set (st1 := set_treestates (pre ++ relink m row :: rows) (tick st)).
      destruct (IH (pre ++ [relink m row]) (i + 1) st1)
        as (j & Hj & Hok & Hbad & Hrun).
      { change (treestates st1) with (pre ++ relink m row :: rows).
        now rewrite <- List.app_assoc. }
      { assumption. }
      { intros r Hr. rewrite map_app, in_app_iff. cbn [map In]. rewrite relink_ID.
        intros [Hin | [Heq | []]].
        - apply (Hpre r); [now right | assumption].
        - apply Hnotin. rewrite Heq. now apply in_map. }
      rewrite Hrun. clear Hrun.
      change (calls st1) with (S (calls st)) in *.
      change (faults st1) with (faults st) in *.
      exists (S j). cbn [length Nat.eqb firstn skipn map].
      replace (calls st + S j)%nat with (S (calls st) + j)%nat by lia.
      unfold st1. rewrite !set_treestates_later, <- !List.app_assoc. cbn [Datatypes.app].
      repeat split.
      * lia.
      * intros c Hc. destruct (decide (c = calls st)) as [->|Hne]; [exact Hf |].
        apply Hok. change (calls st1) with (S (calls st)). lia.
      * intros Hlt. apply Hbad. lia.
      * destruct (j =? length rows)%nat; reflexivity.
Qed.

Lemma grow_staged (t : list TreeState.t) (c : Z) (n : nat) (st : Store) :
  grow t [] [] [] 0 n (set_now (now st + c) (tick st)) = grow t [] [] [] c (1 + n) st.
Proof.
  apply store_ext; try reflexivity;
    cbn [apps users treestates kvstates setstates actions next_id now calls faults
         grow set_now tick set_calls]; lia.
Qed.

Lemma grow_relinked (created tail : list TreeState.t) (c : Z) (n0 n : nat) (st : Store) :
  length created = n0 ->
  length tail = n0 ->
  set_treestates (treestates st ++ tail)
    (ticks n (grow created [] [] [] 0 n0 (set_now (now st + c) (tick st)))) =
  grow tail [] [] [] c (1 + n0 + n) st.
Proof.
  intros Hcreated Hlen.
  destruct (ticks_fields n
              (grow created [] [] [] 0 n0 (set_now (now st + c) (tick st))))
    as (Ha & Hu & Ht & Hk & Hs & Hac & Hn & Hno & Hf & Hc).
  apply store_ext;
    cbn [apps users treestates kvstates setstates actions next_id now calls faults
         set_treestates];
    rewrite ?Ha, ?Hu, ?Hk, ?Hs, ?Hac, ?Hn, ?Hno, ?Hf, ?Hc;
    cbn [apps users treestates kvstates setstates actions next_id now calls faults
         grow set_now tick set_calls]; try reflexivity; try lia.
Qed.

Lemma relinked_length (m : gmap Z Z) (rows : list TreeState.t) (j : nat) :
  length (map (relink m) (firstn j rows) ++ skipn j rows) = length rows.
Proof.
  rewrite length_app, length_map, <- length_app. f_equal. apply firstn_skipn.
Qed.

(** *** A tree clone, whichever calls fail *)

Section TreeStep.

Variable retrieve : Go Store (list TreeState.t * option error).
Variable src : Store -> list TreeState.t.
Hypothesis retrieve_ok : forall st,
  fault st = None -> retrieve st = (Returned (src st, None), tick st).
Hypothesis retrieve_failed : forall st e,
  fault st = Some e -> retrieve st = (Returned ([], Some e), tick st).

Variable stage : Z -> TreeState.t -> gmap Z Z ->
                 Go Store (turn TreeState.t (gmap Z Z) (option error)).
Variable staged : Time -> list TreeState.t -> list TreeState.t.
Variable per_row : Z.
Hypothesis stage_spec : forall rows st,
  range_from stage 0 rows ∅ st =
  (Returned (inl (staged (now st) rows, index_map 0 rows ∅)),
   set_now (now st + per_row * Z.of_nat (length rows)) st).
Hypothesis staged_length : forall t rows, length (staged t rows) = length rows.

Lemma tree_step_failed (st : Store) (e : error) :
  fault st = Some e -> tree_step retrieve stage st = (Returned (Some e), tick st).
Proof.
  intros Hf. unfold tree_step.
  now rewrite (bind_Returned _ _ _ _ _ (retrieve_failed st e Hf)).
Qed.

(** The step inserts rows up to the first failing insert ([j1] rows); when
    every insert succeeds it relinks rows up to the first failing update
    ([j2] rows). *)
Lemma tree_step_exact (st : Store) :
  store_wf st ->
  fault st = None ->
  let rows := staged (now st) (src st) in
  let len := length (src st) in
  let created := assign (next_id st) rows in
  let m := id_map (map TreeState.ID (src st)) (next_id st) ∅ in
  let c := per_row * Z.of_nat len in
  exists j1 j2 : nat,
    (j1 <= len)%nat /\ (j2 <= len)%nat /\
    no_faults st (1 + j1) /\
    ((j1 < len)%nat -> faults st (calls st + 1 + j1)%nat <> None) /\
    (j1 = len ->
     no_faults st (1 + len + j2) /\
     ((j2 < len)%nat -> faults st (calls st + 1 + len + j2)%nat <> None)) /\
    tree_step retrieve stage st =
    if (j1 <? len)%nat
    then (Returned (faults st (calls st + 1 + j1)%nat),
          grow (assign (next_id st) (firstn j1 rows)) [] [] [] c (2 + j1) st)
    else if (j2 <? len)%nat
    then (Returned (faults st (calls st + 1 + len + j2)%nat),
          grow (map (relink m) (firstn j2 created) ++ skipn j2 created) [] [] [] c
            (2 + len + j2) st)
    else (Returned None, grow (map (relink m) created) [] [] [] c (1 + 2 * len) st).
Proof.
  intros Hwf Hf rows len created m c. unfold tree_step.
  rewrite (bind_Returned _ _ _ _ _ (retrieve_ok st Hf)). unfold range.
  rewrite (bind_Returned _ _ _ _ _ (stage_spec (src st) (tick st))).
  change (now (tick st)) with (now st). fold rows. fold len. fold c.
  set (s1 := set_now (now st + c) (tick st)).
  assert (Hrows : length rows = len) by apply staged_length.
  destruct (tree_create_any (index_map 0 (src st) ∅) rows (map TreeState.ID (src st)) 0 ∅ s1)
    as (j1 & Hj1 & Hok1 & Hbad1 & Hrun1).
  { now rewrite length_map. }
  { intros k old Hk. rewrite list_lookup_fmap in Hk.
    destruct (src st !! k) as [row |] eqn:Hsrc; [| discriminate]. injection Hk as <-.
    unfold map_index. now rewrite (index_map_lookup (src st) 0 ∅ k row Hsrc). }
  change (calls s1) with (S (calls st)) in *. change (faults s1) with (faults st) in *.
  change (next_id s1) with (next_id st) in *.
  rewrite Hrows in *.
  assert (Hnf1 : no_faults st (1 + j1)).
  { intros x Hx. destruct (decide (x = calls st)) as [->|Hne]; [exact Hf |].
    apply Hok1. change (calls s1) with (S (calls st)). lia. }
  destruct (j1 =? len)%nat eqn:Hj1len.
  - apply Nat.eqb_eq in Hj1len. subst j1.
    unfold create_treestates, range. rewrite (bind_Returned _ _ _ _ _ Hrun1). clear Hrun1.
    fold created. fold m.
    set (s2 := grow created [] [] [] 0 len s1).
    destruct (tree_relink_any m created (treestates st) 0 s2)
      as (j2 & Hj2 & Hok2 & Hbad2 & Hrun2).
    { unfold s2, s1. reflexivity. }
    { apply assign_NoDup. }
    { destruct Hwf as (_ & Hids & _).
      intros row Hin Hold. apply (in_map TreeState.ID) in Hin. apply assign_ids in Hin.
      apply in_map_iff in Hold as (old & Heq & Hold). apply Hids in Hold. lia. }
    assert (Hcreated : length created = len).
    { unfold created. now rewrite assign_length. }
    rewrite Hcreated in *.
    assert (Hc2 : calls s2 = (calls st + 1 + len)%nat) by (unfold s2, s1; cbn; lia).
    assert (Hf2 : faults s2 = faults st) by reflexivity.
    rewrite Hc2, Hf2 in *.
    exists len, j2.
    rewrite Nat.ltb_irrefl.
    split; [lia |]. split; [exact Hj2 |]. split; [exact Hnf1 |]. split; [lia |].
    split.
    { intros _. split.
      - intros x Hx. destruct (decide (x < calls st + 1 + len)%nat) as [Hlt|Hge].
        + apply Hnf1. lia.
        + apply Hok2. rewrite Hc2. lia.
      - exact Hbad2. }
    unfold relink_treestates, range.
    destruct (j2 =? len)%nat eqn:Hj2len.
    + apply Nat.eqb_eq in Hj2len. subst j2. rewrite Nat.ltb_irrefl.
      rewrite (bind_Returned _ _ _ _ _ Hrun2). clear Hrun2.
      unfold s2, s1.
      rewrite (grow_relinked created) by (rewrite ?length_map; exact Hcreated).
      f_equal. f_equal. lia.
    + apply Nat.eqb_neq in Hj2len.
      assert (Hlt : (j2 <? len)%nat = true) by (apply Nat.ltb_lt; lia).
      rewrite Hlt. rewrite (bind_Returned _ _ _ _ _ Hrun2). clear Hrun2.
      unfold s2, s1.
      rewrite (grow_relinked created)
        by (rewrite ?relinked_length; exact Hcreated).
      f_equal. f_equal. lia.
  - apply Nat.eqb_neq in Hj1len.
    assert (Hlt : (j1 <? len)%nat = true) by (apply Nat.ltb_lt; lia).
    exists j1, 0%nat. rewrite Hlt.
    split; [exact Hj1 |]. split; [lia |]. split; [exact Hnf1 |].
    split.
    { intros Hl. specialize (Hbad1 Hl).
      now replace (calls st + 1 + j1)%nat with (S (calls st) + j1)%nat by lia. }
    split; [intros ->; lia |].
    unfold create_treestates, range. rewrite (bind_Returned _ _ _ _ _ Hrun1). clear Hrun1.
    unfold s1. rewrite grow_staged.
    replace (S (calls st) + j1)%nat with (calls st + 1 + j1)%nat by lia.
    reflexivity.
Qed.

End TreeStep.

(** *** The two tree clones *)

Lemma Tree_retrieve_ok (appID : Z) (st : Store) :
  fault st = None ->
  repository.TreeState_RetrieveAllTypeTreeStatesByApp appID APP_EDIT_VERSION st =
  (Returned (tree_source appID st, None), tick st).
Proof. intros Hf. now apply TreeState_RetrieveAllTypeTreeStatesByApp_ok. Qed.

Lemma Tree_retrieve_failed (appID : Z) (st : Store) (e : error) :
  fault st = Some e ->
  repository.TreeState_RetrieveAllTypeTreeStatesByApp appID APP_EDIT_VERSION st =
  (Returned ([], Some e), tick st).
Proof.
  intros Hf. cbn [repository.TreeState_RetrieveAllTypeTreeStatesByApp TreeStateRepository_Store].
  unfold TreeState_RetrieveAllTypeTreeStatesByApp.
  rewrite (port_failed _ _ _ e Hf). now rewrite Hf.
Qed.

Lemma Tree_stamp_loop (appB user : Z) (rows : list TreeState.t) (st : Store) :
  range_from (R := option error)
    (fun serial row indexIDMap =>
       let* createdAt := time_Now in
       let* updatedAt := time_Now in
       ret (Continue (Tree_stamp appB user createdAt updatedAt row)
              (<[serial := TreeState.ID row]> indexIDMap))) 0 rows ∅ st =
  (Returned (inl (stamp_all (Tree_stamp appB user) (now st) rows, index_map 0 rows ∅)),
   set_now (now st + 2 * Z.of_nat (length rows)) st).
Proof.
  rewrite (stamped_loop (fun i row m => <[i := TreeState.ID row]> m) (Tree_stamp appB user)).
  now rewrite index_map_fold.
Qed.

Lemma Tree_restage_loop (version : Z) (rows : list TreeState.t) (st : Store) :
  range_from (R := option error)
    (fun serial row indexIDMap =>
       ret (Continue (Tree_restage version row)
              (<[serial := TreeState.ID row]> indexIDMap))) 0 rows ∅ st =
  (Returned (inl (map (Tree_restage version) rows, index_map 0 rows ∅)),
   set_now (now st + 0 * Z.of_nat (length rows)) st).
Proof.
  rewrite (pure_loop (fun i row m => <[i := TreeState.ID row]> m) (Tree_restage version)).
  rewrite index_map_fold. f_equal.
  apply store_ext; try reflexivity. cbn [now set_now]. lia.
Qed.

Lemma copyAllTreeState_tree_step (appA appB user : Z) :
  copyAllTreeState appA appB user =
  tree_step (repository.TreeState_RetrieveAllTypeTreeStatesByApp appA APP_EDIT_VERSION)
    (fun serial row indexIDMap =>
       let* createdAt := time_Now in
       let* updatedAt := time_Now in
       ret (Continue (Tree_stamp appB user createdAt updatedAt row)
              (<[serial := TreeState.ID row]> indexIDMap))).
Proof. reflexivity. Qed.

Lemma releaseTreeStateByApp_tree_step (app : AppDto.t) :
  releaseTreeStateByApp app =
  tree_step (repository.TreeState_RetrieveAllTypeTreeStatesByApp (AppDto.ID app) APP_EDIT_VERSION)
    (fun serial row indexIDMap =>
       ret (Continue (Tree_restage (AppDto.MainlineVersion app) row)
              (<[serial := TreeState.ID row]> indexIDMap))).
Proof. reflexivity. Qed.

(** [copyAllTreeState]: every run, by the places of the first failing
    insert and of the first failing update. *)
Lemma copyAllTreeState_exact (appA appB user : Z) (st : Store) :
  store_wf st ->
  fault st = None ->
  let rows := stamp_all (Tree_stamp appB user) (now st) (tree_source appA st) in
  let len := length (tree_source appA st) in
  let created := assign (next_id st) rows in
  let m := id_map (map TreeState.ID (tree_source appA st)) (next_id st) ∅ in
  let c := 2 * Z.of_nat len in
  exists j1 j2 : nat,
    (j1 <= len)%nat /\ (j2 <= len)%nat /\
    no_faults st (1 + j1) /\
    ((j1 < len)%nat -> faults st (calls st + 1 + j1)%nat <> None) /\
    (j1 = len ->
     no_faults st (1 + len + j2) /\
     ((j2 < len)%nat -> faults st (calls st + 1 + len + j2)%nat <> None)) /\
    copyAllTreeState appA appB user st =
    if (j1 <? len)%nat
    then (Returned (faults st (calls st + 1 + j1)%nat),
          grow (assign (next_id st) (firstn j1 rows)) [] [] [] c (2 + j1) st)
    else if (j2 <? len)%nat
    then (Returned (faults st (calls st + 1 + len + j2)%nat),
          grow (map (relink m) (firstn j2 created) ++ skipn j2 created) [] [] [] c
            (2 + len + j2) st)
    else (Returned None, grow (map (relink m) created) [] [] [] c (1 + 2 * len) st).
Proof.
  intros Hwf Hf. rewrite copyAllTreeState_tree_step.
  exact (tree_step_exact _ (tree_source appA) (Tree_retrieve_ok appA) _
           (stamp_all (Tree_stamp appB user)) 2 (Tree_stamp_loop appB user)
           (fun t rows => stamp_all_length _ rows t) st Hwf Hf).
Qed.

Lemma releaseTreeStateByApp_exact (app : AppDto.t) (st : Store) :
  store_wf st ->
  fault st = None ->
  let rows := map (Tree_restage (AppDto.MainlineVersion app))
                (tree_source (AppDto.ID app) st) in
  let len := length (tree_source (AppDto.ID app) st) in
  let created := assign (next_id st) rows in
  let m := id_map (map TreeState.ID (tree_source (AppDto.ID app) st)) (next_id st) ∅ in
  exists j1 j2 : nat,
    (j1 <= len)%nat /\ (j2 <= len)%nat /\
    no_faults st (1 + j1) /\
    ((j1 < len)%nat -> faults st (calls st + 1 + j1)%nat <> None) /\
    (j1 = len ->
     no_faults st (1 + len + j2) /\
     ((j2 < len)%nat -> faults st (calls st + 1 + len + j2)%nat <> None)) /\
    releaseTreeStateByApp app st =
    if (j1 <? len)%nat
    then (Returned (faults st (calls st + 1 + j1)%nat),
          grow (assign (next_id st) (firstn j1 rows)) [] [] [] 0 (2 + j1) st)
    else if (j2 <? len)%nat
    then (Returned (faults st (calls st + 1 + len + j2)%nat),
          grow (map (relink m) (firstn j2 created) ++ skipn j2 created) [] [] [] 0
            (2 + len + j2) st)
    else (Returned None, grow (map (relink m) created) [] [] [] 0 (1 + 2 * len) st).
Proof.
  intros Hwf Hf. rewrite releaseTreeStateByApp_tree_step.
  exact (tree_step_exact _ (tree_source (AppDto.ID app)) (Tree_retrieve_ok (AppDto.ID app)) _
           (fun _ => map (Tree_restage (AppDto.MainlineVersion app))) 0
           (Tree_restage_loop (AppDto.MainlineVersion app))
           (fun _ rows => length_map _ rows) st Hwf Hf).
Qed.

Lemma assign_number (rows : list TreeState.t) :
  forall n, assign n rows = number TreeState_with_ID n rows.
Proof. induction rows as [|r rows IH]; intros n; cbn; [reflexivity | now rewrite IH]. Qed.

Lemma assign_numbered (rows : list TreeState.t) (n : Z) :
  numbered_from TreeState.ID n (assign n rows).
Proof. rewrite assign_number. apply number_numbered. reflexivity. Qed.

Lemma relinked_ids (m : gmap Z Z) (rows : list TreeState.t) (j : nat) :
  map TreeState.ID (map (relink m) (firstn j rows) ++ skipn j rows) = map TreeState.ID rows.
Proof.
  rewrite map_app, relink_ids, <- map_app. f_equal. apply firstn_skipn.
Qed.

Lemma relinked_numbered (m : gmap Z Z) (rows : list TreeState.t) (n : Z) (j : nat) :
  numbered_from TreeState.ID n rows ->
  numbered_from TreeState.ID n (map (relink m) (firstn j rows) ++ skipn j rows).
Proof.
  unfold numbered_from. intros H. now rewrite relinked_ids, relinked_length.
Qed.

Lemma relink_scope (m : gmap Z Z) (appID version : Z) (row : TreeState.t) :
  TreeState_in appID version (relink m row) = TreeState_in appID version row.
Proof. reflexivity. Qed.

Lemma assign_scope (appID version : Z) (rows : list TreeState.t) :
  Forall (fun row => TreeState_in appID version row = true) rows ->
  forall n, Forall (fun row => TreeState_in appID version row = true) (assign n rows).
Proof. induction 1 as [|x xs Hx _ IH]; intros n; cbn [assign]; constructor; auto. Qed.

Lemma relinked_scope (m : gmap Z Z) (appID version : Z) (rows : list TreeState.t) (j : nat) :
  Forall (fun row => TreeState_in appID version row = true) rows ->
  Forall (fun row => TreeState_in appID version row = true)
    (map (relink m) (firstn j rows) ++ skipn j rows).
Proof.
  intros H. apply Forall_app. split.
  - apply Forall_map. apply Forall_take. eapply Forall_impl; [exact H |]. auto.
  - now apply Forall_drop.
Qed.

Lemma Tree_stamped_scope (appB user : Z) (rows : list TreeState.t) :
  forall t, Forall (fun row => TreeState_in appB APP_EDIT_VERSION row = true)
              (stamp_all (Tree_stamp appB user) t rows).
Proof.
  induction rows as [|x xs IH]; intros t; cbn [stamp_all]; constructor.
  - unfold TreeState_in. cbn. now rewrite !Z.eqb_refl.
  - apply IH.
Qed.

Lemma Tree_restaged_scope (appID version : Z) (rows : list TreeState.t) :
  Forall (fun row => TreeState_in appID APP_EDIT_VERSION row = true) rows ->
  Forall (fun row => TreeState_in appID version row = true)
    (map (Tree_restage version) rows).
Proof.
  induction 1 as [|x xs Hx _ IH]; cbn [map]; constructor.
  - unfold TreeState_in in *. cbn. apply andb_true_iff in Hx as (Hx & _).
    now rewrite Hx, Z.eqb_refl.
  - apply IH.
Qed.

Lemma tree_source_in_scope (appID : Z) (st : Store) :
  Forall (fun row => TreeState_in appID APP_EDIT_VERSION row = true) (tree_source appID st).
Proof.
  apply List.Forall_forall. intros row. unfold tree_source. rewrite filter_In. now intros (_ & H).
Qed.

Lemma copyAllTreeState_failed (appA appB user : Z) (st : Store) (e : error) :
  fault st = Some e -> copyAllTreeState appA appB user st = (Returned (Some e), tick st).
Proof.
  intros Hf. rewrite copyAllTreeState_tree_step.
  exact (tree_step_failed _ (Tree_retrieve_failed appA) _ st e Hf).
Qed.

Lemma releaseTreeStateByApp_failed (app : AppDto.t) (st : Store) (e : error) :
  fault st = Some e -> releaseTreeStateByApp app st = (Returned (Some e), tick st).
Proof.
  intros Hf. rewrite releaseTreeStateByApp_tree_step.
  exact (tree_step_failed _ (Tree_retrieve_failed (AppDto.ID app)) _ st e Hf).
Qed.

(** The tree clones, whichever calls fail: rows are appended to the tree
    table, numbered by the store, all of them in the target scope. *)
Lemma copyAllTreeState_any (appA appB user : Z) (st : Store) :
  store_wf st ->
  exists r tail c n,
    copyAllTreeState appA appB user st = (Returned r, grow tail [] [] [] c n st) /\
    Forall (fun row => TreeState_in appB APP_EDIT_VERSION row = true) tail /\
    numbered_from TreeState.ID (next_id st) tail.
Proof.
  intros Hwf. destruct (fault st) as [e|] eqn:Hf.
  - exists (Some e), [], 0, 1%nat. rewrite (copyAllTreeState_failed _ _ _ _ e Hf), grow_tick.
    split; [reflexivity |]. split; [constructor | reflexivity].
  - destruct (copyAllTreeState_exact appA appB user st Hwf Hf)
      as (j1 & j2 & _ & _ & _ & _ & _ & ->).
    pose proof (Tree_stamped_scope appB user (tree_source appA st) (now st)) as Hscope.
    destruct (j1 <? _)%nat; [| destruct (j2 <? _)%nat];
      eexists _, _, _, _; (split; [reflexivity |]); split.
    + apply assign_scope. now apply Forall_take.
    + apply assign_numbered.
    + apply relinked_scope. now apply assign_scope.
    + apply relinked_numbered, assign_numbered.
    + apply Forall_map. eapply Forall_impl; [apply assign_scope; exact Hscope |]. auto.
    + unfold numbered_from. rewrite relink_ids, length_map. apply assign_numbered.
Qed.

Lemma releaseTreeStateByApp_any (app : AppDto.t) (st : Store) :
  store_wf st ->
  exists r tail n,
    releaseTreeStateByApp app st = (Returned r, grow tail [] [] [] 0 n st) /\
    Forall (fun row => TreeState_in (AppDto.ID app) (AppDto.MainlineVersion app) row = true)
      tail /\
    numbered_from TreeState.ID (next_id st) tail.
Proof.
  intros Hwf. destruct (fault st) as [e|] eqn:Hf.
  - exists (Some e), [], 1%nat. rewrite (releaseTreeStateByApp_failed _ _ e Hf), grow_tick.
    split; [reflexivity |]. split; [constructor | reflexivity].
  - destruct (releaseTreeStateByApp_exact app st Hwf Hf)
      as (j1 & j2 & _ & _ & _ & _ & _ & ->).
    pose proof (Tree_restaged_scope (AppDto.ID app) (AppDto.MainlineVersion app) _
                  (tree_source_in_scope (AppDto.ID app) st)) as Hscope.
    destruct (j1 <? _)%nat; [| destruct (j2 <? _)%nat];
      eexists _, _, _; (split; [reflexivity |]); split.
    + apply assign_scope. now apply Forall_take.
    + apply assign_numbered.
    + apply relinked_scope. now apply assign_scope.
    + apply relinked_numbered, assign_numbered.
    + apply Forall_map. eapply Forall_impl; [apply assign_scope; exact Hscope |]. auto.
    + unfold numbered_from. rewrite relink_ids, length_map. apply assign_numbered.
Qed.

End TreeRunFacts.

(** ** A tree clone whose relinking fails *)

Module TreeStopFacts.

Import Mem StoreSpec MemFacts CloneSpec CloneFacts TreeCloneSpec TreeCloneFacts.
Import GrowSpec GrowFacts FlatCloneSpec FlatCloneFacts TreeRunSpec TreeRunFacts.

Lemma assign_unrelinked (src rows : list TreeState.t) :
  Forall2 unrelinked src rows -> forall n, Forall2 unrelinked src (assign n rows).
Proof.
  induction 1 as [|x y l k Hxy _ IH]; intros n; cbn [assign]; constructor; [| apply IH].
  exact Hxy.
Qed.

Lemma Tree_stamped_unrelinked (appB user : Z) (src : list TreeState.t) :
  forall t, Forall2 unrelinked src (stamp_all (Tree_stamp appB user) t src).
Proof.
  induction src as [|x l IH]; intros t; cbn [stamp_all]; constructor; [| apply IH].
  now repeat split.
Qed.

Lemma Tree_restaged_unrelinked (version : Z) (src : list TreeState.t) :
  Forall2 unrelinked src (map (Tree_restage version) src).
Proof.
  induction src as [|x l IH]; cbn [map]; constructor; [| apply IH].
  now repeat split.
Qed.

Lemma relinked_rows (m : gmap Z Z) (src rows : list TreeState.t) :
  Forall2 unrelinked src rows -> Forall2 (relinked_by m) src (map (relink m) rows).
Proof.
  induction 1 as [|x y l k (H1 & H2 & H3 & H4 & H5) _ IH]; cbn [map]; constructor;
    [| exact IH].
  unfold relinked_by. cbn. now rewrite H1, H2, H3, H4, H5.
Qed.

(** Which of the runs of a tree clone it is, when every insert succeeds and
    the update of row [j] is the first call to fail. *)
Lemma failed_update_run (st : Store) (len j j1 j2 : nat) (e : error) :
  (j < len)%nat ->
  no_faults st (1 + len + j) ->
  faults st (calls st + 1 + len + j)%nat = Some e ->
  (j1 <= len)%nat -> (j2 <= len)%nat ->
  ((j1 < len)%nat -> faults st (calls st + 1 + j1)%nat <> None) ->
  (j1 = len ->
   no_faults st (1 + len + j2) /\
   ((j2 < len)%nat -> faults st (calls st + 1 + len + j2)%nat <> None)) ->
  j1 = len /\ j2 = j.
Proof.
  intros Hj Hok He Hj1 Hj2 Hbad1 Hphase2.
  assert (E1 : j1 = len).
  { destruct (decide (j1 < len)%nat) as [Hlt|]; [| lia].
    exfalso. apply (Hbad1 Hlt). apply Hok. lia. }
  split; [exact E1 |]. destruct (Hphase2 E1) as (Hok2 & Hbad2).
  destruct (lt_eq_lt_dec j2 j) as [[Hlt | ->] | Hgt]; [| reflexivity |].
  - exfalso. apply Hbad2; [lia |]. apply Hok. lia.
  - exfalso. rewrite (Hok2 (calls st + 1 + len + j)%nat) in He by lia. discriminate.
Qed.

(** X9.  From a store whose identifiers it generated, when the retrieval and
    every insert of a tree clone succeed and the update of the clone numbered j
    (from 0) is the first call to fail, copyAllTreeState and
    releaseTreeStateByApp return that error; every clone stays in the store, the
    first j with parent and children sent through the old-to-new identifier
    mapping, the others in the target scope but still carrying the parent and
    children references of their source rows. *)
Theorem tree_clone_stops_relinking_at_a_failed_update
    (appA appB user : Z) (app : AppDto.t) (st : Store) (j : nat) (e : error) :
  store_wf st ->
  (j < length (tree_source appA st))%nat ->
  no_faults st (1 + length (tree_source appA st) + j) ->
  faults st (calls st + 1 + length (tree_source appA st) + j)%nat = Some e ->
  AppDto.ID app = appA ->
  (exists relinked rest,
     copyAllTreeState appA appB user st =
     (Returned (Some e),
      grow (relinked ++ rest) [] [] [] (2 * Z.of_nat (length (tree_source appA st)))
        (2 + length (tree_source appA st) + j) st) /\
     Forall2 (relinked_by (id_map (map TreeState.ID (tree_source appA st)) (next_id st) ∅))
       (firstn j (tree_source appA st)) relinked /\
     Forall2 unrelinked (skipn j (tree_source appA st)) rest /\
     Forall (fun row => TreeState_in appB APP_EDIT_VERSION row = true) rest) /\
  (exists relinked rest,
     releaseTreeStateByApp app st =
     (Returned (Some e),
      grow (relinked ++ rest) [] [] [] 0 (2 + length (tree_source appA st) + j) st) /\
     Forall2 (relinked_by (id_map (map TreeState.ID (tree_source appA st)) (next_id st) ∅))
       (firstn j (tree_source appA st)) relinked /\
     Forall2 unrelinked (skipn j (tree_source appA st)) rest /\
     Forall (fun row => TreeState_in appA (AppDto.MainlineVersion app) row = true) rest).
Proof.
  intros Hwf Hj Hok He <-.
  assert (Hf : fault st = None) by (apply (no_faults_fault st _ Hok)).
  split.
  - destruct (copyAllTreeState_exact (AppDto.ID app) appB user st Hwf Hf)
      as (j1 & j2 & Hj1 & Hj2 & _ & Hbad1 & Hphase2 & Hrun).
    cbv zeta in *.
    destruct (failed_update_run st _ j j1 j2 e Hj Hok He Hj1 Hj2 Hbad1 Hphase2) as (-> & ->).
    rewrite Nat.ltb_irrefl in Hrun. rewrite (proj2 (Nat.ltb_lt _ _) Hj), He in Hrun.
    eexists _, _. split; [exact Hrun |]. split; [| split].
    + apply relinked_rows, Forall2_take, assign_unrelinked, Tree_stamped_unrelinked.
    + apply Forall2_drop, assign_unrelinked, Tree_stamped_unrelinked.
    + apply Forall_drop, assign_scope, Tree_stamped_scope.
  - destruct (releaseTreeStateByApp_exact app st Hwf Hf)
      as (j1 & j2 & Hj1 & Hj2 & _ & Hbad1 & Hphase2 & Hrun).
    cbv zeta in *.
    destruct (failed_update_run st _ j j1 j2 e Hj Hok He Hj1 Hj2 Hbad1 Hphase2) as (-> & ->).
    rewrite Nat.ltb_irrefl in Hrun. rewrite (proj2 (Nat.ltb_lt _ _) Hj), He in Hrun.
    eexists _, _. split; [exact Hrun |]. split; [| split].
    + apply relinked_rows, Forall2_take, assign_unrelinked, Tree_restaged_unrelinked.
    + apply Forall2_drop, assign_unrelinked, Tree_restaged_unrelinked.
    + apply Forall_drop, assign_scope, Tree_restaged_scope, tree_source_in_scope.
Qed.

End TreeStopFacts.

(** ** What the coordinators leave alone *)

Module CoordinatorFacts.

Import Mem StoreSpec MemFacts CloneSpec CloneFacts TreeCloneSpec TreeCloneFacts.
Import GrowSpec GrowFacts FlatCloneSpec FlatCloneFacts TreeRunSpec TreeRunFacts.
Import CoordinatorSpec.

Lemma scope_eqb_other (a v a0 v0 x y : Z) :
  (a, v) <> (a0, v0) -> (x =? a0) && (y =? v0) = true -> (x =? a) && (y =? v) = false.
Proof.
  intros Hne H. apply andb_true_iff in H as (Hx & Hy).
  apply Z.eqb_eq in Hx, Hy. subst x y.
  destruct (Z.eqb_spec a0 a) as [-> |]; [| reflexivity].
  destruct (Z.eqb_spec v0 v) as [-> |]; [| reflexivity].
  now contradiction Hne.
Qed.

Lemma filter_none {A} (p : A -> bool) (l : list A) :
  Forall (fun x => p x = false) l -> List.filter p l = [].
Proof.
  induction 1 as [|x xs Hx _ IH]; cbn; [reflexivity |]. now rewrite Hx.
Qed.

Lemma filter_all {A} (p : A -> bool) (l : list A) :
  Forall (fun x => p x = true) l -> List.filter p l = l.
Proof.
  induction 1 as [|x xs Hx _ IH]; cbn; [reflexivity |]. now rewrite Hx, IH.
Qed.

(** Rows appended in one scope leave the reads of every other scope as
    they were. *)
Lemma same_reads_grow (a0 v0 : Z) (t : list TreeState.t) (k : list KVState.t)
    (s : list SetState.t) (ac : list repository.Action.t) (st st' : Store) :
  treestates st' = treestates st ++ t -> kvstates st' = kvstates st ++ k ->
  setstates st' = setstates st ++ s -> actions st' = actions st ++ ac ->
  Forall (fun row => TreeState_in a0 v0 row = true) t ->
  Forall (fun row => KVState_in a0 v0 row = true) k ->
  Forall (fun row => SetState_in a0 v0 row = true) s ->
  Forall (fun row => Action_in a0 v0 row = true) ac ->
  forall a v, (a, v) <> (a0, v0) -> same_reads a v st st'.
Proof.
  intros Ht Hk Hs Ha Ft Fk Fs Fa a v Hne. unfold same_reads.
  rewrite Ht, Hk, Hs, Ha, !List.filter_app.
  rewrite (filter_none (TreeState_in a v) t), (filter_none (KVState_in a v) k),
          (filter_none (SetState_in a v) s), (filter_none (Action_in a v) ac),
          !List.app_nil_r; auto;
    (eapply Forall_impl; [eassumption |]); intros row Hrow;
    now apply (scope_eqb_other a v a0 v0).
Qed.

Lemma store_wf_grow (t : list TreeState.t) (next : Z) (st st' : Store) :
  store_wf st ->
  treestates st' = treestates st ++ t ->
  (exists n, next_id st <= n /\ numbered_from TreeState.ID n t /\
             n + Z.of_nat (length t) <= next_id st') ->
  store_wf st'.
Proof.
  intros (Hpos & Hids & Hnd) Ht (n & Hn & Hnum & Hnext).
  assert (Hbound : forall id, In id (map TreeState.ID t) -> n <= id < n + Z.of_nat (length t)).
  { intros id Hin. unfold numbered_from in Hnum. rewrite Hnum in Hin.
    apply list_elem_of_In, elem_of_seqZ in Hin. lia. }
  unfold store_wf. rewrite Ht. split; [lia |]. split.
  - intros row Hin. apply in_app_iff in Hin as [Hin | Hin].
    + apply Hids in Hin. lia.
    + apply (in_map TreeState.ID) in Hin. apply Hbound in Hin. lia.
  - rewrite map_app. apply NoDup_ListNoDup, NoDup_app. split; [| split].
    + now apply NoDup_ListNoDup.
    + intros id Hold Hnew. apply list_elem_of_In in Hold, Hnew.
      apply Hbound in Hnew. apply in_map_iff in Hold as (row & <- & Hrow).
      apply Hids in Hrow. lia.
    + unfold numbered_from in Hnum. rewrite Hnum. apply NoDup_seqZ.
Qed.

Lemma App_Update_run (app : App.t) (st : Store) :
  App_Update app st =
  match fault st with
  | Some e => (Returned (Some e), tick st)
  | None =>
      (Returned None,
       match apps st !! App.ID app with
       | Some _ => set_apps (<[App.ID app := app]> (apps st)) (tick st)
       | None => tick st
       end)
  end.
Proof.
  unfold App_Update. destruct (fault st) as [e|] eqn:Hf.
  - now rewrite (port_failed _ _ _ e Hf).
  - rewrite port_ok by assumption. cbn [tick set_calls apps].
    destruct (apps st !! App.ID app); reflexivity.
Qed.

Lemma grow_four (t : list TreeState.t) (k : list KVState.t) (s : list SetState.t)
    (a : list repository.Action.t) (c1 c2 c3 c4 : Z) (n1 n2 n3 n4 : nat) (st : Store) :
  grow [] [] [] a c4 n4 (grow [] [] s [] c3 n3 (grow [] k [] [] c2 n2 (grow t [] [] [] c1 n1 st)))
  = grow t k s a (c1 + c2 + c3 + c4) (n1 + n2 + n3 + n4) st.
Proof.
  apply store_ext;
    cbn [apps users treestates kvstates setstates actions next_id now calls faults grow
         Datatypes.app length];
    rewrite ?List.app_nil_r; try reflexivity; lia.
Qed.

(** [ReleaseApp] once the app is read, given what its four clone steps do. *)
Lemma ReleaseApp_chain (appID : Z) (st : Store) (app : App.t)
    (t : list TreeState.t) (k : list KVState.t) (s : list SetState.t)
    (a : list repository.Action.t) (n1 n2 n3 n4 : nat) (r1 r2 r3 r4 : option error) :
  fault st = None ->
  apps st !! appID = Some app ->
  let dto := AppDto_of_ID_MainlineVersion appID (int_add (App.MainlineVersion app) 1) in
  let s1 := grow t [] [] [] 0 n1 (tick st) in
  let s2 := grow [] k [] [] 0 n2 s1 in
  let s3 := grow [] [] s [] 0 n3 s2 in
  releaseTreeStateByApp dto (tick st) = (Returned r1, s1) ->
  releaseKVStateByApp dto s1 = (Returned r2, s2) ->
  releaseSetStateByApp dto s2 = (Returned r3, s3) ->
  releaseActionsByApp dto s3 = (Returned r4, grow [] [] [] a 0 n4 s3) ->
  let s4 := grow t k s a 0 (1 + n1 + n2 + n3 + n4) st in
  ReleaseApp appID st =
  match faults st (calls st + (1 + n1 + n2 + n3 + n4))%nat with
  | Some _ => (Returned (-1, None), tick s4)
  | None =>
      (Returned (int_add (App.MainlineVersion app) 1, None),
       match apps st !! App.ID app with
       | Some _ => set_apps (<[App.ID app := released app]> (apps st)) (tick s4)
       | None => tick s4
       end)
  end.
Proof.
  intros Hf Happ dto s1 s2 s3 H1 H2 H3 H4 s4. unfold ReleaseApp.
  rewrite (bind_Returned _ _ st (tick st) (app, None))
    by (cbn; now apply App_RetrieveAppByID_found).
  cbn [App.MainlineVersion]. fold dto.
  rewrite (bind_Returned _ _ _ _ _ H1), (bind_Returned _ _ _ _ _ H2),
          (bind_Returned _ _ _ _ _ H3), (bind_Returned _ _ _ _ _ H4).
  assert (Hs4 : grow [] [] [] a 0 n4 s3 = s4).
  { unfold s3, s2, s1, s4. rewrite grow_four, grow_tick, grow_grow. cbn [Datatypes.app].
    f_equal; lia. }
  rewrite Hs4. fold (released app). unfold bind.
  cbn [repository.App_Update AppRepository_Store]. rewrite App_Update_run.
  unfold fault. change (faults s4) with (faults st).
  change (calls s4) with (calls st + (1 + n1 + n2 + n3 + n4))%nat.
  destruct (faults st _); [reflexivity |].
  cbn [released App.ID]. change (apps s4) with (apps st).
  destruct (apps st !! App.ID app); reflexivity.
Qed.

Lemma User_RetrieveByID_seen (id : Z) (st : Store) :
  exists err, User_RetrieveByID id st = (Returned (user_seen id st, err), tick st).
Proof.
  unfold User_RetrieveByID, user_seen. destruct (fault st) as [e|] eqn:Hf.
  - rewrite (port_failed _ _ _ e Hf). eauto.
  - rewrite port_ok by assumption. cbn [tick set_calls users].
    destruct (users st !! id); cbn; eauto.
Qed.

Lemma store_wf_tables (st st' : Store) :
  store_wf st -> treestates st' = treestates st -> next_id st <= next_id st' -> store_wf st'.
Proof.
  intros (Hpos & Hids & Hnd) Ht Hn. unfold store_wf. rewrite Ht.
  split; [lia |]. split; [| exact Hnd]. intros row Hin. apply Hids in Hin. lia.
Qed.

Lemma same_reads_refl (a v : Z) (st st' : Store) :
  treestates st' = treestates st -> kvstates st' = kvstates st ->
  setstates st' = setstates st -> actions st' = actions st -> same_reads a v st st'.
Proof. unfold same_reads. now intros -> -> -> ->. Qed.

(** X10.  From a store whose identifiers it generated, ReleaseApp on an existing
    app always returns with a nil error, whatever calls fail; the rows of every
    scope other than (app, mainline version + 1) read exactly as before, the
    draft included; users and every other app row are untouched and the store's
    identifiers stay well formed. *)
Theorem ReleaseApp_touches_only_the_new_version (appID : Z) (st : Store) (app : App.t) :
  store_wf st ->
  apps st !! appID = Some app ->
  exists n st',
    ReleaseApp appID st = (Returned (n, None), st') /\
    (forall a v,
        (a, v) <> (appID, int_add (App.MainlineVersion app) 1) -> same_reads a v st st') /\
    users st' = users st /\
    (forall id, id <> App.ID app -> apps st' !! id = apps st !! id) /\
    store_wf st'.
Proof.
  intros Hwf Happ. destruct (fault st) as [e|] eqn:Hf.
  - exists (-1), (tick st). split.
    { unfold ReleaseApp.
      now rewrite (bind_Returned _ _ st (tick st) (App.zero, Some e))
        by (cbn; now apply App_RetrieveAppByID_failed). }
    split; [intros a v _; now apply same_reads_refl |].
    split; [reflexivity |]. split; [reflexivity |].
    now apply (store_wf_tables st).
  - set (dto := AppDto_of_ID_MainlineVersion appID (int_add (App.MainlineVersion app) 1)).
    destruct (releaseTreeStateByApp_any dto (tick st)) as (r1 & t & n1 & H1 & Ft & Nt).
    { now apply (store_wf_tables st). }
    destruct (releaseKVStateByApp_any dto (grow t [] [] [] 0 n1 (tick st)))
      as (r2 & k & n2 & H2 & Fk).
    destruct (releaseSetStateByApp_any dto
                (grow [] k [] [] 0 n2 (grow t [] [] [] 0 n1 (tick st))))
      as (r3 & s & n3 & H3 & Fs).
    destruct (releaseActionsByApp_any dto
                (grow [] [] s [] 0 n3 (grow [] k [] [] 0 n2 (grow t [] [] [] 0 n1 (tick st)))))
      as (r4 & a & n4 & H4 & Fa).
    rewrite (ReleaseApp_chain appID st app t k s a n1 n2 n3 n4 r1 r2 r3 r4 Hf Happ H1 H2 H3 H4).
    set (s4 := grow t k s a 0 (1 + n1 + n2 + n3 + n4) st).
    assert (Hreads : forall st',
               treestates st' = treestates s4 -> kvstates st' = kvstates s4 ->
               setstates st' = setstates s4 -> actions st' = actions s4 ->
               forall a0 v0,
                 (a0, v0) <> (appID, int_add (App.MainlineVersion app) 1) ->
                 same_reads a0 v0 st st').
    { intros st' Et Ek Es Ea.
      apply (same_reads_grow appID (int_add (App.MainlineVersion app) 1) t k s a);
        try assumption. }
    assert (Hwf' : forall st',
               treestates st' = treestates s4 -> next_id st' = next_id s4 -> store_wf st').
    { intros st' Et En. apply (store_wf_grow t (next_id st') st st' Hwf Et).
      exists (next_id st). split; [lia |]. split; [exact Nt |].
      rewrite En. unfold s4. cbn [next_id grow]. lia. }
    destruct (faults st _).
    + eexists _, _. split; [reflexivity |].
      split; [now apply Hreads |]. split; [reflexivity |]. split; [reflexivity |].
      now apply Hwf'.
    + destruct (apps st !! App.ID app) eqn:Hrow.
      * eexists _, _. split; [reflexivity |].
        split; [now apply Hreads |]. split; [reflexivity |].
        split; [| now apply Hwf'].
        intros id Hid. cbn [apps set_apps]. now rewrite lookup_insert_ne by congruence.
      * eexists _, _. split; [reflexivity |].
        split; [now apply Hreads |]. split; [reflexivity |]. split; [reflexivity |].
        now apply Hwf'.
Qed.

Lemma App_Create_run (app : App.t) (st : Store) :
  App_Create app st =
  match fault st with
  | Some e => (Returned (0, Some e), tick st)
  | None =>
      (Returned (next_id st, None),
       set_next_id (next_id st + 1)
         (set_apps (<[next_id st := App_with_ID (next_id st) app]> (apps st)) (tick st)))
  end.
Proof.
  unfold App_Create. destruct (fault st) as [e|] eqn:Hf.
  - now rewrite (port_failed _ _ _ e Hf).
  - now rewrite port_ok by assumption.
Qed.

(** [DuplicateApp] up to the insert of the new app row. *)
Lemma DuplicateApp_head (appID userID : Z) (name : string) (st : Store) (appA : App.t) :
  fault st = None ->
  apps st !! appID = Some appA ->
  DuplicateApp appID userID name st =
  match faults st (calls st + 1)%nat with
  | Some e => (Returned (AppDto.zero, Some e), grow [] [] [] [] 2 2 st)
  | None =>
      let s0 := with_app (duplicated_app userID name st) 2 3 st in
      bind (copyAllTreeState appID (next_id st) userID)
        (fun _ =>
           bind (copyAllKVState appID (next_id st) userID)
             (fun _ =>
                bind (copyAllSetState appID (next_id st) userID)
                  (fun _ =>
                     bind (copyActions appID (next_id st) userID)
                       (fun _ => ret (duplicate_dto userID name st, None))))) s0
  end.
Proof.
  intros Hf Happ. unfold DuplicateApp.
  rewrite (bind_Returned _ _ st (tick st) (appA, None))
    by (cbn; now apply App_RetrieveAppByID_found).
  set (st1 := set_now (now (tick st) + 1) (tick st)).
  set (st2 := set_now (now st1 + 1) st1).
  rewrite (bind_Returned _ _ (tick st) st1 (now (tick st))) by reflexivity.
  rewrite (bind_Returned _ _ st1 st2 (now st1)) by reflexivity.
  cbn [App.ReleaseVersion App.MainlineVersion App.CreatedBy App.CreatedAt
       App.UpdatedBy App.UpdatedAt].
  unfold bind at 1. cbn [repository.App_Create AppRepository_Store].
  rewrite App_Create_run.
  assert (Hf2 : fault st2 = faults st (calls st + 1)%nat).
  { unfold fault, st2, st1. cbn. f_equal. lia. }
  rewrite Hf2. destruct (faults st (calls st + 1)%nat) as [e|] eqn:Hfc.
  - f_equal. apply store_ext; try reflexivity; cbn; rewrite ?List.app_nil_r;
      try reflexivity; lia.
  - set (sc := set_next_id _ _).
    destruct (User_RetrieveByID_seen userID sc) as (uerr & Hu).
    rewrite (bind_Returned _ _ _ _ _ Hu). cbn [AppDto.ID].
    assert (Hsc : sc = with_app (duplicated_app userID name st) 2 2 st).
    { unfold sc, st2, st1. apply store_ext; try reflexivity; cbn; lia. }
    assert (Hs0 : tick sc = with_app (duplicated_app userID name st) 2 3 st).
    { rewrite Hsc. apply store_ext; try reflexivity; cbn; lia. }
    rewrite Hs0. cbn zeta.
    replace (now (tick st)) with (now st) by reflexivity.
    replace (now st1) with (now st + 1) by reflexivity.
    change (next_id st2) with (next_id st).
    unfold duplicate_dto. rewrite <- Hsc. reflexivity.
Qed.

Lemma DuplicateApp_chain (appID userID : Z) (name : string) (st : Store) (appA : App.t)
    (t : list TreeState.t) (k : list KVState.t) (s : list SetState.t)
    (a : list repository.Action.t) (c1 c2 c3 c4 : Z) (n1 n2 n3 n4 : nat)
    (r1 r2 r3 r4 : option error) :
  fault st = None ->
  apps st !! appID = Some appA ->
  faults st (calls st + 1)%nat = None ->
  let s0 := with_app (duplicated_app userID name st) 2 3 st in
  let s1 := grow t [] [] [] c1 n1 s0 in
  let s2 := grow [] k [] [] c2 n2 s1 in
  let s3 := grow [] [] s [] c3 n3 s2 in
  copyAllTreeState appID (next_id st) userID s0 = (Returned r1, s1) ->
  copyAllKVState appID (next_id st) userID s1 = (Returned r2, s2) ->
  copyAllSetState appID (next_id st) userID s2 = (Returned r3, s3) ->
  copyActions appID (next_id st) userID s3 = (Returned r4, grow [] [] [] a c4 n4 s3) ->
  DuplicateApp appID userID name st =
  (Returned (duplicate_dto userID name st, None),
   grow t k s a (c1 + c2 + c3 + c4) (n1 + n2 + n3 + n4) s0).
Proof.
  intros Hf Happ Hfc s0 s1 s2 s3 H1 H2 H3 H4.
  rewrite (DuplicateApp_head appID userID name st appA Hf Happ), Hfc. cbn zeta. fold s0.
  rewrite (bind_Returned _ _ _ _ _ H1), (bind_Returned _ _ _ _ _ H2),
          (bind_Returned _ _ _ _ _ H3), (bind_Returned _ _ _ _ _ H4).
  unfold s3, s2, s1. now rewrite grow_four.
Qed.

(** X11.  From a store whose identifiers it generated, DuplicateApp always
    returns, whatever calls fail; the rows of every scope other than the draft
    of the new app read exactly as before, the source app's draft included;
    users and every existing app row are untouched and the store's identifiers
    stay well formed. *)
Theorem DuplicateApp_touches_only_the_new_app
    (appID userID : Z) (name : string) (st : Store) :
  store_wf st ->
  exists appB err st',
    DuplicateApp appID userID name st = (Returned (appB, err), st') /\
    (forall a v, (a, v) <> (next_id st, APP_EDIT_VERSION) -> same_reads a v st st') /\
    users st' = users st /\
    (forall id, id <> next_id st -> apps st' !! id = apps st !! id) /\
    store_wf st'.
Proof.
  intros Hwf. unfold APP_EDIT_VERSION.
  destruct (fault st) as [e|] eqn:Hf.
  { eexists _, _, (tick st). split.
    { unfold DuplicateApp.
      now rewrite (bind_Returned _ _ st (tick st) (App.zero, Some e))
        by (cbn; now apply App_RetrieveAppByID_failed). }
    split; [intros a v _; now apply same_reads_refl |].
    split; [reflexivity |]. split; [reflexivity |]. now apply (store_wf_tables st). }
  destruct (apps st !! appID) as [appA|] eqn:Happ.
  2:{ eexists _, _, (tick st). split.
      { unfold DuplicateApp.
        now rewrite (bind_Returned _ _ st (tick st) (App.zero, Some record_not_found))
          by (cbn; now apply App_RetrieveAppByID_missing). }
      split; [intros a v _; now apply same_reads_refl |].
      split; [reflexivity |]. split; [reflexivity |]. now apply (store_wf_tables st). }
  destruct (faults st (calls st + 1)%nat) as [e|] eqn:Hfc.
  { rewrite (DuplicateApp_head appID userID name st appA Hf Happ), Hfc.
    eexists _, _, _. split; [reflexivity |].
    split; [intros a v _; apply same_reads_refl; cbn; now rewrite List.app_nil_r |].
    split; [reflexivity |]. split; [reflexivity |].
    apply (store_wf_tables st); [assumption | cbn; now rewrite List.app_nil_r | cbn; lia]. }
  set (s0 := with_app (duplicated_app userID name st) 2 3 st).
  assert (Hwf0 : store_wf s0) by
    (apply (store_wf_tables st); [assumption | reflexivity | cbn; lia]).
  destruct (copyAllTreeState_any appID (next_id st) userID s0 Hwf0)
    as (r1 & t & c1 & n1 & H1 & Ft & Nt).
  destruct (copyAllKVState_any appID (next_id st) userID (grow t [] [] [] c1 n1 s0))
    as (r2 & k & c2 & n2 & H2 & Fk).
  destruct (copyAllSetState_any appID (next_id st) userID
              (grow [] k [] [] c2 n2 (grow t [] [] [] c1 n1 s0)))
    as (r3 & s & c3 & n3 & H3 & Fs).
  destruct (copyActions_any appID (next_id st) userID
              (grow [] [] s [] c3 n3 (grow [] k [] [] c2 n2 (grow t [] [] [] c1 n1 s0))))
    as (r4 & a & c4 & n4 & H4 & Fa).
  rewrite (DuplicateApp_chain appID userID name st appA t k s a c1 c2 c3 c4 n1 n2 n3 n4
             r1 r2 r3 r4 Hf Happ Hfc H1 H2 H3 H4).
  eexists _, _, _. split; [reflexivity |]. split; [| split; [| split]].
  - apply (same_reads_grow (next_id st) 0 t k s a); try assumption; reflexivity.
  - reflexivity.
  - intros id Hid. cbn [apps grow with_app]. now rewrite lookup_insert_ne by congruence.
  - apply (store_wf_grow t (next_id st + 1 + Z.of_nat (length t)) st); [assumption | reflexivity |].
    exists (next_id st + 1). split; [lia |]. split; [exact Nt |].
    cbn [next_id grow with_app]. lia.
Qed.

(** C1, as the code has it.  Inside every clone step a failed port call
    ends the step at once with that call's error, which the step returns.
    The coordinators drop what the steps return and carry on with the
    remaining kinds, each step starting where the one before it stopped.
    [DuplicateApp] gives an error exactly when the read of the source app or
    the insert of the new app row fails; otherwise it returns the new app,
    under the next serial and the given name, with a nil error, after the
    tree, key-value, set and action steps have run in turn from the store
    that holds the new app row, whatever each of them returned.
    [ReleaseApp], once the app is read, runs its four steps in turn,
    whatever each of them returns, and then updates the counters; when that
    update, its last port call, succeeds, it returns the advanced version
    with a nil error. *)
Theorem clone_errors_end_the_step_and_are_dropped
    (appID userID : Z) (name : string) (app : AppDto.t) (st : Store) :
  (fails_fast (copyAllTreeState appID (AppDto.ID app) userID) /\
   fails_fast (copyAllKVState appID (AppDto.ID app) userID) /\
   fails_fast (copyAllSetState appID (AppDto.ID app) userID) /\
   fails_fast (copyActions appID (AppDto.ID app) userID) /\
   fails_fast (releaseTreeStateByApp app) /\
   fails_fast (releaseKVStateByApp app) /\
   fails_fast (releaseSetStateByApp app) /\
   fails_fast (releaseActionsByApp app)) /\
  (exists appB err st',
     DuplicateApp appID userID name st = (Returned (appB, err), st') /\
     (err = None <->
      fault st = None /\ apps st !! appID <> None /\
      faults st (calls st + 1)%nat = None) /\
     (err = None ->
      AppDto.ID appB = next_id st /\ AppDto.Name appB = name /\
      apps st' !! next_id st = Some (duplicated_app userID name st) /\
      exists r1 s1 r2 s2 r3 s3 r4,
        copyAllTreeState appID (next_id st) userID
          (with_app (duplicated_app userID name st) 2 3 st) = (Returned r1, s1) /\
        copyAllKVState appID (next_id st) userID s1 = (Returned r2, s2) /\
        copyAllSetState appID (next_id st) userID s2 = (Returned r3, s3) /\
        copyActions appID (next_id st) userID s3 = (Returned r4, st'))) /\
  (forall row,
     fault st = None -> apps st !! appID = Some row ->
     let dto := AppDto_of_ID_MainlineVersion appID (int_add (App.MainlineVersion row) 1) in
     exists r1 s1 r2 s2 r3 s3 r4 s4 n err st',
       releaseTreeStateByApp dto (tick st) = (Returned r1, s1) /\
       releaseKVStateByApp dto s1 = (Returned r2, s2) /\
       releaseSetStateByApp dto s2 = (Returned r3, s3) /\
       releaseActionsByApp dto s3 = (Returned r4, s4) /\
       ReleaseApp appID st = (Returned (n, err), st') /\
       st' = snd (App_Update (released row) s4) /\
       (faults st (calls st' - 1)%nat = None ->
        n = int_add (App.MainlineVersion row) 1 /\ err = None)).
Proof.
  split; [| split].
  - repeat split;
      [ apply copyAllTreeState_fails_fast | apply copyAllKVState_fails_fast
      | apply copyAllSetState_fails_fast | apply copyActions_fails_fast
      | apply releaseTreeStateByApp_fails_fast | apply releaseKVStateByApp_fails_fast
      | apply releaseSetStateByApp_fails_fast | apply releaseActionsByApp_fails_fast ].
  - destruct (DuplicateApp_runs appID userID name st)
      as (appB & err & st' & Hrun & Herr & _).
    destruct (fault st) as [e |] eqn:Hf.
    { exists appB, err, st'. split; [exact Hrun |]. split; [exact Herr |].
      intros Hnone. apply Herr in Hnone as (H & _). discriminate H. }
    destruct (apps st !! appID) as [appA |] eqn:Happ.
    2:{ exists appB, err, st'. split; [exact Hrun |]. split; [exact Herr |].
        intros Hnone. apply Herr in Hnone as (_ & H & _). now contradiction H. }
    destruct (faults st (calls st + 1)%nat) as [e |] eqn:Hfc.
    { exists appB, err, st'. split; [exact Hrun |]. split; [exact Herr |].
      intros Hnone. apply Herr in Hnone as (_ & _ & H). discriminate H. }
    clear appB err st' Hrun Herr.
    rewrite (DuplicateApp_head appID userID name st appA Hf Happ), Hfc. cbn zeta.
    set (s0 := with_app (duplicated_app userID name st) 2 3 st).
    destruct (fails_fast_runs _ s0 (copyAllTreeState_fails_fast appID (next_id st) userID))
      as (r1 & s1 & Hrun1 & Hframe1 & _).
    destruct (fails_fast_runs _ s1 (copyAllKVState_fails_fast appID (next_id st) userID))
      as (r2 & s2 & Hrun2 & Hframe2 & _).
    destruct (fails_fast_runs _ s2 (copyAllSetState_fails_fast appID (next_id st) userID))
      as (r3 & s3 & Hrun3 & Hframe3 & _).
    destruct (fails_fast_runs _ s3 (copyActions_fails_fast appID (next_id st) userID))
      as (r4 & s4 & Hrun4 & Hframe4 & _).
    rewrite (bind_Returned _ _ _ _ _ Hrun1), (bind_Returned _ _ _ _ _ Hrun2),
            (bind_Returned _ _ _ _ _ Hrun3), (bind_Returned _ _ _ _ _ Hrun4).
    exists (duplicate_dto userID name st), None, s4. split; [reflexivity |].
    split; [split; [intros _; repeat split; congruence | reflexivity] |].
    intros _. split; [reflexivity |]. split; [reflexivity |]. split.
    + destruct Hframe1 as (H1 & _), Hframe2 as (H2 & _), Hframe3 as (H3 & _),
        Hframe4 as (H4 & _).
      rewrite H4, H3, H2, H1. unfold s0. cbn [apps with_app]. apply lookup_insert_eq.
    + exists r1, s1, r2, s2, r3, s3, r4. auto.
  - intros row Hf Happ dto.
    destruct (fails_fast_runs _ (tick st) (releaseTreeStateByApp_fails_fast dto))
      as (r1 & s1 & Hrun1 & Hframe1 & _).
    destruct (fails_fast_runs _ s1 (releaseKVStateByApp_fails_fast dto))
      as (r2 & s2 & Hrun2 & Hframe2 & _).
    destruct (fails_fast_runs _ s2 (releaseSetStateByApp_fails_fast dto))
      as (r3 & s3 & Hrun3 & Hframe3 & _).
    destruct (fails_fast_runs _ s3 (releaseActionsByApp_fails_fast dto))
      as (r4 & s4 & Hrun4 & Hframe4 & _).
    assert (Hfaults : faults s4 = faults st).
    { destruct Hframe1 as (_ & _ & H1 & _), Hframe2 as (_ & _ & H2 & _),
        Hframe3 as (_ & _ & H3 & _), Hframe4 as (_ & _ & H4 & _).
      now rewrite H4, H3, H2, H1. }
    assert (Hrun :
      ReleaseApp appID st =
      (Returned (match fault s4 with
                 | Some _ => (-1, None)
                 | None => (int_add (App.MainlineVersion row) 1, None)
                 end),
       snd (App_Update (released row) s4))).
    { unfold ReleaseApp.
      rewrite (bind_Returned _ _ st (tick st) (row, None))
        by (cbn; now apply App_RetrieveAppByID_found).
      cbn [App.MainlineVersion]. fold dto.
      rewrite (bind_Returned _ _ _ _ _ Hrun1), (bind_Returned _ _ _ _ _ Hrun2),
              (bind_Returned _ _ _ _ _ Hrun3), (bind_Returned _ _ _ _ _ Hrun4).
      fold (released row). unfold bind.
      cbn [repository.App_Update AppRepository_Store]. rewrite App_Update_run.
      destruct (fault s4); [reflexivity |].
      cbn [released App.ID]. destruct (apps s4 !! App.ID row); reflexivity. }
    assert (Hcalls : calls (snd (App_Update (released row) s4)) = S (calls s4)).
    { rewrite App_Update_run. destruct (fault s4); [reflexivity |].
      destruct (apps s4 !! App.ID (released row)); reflexivity. }
    destruct (fault s4) as [e |] eqn:Hf4.
    + exists r1, s1, r2, s2, r3, s3, r4, s4, (-1), None, (snd (App_Update (released row) s4)).
      do 6 (split; [assumption || reflexivity |]).
      intros Hlast. exfalso. rewrite Hcalls in Hlast. cbn in Hlast.
      rewrite Nat.sub_0_r in Hlast. unfold fault in Hf4. rewrite Hfaults in Hf4. congruence.
    + exists r1, s1, r2, s2, r3, s3, r4, s4, (int_add (App.MainlineVersion row) 1), None,
        (snd (App_Update (released row) s4)).
      do 6 (split; [assumption || reflexivity |]).
      intros _. split; reflexivity.
Qed.

End CoordinatorFacts.

(** ** The document GetMegaData assembles *)

Section DocumentFacts.

Import Mem StoreSpec MemFacts TreeCloneSpec GrowSpec GrowFacts FlatCloneSpec CoordinatorSpec.

Context {ComponentNode JsonObject : Type}.
Variable buildComponentTree :
  TreeState.t -> gmap Z TreeState.t -> option ComponentNode ->
  option ComponentNode * option error.
Variable Unmarshal_strings : string -> list string * option error.
Variable Unmarshal_object : string -> JsonObject * option error.

Lemma formatComponents_ok (appID version : Z) (st : Store) :
  fault st = None ->
  formatComponents buildComponentTree appID version st =
  (Returned (component_tree buildComponentTree (retrieved_components appID version st),
             match retrieved_components appID version st with
             | [] => Some (errorString "no component")
             | _ => None
             end), tick st).
Proof.
  intros Hf. unfold formatComponents.
  rewrite (bind_Returned _ _ st (tick st) (retrieved_components appID version st, None))
    by (cbn; unfold TreeState_RetrieveTreeStatesByApp; now rewrite port_ok).
  destruct (retrieved_components appID version st) as [|row rows] eqn:Hres; [reflexivity |].
  cbn [length Nat.eqb]. unfold component_tree, component_index.
  destruct (fold_left _ (row :: rows) _) as [tempMap root]. cbn [fst snd].
  now destruct (buildComponentTree root tempMap None).
Qed.

Lemma User_RetrieveByID_healthy (id : Z) (st : Store) :
  fault st = None ->
  exists err,
    User_RetrieveByID id st = (Returned (default User.zero (users st !! id), err), tick st).
Proof.
  intros Hf. unfold User_RetrieveByID. rewrite port_ok by assumption.
  cbn [tick set_calls users]. destruct (users st !! id); cbn; eauto.
Qed.

Lemma no_faults_ticks (st : Store) (n k : nat) :
  no_faults st n -> (k < n)%nat -> fault (ticks k st) = None.
Proof. intros H Hk. rewrite fault_ticks. apply H. lia. Qed.

(** The assembler on a store where the next seven calls succeed. *)
Lemma assemble_healthy (app : App.t) (appID version : Z) (st : Store) :
  no_faults st 7 ->
  Forall type_in_range (retrieved_actions appID version st) ->
  assemble buildComponentTree Unmarshal_strings Unmarshal_object app appID version st =
  (Returned (document buildComponentTree Unmarshal_strings Unmarshal_object
               app appID version st, None), ticks 7 st).
Proof.
  intros Hnf Hall. unfold assemble.
  destruct (User_RetrieveByID_healthy (App.UpdatedBy app) st) as (ue & Hu).
  { apply (no_faults_ticks st 7 0); [assumption | lia]. }
  rewrite (bind_Returned _ _ _ _ _ Hu).
  change (tick st) with (ticks 1 st).
  rewrite (bind_Returned _ _ _ _ _
             (formatActions_valid appID version (ticks 1 st)
                (no_faults_ticks st 7 1 Hnf ltac:(lia))
                ltac:(rewrite retrieved_actions_ticks; now apply forallb_valid_type))).
  rewrite tick_ticks.
  rewrite (bind_Returned _ _ _ _ _
             (formatComponents_ok appID version (ticks 2 st)
                (no_faults_ticks st 7 2 Hnf ltac:(lia)))).
  rewrite tick_ticks.
  rewrite (bind_Returned _ _ _ _ _
             (formatDependenciesState_ok Unmarshal_strings appID version (ticks 3 st)
                (no_faults_ticks st 7 3 Hnf ltac:(lia)))).
  rewrite tick_ticks.
  rewrite (bind_Returned _ _ _ _ _
             (formatDragShadowState_ok Unmarshal_object appID version (ticks 4 st)
                (no_faults_ticks st 7 4 Hnf ltac:(lia)))).
  rewrite tick_ticks.
  rewrite (bind_Returned _ _ _ _ _
             (formatDottedLineSquareState_ok Unmarshal_object appID version (ticks 5 st)
                (no_faults_ticks st 7 5 Hnf ltac:(lia)))).
  rewrite tick_ticks.
  rewrite (bind_Returned _ _ _ _ _
             (formatDisplayNameState_ok appID version (ticks 6 st)
                (no_faults_ticks st 7 6 Hnf ltac:(lia)))).
  rewrite tick_ticks. unfold ret, document.
  rewrite !retrieved_actions_ticks, !retrieved_components_ticks.
  unfold retrieved_kvstates, retrieved_setstates.
  destruct (ticks_fields 3 st) as (_ & _ & _ & -> & _).
  destruct (ticks_fields 4 st) as (_ & _ & _ & -> & _).
  destruct (ticks_fields 5 st) as (_ & _ & _ & -> & _).
  destruct (ticks_fields 6 st) as (_ & _ & _ & _ & -> & _).
  reflexivity.
Qed.

Lemma GetMegaData_healthy (appID version : Z) (st : Store) (app : App.t) :
  no_faults st 8 ->
  apps st !! appID = Some app ->
  App.ID app <> 0 ->
  version <= App.MainlineVersion app ->
  Forall type_in_range (retrieved_actions appID version st) ->
  GetMegaData buildComponentTree Unmarshal_strings Unmarshal_object appID version st =
  (Returned (document buildComponentTree Unmarshal_strings Unmarshal_object
               app appID version st, None), ticks 8 st).
Proof.
  intros Hnf Happ Hid Hver Hall. unfold GetMegaData.
  assert (Hf : fault st = None) by (apply Hnf; lia).
  rewrite (bind_Returned _ _ _ (ticks 8 st)
             (document buildComponentTree Unmarshal_strings Unmarshal_object
                app appID version st, None)); [reflexivity |].
  rewrite (fetchEditor_found _ _ _ appID version st app Hf Happ).
  replace (App.ID app =? 0) with false by (symmetry; now apply Z.eqb_neq).
  replace (App.MainlineVersion app <? version) with false by (symmetry; apply Z.ltb_ge; lia).
  cbn [orb].
  rewrite assemble_healthy.
  - reflexivity.
  - intros c Hc. cbn in Hc |- *. apply Hnf. lia.
  - exact Hall.
Qed.

(** *** Reading never writes *)

Lemma keeps_ret {X A} (f : Store -> X) (a : A) : keeps f (ret a).
Proof. intros st. reflexivity. Qed.

Lemma keeps_panic {X A} (f : Store -> X) (msg : string) : keeps f (panic (A := A) msg).
Proof. intros st. reflexivity. Qed.

Lemma keeps_bind {X A B} (f : Store -> X) (c : Go Store A) (k : A -> Go Store B) :
  keeps f c -> (forall a, keeps f (k a)) -> keeps f (bind c k).
Proof.
  intros Hc Hk st. unfold bind. specialize (Hc st).
  destruct (c st) as [[a | msg] st1]; cbn [snd] in *.
  - now rewrite (Hk a st1).
  - exact Hc.
Qed.

Lemma keeps_range_from {X Y S R} (f : Store -> X)
    (body : Z -> Y -> S -> Go Store (turn Y S R)) :
  (forall i y s, keeps f (body i y s)) ->
  forall ys i s, keeps f (range_from body i ys s).
Proof.
  intros Hbody. induction ys as [|y ys IH]; intros i s.
  - apply keeps_ret.
  - cbn [range_from]. apply keeps_bind; [apply Hbody |].
    intros [y' s' | r]; [| apply keeps_ret].
    apply keeps_bind; [apply IH |]. intros [[ys' s''] | r]; apply keeps_ret.
Qed.

Lemma keeps_port {A} (failed : Store -> A) (op : Store -> A * Store) :
  (forall st, contents (snd (op st)) = contents st) ->
  keeps contents (fun st => port (failed st) op st).
Proof.
  intros Hop st. unfold port. destruct (faults st (calls st)); [reflexivity |].
  specialize (Hop (set_calls (S (calls st)) st)).
  destruct (op _) as [a st']. exact Hop.
Qed.

Lemma keeps_array_index (a : list string) (i : Z) :
  keeps contents (array_index (St := Store) a i).
Proof. unfold array_index. destruct (_ && _); [apply keeps_ret | apply keeps_panic]. Qed.

Lemma keeps_App_RetrieveAppByID (appID : Z) :
  keeps contents (repository.App_RetrieveAppByID appID).
Proof.
  apply (keeps_port (fun st => (App.zero, fault st))). intros st.
  now destruct (apps st !! appID).
Qed.

Lemma keeps_User_RetrieveByID (id : Z) : keeps contents (repository.User_RetrieveByID id).
Proof.
  apply (keeps_port (fun st => (User.zero, fault st))). intros st.
  now destruct (users st !! id).
Qed.

Lemma keeps_Action_RetrieveActionsByAppVersion (appID version : Z) :
  keeps contents (repository.Action_RetrieveActionsByAppVersion appID version).
Proof. now apply (keeps_port (fun st => ([], fault st))). Qed.

Lemma keeps_TreeState_RetrieveTreeStatesByApp (appID : Z) (kind : StateType) (version : Z) :
  keeps contents (repository.TreeState_RetrieveTreeStatesByApp appID kind version).
Proof. now apply (keeps_port (fun st => ([], fault st))). Qed.

Lemma keeps_KVState_RetrieveKVStatesByApp (appID : Z) (kind : StateType) (version : Z) :
  keeps contents (repository.KVState_RetrieveKVStatesByApp appID kind version).
Proof. now apply (keeps_port (fun st => ([], fault st))). Qed.

Lemma keeps_SetState_RetrieveSetStatesByApp (appID : Z) (kind : StateType) (version : Z) :
  keeps contents (repository.SetState_RetrieveSetStatesByApp appID kind version).
Proof. now apply (keeps_port (fun st => ([], fault st))). Qed.

Lemma keeps_formatActions (appID version : Z) : keeps contents (formatActions appID version).
Proof.
  unfold formatActions.
  apply keeps_bind; [apply keeps_Action_RetrieveActionsByAppVersion |].
  intros [res [e|]]; [apply keeps_ret |].
  apply keeps_bind.
  - apply keeps_range_from. intros i value resSlice.
    apply keeps_bind; [apply keeps_array_index | intros type_; apply keeps_ret].
  - intros [[? ?] | early]; apply keeps_ret.
Qed.

Lemma keeps_formatComponents (appID version : Z) :
  keeps contents (formatComponents buildComponentTree appID version).
Proof.
  unfold formatComponents.
  apply keeps_bind; [apply keeps_TreeState_RetrieveTreeStatesByApp |].
  intros [res [e|]]; [apply keeps_ret |].
  destruct (length res =? 0)%nat; [apply keeps_ret |].
  destruct (fold_left _ res _) as [tempMap root].
  destruct (buildComponentTree root tempMap None). apply keeps_ret.
Qed.

Lemma keeps_formatDependenciesState (appID version : Z) :
  keeps contents (formatDependenciesState Unmarshal_strings appID version).
Proof.
  unfold formatDependenciesState.
  apply keeps_bind; [apply keeps_KVState_RetrieveKVStatesByApp |].
  intros [res [e|]]; [apply keeps_ret |].
  destruct (length res =? 0)%nat; apply keeps_ret.
Qed.

Lemma keeps_formatDragShadowState (appID version : Z) :
  keeps contents (formatDragShadowState Unmarshal_object appID version).
Proof.
  unfold formatDragShadowState.
  apply keeps_bind; [apply keeps_KVState_RetrieveKVStatesByApp |].
  intros [res [e|]]; [apply keeps_ret |].
  destruct (length res =? 0)%nat; apply keeps_ret.
Qed.

Lemma keeps_formatDottedLineSquareState (appID version : Z) :
  keeps contents (formatDottedLineSquareState Unmarshal_object appID version).
Proof.
  unfold formatDottedLineSquareState.
  apply keeps_bind; [apply keeps_KVState_RetrieveKVStatesByApp |].
  intros [res [e|]]; [apply keeps_ret |].
  destruct (length res =? 0)%nat; apply keeps_ret.
Qed.

Lemma keeps_formatDisplayNameState (appID version : Z) :
  keeps contents (formatDisplayNameState appID version).
Proof.
  unfold formatDisplayNameState.
  apply keeps_bind; [apply keeps_SetState_RetrieveSetStatesByApp |].
  intros [res [e|]]; [apply keeps_ret |].
  destruct (length res =? 0)%nat; apply keeps_ret.
Qed.

(** X12.  GetMegaData never changes the store: whatever it returns (a document,
    an error or a panic), the tables, the identifier serial and the clock are as
    before; it only makes port calls. *)
Theorem GetMegaData_only_reads (appID version : Z) (st : Store) :
  contents
    (snd (GetMegaData buildComponentTree Unmarshal_strings Unmarshal_object appID version st))
  = contents st.
Proof.
  revert st. change (keeps contents
    (GetMegaData buildComponentTree Unmarshal_strings Unmarshal_object appID version)).
  unfold GetMegaData. apply keeps_bind.
  - unfold fetchEditor. apply keeps_bind; [apply keeps_App_RetrieveAppByID |].
    intros [app [e|]]; [apply keeps_ret |].
    destruct (_ || _); [apply keeps_ret |].
    apply keeps_bind; [apply keeps_User_RetrieveByID |]. intros [userRecord ?].
    apply keeps_bind; [apply keeps_formatActions |]. intros [? ?].
    apply keeps_bind; [apply keeps_formatComponents |]. intros [? ?].
    apply keeps_bind; [apply keeps_formatDependenciesState |]. intros [? ?].
    apply keeps_bind; [apply keeps_formatDragShadowState |]. intros [? ?].
    apply keeps_bind; [apply keeps_formatDottedLineSquareState |]. intros [? ?].
    apply keeps_bind; [apply keeps_formatDisplayNameState |]. intros [? ?].
    apply keeps_ret.
  - intros [editor [e|]]; apply keeps_ret.
Qed.

(** *** Maps filled row by row *)

Lemma last_such_snoc {A} (p : A -> bool) (rows : list A) (row : A) :
  last_such p (rows ++ [row]) = if p row then Some row else last_such p rows.
Proof. unfold last_such. rewrite rev_unit. reflexivity. Qed.

Lemma keyed_last {V} (value_of : KVState.t -> V) (rows : list KVState.t) (key : string) :
  keyed value_of rows !! key =
  option_map value_of (last_such (fun row => String.eqb (KVState.Key row) key) rows).
Proof.
  unfold keyed. induction rows as [|row rows IH] using rev_ind.
  - reflexivity.
  - rewrite fold_left_app, last_such_snoc. cbn [fold_left].
    destruct (String.eqb_spec (KVState.Key row) key) as [-> | Hne].
    + now rewrite lookup_insert_eq.
    + now rewrite lookup_insert_ne.
Qed.

(** X13.  When the retrieval succeeds, formatDependenciesState and
    formatDragShadowState return a map in which each key holds the decoded value
    of the last retrieved row with that key (earlier rows with the same key are
    overwritten) and a key of no row is absent; the decoder's error is dropped. *)
Theorem kv_maps_keep_the_last_row_of_a_key (appID version : Z) (st : Store) :
  fault st = None ->
  (exists resMap,
     formatDependenciesState Unmarshal_strings appID version st =
     (Returned (Some resMap, None), tick st) /\
     forall key,
       resMap !! key =
       option_map (fun row => fst (Unmarshal_strings (KVState.Value row)))
         (last_such (fun row => String.eqb (KVState.Key row) key)
            (retrieved_kvstates appID KV_STATE_TYPE_DEPENDENCIES version st))) /\
  (exists resMap,
     formatDragShadowState Unmarshal_object appID version st =
     (Returned (Some resMap, None), tick st) /\
     forall key,
       resMap !! key =
       option_map (fun row => IfaceObject (fst (Unmarshal_object (KVState.Value row))))
         (last_such (fun row => String.eqb (KVState.Key row) key)
            (retrieved_kvstates appID KV_STATE_TYPE_DRAG_SHADOW version st))).
Proof.
  intros Hf. split.
  - eexists. split; [now apply formatDependenciesState_ok |]. intros key. apply keyed_last.
  - eexists. split; [now apply formatDragShadowState_ok |]. intros key. apply keyed_last.
Qed.

(** *** The component index *)

Lemma component_index_snoc (rows : list TreeState.t) (row : TreeState.t) :
  component_index (rows ++ [row]) =
  (<[TreeState.ID row := row]> (fst (component_index rows)),
   if String.eqb (TreeState.Name row) TREE_STATE_SUMMIT_NAME then row
   else snd (component_index rows)).
Proof.
  unfold component_index. rewrite fold_left_app. cbn [fold_left].
  now destruct (fold_left _ rows _).
Qed.

Lemma component_index_last (rows : list TreeState.t) :
  snd (component_index rows) =
  default TreeState.zero
    (last_such (fun row => String.eqb (TreeState.Name row) TREE_STATE_SUMMIT_NAME) rows) /\
  forall id,
    fst (component_index rows) !! id = last_such (fun row => TreeState.ID row =? id) rows.
Proof.
  induction rows as [|row rows (IHroot & IHmap)] using rev_ind.
  - split; [reflexivity | intros id; reflexivity].
  - rewrite component_index_snoc. cbn [fst snd]. split.
    + rewrite last_such_snoc. now destruct (String.eqb _ _).
    + intros id. rewrite last_such_snoc.
      destruct (Z.eqb_spec (TreeState.ID row) id) as [-> | Hne].
      * now rewrite lookup_insert_eq.
      * now rewrite lookup_insert_ne.
Qed.

(** X14.  When the retrieval succeeds and returns at least one row,
    formatComponents builds the tree from the last retrieved row named root (the
    zero row if none is), with a lookup table that holds under each identifier
    the last retrieved row with it; the builder's error is dropped. *)
Theorem formatComponents_builds_from_the_last_root (appID version : Z) (st : Store) :
  fault st = None ->
  retrieved_components appID version st <> [] ->
  exists tempMap,
    formatComponents buildComponentTree appID version st =
    (Returned
       (fst (buildComponentTree
               (default TreeState.zero
                  (last_such
                     (fun row => String.eqb (TreeState.Name row) TREE_STATE_SUMMIT_NAME)
                     (retrieved_components appID version st)))
               tempMap None), None), tick st) /\
    forall id,
      tempMap !! id =
      last_such (fun row => TreeState.ID row =? id) (retrieved_components appID version st).
Proof.
  intros Hf Hrows. rewrite (formatComponents_ok appID version st Hf).
  destruct (component_index_last (retrieved_components appID version st)) as (Hroot & Hmap).
  exists (fst (component_index (retrieved_components appID version st))).
  split; [| exact Hmap].
  unfold component_tree. rewrite <- Hroot.
  destruct (retrieved_components appID version st); [contradiction | reflexivity].
Qed.

(** X15.  When its eight port calls succeed, the app exists with a non-zero
    identifier, the version is at most its mainline version and every retrieved
    action type is in range, GetMegaData returns exactly this document after
    exactly eight calls: the app's summary with the updater's nickname, the
    actions in retrieval order with their type names, the component tree, the
    three key-value maps and the display names in retrieval order. *)
Theorem GetMegaData_assembles_the_retrieved_rows
    (appID version : Z) (st : Store) (app : App.t) :
  no_faults st 8 ->
  apps st !! appID = Some app ->
  App.ID app <> 0 ->
  version <= App.MainlineVersion app ->
  Forall type_in_range (retrieved_actions appID version st) ->
  GetMegaData buildComponentTree Unmarshal_strings Unmarshal_object appID version st =
  (Returned (document buildComponentTree Unmarshal_strings Unmarshal_object
               app appID version st, None), ticks 8 st).
Proof. exact (GetMegaData_healthy appID version st app). Qed.

End DocumentFacts.

(** ** Reading a clone back *)

Module SnapshotFacts.

Import Mem StoreSpec MemFacts CloneSpec CloneFacts TreeCloneSpec TreeCloneFacts.
Import GrowSpec GrowFacts FlatCloneSpec FlatCloneFacts TreeRunSpec TreeRunFacts.
Import CoordinatorSpec CoordinatorFacts SnapshotSpec.

Lemma filter_and {A} (p q : A -> bool) (l : list A) :
  List.filter (fun x => p x && q x) l = List.filter q (List.filter p l).
Proof.
  induction l as [|x l IH]; cbn; [reflexivity |].
  destruct (p x); cbn; [destruct (q x); now rewrite IH | exact IH].
Qed.

Lemma filter_and_nil {A} (p q : A -> bool) (l : list A) :
  List.filter p l = [] -> List.filter (fun x => p x && q x) l = [].
Proof. intros H. now rewrite filter_and, H. Qed.

(** Filtering a clone by kind goes row by row with filtering its source. *)
Lemma Forall2_filter_sync {A} (R : A -> A -> Prop) (p q : A -> bool) (l k : list A) :
  Forall2 R l k ->
  (forall x y, R x y -> p x = q y) ->
  Forall2 R (List.filter p l) (List.filter q k).
Proof.
  intros H Hpq. induction H as [|x y l k Hxy _ IH]; cbn; [constructor |].
  rewrite (Hpq x y Hxy). destruct (q y); [constructor |]; assumption.
Qed.

Lemma keyed_same {V} (value_of : KVState.t -> V) (l k : list KVState.t) :
  Forall2 same_kv l k ->
  (forall x y, KVState.Value y = KVState.Value x -> value_of y = value_of x) ->
  keyed value_of k = keyed value_of l.
Proof.
  intros H Hv. unfold keyed. generalize (∅ : gmap string V).
  induction H as [|x y l k (_ & Hkey & Hval) _ IH]; intros m; cbn [fold_left];
    [reflexivity |].
  rewrite Hkey, (Hv x y Hval). apply IH.
Qed.

(** *** Fault-free runs of the two coordinators *)

Lemma kv_source_tables (appID : Z) (st st' : Store) :
  kvstates st' = kvstates st -> kv_source appID st' = kv_source appID st.
Proof. unfold kv_source. now intros ->. Qed.

Lemma set_source_tables (appID : Z) (st st' : Store) :
  setstates st' = setstates st -> set_source appID st' = set_source appID st.
Proof. unfold set_source, retrieved_setstates. now intros ->. Qed.

Lemma action_source_tables (appID : Z) (st st' : Store) :
  actions st' = actions st -> action_source appID st' = action_source appID st.
Proof. unfold action_source, retrieved_actions. now intros ->. Qed.

Lemma kv_source_scope (appID : Z) (st : Store) (row : KVState.t) :
  In row (kv_source appID st) ->
  KVState.AppRefID row = appID /\ KVState.Version row = APP_EDIT_VERSION.
Proof.
  unfold kv_source, KVState_in. intros Hin. apply filter_In in Hin as (_ & Hin).
  apply andb_true_iff in Hin as (H1 & H2). split; lia.
Qed.

Lemma set_source_scope (appID : Z) (st : Store) (row : SetState.t) :
  In row (set_source appID st) ->
  SetState.AppRefID row = appID /\ SetState.Version row = APP_EDIT_VERSION.
Proof.
  unfold set_source, retrieved_setstates. intros Hin. apply filter_In in Hin as (_ & Hin).
  apply andb_true_iff in Hin as (Hin & _).
  apply andb_true_iff in Hin as (H1 & H2). split; lia.
Qed.

Lemma action_source_scope (appID : Z) (st : Store) (row : repository.Action.t) :
  In row (action_source appID st) ->
  repository.Action.App row = appID /\ repository.Action.Version row = APP_EDIT_VERSION.
Proof.
  unfold action_source, retrieved_actions, Action_in. intros Hin.
  apply filter_In in Hin as (_ & Hin).
  apply andb_true_iff in Hin as (H1 & H2). split; lia.
Qed.

(** With no failing call, [ReleaseApp] appends one clone per draft row and
    writes the incremented counters back. *)
Lemma ReleaseApp_run (appID : Z) (st : Store) (app : App.t) :
  never_fails st ->
  store_wf st ->
  apps st !! appID = Some app ->
  exists t k s a n,
    ReleaseApp appID st =
    (Returned (int_add (App.MainlineVersion app) 1, None),
     match apps st !! App.ID app with
     | Some _ => set_apps (<[App.ID app := released app]> (apps st)) (grow t k s a 0 n st)
     | None => grow t k s a 0 n st
     end) /\
    Forall2 same_kv (kv_source appID st) k /\
    Forall (fun row => KVState_in appID (int_add (App.MainlineVersion app) 1) row = true) k /\
    Forall2 same_set (set_source appID st) s /\
    Forall (fun row => SetState_in appID (int_add (App.MainlineVersion app) 1) row = true) s /\
    Forall2 same_action (action_source appID st) a /\
    Forall (fun row => Action_in appID (int_add (App.MainlineVersion app) 1) row = true) a.
Proof.
  intros Hnf Hwf Happ.
  set (v := int_add (App.MainlineVersion app) 1).
  set (dto := AppDto_of_ID_MainlineVersion appID v).
  assert (Hf : fault st = None) by apply Hnf.
  destruct (releaseTreeStateByApp_any dto (tick st)) as (r1 & t & n1 & H1 & _ & _).
  { now apply (store_wf_tables st). }
  set (s1 := grow t [] [] [] 0 n1 (tick st)) in *.
  destruct (KV_clone_run appID 0 0 dto s1) as (_ & k & H2 & Fk & _);
    [apply never_fails_no_faults; intros c; apply Hnf | reflexivity |].
  assert (Ek : kv_source appID s1 = kv_source appID st)
    by (apply kv_source_tables; cbn; now rewrite List.app_nil_r).
  rewrite Ek in H2, Fk.
  set (n2 := (1 + length (kv_source appID st))%nat) in *.
  set (s2 := grow [] k [] [] 0 n2 s1) in *.
  destruct (Set_clone_run appID 0 0 dto s2) as (_ & s & H3 & Fs & _);
    [apply never_fails_no_faults; intros c; apply Hnf | reflexivity |].
  assert (Es : set_source appID s2 = set_source appID st)
    by (apply set_source_tables; cbn; now rewrite !List.app_nil_r).
  rewrite Es in H3, Fs.
  set (n3 := (1 + length (set_source appID st))%nat) in *.
  set (s3 := grow [] [] s [] 0 n3 s2) in *.
  destruct (Action_clone_run appID 0 0 dto s3) as (_ & a & H4 & Fa & _);
    [apply never_fails_no_faults; intros c; apply Hnf | reflexivity |].
  assert (Ea : action_source appID s3 = action_source appID st)
    by (apply action_source_tables; cbn; now rewrite !List.app_nil_r).
  rewrite Ea in H4, Fa.
  set (n4 := (1 + length (action_source appID st))%nat) in *.
  pose proof (ReleaseApp_chain appID st app t k s a n1 n2 n3 n4 r1 None None None
                Hf Happ H1 H2 H3 H4) as Hrun.
  cbv zeta in Hrun. rewrite (Hnf _) in Hrun.
  exists t, k, s, a, (S (1 + n1 + n2 + n3 + n4)).
  split.
  { rewrite Hrun. f_equal.
    assert (Ht : tick (grow t k s a 0 (1 + n1 + n2 + n3 + n4) st) =
                 grow t k s a 0 (S (1 + n1 + n2 + n3 + n4)) st)
      by (apply store_ext; cbn; try reflexivity; lia).
    now rewrite Ht. }
  cbn [AppDto.MainlineVersion dto AppDto_of_ID_MainlineVersion] in Fk, Fs, Fa.
  repeat split.
  - eapply Forall2_impl; [exact Fk |]. intros x y (? & ? & ? & _). now repeat split.
  - eapply Forall2_Forall_r; [exact Fk |]. intros x y Hin (_ & _ & _ & Hr & Hv & _).
    apply kv_source_scope in Hin as (Hin & _). unfold KVState_in. rewrite Hr, Hin, Hv.
    now rewrite !Z.eqb_refl.
  - eapply Forall2_impl; [exact Fs |]. intros x y (? & ? & _). now repeat split.
  - eapply Forall2_Forall_r; [exact Fs |]. intros x y Hin (_ & _ & Hr & Hv & _).
    apply set_source_scope in Hin as (Hin & _). unfold SetState_in. rewrite Hr, Hin, Hv.
    now rewrite !Z.eqb_refl.
  - eapply Forall2_impl; [exact Fa |]. now intros x y (? & _).
  - eapply Forall2_Forall_r; [exact Fa |]. intros x y Hin (_ & Hr & Hv & _).
    apply action_source_scope in Hin as (Hin & _). unfold Action_in. rewrite Hr, Hin, Hv.
    now rewrite !Z.eqb_refl.
Qed.

(** With no failing call, [DuplicateApp] inserts the new app and appends one
    clone per draft row of the source. *)
Lemma DuplicateApp_run (appID userID : Z) (name : string) (st : Store) (appA : App.t) :
  never_fails st ->
  store_wf st ->
  apps st !! appID = Some appA ->
  exists t k s a c n,
    DuplicateApp appID userID name st =
    (Returned (duplicate_dto userID name st, None),
     grow t k s a c n (with_app (duplicated_app userID name st) 2 3 st)) /\
    Forall2 same_kv (kv_source appID st) k /\
    Forall (fun row => KVState_in (next_id st) APP_EDIT_VERSION row = true) k /\
    Forall2 same_set (set_source appID st) s /\
    Forall (fun row => SetState_in (next_id st) APP_EDIT_VERSION row = true) s /\
    Forall2 same_action (action_source appID st) a /\
    Forall (fun row => Action_in (next_id st) APP_EDIT_VERSION row = true) a.
Proof.
  intros Hnf Hwf Happ.
  assert (Hf : fault st = None) by apply Hnf.
  set (s0 := with_app (duplicated_app userID name st) 2 3 st).
  assert (Hwf0 : store_wf s0)
    by (apply (store_wf_tables st); [assumption | reflexivity | cbn; lia]).
  destruct (copyAllTreeState_any appID (next_id st) userID s0 Hwf0)
    as (r1 & t & c1 & n1 & H1 & _ & _).
  set (s1 := grow t [] [] [] c1 n1 s0) in *.
  destruct (KV_clone_run appID (next_id st) userID (AppDto_of_ID_MainlineVersion appID 0) s1) as
    ((k & H2 & Fk & _) & _);
    [apply never_fails_no_faults; intros c; apply Hnf | |].
  all: swap 1 2.
  { assert (Ek : kv_source appID s1 = kv_source appID st)
      by (apply kv_source_tables; cbn; now rewrite List.app_nil_r).
    rewrite Ek in H2, Fk.
    set (c2 := 2 * Z.of_nat (length (kv_source appID st))) in *.
    set (n2 := (1 + length (kv_source appID st))%nat) in *.
    set (s2 := grow [] k [] [] c2 n2 s1) in *.
    destruct (Set_clone_run appID (next_id st) userID (AppDto_of_ID_MainlineVersion appID 0) s2)
      as ((s & H3 & Fs & _) & _);
      [apply never_fails_no_faults; intros c; apply Hnf | |].
    all: swap 1 2.
    { assert (Es : set_source appID s2 = set_source appID st)
        by (apply set_source_tables; cbn; now rewrite !List.app_nil_r).
      rewrite Es in H3, Fs.
      set (c3 := 2 * Z.of_nat (length (set_source appID st))) in *.
      set (n3 := (1 + length (set_source appID st))%nat) in *.
      set (s3 := grow [] [] s [] c3 n3 s2) in *.
      destruct (Action_clone_run appID (next_id st) userID (AppDto_of_ID_MainlineVersion appID 0)
        s3)
        as ((a & H4 & Fa & _) & _);
        [apply never_fails_no_faults; intros c; apply Hnf | |].
      all: swap 1 2.
      { assert (Ea : action_source appID s3 = action_source appID st)
          by (apply action_source_tables; cbn; now rewrite !List.app_nil_r).
        rewrite Ea in H4, Fa.
        set (c4 := 2 * Z.of_nat (length (action_source appID st))) in *.
        set (n4 := (1 + length (action_source appID st))%nat) in *.
        exists t, k, s, a, (c1 + c2 + c3 + c4), (n1 + n2 + n3 + n4)%nat.
        split.
        { apply (DuplicateApp_chain appID userID name st appA t k s a c1 c2 c3 c4
                   n1 n2 n3 n4 r1 None None None Hf Happ (Hnf _) H1 H2 H3 H4). }
        repeat split.
        - eapply Forall2_impl; [exact Fk |]. intros x y (? & ? & ? & _). now repeat split.
        - eapply Forall2_Forall_r; [exact Fk |]. intros x y _ (_ & _ & _ & Hr & Hv & _).
          unfold KVState_in. rewrite Hr, Hv. now rewrite !Z.eqb_refl.
        - eapply Forall2_impl; [exact Fs |]. intros x y (? & ? & _). now repeat split.
        - eapply Forall2_Forall_r; [exact Fs |]. intros x y _ (_ & _ & Hr & Hv & _).
          unfold SetState_in. rewrite Hr, Hv. now rewrite !Z.eqb_refl.
        - eapply Forall2_impl; [exact Fa |]. now intros x y (? & _).
        - eapply Forall2_Forall_r; [exact Fa |]. intros x y _ (_ & Hr & Hv & _).
          unfold Action_in. rewrite Hr, Hv. now rewrite !Z.eqb_refl. }
      reflexivity. }
    reflexivity. }
  reflexivity.
Qed.

Section Documents.

Context {ComponentNode JsonObject : Type}.
Variable buildComponentTree :
  TreeState.t -> gmap Z TreeState.t -> option ComponentNode ->
  option ComponentNode * option error.
Variable Unmarshal_strings : string -> list string * option error.
Variable Unmarshal_object : string -> JsonObject * option error.

(** The document of a scope that holds nothing but the clones of the draft
    of [appA] shows the state of that draft. *)
Lemma clone_document_same_state (appA appB vB : Z) (st st' : Store) (rowA rowB : App.t)
    (k : list KVState.t) (s : list SetState.t) (a : list repository.Action.t) :
  kvstates st' = kvstates st ++ k ->
  setstates st' = setstates st ++ s ->
  actions st' = actions st ++ a ->
  empty_scope appB vB st ->
  Forall2 same_kv (kv_source appA st) k ->
  Forall (fun row => KVState_in appB vB row = true) k ->
  Forall2 same_set (set_source appA st) s ->
  Forall (fun row => SetState_in appB vB row = true) s ->
  Forall2 same_action (action_source appA st) a ->
  Forall (fun row => Action_in appB vB row = true) a ->
  same_state
    (document buildComponentTree Unmarshal_strings Unmarshal_object
       rowA appA APP_EDIT_VERSION st)
    (document buildComponentTree Unmarshal_strings Unmarshal_object rowB appB vB st') /\
  (Forall type_in_range (retrieved_actions appA APP_EDIT_VERSION st) ->
   Forall type_in_range (retrieved_actions appB vB st')).
Proof.
  intros Hk Hs Ha (_ & Ek & Es & Ea) Fk Sk Fs Ss Fa Sa.
  assert (Hact : retrieved_actions appB vB st' = a).
  { unfold retrieved_actions. rewrite Ha, List.filter_app, Ea. now apply filter_all. }
  assert (Hkv : forall kind,
             Forall2 same_kv (retrieved_kvstates appA kind APP_EDIT_VERSION st)
               (retrieved_kvstates appB kind vB st')).
  { intros kind. unfold retrieved_kvstates.
    rewrite Hk, List.filter_app, (filter_and_nil _ _ _ Ek). cbn [Datatypes.app].
    rewrite !filter_and. fold (kv_source appA st). rewrite (filter_all _ k Sk).
    apply Forall2_filter_sync; [exact Fk |].
    intros x y (Hkind & _). now rewrite Hkind. }
  assert (Hset : Forall2 same_set
                   (retrieved_setstates appA SET_STATE_TYPE_DISPLAY_NAME APP_EDIT_VERSION st)
                   (retrieved_setstates appB SET_STATE_TYPE_DISPLAY_NAME vB st')).
  { unfold retrieved_setstates at 2. rewrite Hs, List.filter_app.
    change (fun row => (SetState.AppRefID row =? appB) && (SetState.Version row =? vB)
                       && StateType_eqb (SetState.StateType row) SET_STATE_TYPE_DISPLAY_NAME)
      with (fun row => SetState_in appB vB row
                       && StateType_eqb (SetState.StateType row) SET_STATE_TYPE_DISPLAY_NAME).
    rewrite (filter_and_nil _ _ _ Es). cbn [Datatypes.app].
    rewrite filter_and, (filter_all _ s Ss).
    fold (set_source appA st).
    assert (Hkinds : Forall (fun row => StateType_eqb (SetState.StateType row)
                                          SET_STATE_TYPE_DISPLAY_NAME = true) s).
    { eapply Forall2_Forall_r; [exact Fs |]. intros x y Hin (Hkind & _).
      unfold set_source, retrieved_setstates in Hin. apply filter_In in Hin as (_ & Hin).
      apply andb_true_iff in Hin as (_ & Hin). now rewrite Hkind. }
    now rewrite (filter_all _ s Hkinds). }
  split.
  - unfold same_state, document. cbn [Editor.Actions Editor.DependenciesState
      Editor.DragShadowState Editor.DottedLineSquareState Editor.DisplayNameState option_map].
    repeat split.
    + f_equal. rewrite Hact, !map_map. fold (action_source appA st).
      clear -Fa. induction Fa as [|x y l l' (H1 & H2 & H3 & H4 & H5 & H6) _ IH];
        [reflexivity |].
      cbn [map]. rewrite IH. f_equal. unfold Action_payload, Action_of. cbn.
      now rewrite H1, H2, H3, H4, H5, H6.
    + f_equal. symmetry. apply keyed_same; [apply Hkv |]. now intros x y ->.
    + f_equal. symmetry. apply keyed_same; [apply Hkv |]. now intros x y ->.
    + f_equal. symmetry. apply keyed_same; [apply Hkv |]. now intros x y ->.
    + f_equal. clear -Hset. induction Hset as [|x y l l' (_ & Hv) _ IH]; [reflexivity |].
      cbn [map]. now rewrite IH, Hv.
  - intros Hall. rewrite Hact. fold (action_source appA st) in Hall.
    clear -Fa Hall. induction Fa as [|x y l l' (_ & _ & H3 & _) _ IH]; [constructor |].
    inversion Hall; subst. constructor; [| now apply IH].
    unfold type_in_range in *. now rewrite H3.
Qed.

(** X16.  From a store whose identifiers it generated and with no failing call,
    for an existing app whose row carries its own non-zero identifier and a
    non-negative mainline version, with every draft action type in range and no
    row yet in the scope of the new version: the document GetMegaData assembles
    after ReleaseApp for the returned version has the same actions (up to
    identifiers and audit fields), the same dependency, drag-shadow and
    dotted-line-square maps and the same display names as the draft document
    before; its app summary carries the new version in both counters. *)
Theorem released_version_shows_the_draft (appID : Z) (st : Store) (app : App.t) :
  never_fails st ->
  store_wf st ->
  apps st !! appID = Some app ->
  App.ID app = appID ->
  appID <> 0 ->
  0 <= App.MainlineVersion app ->
  empty_scope appID (int_add (App.MainlineVersion app) 1) st ->
  Forall type_in_range (retrieved_actions appID APP_EDIT_VERSION st) ->
  exists st' draft snapshot,
    ReleaseApp appID st = (Returned (int_add (App.MainlineVersion app) 1, None), st') /\
    fst (GetMegaData buildComponentTree Unmarshal_strings Unmarshal_object
           appID APP_EDIT_VERSION st) = Returned (draft, None) /\
    fst (GetMegaData buildComponentTree Unmarshal_strings Unmarshal_object
           appID (int_add (App.MainlineVersion app) 1) st') = Returned (snapshot, None) /\
    same_state draft snapshot /\
    AppDto.MainlineVersion (Editor.AppInfo snapshot) = int_add (App.MainlineVersion app) 1 /\
    AppDto.ReleaseVersion (Editor.AppInfo snapshot) = int_add (App.MainlineVersion app) 1.
Proof.
  intros Hnf Hwf Happ Hid Hnz Hmain Hempty Htypes.
  destruct (ReleaseApp_run appID st app Hnf Hwf Happ)
    as (t & k & s & a & n & Hrun & Fk & Sk & Fs & Ss & Fa & Sa).
  rewrite Hid, Happ in Hrun.
  set (v := int_add (App.MainlineVersion app) 1) in *.
  set (st' := set_apps (<[appID := released app]> (apps st)) (grow t k s a 0 n st)) in *.
  destruct (clone_document_same_state appID appID v st st' app (released app) k s a)
    as (Hsame & Htypes'); try assumption; try reflexivity.
  exists st', (document buildComponentTree Unmarshal_strings Unmarshal_object
                 app appID APP_EDIT_VERSION st),
    (document buildComponentTree Unmarshal_strings Unmarshal_object
       (released app) appID v st').
  split; [exact Hrun |]. split; [| split; [| split; [exact Hsame | split; reflexivity]]].
  - rewrite (GetMegaData_healthy buildComponentTree Unmarshal_strings Unmarshal_object
               appID APP_EDIT_VERSION st app); try assumption; try reflexivity.
    + now apply never_fails_no_faults.
    + congruence.
  - rewrite (GetMegaData_healthy buildComponentTree Unmarshal_strings Unmarshal_object
               appID v st' (released app)); try reflexivity.
    + apply never_fails_no_faults. intros c. apply Hnf.
    + cbn [apps st' set_apps]. now rewrite lookup_insert_eq.
    + cbn [released App.ID]. congruence.
    + now apply Htypes'.
Qed.

(** X17.  From a store whose identifiers it generated and with no failing call,
    for an existing source app with a non-zero identifier and a non-negative
    mainline version, with every draft action type in range and no row yet
    referring to the next serial as its app: the draft document GetMegaData
    assembles for the app DuplicateApp returns has the same actions (up to
    identifiers and audit fields), the same dependency, drag-shadow and
    dotted-line-square maps and the same display names as the source app's draft
    document before; its summary carries the new name and both counters 0. *)
Theorem duplicate_shows_the_source (appID userID : Z) (name : string) (st : Store)
    (appA : App.t) :
  never_fails st ->
  store_wf st ->
  apps st !! appID = Some appA ->
  App.ID appA <> 0 ->
  0 <= App.MainlineVersion appA ->
  empty_scope (next_id st) APP_EDIT_VERSION st ->
  Forall type_in_range (retrieved_actions appID APP_EDIT_VERSION st) ->
  exists appB st' source copy,
    DuplicateApp appID userID name st = (Returned (appB, None), st') /\
    AppDto.ID appB = next_id st /\
    fst (GetMegaData buildComponentTree Unmarshal_strings Unmarshal_object
           appID APP_EDIT_VERSION st) = Returned (source, None) /\
    fst (GetMegaData buildComponentTree Unmarshal_strings Unmarshal_object
           (AppDto.ID appB) APP_EDIT_VERSION st') = Returned (copy, None) /\
    same_state source copy /\
    AppDto.Name (Editor.AppInfo copy) = name /\
    AppDto.MainlineVersion (Editor.AppInfo copy) = 0 /\
    AppDto.ReleaseVersion (Editor.AppInfo copy) = 0.
Proof.
  intros Hnf Hwf Happ Hnz Hmain Hempty Htypes.
  destruct (DuplicateApp_run appID userID name st appA Hnf Hwf Happ)
    as (t & k & s & a & c & n & Hrun & Fk & Sk & Fs & Ss & Fa & Sa).
  set (row := duplicated_app userID name st) in *.
  set (st' := grow t k s a c n (with_app row 2 3 st)) in *.
  destruct (clone_document_same_state appID (next_id st) APP_EDIT_VERSION st st' appA row k s a)
    as (Hsame & Htypes'); try assumption; try reflexivity.
  exists (duplicate_dto userID name st), st',
    (document buildComponentTree Unmarshal_strings Unmarshal_object
       appA appID APP_EDIT_VERSION st),
    (document buildComponentTree Unmarshal_strings Unmarshal_object
       row (next_id st) APP_EDIT_VERSION st').
  split; [exact Hrun |]. split; [reflexivity |].
  split; [| split; [| split; [exact Hsame | repeat split]]].
  - rewrite (GetMegaData_healthy buildComponentTree Unmarshal_strings Unmarshal_object
               appID APP_EDIT_VERSION st appA); try assumption; try reflexivity.
    now apply never_fails_no_faults.
  - cbn [duplicate_dto AppDto.ID].
    rewrite (GetMegaData_healthy buildComponentTree Unmarshal_strings Unmarshal_object
               (next_id st) APP_EDIT_VERSION st' row); try reflexivity.
    + apply never_fails_no_faults. intros x. apply Hnf.
    + cbn [apps st' grow with_app]. now rewrite lookup_insert_eq.
    + cbn [row duplicated_app App.ID]. destruct Hwf as (Hpos & _). lia.
    + now apply Htypes'.
Qed.

End Documents.

End SnapshotFacts.

(** ** App records on the store *)

Module AppCrudFacts.

Import Mem MemCrud StoreSpec MemFacts CloneSpec CloneFacts TreeCloneSpec TreeCloneFacts.
Import GrowSpec GrowFacts FlatCloneSpec FlatCloneFacts TreeRunSpec TreeRunFacts.
Import CoordinatorSpec CoordinatorFacts SnapshotSpec SnapshotFacts AppCrudSpec.

Lemma TreeState_Create_run (row : TreeState.t) (st : Store) :
  TreeState_Create row st =
  match fault st with
  | Some e => (Returned (row, (0, Some e)), tick st)
  | None =>
      (Returned (TreeState_with_ID (next_id st) row, (next_id st, None)),
       set_next_id (next_id st + 1)
         (set_treestates (treestates st ++ [TreeState_with_ID (next_id st) row]) (tick st)))
  end.
Proof.
  unfold TreeState_Create. destruct (fault st) as [e|] eqn:Hf.
  - now rewrite (port_failed _ _ _ e Hf).
  - now rewrite port_ok by assumption.
Qed.

Lemma User_RetrieveByID_at (id : Z) (st st' : Store) (n : nat) :
  users st' = users st -> faults st' = faults st -> calls st' = (calls st + n)%nat ->
  exists err, User_RetrieveByID id st' = (Returned (user_at n id st, err), tick st').
Proof.
  intros Hu Hfs Hc. destruct (User_RetrieveByID_seen id st') as (err & H).
  exists err. rewrite H. unfold user_seen, user_at, fault. now rewrite Hu, Hfs, Hc.
Qed.

Lemma initialAllTypeTreeStates_run (initialComponet : string) (appID user : Z) (st : Store) :
  exists err,
    initialAllTypeTreeStates initialComponet appID user st =
    (Returned err,
     grow
       match fault st with
       | Some _ => []
       | None => [root_component initialComponet appID user (next_id st) (now st)]
       end [] [] [] 2 1 st) /\
    (err = None <-> fault st = None).
Proof.
  unfold initialAllTypeTreeStates.
  set (st1 := set_now (now st + 1) st).
  set (st2 := set_now (now st1 + 1) st1).
  rewrite (bind_Returned _ _ st st1 (now st)) by reflexivity.
  rewrite (bind_Returned _ _ st1 st2 (now st1)) by reflexivity.
  unfold bind at 1. cbn [repository.TreeState_Create TreeStateRepository_Store].
  rewrite TreeState_Create_run.
  change (fault st2) with (fault st).
  destruct (fault st) as [e|] eqn:Hf.
  - exists (Some (errorString "initial tree state failed")). split; [| split; discriminate].
    unfold ret. f_equal.
    apply store_ext; cbn; rewrite ?List.app_nil_r; try reflexivity; lia.
  - exists None. split; [| now split].
    unfold ret. f_equal.
    apply store_ext; cbn; rewrite ?List.app_nil_r; try reflexivity; lia.
Qed.

Lemma CreateApp_run (initialComponet : string) (app : AppDto.t) (st : Store) :
  CreateApp initialComponet app st =
  match fault st with
  | Some e => (Returned (AppDto.zero, Some e), grow [] [] [] [] 2 1 st)
  | None =>
      (Returned (created_dto app st, None),
       grow
         match faults st (calls st + 2)%nat with
         | Some _ => []
         | None => [root_component initialComponet (next_id st) (AppDto.CreatedBy app)
                      (next_id st + 1) (now st + 2)]
         end [] [] [] 4 3 (with_app (created_app app st) 0 0 st))
  end.
Proof.
  unfold CreateApp.
  set (st1 := set_now (now st + 1) st).
  set (st2 := set_now (now st1 + 1) st1).
  rewrite (bind_Returned _ _ st st1 (now st)) by reflexivity.
  rewrite (bind_Returned _ _ st1 st2 (now st1)) by reflexivity.
  cbn [AppDto.ID AppDto.Name AppDto.ReleaseVersion AppDto.MainlineVersion AppDto.CreatedBy
       AppDto.CreatedAt AppDto.UpdatedBy AppDto.UpdatedAt AppDto.AppActivity].
  unfold bind at 1. cbn [repository.App_Create AppRepository_Store].
  rewrite App_Create_run. change (fault st2) with (fault st).
  destruct (fault st) as [e|] eqn:Hf.
  { unfold ret. f_equal.
    apply store_ext; cbn; rewrite ?List.app_nil_r; try reflexivity; lia. }
  set (sc := set_next_id _ _).
  destruct (User_RetrieveByID_at (AppDto.CreatedBy app) st sc 1) as (uerr & Hu);
    [reflexivity | reflexivity | cbn; lia |].
  cbn [repository.User_RetrieveByID UserRepository_Store].
  rewrite (bind_Returned _ _ _ _ _ Hu).
  cbn [AppDto.ID AppDto.Name AppDto.ReleaseVersion AppDto.MainlineVersion AppDto.CreatedBy
       AppDto.CreatedAt AppDto.UpdatedBy AppDto.UpdatedAt AppDto.AppActivity].
  destruct (initialAllTypeTreeStates_run initialComponet (next_id st2)
              (AppDto.CreatedBy app) (tick sc)) as (ierr & Hi & _).
  rewrite (bind_Returned _ _ _ _ _ Hi). unfold ret. f_equal.
  assert (Hfc : fault (tick sc) = faults st (calls st + 2)%nat).
  { unfold fault. cbn. f_equal. lia. }
  rewrite Hfc.
  destruct (faults st (calls st + 2)%nat);
    apply store_ext; cbn; rewrite ?List.app_nil_r; try reflexivity; try lia.
  unfold root_component, TreeState_with_ID. cbn.
  now replace (now st + 1 + 1) with (now st + 2) by lia.
Qed.

Lemma FetchAppByID_run (appID : Z) (st : Store) :
  FetchAppByID appID st =
  match fault st with
  | Some e => (Returned (AppDto.zero, Some e), tick st)
  | None =>
      match apps st !! appID with
      | Some row => (Returned (fetched row, None), tick st)
      | None => (Returned (AppDto.zero, Some record_not_found), tick st)
      end
  end.
Proof.
  unfold FetchAppByID. cbn [repository.App_RetrieveAppByID AppRepository_Store].
  destruct (fault st) as [e|] eqn:Hf.
  - now rewrite (bind_Returned _ _ _ _ _ (App_RetrieveAppByID_failed appID st e Hf)).
  - destruct (apps st !! appID) as [row|] eqn:Hrow.
    + now rewrite (bind_Returned _ _ _ _ _ (App_RetrieveAppByID_found appID st row Hf Hrow)).
    + now rewrite (bind_Returned _ _ _ _ _ (App_RetrieveAppByID_missing appID st Hf Hrow)).
Qed.

Lemma UpdateApp_run (app : AppDto.t) (st : Store) :
  UpdateApp app st =
  match fault st with
  | Some e => (Returned (AppDto.zero, Some e), grow [] [] [] [] 1 1 st)
  | None =>
      (Returned
         ({| AppDto.ID := AppDto.ID app;
             AppDto.Name := AppDto.Name app;
             AppDto.ReleaseVersion := AppDto.ReleaseVersion app;
             AppDto.MainlineVersion := AppDto.MainlineVersion app;
             AppDto.CreatedBy := AppDto.CreatedBy app;
             AppDto.CreatedAt := AppDto.CreatedAt app;
             AppDto.UpdatedBy := AppDto.UpdatedBy app;
             AppDto.UpdatedAt := now st;
             AppDto.AppActivity :=
               {| AppActivity.Modifier :=
                    User.Nickname (user_at 1 (AppDto.UpdatedBy app) st);
                  AppActivity.ModifiedAt := now st |} |}, None),
       match apps st !! AppDto.ID app with
       | Some _ =>
           set_apps (<[AppDto.ID app := updated_app app st]> (apps st))
             (grow [] [] [] [] 1 2 st)
       | None => grow [] [] [] [] 1 2 st
       end)
  end.
Proof.
  unfold UpdateApp.
  set (st1 := set_now (now st + 1) st).
  rewrite (bind_Returned _ _ st st1 (now st)) by reflexivity.
  cbn [AppDto.ID AppDto.Name AppDto.ReleaseVersion AppDto.MainlineVersion AppDto.CreatedBy
       AppDto.CreatedAt AppDto.UpdatedBy AppDto.UpdatedAt AppDto.AppActivity].
  unfold bind at 1. cbn [repository.App_Update AppRepository_Store].
  rewrite App_Update_run. change (fault st1) with (fault st).
  destruct (fault st) as [e|] eqn:Hf.
  { unfold ret. f_equal.
    apply store_ext; cbn; rewrite ?List.app_nil_r; try reflexivity; lia. }
  cbn [App.ID]. change (apps st1) with (apps st).
  fold (updated_app app st).
  set (sc := match apps st !! AppDto.ID app with Some _ => _ | None => _ end).
  destruct (User_RetrieveByID_at (AppDto.UpdatedBy app) st sc 1) as (uerr & Hu).
  { unfold sc. now destruct (apps st !! AppDto.ID app). }
  { unfold sc. now destruct (apps st !! AppDto.ID app). }
  { unfold sc. destruct (apps st !! AppDto.ID app); cbn; lia. }
  cbn [repository.User_RetrieveByID UserRepository_Store].
  rewrite (bind_Returned _ _ _ _ _ Hu). unfold ret. f_equal.
  unfold sc. destruct (apps st !! AppDto.ID app);
    apply store_ext; cbn; rewrite ?List.app_nil_r; try reflexivity; lia.
Qed.

Lemma UpdateAppModifyTime_run (app : AppDto.t) (st : Store) :
  UpdateAppModifyTime app st =
  (Returned (stamped app st, fault st),
   match fault st, apps st !! AppDto.ID app with
   | None, Some old =>
       set_apps
         (<[AppDto.ID app :=
              {| App.ID := App.ID old;
                 App.Name := App.Name old;
                 App.ReleaseVersion := App.ReleaseVersion old;
                 App.MainlineVersion := App.MainlineVersion old;
                 App.CreatedBy := App.CreatedBy old;
                 App.CreatedAt := App.CreatedAt old;
                 App.UpdatedBy := AppDto.UpdatedBy app;
                 App.UpdatedAt := now st |}]> (apps st))
         (grow [] [] [] [] 1 1 st)
   | _, _ => grow [] [] [] [] 1 1 st
   end).
Proof.
  unfold UpdateAppModifyTime.
  set (st1 := set_now (now st + 1) st).
  rewrite (bind_Returned _ _ st st1 (now st)) by reflexivity.
  cbn [AppDto.ID AppDto.Name AppDto.ReleaseVersion AppDto.MainlineVersion AppDto.CreatedBy
       AppDto.CreatedAt AppDto.UpdatedBy AppDto.UpdatedAt AppDto.AppActivity].
  unfold bind. cbn [repository_crud.App_UpdateUpdatedAt AppRepository_crud_Store].
  unfold App_UpdateUpdatedAt.
  fold (stamped app st).
  destruct (fault st) as [e|] eqn:Hf.
  - rewrite (port_failed _ _ st1 e) by exact Hf. change (fault st1) with (fault st).
    rewrite Hf. unfold ret. f_equal.
    apply store_ext; cbn; rewrite ?List.app_nil_r; try reflexivity; lia.
  - rewrite port_ok by exact Hf. cbn [tick set_calls apps App.ID st1 set_now].
    destruct (apps st !! AppDto.ID app) as [old|]; cbn [fst snd]; unfold ret; f_equal;
      apply store_ext; cbn; rewrite ?List.app_nil_r; try reflexivity; lia.
Qed.

Lemma delete_port_run (st : Store) (op : Store -> Store) :
  port (fault st) (fun st' => (None, op st')) st =
  (Returned (fault st), match fault st with Some _ => tick st | None => op (tick st) end).
Proof.
  destruct (fault st) as [e|] eqn:Hf.
  - now rewrite (port_failed _ _ _ e Hf).
  - now rewrite port_ok by assumption.
Qed.

Lemma DeleteApp_run (appID : Z) (st : Store) :
  DeleteApp appID st = (Returned (faults st (calls st + 4)%nat), deleted appID st).
Proof.
  unfold DeleteApp.
  cbn [repository_crud.TreeState_DeleteAllTypeTreeStatesByApp TreeStateRepository_crud_Store
       repository_crud.KVState_DeleteAllTypeKVStatesByApp KVStateRepository_crud_Store
       repository_crud.Action_DeleteActionsByApp ActionRepository_crud_Store
       repository_crud.SetState_DeleteAllTypeSetStatesByApp SetStateRepository_crud_Store
       repository_crud.App_Delete AppRepository_crud_Store].
  unfold TreeState_DeleteAllTypeTreeStatesByApp, KVState_DeleteAllTypeKVStatesByApp,
    Action_DeleteActionsByApp, SetState_DeleteAllTypeSetStatesByApp, App_Delete.
  unfold bind. rewrite delete_port_run.
  set (s1 := match fault st with Some _ => _ | None => _ end).
  rewrite delete_port_run.
  set (s2 := match fault s1 with Some _ => _ | None => _ end).
  rewrite delete_port_run.
  set (s3 := match fault s2 with Some _ => _ | None => _ end).
  rewrite delete_port_run.
  set (s4 := match fault s3 with Some _ => _ | None => _ end).
  rewrite delete_port_run.
  assert (F1 : fault s1 = faults st (calls st + 1)%nat).
  { unfold s1, fault. destruct (faults st (calls st)); cbn; f_equal; lia. }
  assert (F2 : fault s2 = faults st (calls st + 2)%nat).
  { unfold s2. rewrite F1. unfold s1, fault.
    destruct (faults st (calls st + 1)%nat), (faults st (calls st)); cbn; f_equal; lia. }
  assert (F3 : fault s3 = faults st (calls st + 3)%nat).
  { unfold s3. rewrite F2. unfold s2. rewrite F1. unfold s1, fault.
    destruct (faults st (calls st + 2)%nat), (faults st (calls st + 1)%nat),
      (faults st (calls st)); cbn; f_equal; lia. }
  assert (F4 : fault s4 = faults st (calls st + 4)%nat).
  { unfold s4. rewrite F3. unfold s3. rewrite F2. unfold s2. rewrite F1. unfold s1, fault.
    destruct (faults st (calls st + 3)%nat), (faults st (calls st + 2)%nat),
      (faults st (calls st + 1)%nat), (faults st (calls st)); cbn; f_equal; lia. }
  rewrite F4. f_equal.
  unfold deleted, unless_failed, s4. rewrite F3. unfold s3. rewrite F2. unfold s2.
  rewrite F1. unfold s1, fault.
  replace (calls st + 0)%nat with (calls st) by lia.
  destruct (faults st (calls st + 4)%nat), (faults st (calls st + 3)%nat),
    (faults st (calls st + 2)%nat), (faults st (calls st + 1)%nat), (faults st (calls st));
    apply store_ext; cbn; try reflexivity; lia.
Qed.

Lemma GetAllApps_loop (rows : list App.t) :
  forall (i : Z) (acc : list AppDto.t) (n : nat) (st st' : Store),
    users st' = users st -> faults st' = faults st -> calls st' = (calls st + n)%nat ->
    range_from (R := option (list AppDto.t) * option error)
      (fun _ value resDtoSlice =>
         let* (userRecord, _) := repository.User_RetrieveByID (App.UpdatedBy value) in
         ret (Continue value
                (resDtoSlice ++
                 [ {| AppDto.ID := App.ID value;
                      AppDto.Name := App.Name value;
                      AppDto.ReleaseVersion := App.ReleaseVersion value;
                      AppDto.MainlineVersion := App.MainlineVersion value;
                      AppDto.CreatedBy := 0;
                      AppDto.CreatedAt := 0;
                      AppDto.UpdatedBy := App.UpdatedBy value;
                      AppDto.UpdatedAt := App.UpdatedAt value;
                      AppDto.AppActivity :=
                        {| AppActivity.Modifier := User.Nickname userRecord;
                           AppActivity.ModifiedAt := App.UpdatedAt value |} |} ])))
      i rows acc st' =
    (Returned (inl (rows, acc ++ listing_from n rows st)), ticks (length rows) st').
Proof.
  induction rows as [|row rows IH]; intros i acc n st st' Hu Hfs Hc.
  - cbn. now rewrite List.app_nil_r.
  - cbn [range_from listing_from length ticks].
    destruct (User_RetrieveByID_at (App.UpdatedBy row) st st' n Hu Hfs Hc) as (uerr & Hrun).
    cbn [repository.User_RetrieveByID UserRepository_Store].
    rewrite (bind_Returned _ _ _ _ _
               (bind_Returned _ _ _ _ _ Hrun : bind _ _ st' = _)).
    rewrite (bind_Returned _ _ _ _ _ (IH (i + 1) _ (S n) st (tick st') Hu Hfs
                                        ltac:(cbn; lia))).
    unfold ret. now rewrite <- List.app_assoc.
Qed.

Lemma GetAllApps_run (st : Store) :
  GetAllApps st =
  match fault st with
  | Some e => (Returned (None, Some e), tick st)
  | None =>
      (Returned (Some (listing_from 1 (app_listing st) st), None),
       ticks (1 + length (app_listing st)) st)
  end.
Proof.
  unfold GetAllApps.
  cbn [repository_crud.App_RetrieveAllByUpdatedTime AppRepository_crud_Store].
  unfold bind at 1. unfold App_RetrieveAllByUpdatedTime.
  destruct (fault st) as [e|] eqn:Hf.
  - now rewrite (port_failed _ _ _ e Hf).
  - rewrite port_ok by assumption. cbn [fst snd]. unfold range.
    rewrite (bind_Returned _ _ _ _ _
               (GetAllApps_loop (app_listing st) 0 [] 1 st (tick st) eq_refl eq_refl
                  ltac:(cbn; lia))).
    reflexivity.
Qed.

Lemma filter_implied {A} (p q : A -> bool) (l : list A) :
  (forall x, p x = true -> q x = true) ->
  List.filter p (List.filter q l) = List.filter p l.
Proof.
  intros H. induction l as [|x l IH]; cbn; [reflexivity |].
  destruct (q x) eqn:Hq; cbn.
  - destruct (p x); now rewrite IH.
  - destruct (p x) eqn:Hp; [| exact IH]. apply H in Hp. congruence.
Qed.

Lemma filter_excluded {A} (p q : A -> bool) (l : list A) :
  (forall x, p x = true -> q x = false) ->
  List.filter p (List.filter q l) = [].
Proof.
  intros H. induction l as [|x l IH]; cbn; [reflexivity |].
  destruct (q x) eqn:Hq; cbn; [| exact IH].
  destruct (p x) eqn:Hp; [| exact IH]. apply H in Hp. congruence.
Qed.

(** X18.  CreateApp returns an error exactly when the insert of the app row
    fails, and then returns the zero summary and stores nothing. Otherwise it
    returns a nil error with the new identifier, the given name and both version
    counters 0 whatever the request carried, whether or not the later user
    lookup and root insert succeed, and the app row is stored under that
    identifier. Users and every other app row are untouched. *)
Theorem CreateApp_fails_only_with_the_app_insert
    (initialComponet : string) (app : AppDto.t) (st : Store) :
  exists dto st',
    CreateApp initialComponet app st = (Returned (dto, fault st), st') /\
    users st' = users st /\
    (forall id, id <> next_id st -> apps st' !! id = apps st !! id) /\
    (fault st <> None ->
     dto = AppDto.zero /\ apps st' = apps st /\ treestates st' = treestates st /\
     next_id st' = next_id st) /\
    (fault st = None ->
     apps st' !! next_id st = Some (created_app app st) /\
     AppDto.ID dto = next_id st /\
     AppDto.Name dto = AppDto.Name app /\
     AppDto.ReleaseVersion dto = 0 /\
     AppDto.MainlineVersion dto = 0).
Proof.
  rewrite CreateApp_run. destruct (fault st) as [e|] eqn:Hf.
  - eexists _, _. split; [reflexivity |]. split; [reflexivity |].
    split; [reflexivity |]. split; [| discriminate].
    intros _. cbn. rewrite List.app_nil_r. repeat split. lia.
  - eexists _, _. split; [reflexivity |]. split; [reflexivity |].
    split; [| split; [congruence |]].
    + intros id Hid. cbn [apps grow with_app]. now rewrite lookup_insert_ne by congruence.
    + intros _. cbn [apps grow with_app]. rewrite lookup_insert_eq. now repeat split.
Qed.

(** X19.  When the app insert succeeds CreateApp reports success even if the
    insert of the root component fails, and then the new app is left without any
    component row. When the root insert succeeds exactly one row is appended:
    the component named root with parent 0, children [] and the initial content,
    in the draft of the new app, created by the request's creator. *)
Theorem CreateApp_drops_the_root_error
    (initialComponet : string) (app : AppDto.t) (st : Store) :
  fault st = None ->
  exists dto st',
    CreateApp initialComponet app st = (Returned (dto, None), st') /\
    (faults st (calls st + 2)%nat = None ->
     treestates st' =
     treestates st ++
     [root_component initialComponet (AppDto.ID dto) (AppDto.CreatedBy app)
        (next_id st + 1) (now st + 2)]) /\
    (faults st (calls st + 2)%nat <> None -> treestates st' = treestates st).
Proof.
  intros Hf. rewrite CreateApp_run, Hf. eexists _, _. split; [reflexivity |].
  cbn [treestates grow with_app created_dto AppDto.ID].
  destruct (faults st (calls st + 2)%nat); split; try congruence.
  intros _. now rewrite List.app_nil_r.
Qed.

(** X20.  UpdateApp returns an error exactly when the store update fails, with
    the zero summary and the app rows unchanged. Otherwise the summary it
    returns is stamped with the current time, and if the app exists a following
    FetchAppByID that succeeds reads back the identifier, name, version counters
    and updater of the request and that time. *)
Theorem UpdateApp_then_FetchAppByID (app : AppDto.t) (st : Store) :
  exists dto st',
    UpdateApp app st = (Returned (dto, fault st), st') /\
    (fault st <> None -> dto = AppDto.zero /\ apps st' = apps st) /\
    (fault st = None ->
     AppDto.UpdatedAt dto = now st /\
     AppActivity.ModifiedAt (AppDto.AppActivity dto) = now st /\
     (apps st !! AppDto.ID app <> None ->
      faults st (calls st + 2)%nat = None ->
      exists again,
        fst (FetchAppByID (AppDto.ID app) st') = Returned (again, None) /\
        AppDto.ID again = AppDto.ID app /\
        AppDto.Name again = AppDto.Name app /\
        AppDto.ReleaseVersion again = AppDto.ReleaseVersion app /\
        AppDto.MainlineVersion again = AppDto.MainlineVersion app /\
        AppDto.UpdatedBy again = AppDto.UpdatedBy app /\
        AppDto.UpdatedAt again = now st)).
Proof.
  rewrite UpdateApp_run. destruct (fault st) as [e|] eqn:Hf.
  - eexists _, _. split; [reflexivity |]. split; [| discriminate]. now intros _.
  - eexists _, _. split; [reflexivity |]. split; [congruence |]. intros _.
    split; [reflexivity |]. split; [reflexivity |]. intros Hrow Hfc.
    destruct (apps st !! AppDto.ID app) as [old|] eqn:Hold; [| congruence].
    rewrite FetchAppByID_run.
    assert (Hfs : fault (set_apps (<[AppDto.ID app := updated_app app st]> (apps st))
                           (grow [] [] [] [] 1 2 st)) = None) by exact Hfc.
    rewrite Hfs. cbn [apps set_apps]. rewrite lookup_insert_eq.
    eexists. split; [reflexivity |]. now repeat split.
Qed.

(** X21.  UpdateAppModifyTime stamps the caller's summary with the current time
    even when the store write fails; the write's error is returned and the app
    rows are then unchanged. On success, on a store whose UpdateUpdatedAt
    rewrites the updater and the update time of a row, the stored row gets the
    request's updater and that time and keeps its name, version counters and
    creator fields; no other app row and no user changes. *)
Theorem UpdateAppModifyTime_stamps_the_request_even_on_failure
    (app : AppDto.t) (st : Store) :
  exists st',
    UpdateAppModifyTime app st = (Returned (stamped app st, fault st), st') /\
    users st' = users st /\
    (forall id, id <> AppDto.ID app -> apps st' !! id = apps st !! id) /\
    (fault st <> None -> apps st' = apps st) /\
    (fault st = None ->
     forall old, apps st !! AppDto.ID app = Some old ->
     exists row,
       apps st' !! AppDto.ID app = Some row /\
       App.UpdatedBy row = AppDto.UpdatedBy app /\
       App.UpdatedAt row = now st /\
       App.Name row = App.Name old /\
       App.ReleaseVersion row = App.ReleaseVersion old /\
       App.MainlineVersion row = App.MainlineVersion old /\
       App.CreatedBy row = App.CreatedBy old /\
       App.CreatedAt row = App.CreatedAt old).
Proof.
  rewrite UpdateAppModifyTime_run. eexists. split; [reflexivity |].
  destruct (fault st) as [e|] eqn:Hf.
  - split; [reflexivity |]. split; [reflexivity |]. split; [| discriminate]. now intros _.
  - destruct (apps st !! AppDto.ID app) as [old|] eqn:Hold.
    + split; [reflexivity |]. split; [| split; [congruence |]].
      * intros id Hid. cbn [apps set_apps]. now rewrite lookup_insert_ne by congruence.
      * intros _ old' [= <-]. cbn [apps set_apps]. rewrite lookup_insert_eq.
        eexists. split; [reflexivity |]. now repeat split.
    + split; [reflexivity |]. split; [reflexivity |]. split; [congruence |].
      intros _ old' [=].
Qed.

(** X22.  DeleteApp always makes its five delete calls and returns the outcome
    of the fifth, the delete of the app row, alone: failures of the tree,
    key-value, action and set deletes are dropped (a failed tree delete leaves
    every tree row in place). Users and rows of other apps are never touched. On
    a store whose deletes remove the rows of the app, when all five calls
    succeed the app row is gone and every scope of the app is empty. *)
Theorem DeleteApp_reports_only_the_app_delete (appID : Z) (st : Store) :
  exists st',
    DeleteApp appID st = (Returned (faults st (calls st + 4)%nat), st') /\
    calls st' = (calls st + 5)%nat /\
    users st' = users st /\
    (forall id, id <> appID -> apps st' !! id = apps st !! id) /\
    (forall a v, a <> appID -> same_reads a v st st') /\
    (fault st <> None -> treestates st' = treestates st) /\
    (no_faults st 5 -> apps st' !! appID = None /\ forall v, empty_scope appID v st').
Proof.
  rewrite DeleteApp_run. eexists. split; [reflexivity |]. split; [reflexivity |].
  split; [reflexivity |]. split; [| split; [| split]].
  - intros id Hid. cbn [apps deleted]. unfold unless_failed.
    destruct (faults st _); [reflexivity |]. now rewrite lookup_delete_ne by congruence.
  - intros a v Ha. unfold same_reads. cbn [treestates kvstates setstates actions deleted].
    unfold unless_failed.
    repeat split; destruct (faults st _); try reflexivity; apply filter_implied;
      intros x Hx; apply andb_true_iff in Hx as (Hx & _); apply negb_true_iff; lia.
  - intros Hf. cbn [treestates deleted]. unfold unless_failed, fault in *.
    replace (calls st + 0)%nat with (calls st) by lia.
    destruct (faults st (calls st)); [reflexivity | congruence].
  - intros Hok. split.
    { cbn [apps deleted]. unfold unless_failed. rewrite Hok by lia.
      apply lookup_delete_eq. }
    intros v. unfold empty_scope. cbn [treestates kvstates setstates actions deleted].
    unfold unless_failed. rewrite !Hok by lia.
    repeat split; apply filter_excluded;
      intros x Hx; apply andb_true_iff in Hx as (Hx & _); apply negb_false_iff; lia.
Qed.

Lemma listing_summary (rows : list App.t) (st : Store) :
  forall n,
    Forall2 (fun row dto =>
               summary_of row dto /\
               AppActivity.ModifiedAt (AppDto.AppActivity dto) = App.UpdatedAt row /\
               (AppActivity.Modifier (AppDto.AppActivity dto) = EmptyString \/
                AppActivity.Modifier (AppDto.AppActivity dto) =
                User.Nickname (default User.zero (users st !! App.UpdatedBy row))))
      rows (listing_from n rows st).
Proof.
  induction rows as [|row rows IH]; intros n; cbn [listing_from]; constructor; [| apply IH].
  split; [now repeat split |]. split; [reflexivity |].
  cbn. unfold user_at. destruct (faults st _); [now left | now right].
Qed.

Lemma listing_modifiers (rows : list App.t) (st : Store) :
  forall n,
    (forall c, (calls st + n <= c < calls st + n + length rows)%nat -> faults st c = None) ->
    map (fun dto => AppActivity.Modifier (AppDto.AppActivity dto)) (listing_from n rows st) =
    map (fun row => User.Nickname (default User.zero (users st !! App.UpdatedBy row))) rows.
Proof.
  induction rows as [|row rows IH]; intros n Hok; cbn [listing_from map]; [reflexivity |].
  rewrite IH by (intros c Hc; apply Hok; cbn [length]; lia).
  f_equal. cbn. unfold user_at. now rewrite Hok by (cbn [length]; lia).
Qed.

(** X23.  If the listing call fails GetAllApps returns a nil slice and that
    error after this one call. Otherwise it returns a nil error and one summary
    per listed row, in the listing's order, after one user lookup per row: the
    row's identifier, name, counters, updater and update time, zero creator
    fields, the update time as modification time, and as modifier the updater's
    nickname, or the empty string when the lookup fails or the user is unknown. *)
Theorem GetAllApps_lists_every_row_it_reads (st : Store) :
  (forall e, fault st = Some e -> GetAllApps st = (Returned (None, Some e), tick st)) /\
  (fault st = None ->
   exists dtos,
     GetAllApps st =
     (Returned (Some dtos, None), ticks (1 + length (app_listing st)) st) /\
     Forall2 (fun row dto =>
                summary_of row dto /\
                AppActivity.ModifiedAt (AppDto.AppActivity dto) = App.UpdatedAt row /\
                (AppActivity.Modifier (AppDto.AppActivity dto) = EmptyString \/
                 AppActivity.Modifier (AppDto.AppActivity dto) =
                 User.Nickname (default User.zero (users st !! App.UpdatedBy row))))
       (app_listing st) dtos /\
     (no_faults st (1 + length (app_listing st)) ->
      map (fun dto => AppActivity.Modifier (AppDto.AppActivity dto)) dtos =
      map (fun row => User.Nickname (default User.zero (users st !! App.UpdatedBy row)))
        (app_listing st))).
Proof.
  rewrite GetAllApps_run. split.
  - now intros e ->.
  - intros ->. eexists. split; [reflexivity |]. split; [apply listing_summary |].
    intros Hok. apply listing_modifiers. intros c Hc. apply Hok. lia.
Qed.

Section FreshApp.

Context {ComponentNode JsonObject : Type}.
Variable buildComponentTree :
  TreeState.t -> gmap Z TreeState.t -> option ComponentNode ->
  option ComponentNode * option error.
Variable Unmarshal_strings : string -> list string * option error.
Variable Unmarshal_object : string -> JsonObject * option error.

(** X24.  From a store whose identifiers it generated and with no failing call,
    an app created by CreateApp under a serial no row refers to yet reads back:
    FetchAppByID on the new identifier gives the stored name, counters, updater
    and update time with zero creator fields, and GetMegaData on its draft gives
    a document whose component tree is built from the single root row, with no
    actions, three empty maps and no display names. *)
Theorem a_created_app_opens_with_only_its_root
    (initialComponet : string) (app : AppDto.t) (st : Store) :
  no_faults st 11 ->
  store_wf st ->
  empty_scope (next_id st) APP_EDIT_VERSION st ->
  exists dto st' again doc,
    CreateApp initialComponet app st = (Returned (dto, None), st') /\
    fst (FetchAppByID (AppDto.ID dto) st') = Returned (again, None) /\
    summary_of (created_app app st) again /\
    fst (GetMegaData buildComponentTree Unmarshal_strings Unmarshal_object
           (AppDto.ID dto) APP_EDIT_VERSION st') = Returned (doc, None) /\
    AppDto.Name (Editor.AppInfo doc) = AppDto.Name app /\
    (let root := root_component initialComponet (AppDto.ID dto) (AppDto.CreatedBy app)
                   (next_id st + 1) (now st + 2) in
     Editor.Components doc =
     fst (buildComponentTree root {[ TreeState.ID root := root ]} None)) /\
    Editor.Actions doc = Some [] /\
    Editor.DependenciesState doc = Some ∅ /\
    Editor.DragShadowState doc = Some ∅ /\
    Editor.DottedLineSquareState doc = Some ∅ /\
    Editor.DisplayNameState doc = Some [].
Proof.
  intros Hok Hwf (Et & Ek & Es & Ea).
  assert (Hf : fault st = None) by (apply Hok; lia).
  rewrite CreateApp_run, Hf, (Hok (calls st + 2)%nat) by lia.
  set (root := root_component initialComponet (next_id st) (AppDto.CreatedBy app)
                 (next_id st + 1) (now st + 2)).
  set (st' := grow [root] [] [] [] 4 3 (with_app (created_app app st) 0 0 st)).
  assert (Hrow : apps st' !! next_id st = Some (created_app app st))
    by (cbn [apps st' grow with_app]; apply lookup_insert_eq).
  assert (Hok' : no_faults st' 8) by (intros c Hc; cbn in Hc; apply Hok; lia).
  assert (Hacts : retrieved_actions (next_id st) APP_EDIT_VERSION st' = []).
  { unfold retrieved_actions. cbn [actions st' grow with_app].
    now rewrite List.app_nil_r. }
  assert (Hkv : forall kind, retrieved_kvstates (next_id st) kind APP_EDIT_VERSION st' = []).
  { intros kind. unfold retrieved_kvstates. cbn [kvstates st' grow with_app].
    rewrite List.app_nil_r. now apply filter_and_nil. }
  assert (Hset : retrieved_setstates (next_id st) SET_STATE_TYPE_DISPLAY_NAME
                   APP_EDIT_VERSION st' = []).
  { unfold retrieved_setstates. cbn [setstates st' grow with_app].
    rewrite List.app_nil_r.
    exact (filter_and_nil (SetState_in (next_id st) APP_EDIT_VERSION) _ _ Es). }
  assert (Htree : retrieved_components (next_id st) APP_EDIT_VERSION st' = [root]).
  { unfold retrieved_components. cbn [treestates st' grow with_app].
    rewrite List.filter_app, (filter_and_nil _ _ _ Et). cbn [Datatypes.app List.filter].
    unfold TreeState_in. cbn [root root_component TreeState.AppRefID TreeState.Version
                              TreeState.StateType].
    now rewrite !Z.eqb_refl. }
  exists (created_dto app st), st', (fetched (created_app app st)),
    (document buildComponentTree Unmarshal_strings Unmarshal_object
       (created_app app st) (next_id st) APP_EDIT_VERSION st').
  cbn [created_dto AppDto.ID].
  split; [reflexivity |]. split; [| split; [now repeat split | split]].
  - rewrite FetchAppByID_run, (no_faults_fault _ _ Hok'), Hrow. reflexivity.
  - rewrite (GetMegaData_healthy buildComponentTree Unmarshal_strings Unmarshal_object
               (next_id st) APP_EDIT_VERSION st' (created_app app st)); try reflexivity;
      try assumption.
    + cbn [created_app App.ID]. destruct Hwf as (Hpos & _). lia.
    + rewrite Hacts. constructor.
  - unfold document.
    cbn [Editor.AppInfo Editor.Actions Editor.Components Editor.DependenciesState
         Editor.DragShadowState Editor.DottedLineSquareState Editor.DisplayNameState
         AppDto.Name created_app App.Name].
    rewrite Hacts, !Hkv, Hset, Htree. now repeat split.
Qed.

End FreshApp.

End AppCrudFacts.

(** ** ConstructByMap *)

Section RequestFacts.

Variable int_of_unrepresentable : spec_float -> Z.
Variable range_order : gmap string any -> list (string * any).

Lemma AppDto_ext (a b : AppDto.t) :
  AppDto.ID a = AppDto.ID b -> AppDto.Name a = AppDto.Name b ->
  AppDto.ReleaseVersion a = AppDto.ReleaseVersion b ->
  AppDto.MainlineVersion a = AppDto.MainlineVersion b ->
  AppDto.CreatedBy a = AppDto.CreatedBy b -> AppDto.CreatedAt a = AppDto.CreatedAt b ->
  AppDto.UpdatedBy a = AppDto.UpdatedBy b -> AppDto.UpdatedAt a = AppDto.UpdatedAt b ->
  AppDto.AppActivity a = AppDto.AppActivity b -> a = b.
Proof. destruct a, b; cbn; intros; subst; reflexivity. Qed.

Lemma ConstructByMap_turn_fields (appd : AppDto.t) (k : string) (v : any) :
  let r := ConstructByMap_turn int_of_unrepresentable appd (k, v) in
  AppDto.ID r =
    (if String.eqb k "id"
     then match v with
          | any_float64 f => int_of_float64 int_of_unrepresentable f
          | _ => 0
          end
     else AppDto.ID appd) /\
  AppDto.Name r =
    (if String.eqb k "name"
     then match v with any_string s => s | _ => EmptyString end
     else AppDto.Name appd) /\
  AppDto.ReleaseVersion r = AppDto.ReleaseVersion appd /\
  AppDto.MainlineVersion r = AppDto.MainlineVersion appd /\
  AppDto.CreatedBy r = AppDto.CreatedBy appd /\
  AppDto.CreatedAt r = AppDto.CreatedAt appd /\
  AppDto.UpdatedBy r = AppDto.UpdatedBy appd /\
  AppDto.UpdatedAt r = AppDto.UpdatedAt appd /\
  AppDto.AppActivity r = AppDto.AppActivity appd.
Proof.
  cbn [ConstructByMap_turn].
  destruct (String.eqb k "id") eqn:Hid.
  - apply String.eqb_eq in Hid as ->. cbn. repeat split. now destruct v.
  - destruct (String.eqb k "name") eqn:Hname; cbn; now repeat split.
Qed.

(** The loop over entries with distinct keys, in any order. *)
Lemma ConstructByMap_loop (entries : list (string * any)) :
  List.NoDup (map fst entries) ->
  forall appd,
    let r := fold_left (ConstructByMap_turn int_of_unrepresentable) entries appd in
    (forall v, In ("id"%string, v) entries ->
               AppDto.ID r = match v with
                             | any_float64 f => int_of_float64 int_of_unrepresentable f
                             | _ => 0
                             end) /\
    (~ In "id"%string (map fst entries) -> AppDto.ID r = AppDto.ID appd) /\
    (forall v, In ("name"%string, v) entries ->
               AppDto.Name r = match v with any_string s => s | _ => EmptyString end) /\
    (~ In "name"%string (map fst entries) -> AppDto.Name r = AppDto.Name appd) /\
    AppDto.ReleaseVersion r = AppDto.ReleaseVersion appd /\
    AppDto.MainlineVersion r = AppDto.MainlineVersion appd /\
    AppDto.CreatedBy r = AppDto.CreatedBy appd /\
    AppDto.CreatedAt r = AppDto.CreatedAt appd /\
    AppDto.UpdatedBy r = AppDto.UpdatedBy appd /\
    AppDto.UpdatedAt r = AppDto.UpdatedAt appd /\
    AppDto.AppActivity r = AppDto.AppActivity appd.
Proof.
  induction entries as [|[k v] entries IH]; intros Hnd appd.
  - cbn. repeat split; try tauto; intros ? [].
  - cbn [fold_left]. cbn [map fst] in Hnd. inversion Hnd as [|? ? Hnotin Hnd']; subst.
    destruct (IH Hnd' (ConstructByMap_turn int_of_unrepresentable appd (k, v)))
      as (I1 & I2 & N1 & N2 & R1 & R2 & R3 & R4 & R5 & R6 & R7).
    destruct (ConstructByMap_turn_fields appd k v)
      as (T1 & T2 & T3 & T4 & T5 & T6 & T7 & T8 & T9).
    cbv zeta in *.
    split; [| split; [| split; [| split]]].
    + intros v0 [[= -> ->] | Hin].
      * rewrite I2, T1 by exact Hnotin. reflexivity.
      * now apply I1.
    + intros Hno. cbn [map fst In] in Hno.
      rewrite I2, T1 by tauto.
      destruct (String.eqb k "id") eqn:Hk; [| reflexivity].
      apply String.eqb_eq in Hk. tauto.
    + intros v0 [[= -> ->] | Hin].
      * rewrite N2, T2 by exact Hnotin. reflexivity.
      * now apply N1.
    + intros Hno. cbn [map fst In] in Hno.
      rewrite N2, T2 by tauto.
      destruct (String.eqb k "name") eqn:Hk; [| reflexivity].
      apply String.eqb_eq in Hk. tauto.
    + repeat split; congruence.
Qed.

(** X25.  For a map argument, in whatever order the range loop visits the
    entries (each entry once), ConstructByMap sets the identifier to the
    truncated float64 under the key id (0 if the value is not a float64,
    unchanged if the key is absent) and the name to the string under the key
    name (empty if the value is not a string, unchanged if the key is absent);
    every other field is kept and every other key ignored. *)
Theorem ConstructByMap_does_not_depend_on_the_visiting_order
    (appd : AppDto.t) (udata : gmap string any) :
  Permutation (range_order udata) (map_to_list udata) ->
  ConstructByMap int_of_unrepresentable range_order appd (any_map udata) =
  constructed int_of_unrepresentable appd udata.
Proof.
  intros Hperm. cbn [ConstructByMap].
  assert (Hnd : List.NoDup (map fst (range_order udata))).
  { apply NoDup_ListNoDup. rewrite Hperm. apply NoDup_fst_map_to_list. }
  assert (Hin : forall k v, In (k, v) (range_order udata) <-> udata !! k = Some v).
  { intros k v. rewrite <- list_elem_of_In, Hperm. apply elem_of_map_to_list. }
  assert (Hout : forall k, udata !! k = None -> ~ In k (map fst (range_order udata))).
  { intros k Hk Hink. apply in_map_iff in Hink as ([k' v] & Heq & Hink).
    cbn in Heq. subst k'. apply Hin in Hink. congruence. }
  destruct (ConstructByMap_loop (range_order udata) Hnd appd)
    as (I1 & I2 & N1 & N2 & R1 & R2 & R3 & R4 & R5 & R6 & R7).
  cbv zeta in *.
  apply AppDto_ext; cbn [constructed AppDto.ID AppDto.Name AppDto.ReleaseVersion
    AppDto.MainlineVersion AppDto.CreatedBy AppDto.CreatedAt AppDto.UpdatedBy
    AppDto.UpdatedAt AppDto.AppActivity]; try assumption.
  - destruct (udata !! "id"%string) as [v|] eqn:Hid.
    + rewrite (I1 v) by now apply Hin. now destruct v.
    + now apply I2, Hout.
  - destruct (udata !! "name"%string) as [v|] eqn:Hname.
    + rewrite (N1 v) by now apply Hin. now destruct v.
    + now apply N2, Hout.
Qed.

End RequestFacts.

(** ** Concrete runs of the fuller app *)

Import Mem StoreSpec TreeCloneSpec GrowSpec FlatCloneSpec TreeRunSpec CoordinatorSpec.
Import SnapshotSpec AppCrudSpec.

Lemma studio_never_fails : never_fails (Studio.store []).
Proof. intros c. reflexivity. Qed.

Lemma studio_fault_free (n : nat) : no_faults (Studio.store []) n.
Proof. intros c _. reflexivity. Qed.

Lemma studio_store_wf (failing : list nat) : store_wf (Studio.store failing).
Proof.
  split; [reflexivity |]. split.
  - intros row [<- | [<- | [<- | []]]]; cbn; lia.
  - cbn. repeat constructor; cbn; intuition lia.
Qed.

(** Up to the call [n], only the calls listed fail. *)
Lemma studio_faults_before (failing : list nat) (n : nat) :
  forallb (fun c => n <=? c)%nat failing = true -> no_faults (Studio.store failing) n.
Proof.
  intros Hall c Hc. cbn in Hc |- *.
  destruct (existsb (Nat.eqb c) failing) eqn:Hex; [| reflexivity].
  apply existsb_exists in Hex as (x & Hin & Heq). apply Nat.eqb_eq in Heq as <-.
  rewrite forallb_forall in Hall. specialize (Hall c Hin). apply Nat.leb_le in Hall. lia.
Qed.

Lemma studio_types (failing : list nat) (appID version : Z) :
  Forall type_in_range (retrieved_actions appID version (Studio.store failing)).
Proof.
  unfold retrieved_actions. apply List.Forall_forall. intros row Hin.
  apply filter_In in Hin as (Hin & _).
  destruct Hin as [<- | [<- | []]]; unfold type_in_range; cbn; lia.
Qed.

Lemma convertLink_composes_witness :
  convertLink (convertLink "[1,2,4]" (<[1 := 10]> (<[2 := 11]> ∅)))
    (<[10 := 20]> (<[11 := 21]> ∅)) =
  convertLink "[1,2,4]" (<[1 := 20]> (<[2 := 21]> ∅)).
Proof.
  apply (convertLink_composes "[1,2,4]" (<[1 := 10]> (<[2 := 11]> ∅))
           (<[10 := 20]> (<[11 := 21]> ∅)) (<[1 := 20]> (<[2 := 21]> ∅))).
  - intros old new Hlook.
    destruct (decide (old = 1)) as [->|H1].
    + rewrite lookup_insert_eq in Hlook. injection Hlook as <-.
      unfold is_int, MinInt64, MaxInt64. lia.
    + rewrite lookup_insert_ne in Hlook by congruence.
      destruct (decide (old = 2)) as [->|H2].
      * rewrite lookup_insert_eq in Hlook. injection Hlook as <-.
        unfold is_int, MinInt64, MaxInt64. lia.
      * rewrite lookup_insert_ne in Hlook by congruence.
        rewrite lookup_empty in Hlook. discriminate.
  - vm_compute. repeat constructor.
Defined.

Import FlatCloneFacts TreeStopFacts CoordinatorFacts SnapshotFacts AppCrudFacts.

Lemma kv_clone_copies_every_draft_row_witness :
  (exists clones,
     copyAllKVState 5 7 9 (Studio.store []) =
     (Returned None, grow [] clones [] [] 8 5 (Studio.store [])) /\
     Forall2 (kv_copied 7 9 100) (kv_source 5 (Studio.store [])) clones /\
     numbered_from KVState.ID 20 clones) /\
  (exists clones,
     releaseKVStateByApp (AppDto_of_ID_MainlineVersion 5 1) (Studio.store []) =
     (Returned None, grow [] clones [] [] 0 5 (Studio.store [])) /\
     Forall2 (kv_released 1) (kv_source 5 (Studio.store [])) clones /\
     numbered_from KVState.ID 20 clones).
Proof.
  apply (kv_clone_copies_every_draft_row 5 7 9 (AppDto_of_ID_MainlineVersion 5 1)
           (Studio.store [])).
  - apply studio_fault_free.
  - reflexivity.
Defined.

Lemma set_clone_copies_every_draft_row_witness :
  (exists clones,
     copyAllSetState 5 7 9 (Studio.store []) =
     (Returned None, grow [] [] clones [] 4 3 (Studio.store [])) /\
     Forall2 (set_copied 7 9 100) (set_source 5 (Studio.store [])) clones /\
     numbered_from SetState.ID 20 clones) /\
  (exists clones,
     releaseSetStateByApp (AppDto_of_ID_MainlineVersion 5 1) (Studio.store []) =
     (Returned None, grow [] [] clones [] 0 3 (Studio.store [])) /\
     Forall2 (set_released 1) (set_source 5 (Studio.store [])) clones /\
     numbered_from SetState.ID 20 clones).
Proof.
  apply (set_clone_copies_every_draft_row 5 7 9 (AppDto_of_ID_MainlineVersion 5 1)
           (Studio.store [])).
  - apply studio_fault_free.
  - reflexivity.
Defined.

Lemma action_clone_copies_every_draft_row_witness :
  (exists clones,
     copyActions 5 7 9 (Studio.store []) =
     (Returned None, grow [] [] [] clones 4 3 (Studio.store [])) /\
     Forall2 (action_copied 7 9 100) (action_source 5 (Studio.store [])) clones /\
     numbered_from repository.Action.ID 20 clones) /\
  (exists clones,
     releaseActionsByApp (AppDto_of_ID_MainlineVersion 5 1) (Studio.store []) =
     (Returned None, grow [] [] [] clones 0 3 (Studio.store [])) /\
     Forall2 (action_released 1) (action_source 5 (Studio.store [])) clones /\
     numbered_from repository.Action.ID 20 clones).
Proof.
  apply (action_clone_copies_every_draft_row 5 7 9 (AppDto_of_ID_MainlineVersion 5 1)
           (Studio.store [])).
  - apply studio_fault_free.
  - reflexivity.
Defined.

Lemma kv_clone_keeps_rows_inserted_before_a_failure_witness :
  (exists clones,
     copyAllKVState 5 7 9 (Studio.store [3%nat]) =
     (Returned (Some Demo.disk_full), grow [] clones [] [] 8 4 (Studio.store [3%nat])) /\
     Forall2 (kv_copied 7 9 100) (firstn 2 (kv_source 5 (Studio.store [3%nat]))) clones) /\
  (exists clones,
     releaseKVStateByApp (AppDto_of_ID_MainlineVersion 5 1) (Studio.store [3%nat]) =
     (Returned (Some Demo.disk_full), grow [] clones [] [] 0 4 (Studio.store [3%nat])) /\
     Forall2 (kv_released 1) (firstn 2 (kv_source 5 (Studio.store [3%nat]))) clones).
Proof.
  apply (kv_clone_keeps_rows_inserted_before_a_failure 5 7 9
           (AppDto_of_ID_MainlineVersion 5 1) (Studio.store [3%nat]) 2 Demo.disk_full).
  - cbn. lia.
  - now apply studio_faults_before.
  - reflexivity.
  - reflexivity.
Defined.

Lemma set_clone_keeps_rows_inserted_before_a_failure_witness :
  (exists clones,
     copyAllSetState 5 7 9 (Studio.store [2%nat]) =
     (Returned (Some Demo.disk_full), grow [] [] clones [] 4 3 (Studio.store [2%nat])) /\
     Forall2 (set_copied 7 9 100) (firstn 1 (set_source 5 (Studio.store [2%nat]))) clones) /\
  (exists clones,
     releaseSetStateByApp (AppDto_of_ID_MainlineVersion 5 1) (Studio.store [2%nat]) =
     (Returned (Some Demo.disk_full), grow [] [] clones [] 0 3 (Studio.store [2%nat])) /\
     Forall2 (set_released 1) (firstn 1 (set_source 5 (Studio.store [2%nat]))) clones).
Proof.
  apply (set_clone_keeps_rows_inserted_before_a_failure 5 7 9
           (AppDto_of_ID_MainlineVersion 5 1) (Studio.store [2%nat]) 1 Demo.disk_full).
  - cbn. lia.
  - now apply studio_faults_before.
  - reflexivity.
  - reflexivity.
Defined.

Lemma action_clone_keeps_rows_inserted_before_a_failure_witness :
  (exists clones,
     copyActions 5 7 9 (Studio.store [2%nat]) =
     (Returned (Some Demo.disk_full), grow [] [] [] clones 4 3 (Studio.store [2%nat])) /\
     Forall2 (action_copied 7 9 100)
       (firstn 1 (action_source 5 (Studio.store [2%nat]))) clones) /\
  (exists clones,
     releaseActionsByApp (AppDto_of_ID_MainlineVersion 5 1) (Studio.store [2%nat]) =
     (Returned (Some Demo.disk_full), grow [] [] [] clones 0 3 (Studio.store [2%nat])) /\
     Forall2 (action_released 1)
       (firstn 1 (action_source 5 (Studio.store [2%nat]))) clones).
Proof.
  apply (action_clone_keeps_rows_inserted_before_a_failure 5 7 9
           (AppDto_of_ID_MainlineVersion 5 1) (Studio.store [2%nat]) 1 Demo.disk_full).
  - cbn. lia.
  - now apply studio_faults_before.
  - reflexivity.
  - reflexivity.
Defined.

Lemma tree_clone_stops_relinking_at_a_failed_update_witness :
  (exists relinked rest,
     copyAllTreeState 5 7 9 (Studio.store [5%nat]) =
     (Returned (Some Demo.disk_full),
      grow (relinked ++ rest) [] [] [] 6 6 (Studio.store [5%nat])) /\
     Forall2 (relinked_by (<[1 := 20]> (<[2 := 21]> (<[3 := 22]> ∅))))
       (firstn 1 (tree_source 5 (Studio.store [5%nat]))) relinked /\
     Forall2 unrelinked (skipn 1 (tree_source 5 (Studio.store [5%nat]))) rest /\
     Forall (fun row => TreeState_in 7 APP_EDIT_VERSION row = true) rest) /\
  (exists relinked rest,
     releaseTreeStateByApp (AppDto_of_ID_MainlineVersion 5 1) (Studio.store [5%nat]) =
     (Returned (Some Demo.disk_full),
      grow (relinked ++ rest) [] [] [] 0 6 (Studio.store [5%nat])) /\
     Forall2 (relinked_by (<[1 := 20]> (<[2 := 21]> (<[3 := 22]> ∅))))
       (firstn 1 (tree_source 5 (Studio.store [5%nat]))) relinked /\
     Forall2 unrelinked (skipn 1 (tree_source 5 (Studio.store [5%nat]))) rest /\
     Forall (fun row => TreeState_in 5 1 row = true) rest).
Proof.
  apply (tree_clone_stops_relinking_at_a_failed_update 5 7 9
           (AppDto_of_ID_MainlineVersion 5 1) (Studio.store [5%nat]) 1 Demo.disk_full).
  - apply studio_store_wf.
  - cbn. lia.
  - now apply studio_faults_before.
  - reflexivity.
  - reflexivity.
Defined.

Lemma ReleaseApp_touches_only_the_new_version_witness :
  exists n st',
    ReleaseApp 5 (Studio.store [3%nat]) = (Returned (n, None), st') /\
    (forall a v, (a, v) <> (5, int_add 0 1) -> same_reads a v (Studio.store [3%nat]) st') /\
    users st' = users (Studio.store [3%nat]) /\
    (forall id, id <> 5 -> apps st' !! id = apps (Studio.store [3%nat]) !! id) /\
    store_wf st'.
Proof.
  apply (ReleaseApp_touches_only_the_new_version 5 (Studio.store [3%nat]) Demo.app5).
  - apply studio_store_wf.
  - reflexivity.
Defined.

Lemma DuplicateApp_touches_only_the_new_app_witness :
  exists appB err st',
    DuplicateApp 5 1 "B" (Studio.store [3%nat]) = (Returned (appB, err), st') /\
    (forall a v, (a, v) <> (20, APP_EDIT_VERSION) -> same_reads a v (Studio.store [3%nat]) st') /\
    users st' = users (Studio.store [3%nat]) /\
    (forall id, id <> 20 -> apps st' !! id = apps (Studio.store [3%nat]) !! id) /\
    store_wf st'.
Proof.
  apply (DuplicateApp_touches_only_the_new_app 5 1 "B" (Studio.store [3%nat])).
  apply studio_store_wf.
Defined.

Lemma kv_maps_keep_the_last_row_of_a_key_witness :
  (exists resMap,
     formatDependenciesState Demo.no_strings 5 0 (Studio.store []) =
     (Returned (Some resMap, None), tick (Studio.store [])) /\
     forall key,
       resMap !! key =
       option_map (fun row => fst (Demo.no_strings (KVState.Value row)))
         (last_such (fun row => String.eqb (KVState.Key row) key)
            (retrieved_kvstates 5 KV_STATE_TYPE_DEPENDENCIES 0 (Studio.store [])))) /\
  (exists resMap,
     formatDragShadowState Demo.no_object 5 0 (Studio.store []) =
     (Returned (Some resMap, None), tick (Studio.store [])) /\
     forall key,
       resMap !! key =
       option_map (fun row => IfaceObject (fst (Demo.no_object (KVState.Value row))))
         (last_such (fun row => String.eqb (KVState.Key row) key)
            (retrieved_kvstates 5 KV_STATE_TYPE_DRAG_SHADOW 0 (Studio.store [])))).
Proof.
  apply (kv_maps_keep_the_last_row_of_a_key Demo.no_strings Demo.no_object 5 0
           (Studio.store [])).
  reflexivity.
Defined.

Lemma formatComponents_builds_from_the_last_root_witness :
  exists tempMap,
    formatComponents Demo.no_components 5 0 (Studio.store []) =
    (Returned
       (fst (Demo.no_components
               (default TreeState.zero
                  (last_such
                     (fun row => String.eqb (TreeState.Name row) TREE_STATE_SUMMIT_NAME)
                     (retrieved_components 5 0 (Studio.store []))))
               tempMap None), None), tick (Studio.store [])) /\
    forall id,
      tempMap !! id =
      last_such (fun row => TreeState.ID row =? id)
        (retrieved_components 5 0 (Studio.store [])).
Proof.
  apply (formatComponents_builds_from_the_last_root Demo.no_components 5 0 (Studio.store [])).
  - reflexivity.
  - discriminate.
Defined.

Lemma GetMegaData_assembles_the_retrieved_rows_witness :
  GetMegaData Demo.no_components Demo.no_strings Demo.no_object 5 0 (Studio.store []) =
  (Returned (document Demo.no_components Demo.no_strings Demo.no_object
               Demo.app5 5 0 (Studio.store []), None), ticks 8 (Studio.store [])).
Proof.
  apply (GetMegaData_assembles_the_retrieved_rows Demo.no_components Demo.no_strings
           Demo.no_object 5 0 (Studio.store []) Demo.app5).
  - apply studio_fault_free.
  - reflexivity.
  - discriminate.
  - reflexivity.
  - apply studio_types.
Defined.

Lemma released_version_shows_the_draft_witness :
  exists st' draft snapshot,
    ReleaseApp 5 (Studio.store []) = (Returned (int_add 0 1, None), st') /\
    fst (GetMegaData Demo.no_components Demo.no_strings Demo.no_object
           5 APP_EDIT_VERSION (Studio.store [])) = Returned (draft, None) /\
    fst (GetMegaData Demo.no_components Demo.no_strings Demo.no_object
           5 (int_add 0 1) st') = Returned (snapshot, None) /\
    same_state draft snapshot /\
    AppDto.MainlineVersion (Editor.AppInfo snapshot) = int_add 0 1 /\
    AppDto.ReleaseVersion (Editor.AppInfo snapshot) = int_add 0 1.
Proof.
  apply (released_version_shows_the_draft Demo.no_components Demo.no_strings Demo.no_object
           5 (Studio.store []) Demo.app5).
  - apply studio_never_fails.
  - apply studio_store_wf.
  - reflexivity.
  - reflexivity.
  - discriminate.
  - reflexivity.
  - repeat split; vm_compute; reflexivity.
  - apply studio_types.
Defined.

Lemma duplicate_shows_the_source_witness :
  exists appB st' source copy,
    DuplicateApp 5 1 "B" (Studio.store []) = (Returned (appB, None), st') /\
    AppDto.ID appB = 20 /\
    fst (GetMegaData Demo.no_components Demo.no_strings Demo.no_object
           5 APP_EDIT_VERSION (Studio.store [])) = Returned (source, None) /\
    fst (GetMegaData Demo.no_components Demo.no_strings Demo.no_object
           (AppDto.ID appB) APP_EDIT_VERSION st') = Returned (copy, None) /\
    same_state source copy /\
    AppDto.Name (Editor.AppInfo copy) = "B"%string /\
    AppDto.MainlineVersion (Editor.AppInfo copy) = 0 /\
    AppDto.ReleaseVersion (Editor.AppInfo copy) = 0.
Proof.
  apply (duplicate_shows_the_source Demo.no_components Demo.no_strings Demo.no_object
           5 1 "B" (Studio.store []) Demo.app5).
  - apply studio_never_fails.
  - apply studio_store_wf.
  - reflexivity.
  - discriminate.
  - reflexivity.
  - repeat split; vm_compute; reflexivity.
  - apply studio_types.
Defined.

Lemma CreateApp_drops_the_root_error_witness :
  exists dto st',
    CreateApp "{}" Studio.request (Studio.store [2%nat]) = (Returned (dto, None), st') /\
    (faults (Studio.store [2%nat]) 2%nat = None ->
     treestates st' =
     treestates (Studio.store [2%nat]) ++
     [root_component "{}" (AppDto.ID dto) 1 21 102]) /\
    (faults (Studio.store [2%nat]) 2%nat <> None ->
     treestates st' = treestates (Studio.store [2%nat])).
Proof.
  apply (CreateApp_drops_the_root_error "{}" Studio.request (Studio.store [2%nat])).
  reflexivity.
Defined.

Lemma a_created_app_opens_with_only_its_root_witness :
  exists dto st' again doc,
    CreateApp "{}" Studio.request (Studio.store []) = (Returned (dto, None), st') /\
    fst (FetchAppByID (AppDto.ID dto) st') = Returned (again, None) /\
    summary_of (created_app Studio.request (Studio.store [])) again /\
    fst (GetMegaData Demo.no_components Demo.no_strings Demo.no_object
           (AppDto.ID dto) APP_EDIT_VERSION st') = Returned (doc, None) /\
    AppDto.Name (Editor.AppInfo doc) = "B"%string /\
    (let root := root_component "{}" (AppDto.ID dto) 1 21 102 in
     Editor.Components doc =
     fst (Demo.no_components root {[ TreeState.ID root := root ]} None)) /\
    Editor.Actions doc = Some [] /\
    Editor.DependenciesState doc = Some ∅ /\
    Editor.DragShadowState doc = Some ∅ /\
    Editor.DottedLineSquareState doc = Some ∅ /\
    Editor.DisplayNameState doc = Some [].
Proof.
  apply (a_created_app_opens_with_only_its_root Demo.no_components Demo.no_strings
           Demo.no_object "{}" Studio.request (Studio.store [])).
  - apply studio_fault_free.
  - apply studio_store_wf.
  - repeat split; vm_compute; reflexivity.
Defined.

Lemma ConstructByMap_does_not_depend_on_the_visiting_order_witness :
  ConstructByMap Studio.no_int Studio.in_key_order NewAppDto (any_map Studio.body) =
  constructed Studio.no_int NewAppDto Studio.body /\
  AppDto.ID (constructed Studio.no_int NewAppDto Studio.body) = 7 /\
  AppDto.Name (constructed Studio.no_int NewAppDto Studio.body) = "B"%string.
Proof.
  split; [| split; vm_compute; reflexivity].
  apply (ConstructByMap_does_not_depend_on_the_visiting_order Studio.no_int
           Studio.in_key_order NewAppDto Studio.body).
  reflexivity.
Defined.
